(** * lunr.js: token sets, number maps, sets, index builder and query execution

    A shallow embedding of the parts of lunr that the specification's
    testable properties talk about, together with the theorems that settle
    them.

    Conventions of the embedding.
    - A JavaScript string is a [list ascii]: the sequence of its code units.
      [w "abc"] writes a literal.  Comparison with [<] is the lexicographic
      comparison of code units ([word_ltb]).
    - A JavaScript number is an IEEE-754 binary64 value: Rocq's primitive
      [float].  Array indices and counters are [nat] or [Z].
    - An object used as a dictionary is a [gmap] where only membership and
      lookup matter, and an association list in [Object.keys] order where
      the iteration order is observable.
    - Every [lunr.TokenSet] object receives a fresh [id] from the class-wide
      counter [_nextId], so an object reference is modelled by that id and
      the heap of token sets is a map from ids to objects.
    - A [while] loop over an explicit stack takes a fuel argument; for each
      such loop a termination lemma gives the fuel that suffices. *)

From Stdlib Require Import ZArith Ascii String DecimalString Floats Lia.
From stdpp Require Import base option list gmap strings sorting.

Set Default Proof Using "Type".
Open Scope nat_scope.

(** ** JavaScript strings *)

Abbreviation word := (list ascii).

Definition w (s : string) : word := list_ascii_of_string s.

(** [a < b] on strings. *)
Fixpoint word_ltb (a b : word) : bool :=
  match a, b with
  | _, [] => false
  | [], _ :: _ => true
  | x :: a', y :: b' =>
      if nat_of_ascii x <? nat_of_ascii y then true
      else if nat_of_ascii y <? nat_of_ascii x then false
      else word_ltb a' b'
  end.

Definition word_leb (a b : word) : bool := negb (word_ltb b a).

(** [String(n)] for a non-negative integer. *)
Definition decimal (n : nat) : word :=
  list_ascii_of_string (NilZero.string_of_uint (Nat.to_uint n)).

Definition wildcardChar : ascii := "*"%char.

(** [Array.prototype.sort()] without a comparator, on strings. *)
Fixpoint sorted_insert (x : word) (l : list word) : list word :=
  match l with
  | [] => [x]
  | y :: l' => if word_ltb x y then x :: y :: l' else y :: sorted_insert x l'
  end.

Definition js_sort (l : list word) : list word := foldr sorted_insert [] l.


(** ** Objects as dictionaries *)

(** The own properties of an object that is used as a dictionary, in the
    order in which [Object.keys] lists them: array indices first, in
    ascending order, then the other keys in the order of their creation. *)
Module JsObject.

Definition t (V : Type) : Type := list (word * V).

Definition digit (c : ascii) : option N :=
  let n := N_of_ascii c in
  if ((48 <=? n) && (n <=? 57))%N then Some (n - 48)%N else None.

Fixpoint number (k : word) (acc : N) : option N :=
  match k with
  | [] => Some acc
  | c :: k' => d ← digit c; number k' (10 * acc + d)%N
  end.

(** The array index that the key [k] denotes: a decimal numeral without
    leading zeros, below 2^32 - 1. *)
Definition array_index (k : word) : option N :=
  match k with
  | [] => None
  | c :: k' =>
      if decide (c = "0"%char) then (if decide (k' = []) then Some 0%N else None)
      else n ← number k 0; if (n <=? 4294967294)%N then Some n else None
  end.

(** [o[k]] *)
Fixpoint get {V : Type} (k : word) (o : t V) : option V :=
  match o with
  | [] => None
  | (k', v) :: o' => if decide (k = k') then Some v else get k o'
  end.

(** Whether a new key [k] is listed before the existing key [k']. *)
Definition before (k k' : word) : bool :=
  match array_index k, array_index k' with
  | Some n, Some n' => (n <? n')%N
  | Some _, None => true
  | None, _ => false
  end.

(** [o[k] = v] *)
Fixpoint set {V : Type} (k : word) (v : V) (o : t V) : t V :=
  match o with
  | [] => [(k, v)]
  | (k', v') :: o' =>
      if decide (k = k') then (k, v) :: o'
      else if before k k' then (k, v) :: (k', v') :: o'
      else (k', v') :: set k v o'
  end.

(** [Object.keys(o)] *)
Definition keys {V : Type} (o : t V) : list word := o.*1.

End JsObject.
(** ** lunr.TokenSet *)

Module TokenSet.

(** token_set.ts, class TokenSet: [final], [edges], [_str]; the [id] of an
    object is its key in the store. *)
Record TokenSet := mkTokenSet {
  final : bool;
  edges : gmap ascii nat;
  _str : option word
}.

Definition fresh : TokenSet := mkTokenSet false ∅ None.

Global Instance TokenSet_inhabited : Inhabited TokenSet := populate fresh.

(** The token sets allocated so far and the static counter [_nextId]. *)
Record Store := mkStore {
  nodes : gmap nat TokenSet;
  _nextId : nat
}.

Definition initial : Store := mkStore ∅ 1.

Definition node (st : Store) (n : nat) : TokenSet := nodes st !!! n.

(** [new TokenSet] *)
Definition new (st : Store) : nat * Store :=
  (_nextId st, mkStore (<[_nextId st := fresh]> (nodes st)) (S (_nextId st))).

Definition update (n : nat) (f : TokenSet -> TokenSet) (st : Store) : Store :=
  mkStore (<[n := f (node st n)]> (nodes st)) (_nextId st).

(** [n.edges[c] = m] *)
Definition set_edge (n : nat) (c : ascii) (m : nat) : Store -> Store :=
  update n (fun t => mkTokenSet (final t) (<[c := m]> (edges t)) (_str t)).

(** [n.final = b] *)
Definition set_final (n : nat) (b : bool) : Store -> Store :=
  update n (fun t => mkTokenSet b (edges t) (_str t)).

(** [n._str = k] *)
Definition set_str (n : nat) (k : word) : Store -> Store :=
  update n (fun t => mkTokenSet (final t) (edges t) (Some k)).

(** [Object.keys(n.edges)] with the node each label leads to. *)
Definition keys (st : Store) (n : nat) : list (ascii * nat) :=
  map_to_list (edges (node st n)).

(** *** toArray *)

Definition toArray_step (st : Store) (frame : word * nat) (stack : list (word * nat))
    (words : list word) : list (word * nat) * list word :=
  let '(prefix, n) := frame in
  let words' := if final (node st n) then words ++ [prefix] else words in
  let pushed := map (fun e : ascii * nat => (prefix ++ [e.1], e.2)) (keys st n) in
  (rev pushed ++ stack, words').

(** The [while (stack.length)] loop; the head of [stack] is the frame that
    [stack.pop()] returns. *)
Fixpoint toArray_loop (fuel : nat) (st : Store) (stack : list (word * nat))
    (words : list word) : option (list word) :=
  match stack with
  | [] => Some words
  | frame :: rest =>
      match fuel with
      | 0 => None
      | S fuel' =>
          let '(stack', words') := toArray_step st frame rest words in
          toArray_loop fuel' st stack' words'
      end
  end.

Definition toArray (fuel : nat) (st : Store) (n : nat) : option (list word) :=
  toArray_loop fuel st [([], n)] [].

(** *** toString *)

Definition label_le (a b : ascii * nat) : Prop := nat_of_ascii a.1 <= nat_of_ascii b.1.

Global Instance label_le_dec a b : Decision (label_le a b).
Proof. unfold label_le. apply _. Defined.

(** [Object.keys(this.edges).sort()] *)
Definition sorted_labels (st : Store) (n : nat) : list (ascii * nat) :=
  merge_sort label_le (keys st n).

Definition toString (st : Store) (n : nat) : word :=
  match _str (node st n) with
  | Some s => s
  | None =>
      foldl (fun str (e : ascii * nat) => str ++ [e.1] ++ decimal e.2)
            (if final (node st n) then w "1" else w "0")
            (sorted_labels st n)
  end.

(** *** TokenSet.Builder *)

Module Builder.

Record Builder := mkBuilder {
  root : nat;
  previousWord : word;
  (** the head is the last element of the JavaScript array *)
  uncheckedNodes : list (nat * ascii * nat);
  minimizedNodes : gmap word nat
}.

(** [new TokenSet.Builder] *)
Definition new (st : Store) : Builder * Store :=
  let '(r, st') := TokenSet.new st in
  (mkBuilder r [] [] ∅, st').

(** One iteration of the loop of [minimize]: the top entry
    [(parent, char, child)] is checked and popped. *)
Definition minimize_step (entry : nat * ascii * nat) (minimized : gmap word nat)
    (st : Store) : gmap word nat * Store :=
  let '(parent, char, child) := entry in
  let childKey := toString st child in
  match minimized !! childKey with
  | Some canonical => (minimized, set_edge parent char canonical st)
  | None => (<[childKey := child]> minimized, set_str child childKey st)
  end.

(** [for (i = uncheckedNodes.length - 1; i >= downTo; i--)] *)
Fixpoint minimize_loop (downTo : nat) (unchecked : list (nat * ascii * nat))
    (minimized : gmap word nat) (st : Store)
    : list (nat * ascii * nat) * gmap word nat * Store :=
  match unchecked with
  | [] => ([], minimized, st)
  | entry :: rest =>
      if decide (downTo < length unchecked) then
        let '(minimized', st') := minimize_step entry minimized st in
        minimize_loop downTo rest minimized' st'
      else (unchecked, minimized, st)
  end.

Definition minimize (downTo : nat) (b : Builder) (st : Store) : Builder * Store :=
  let '(unchecked, minimized, st') :=
    minimize_loop downTo (uncheckedNodes b) (minimizedNodes b) st in
  (mkBuilder (root b) (previousWord b) unchecked minimized, st').

(** The length of the common prefix of [word] and [previousWord]. *)
Fixpoint commonPrefix (word previous : word) : nat :=
  match word, previous with
  | x :: word', y :: previous' =>
      if decide (x = y) then S (commonPrefix word' previous') else 0
  | _, _ => 0
  end.

(** The second loop of [insert]: a fresh chain for the rest of the word. *)
Fixpoint extend (chars : word) (n : nat) (unchecked : list (nat * ascii * nat))
    (st : Store) : nat * list (nat * ascii * nat) * Store :=
  match chars with
  | [] => (n, unchecked, st)
  | char :: chars' =>
      let '(nextNode, st1) := TokenSet.new st in
      let st2 := set_edge n char nextNode st1 in
      extend chars' nextNode ((n, char, nextNode) :: unchecked) st2
  end.

Definition out_of_order : string := "Out of order word insertion".

Definition insert (word : word) (b : Builder) (st : Store) : string + Builder * Store :=
  if word_ltb word (previousWord b) then inl out_of_order
  else
    let cp := commonPrefix word (previousWord b) in
    let '(b1, st1) := minimize cp b st in
    let n := match uncheckedNodes b1 with
             | [] => root b1
             | (_, _, child) :: _ => child
             end in
    let '(n', unchecked, st2) := extend (drop cp word) n (uncheckedNodes b1) st1 in
    inr (mkBuilder (root b1) word unchecked (minimizedNodes b1),
         set_final n' true st2).

Definition finish (b : Builder) (st : Store) : Builder * Store := minimize 0 b st.

End Builder.

(** *** fromArray *)

Fixpoint insert_all (arr : list word) (b : Builder.Builder) (st : Store)
    : string + Builder.Builder * Store :=
  match arr with
  | [] => inr (b, st)
  | word :: arr' =>
      match Builder.insert word b st with
      | inl e => inl e
      | inr (b', st') => insert_all arr' b' st'
      end
  end.

Definition fromArray (arr : list word) (st : Store) : string + nat * Store :=
  let '(builder, st0) := Builder.new st in
  match insert_all arr builder st0 with
  | inl e => inl e
  | inr (builder', st1) =>
      let '(builder'', st2) := Builder.finish builder' st1 in
      inr (Builder.root builder'', st2)
  end.

(** *** intersect *)

(** The body of the two nested [for] loops of [intersect] for the edge
    [qEdge] of the query node and the edge [nEdge] of this node; a frame
    is [(qNode, output, node)]. *)
Definition intersect_edge (output : nat) (qEdge nEdge : ascii * nat)
    (acc : Store * list (nat * nat * nat)) : Store * list (nat * nat * nat) :=
  let '(st, stack) := acc in
  if bool_decide (nEdge.1 = qEdge.1) || bool_decide (qEdge.1 = wildcardChar) then
    let final_ := final (node st nEdge.2) && final (node st qEdge.2) in
    match edges (node st output) !! nEdge.1 with
    | Some next =>
        (set_final next (final (node st next) || final_) st,
         (qEdge.2, next, nEdge.2) :: stack)
    | None =>
        let '(next, st1) := new st in
        let st2 := set_final next final_ st1 in
        (set_edge output nEdge.1 next st2, (qEdge.2, next, nEdge.2) :: stack)
    end
  else acc.

Definition intersect_step (frame : nat * nat * nat) (st : Store)
    (stack : list (nat * nat * nat)) : Store * list (nat * nat * nat) :=
  let '(qNode, output, n) := frame in
  let qEdges := keys st qNode in
  let nEdges := keys st n in
  foldl (fun acc qEdge =>
           foldl (fun acc nEdge => intersect_edge output qEdge nEdge acc) acc nEdges)
        (st, stack) qEdges.

Fixpoint intersect_loop (fuel : nat) (st : Store) (stack : list (nat * nat * nat))
    : option Store :=
  match stack with
  | [] => Some st
  | frame :: rest =>
      match fuel with
      | 0 => None
      | S fuel' =>
          let '(st', stack') := intersect_step frame st rest in
          intersect_loop fuel' st' stack'
      end
  end.

(** [this.intersect(b)] *)
Definition intersect (fuel : nat) (this b : nat) (st : Store) : option (nat * Store) :=
  let '(output, st0) := new st in
  st' ← intersect_loop fuel st0 [(b, output, this)];
  Some (output, st').

(** *** fromString *)

Fixpoint fromString_loop (str : word) (n : nat) (st : Store) : Store :=
  match str with
  | [] => st
  | char :: str' =>
      let final_ := bool_decide (str' = []) in
      if decide (char = wildcardChar) then
        fromString_loop str' n (set_final n final_ (set_edge n char n st))
      else
        let '(next, st1) := new st in
        let st2 := set_final next final_ st1 in
        fromString_loop str' next (set_edge n char next st2)
  end.

Definition fromString (str : word) (st : Store) : nat * Store :=
  let '(root, st0) := new st in
  (root, fromString_loop str root st0).

(** *** fromFuzzyString *)

(** [c in n.edges ? n.edges[c] : (n.edges[c] = new TokenSet)] *)
Definition child (n : nat) (c : ascii) (st : Store) : nat * Store :=
  match edges (node st n) !! c with
  | Some m => (m, st)
  | None => let '(m, st1) := new st in (m, set_edge n c m st1)
  end.

(** A frame is [(node, editsRemaining, str)]. *)
Definition fuzzy_noEdit (frame : nat * nat * word) (acc : Store * list (nat * nat * word))
    : Store * list (nat * nat * word) :=
  let '(n, editsRemaining, str) := frame in
  let '(st, stack) := acc in
  match str with
  | char :: rest =>
      let '(noEditNode, st) := child n char st in
      let st := if length str =? 1 then set_final noEditNode true st else st in
      (st, (noEditNode, editsRemaining, rest) :: stack)
  | [] => acc
  end.

Definition fuzzy_deletion (frame : nat * nat * word) (acc : Store * list (nat * nat * word))
    : Store * list (nat * nat * word) :=
  let '(n, editsRemaining, str) := frame in
  let '(st, stack) := acc in
  match str with
  | _ :: char :: rest =>
      if 0 <? editsRemaining then
        let '(deletionNode, st) := child n char st in
        if length str <=? 2 then (set_final deletionNode true st, stack)
        else (st, (deletionNode, editsRemaining - 1, rest) :: stack)
      else acc
  | _ => acc
  end.

Definition fuzzy_lastDeletion (frame : nat * nat * word)
    (acc : Store * list (nat * nat * word)) : Store * list (nat * nat * word) :=
  let '(n, editsRemaining, str) := frame in
  let '(st, stack) := acc in
  if (0 <? editsRemaining) && (length str =? 1) then (set_final n true st, stack) else acc.

Definition fuzzy_substitution (frame : nat * nat * word)
    (acc : Store * list (nat * nat * word)) : Store * list (nat * nat * word) :=
  let '(n, editsRemaining, str) := frame in
  let '(st, stack) := acc in
  if (0 <? editsRemaining) && (1 <=? length str) then
    let '(substitutionNode, st) := child n wildcardChar st in
    if length str =? 1 then (set_final substitutionNode true st, stack)
    else (st, (substitutionNode, editsRemaining - 1, drop 1 str) :: stack)
  else acc.

Definition fuzzy_insertion (frame : nat * nat * word)
    (acc : Store * list (nat * nat * word)) : Store * list (nat * nat * word) :=
  let '(n, editsRemaining, str) := frame in
  let '(st, stack) := acc in
  if 0 <? editsRemaining then
    let '(insertionNode, st) := child n wildcardChar st in
    if length str =? 0 then (set_final insertionNode true st, stack)
    else (st, (insertionNode, editsRemaining - 1, str) :: stack)
  else acc.

Definition fuzzy_transposition (frame : nat * nat * word)
    (acc : Store * list (nat * nat * word)) : Store * list (nat * nat * word) :=
  let '(n, editsRemaining, str) := frame in
  let '(st, stack) := acc in
  match str with
  | charA :: charB :: rest =>
      if 0 <? editsRemaining then
        let '(transposeNode, st) := child n charB st in
        if length str =? 1 then (set_final transposeNode true st, stack)
        else (st, (transposeNode, editsRemaining - 1, charA :: rest) :: stack)
      else acc
  | _ => acc
  end.

(** One turn of the [while] loop of [fromFuzzyString]. *)
Definition fuzzy_step (frame : nat * nat * word) (st : Store)
    (stack : list (nat * nat * word)) : Store * list (nat * nat * word) :=
  fuzzy_transposition frame
    (fuzzy_insertion frame
       (fuzzy_substitution frame
          (fuzzy_lastDeletion frame
             (fuzzy_deletion frame
                (fuzzy_noEdit frame (st, stack)))))).

Fixpoint fuzzy_loop (fuel : nat) (st : Store) (stack : list (nat * nat * word))
    : option Store :=
  match stack with
  | [] => Some st
  | frame :: rest =>
      match fuel with
      | 0 => None
      | S fuel' =>
          let '(st', stack') := fuzzy_step frame st rest in
          fuzzy_loop fuel' st' stack'
      end
  end.

Definition fromFuzzyString (fuel : nat) (str : word) (editDistance : nat) (st : Store)
    : option (nat * Store) :=
  let '(root, st0) := new st in
  st' ← fuzzy_loop fuel st0 [(root, editDistance, str)];
  Some (root, st').

End TokenSet.


(** ** The strings of a token set *)

Module Language.
Import TokenSet.

(** The node that the labels of [s] lead to from [n]. *)
Fixpoint walk (st : Store) (n : nat) (s : word) : option nat :=
  match s with
  | [] => Some n
  | c :: s' =>
      match edges (node st n) !! c with
      | Some m => walk st m s'
      | None => None
      end
  end.

(** [s] leads from [n] to a final node. *)
Definition accepts (st : Store) (n : nat) (s : word) : bool :=
  match walk st n s with
  | Some m => final (node st m)
  | None => false
  end.

(** The test [nEdge == qEdge || qEdge == '*'] of [intersect]. *)
Definition label_matches (qEdge nEdge : ascii) : bool :=
  bool_decide (nEdge = qEdge) || bool_decide (qEdge = wildcardChar).

(** The string [t] goes along the labels [labels] of a query token set. *)
Definition matches (labels t : word) : Prop :=
  Forall2 (fun l x => label_matches l x = true) labels t.

(** The query token set [q] takes [t]: some labels that [t] goes along
    lead from [q] to a final node. *)
Definition takes (st : Store) (q : nat) (t : word) : Prop :=
  exists labels, matches labels t /\ accepts st q labels = true.

(** No path from [n] has more than [d] edges. *)
Fixpoint bounded (st : Store) (d : nat) (n : nat) : Prop :=
  match d with
  | 0 => edges (node st n) = ∅
  | S d' => forall c m, edges (node st n) !! c = Some m -> bounded st d' m
  end.

(** Every edge leads from a token set that was allocated to one that was
    allocated. *)
Definition wf (st : Store) : Prop :=
  forall n c m, edges (node st n) !! c = Some m -> n < _nextId st /\ m < _nextId st.

(** The token sets from [r] on are a tree below [r]: no edge leads to
    [r], and no two edges lead to the same token set. *)
Definition tree (st : Store) (r : nat) : Prop :=
  (forall n c m, r <= n -> edges (node st n) !! c = Some m -> r < m) /\
  (forall n1 c1 n2 c2 m, r <= n1 -> r <= n2 ->
     edges (node st n1) !! c1 = Some m -> edges (node st n2) !! c2 = Some m ->
     n1 = n2 /\ c1 = c2).

(** The token sets below [r] are what they were in [st0]. *)
Definition frozen (r : nat) (st0 st : Store) : Prop :=
  forall n, n < r -> node st n = node st0 n.

(** *** Glob patterns *)

(** [g] holds of a suffix of [s]. *)
Fixpoint some_suffix (g : word -> bool) (s : word) : bool :=
  g s || match s with
         | [] => false
         | _ :: s' => some_suffix g s'
         end.

(** [s] matches the pattern [p], where ['*'] matches any sequence of
    characters, the empty one too. *)
Fixpoint glob (p s : word) : bool :=
  match p with
  | [] => bool_decide (s = [])
  | c :: p' =>
      if bool_decide (c = wildcardChar) then some_suffix (glob p') s
      else match s with
           | [] => false
           | x :: s' => bool_decide (x = c) && glob p' s'
           end
  end.

(** *** Edit distance *)

(** One edit: an insertion, a deletion, a substitution, or a
    transposition of two adjacent characters. *)
Inductive edit : word -> word -> Prop :=
  | edit_insertion (a : word) (x : ascii) (b : word) : edit (a ++ b) (a ++ x :: b)
  | edit_deletion (a : word) (x : ascii) (b : word) : edit (a ++ x :: b) (a ++ b)
  | edit_substitution (a : word) (x y : ascii) (b : word) :
      edit (a ++ x :: b) (a ++ y :: b)
  | edit_transposition (a : word) (x y : ascii) (b : word) :
      edit (a ++ x :: y :: b) (a ++ y :: x :: b).

(** The Damerau-Levenshtein distance of [s] and [t] is at most [k]: at
    most [k] edits turn [s] into [t]. *)
Fixpoint within (k : nat) (s t : word) : Prop :=
  match k with
  | 0 => s = t
  | S k' => s = t \/ exists u, within k' s u /\ edit u t
  end.

(** *** Sorted arrays *)

(** No word of [arr] is less than the one before it, the first one not
    less than [previous]. *)
Fixpoint ascending (previous : word) (arr : list word) : bool :=
  match arr with
  | [] => true
  | x :: arr' => negb (word_ltb x previous) && ascending x arr'
  end.

(** *** The state of a builder *)

(** The node that the next character is added to: the child of the last
    unchecked entry. *)
Definition last_node (root : nat) (unchecked : list (nat * ascii * nat)) : nat :=
  match unchecked with
  | [] => root
  | (_, _, child) :: _ => child
  end.

(** The root and the children of the unchecked entries. *)
Definition chain_nodes (root : nat) (unchecked : list (nat * ascii * nat)) : list nat :=
  root :: (snd <$> unchecked).

(** Each unchecked entry starts where the one before it ends, at a token
    set that is older than its child. *)
Fixpoint linked (root : nat) (unchecked : list (nat * ascii * nat)) : Prop :=
  match unchecked with
  | [] => True
  | (parent, _, child) :: rest =>
      parent = last_node root rest /\ parent < child /\ linked root rest
  end.

(** [m] is registered in [minimizedNodes]. *)
Definition minimized (b : Builder.Builder) (m : nat) : Prop :=
  exists key, Builder.minimizedNodes b !! key = Some m.

(** What holds of a builder between the calls of its methods: the
    minimized token sets are closed under edges and have paths of at most
    [d] edges, and the edges of the root and of the unchecked token sets
    lead to minimized token sets or along the unchecked entries. *)
Definition built (d : nat) (b : Builder.Builder) (st : Store) : Prop :=
  wf st /\
  Forall (fun x => x < _nextId st) (chain_nodes (Builder.root b) (Builder.uncheckedNodes b)) /\
  linked (Builder.root b) (Builder.uncheckedNodes b) /\
  (forall m, minimized b m ->
     m < _nextId st /\
     (m ∉ chain_nodes (Builder.root b) (Builder.uncheckedNodes b)) /\
     (forall c t, edges (node st m) !! c = Some t -> minimized b t) /\
     bounded st d m) /\
  (forall x c t, x ∈ chain_nodes (Builder.root b) (Builder.uncheckedNodes b) ->
     edges (node st x) !! c = Some t ->
     minimized b t \/ (x, c, t) ∈ Builder.uncheckedNodes b).

(** *** Trees that grow *)

(** [st'] is [st] with, at most, the edge [c] from [n] to a new token set
    [m] added to the tree below [r], and another [final] at [m]. *)
Definition grows (r : nat) (st st' : Store) (n : nat) (c : ascii) (m : nat) : Prop :=
  frozen r st st' /\
  _nextId st <= _nextId st' /\
  wf st' /\
  tree st' r /\
  (forall s x, walk st r s = Some x -> walk st' r s = Some x) /\
  (forall s x, walk st' r s = Some x ->
     walk st r s = Some x \/
     (x = m /\ exists s1, s = s1 ++ [c] /\ walk st r s1 = Some n)) /\
  edges (node st' n) !! c = Some m /\
  (forall x, x <> m -> final (node st' x) = final (node st x)).

(** *** The state of intersect *)

Section Intersect.
(** [this.intersect(b)] on the store [st0]. *)
Variables (st0 : Store) (this b : nat).

(** The output token set. *)
Definition output : nat := _nextId st0.

(** The string [s] leads to the output token set [out], to the token set
    [n] of [this], and, along some labels, to the token set [qNode] of
    [b]. *)
Definition reaches (st : Store) (s : word) (qNode out n : nat) : Prop :=
  walk st output s = Some out /\
  walk st0 this s = Some n /\
  exists labels, matches labels s /\ walk st0 b labels = Some qNode.

Definition frame_ok (st : Store) (frame : nat * nat * nat) : Prop :=
  exists s, reaches st s frame.1.1 frame.1.2 frame.2.

(** A task is a turn of the inner loop that is still to come: the output
    token set of the frame, an edge of its [qNode] and an edge of its
    [node]. *)
Definition task_ok (st : Store) (task : nat * (ascii * nat) * (ascii * nat)) : Prop :=
  exists s qNode n,
    reaches st s qNode task.1.1 n /\
    edges (node st0 qNode) !! task.1.2.1 = Some task.1.2.2 /\
    edges (node st0 n) !! task.2.1 = Some task.2.2.

(** The string [s] is still to be found below the frame. *)
Definition frame_covers (st : Store) (s : word) (frame : nat * nat * nat) : Prop :=
  exists s1 s2,
    s = s1 ++ s2 /\ s2 <> [] /\
    walk st output s1 = Some frame.1.2 /\
    accepts st0 frame.2 s2 = true /\
    takes st0 frame.1.1 s2.

(** The string [s] is still to be found through the task. *)
Definition task_covers (st : Store) (s : word)
    (task : nat * (ascii * nat) * (ascii * nat)) : Prop :=
  exists s1 s2,
    s = s1 ++ task.2.1 :: s2 /\
    label_matches task.1.2.1 task.2.1 = true /\
    walk st output s1 = Some task.1.1 /\
    accepts st0 task.2.2 s2 = true /\
    takes st0 task.1.2.2 s2.

(** The tasks of a frame: the pairs that the two nested loops go through. *)
Definition tasks_of (st : Store) (frame : nat * nat * nat)
    : list (nat * (ascii * nat) * (ascii * nat)) :=
  qEdge ← keys st frame.1.1;
  nEdge ← keys st frame.2;
  [(frame.1.2, qEdge, nEdge)].

Definition run_task (acc : Store * list (nat * nat * nat))
    (task : nat * (ascii * nat) * (ascii * nat)) : Store * list (nat * nat * nat) :=
  intersect_edge task.1.1 task.1.2 task.2 acc.

(** What holds during the loop of [intersect], with the stack [stack] and
    the tasks [tasks] of the frame that was popped: the output is a tree
    whose strings are strings of [this], whose final token sets are at
    non-empty strings of [this] that [b] takes, and every such string is
    found already or is still to be found. *)
Definition intersecting (st : Store) (stack : list (nat * nat * nat))
    (tasks : list (nat * (ascii * nat) * (ascii * nat))) : Prop :=
  frozen output st0 st /\
  output < _nextId st /\
  wf st /\
  tree st output /\
  (forall s m, walk st output s = Some m -> is_Some (walk st0 this s)) /\
  (forall s, accepts st output s = true ->
     s <> [] /\ accepts st0 this s = true /\ takes st0 b s) /\
  Forall (frame_ok st) stack /\
  Forall (task_ok st) tasks /\
  (forall s, s <> [] -> accepts st0 this s = true -> takes st0 b s ->
     accepts st output s = true \/
     Exists (frame_covers st s) stack \/
     Exists (task_covers st s) tasks).

End Intersect.

(** *** The state of fromFuzzyString *)

Section Fuzzy.
(** [TokenSet.fromFuzzyString(str0, editDistance)] on the store [st0]. *)
Variables (st0 : Store) (str0 : word) (editDistance : nat).

(** The root of the token set that is built. *)
Definition fuzzy_root : nat := _nextId st0.

(** Every string that goes along labels that lead to [n], followed by
    [str], is within [editDistance - editsRemaining] edits of [str0]. *)
Definition sound (st : Store) (n editsRemaining : nat) (str : word) : Prop :=
  forall labels t,
    walk st fuzzy_root labels = Some n -> matches labels t ->
    within (editDistance - editsRemaining) str0 (t ++ str).

Definition fuzzy_frame_ok (st : Store) (frame : nat * nat * word) : Prop :=
  fuzzy_root <= frame.1.1 /\ frame.1.1 < _nextId st /\
  frame.1.2 <= editDistance /\
  (wildcardChar ∉ frame.2) /\
  sound st frame.1.1 frame.1.2 frame.2.

(** What holds during the loop of [fromFuzzyString]: the token sets from
    the root on are a tree, and every string that goes along labels that
    lead to a final token set is within [editDistance] edits of [str0]. *)
Definition fuzzing (st : Store) (stack : list (nat * nat * word)) : Prop :=
  frozen fuzzy_root st0 st /\
  fuzzy_root < _nextId st /\
  wf st /\
  tree st fuzzy_root /\
  Forall (fuzzy_frame_ok st) stack /\
  (forall labels n t,
     walk st fuzzy_root labels = Some n -> final (node st n) = true ->
     matches labels t -> within editDistance str0 t).

(** The size of a frame: each turn of the loop pushes smaller frames. *)
Definition fuzzy_size (frame : nat * nat * word) : nat :=
  length frame.2 + 2 * frame.1.2.

(** A part of a turn of the loop, on a frame that was popped, keeps the
    state, and pushes smaller frames only. *)
Definition fuzzy_part_ok
    (part : nat * nat * word -> Store * list (nat * nat * word) ->
            Store * list (nat * nat * word)) : Prop :=
  forall (n editsRemaining : nat) (str : word) (st : Store)
         (stack : list (nat * nat * word)),
    fuzzing st stack ->
    fuzzy_root <= n -> n < _nextId st ->
    editsRemaining <= editDistance ->
    wildcardChar ∉ str ->
    sound st n editsRemaining str ->
    exists st' pushed,
      part (n, editsRemaining, str) (st, stack) = (st', pushed ++ stack) /\
      fuzzing st' (pushed ++ stack) /\
      _nextId st <= _nextId st' /\
      sound st' n editsRemaining str /\
      Forall (fun f => fuzzy_size f < fuzzy_size (n, editsRemaining, str)) pushed.

End Fuzzy.

End Language.
(** ** lunr.utils *)

Module utils.

(** [compareNumbers]: [a - b] *)
Definition compareNumbers (a b : float) : float := PrimFloat.sub a b.

Inductive Bias := TWOS_COMPLEMENT | LEAST_UPPER_BOUND | GREATEST_LOWER_BOUND.

(** The [while (l <= h)] loop of [binarySearchKey].  [None] stands for a
    thrown error (a read outside the array) or for exhausted fuel. *)
Fixpoint binarySearchKey_loop {T K : Type} (fuel : nat) (array : list T) (key : K)
    (keySelector : T -> K) (comparer : K -> K -> float) (step : Z) (bias : Bias)
    (l h : Z) : option Z :=
  if (l <=? h)%Z then
    match fuel with
    | 0 => None
    | S fuel' =>
        let m := (l + Z.shiftr (h - l) 1)%Z in
        match array !! Z.to_nat (m * step) with
        | None => None
        | Some x =>
            let r := comparer (keySelector x) key in
            if PrimFloat.ltb r 0 then
              binarySearchKey_loop fuel' array key keySelector comparer step bias (m + 1)%Z h
            else if PrimFloat.ltb 0 r then
              binarySearchKey_loop fuel' array key keySelector comparer step bias l (m - 1)%Z
            else Some (m * step)%Z
        end
    end
  else
    Some match bias with
         | LEAST_UPPER_BOUND => (l * step)%Z
         | GREATEST_LOWER_BOUND => ((l - 1) * step)%Z
         | TWOS_COMPLEMENT => Z.lnot (l * step)
         end.

Definition binarySearchKey {T K : Type} (array : list T) (key : K)
    (keySelector : T -> K) (comparer : K -> K -> float) (step : Z) (bias : Bias)
    : option Z :=
  if (step <? 1)%Z then None
  else if negb (Z.of_nat (length array) mod step =? 0)%Z then None
  else binarySearchKey_loop (S (length array)) array key keySelector comparer step bias
         0 (Z.of_nat (length array) / step - 1)%Z.

Definition binarySearch (array : list float) (value : float) (step : Z) (bias : Bias)
    : option Z :=
  binarySearchKey array value (fun x => x) compareNumbers step bias.

End utils.

(** ** lunr.NumberMap *)

Module NumberMap.

Record Entry := mkEntry { value : float; tokens : list word }.

Record NumberMap := mkNumberMap { entries : list Entry }.

Inductive comparator := GREATERTHAN | GREATERTHAN_EQUALS | LESSTHAN | LESSTHAN_EQUALS.

(** [binarySearch(value)]: the index of the entry whose value is [value],
    or [~l] where [l] is the index at which it would be inserted. *)
Definition binarySearch (nm : NumberMap) (v : float) : option Z :=
  utils.binarySearchKey (entries nm) v value utils.compareNumbers 1 utils.TWOS_COMPLEMENT.

(** The body of the [while (startIndex < endIndex)] loop of [collectTokens],
    as a recursion on the number of entries that remain. *)
Fixpoint collect (es : list Entry) (n : nat) (result : list word) : list word :=
  match n, es with
  | S n', e :: es' => collect es' n' (result ++ tokens e)
  | _, _ => result
  end.

(** The array that [collectTokens] passes to [TokenSet.fromArray], before
    it is sorted. *)
Definition collected (nm : NumberMap) (startIndex endIndex : Z) : list word :=
  let len := Z.of_nat (length (entries nm)) in
  if ((startIndex <? len) && (0 <? endIndex))%Z then
    let startIndex := if (startIndex <? 0)%Z then 0%Z else startIndex in
    let endIndex := if (len <? endIndex)%Z then len else endIndex in
    collect (drop (Z.to_nat startIndex) (entries nm))
            (Z.to_nat (endIndex - startIndex)) []
  else [].

Definition collectTokens (nm : NumberMap) (startIndex endIndex : Z) (st : TokenSet.Store)
    : string + nat * TokenSet.Store :=
  TokenSet.fromArray (js_sort (collected nm startIndex endIndex)) st.

(** The pair [(startIndex, endIndex)] that [matchRange] computes; an
    endpoint [None] is ["*"]. *)
Definition matchRange_indices (nm : NumberMap) (start end_ : option float)
    : option (Z * Z) :=
  startIndex ← match start with
               | None => Some 0%Z
               | Some v => binarySearch nm v
               end;
  let startIndex := if (startIndex <? 0)%Z then (Z.lnot startIndex + 1)%Z else startIndex in
  endIndex ← match end_ with
             | None => Some (Z.of_nat (length (entries nm)))
             | Some v => binarySearch nm v
             end;
  let endIndex := if (endIndex <? 0)%Z then Z.lnot endIndex else endIndex in
  Some (startIndex, endIndex).

Definition matchRange (nm : NumberMap) (start end_ : option float) (st : TokenSet.Store)
    : option (string + nat * TokenSet.Store) :=
  '(startIndex, endIndex) ← matchRange_indices nm start end_;
  Some (collectTokens nm startIndex endIndex st).

Definition matchComparator_indices (nm : NumberMap) (c : comparator) (comparand : float)
    : option (Z * Z) :=
  index ← binarySearch nm comparand;
  let len := Z.of_nat (length (entries nm)) in
  Some match c with
       | GREATERTHAN => ((if (index <? 0)%Z then Z.lnot index else index) + 1, len)%Z
       | GREATERTHAN_EQUALS => (if (index <? 0)%Z then Z.lnot index + 1 else index, len)%Z
       | LESSTHAN => (0, if (index <? 0)%Z then Z.lnot index + 1 else index)%Z
       | LESSTHAN_EQUALS => (0, (if (index <? 0)%Z then Z.lnot index else index) + 1)%Z
       end.

Definition matchComparator (nm : NumberMap) (c : comparator) (comparand : float)
    (st : TokenSet.Store) : option (string + nat * TokenSet.Store) :=
  '(startIndex, endIndex) ← matchComparator_indices nm c comparand;
  Some (collectTokens nm startIndex endIndex st).

End NumberMap.

(** ** lunr.Set *)

(** [Set] is a keyword of Rocq; the class lunr.Set is the module [LunrSet].
    Set objects live in a store and are referred to by their address, so
    that [===] on sets is equality of addresses. *)
Module LunrSet.

Inductive Class := CompleteSet | EmptySet | BaseSet.

Global Instance Class_eq_dec : EqDecision Class.
Proof. solve_decision. Defined.

(** The fields [elements] and [length]; both stay [undefined] in the two
    sentinel objects. *)
Record Obj := mkObj {
  cls : Class;
  elements : option (gset word);
  length : option nat
}.

(** The objects created so far, and whether the module variables
    [completeSentinel] and [emptySentinel] still hold the array they were
    given when the module was loaded. *)
Record Store := mkStore {
  objects : list Obj;
  completeSentinel : bool;
  emptySentinel : bool
}.

(** The argument of the constructor: nothing, an array, or the array
    [[]] that the two sentinel variables share. *)
Inductive Elements := absent | array (l : list word) | sentinel.

(** The static fields [Set.complete] and [Set.empty] are the first two
    objects that the module creates. *)
Definition complete : nat := 0.
Definition empty : nat := 1.

Definition alloc (o : Obj) (st : Store) : nat * Store :=
  (List.length (objects st),
   mkStore (objects st ++ [o]) (completeSentinel st) (emptySentinel st)).

(** [new C(elements)] runs this body with a new object of class [C]; an
    object that the body returns replaces the new one. *)
Definition constructor (c : Class) (els : Elements) (st : Store) : nat * Store :=
  match els with
  | sentinel =>
      if completeSentinel st || emptySentinel st then alloc (mkObj c None None) st
      else (empty, st)
  | absent => (empty, st)
  | array l =>
      if List.length l =? 0 then (empty, st)
      else alloc (mkObj c (Some (list_to_set l)) (Some (List.length l))) st
  end.

(** [new class CompleteSet extends Set { ... }]; [None] is the TypeError. *)
Definition CompleteSet_new (st : Store) : option (nat * Store) :=
  if completeSentinel st then
    let '(this, st') := constructor CompleteSet sentinel st in
    Some (this, mkStore (objects st') false (emptySentinel st'))
  else None.

Definition EmptySet_new (st : Store) : option (nat * Store) :=
  if emptySentinel st then
    let '(this, st') := constructor EmptySet sentinel st in
    Some (this, mkStore (objects st') (completeSentinel st') false)
  else None.

(** The store once the module is loaded: [completeSentinel = emptySentinel
    = []], then the two static initialisers. *)
Definition loaded : option Store :=
  '(_, st1) ← CompleteSet_new (mkStore [] true true);
  '(_, st2) ← EmptySet_new st1;
  Some st2.

Definition initial : Store :=
  mkStore [mkObj CompleteSet None None; mkObj EmptySet None None] false false.

Definition obj (st : Store) (a : nat) : Obj :=
  default (mkObj BaseSet None None) (objects st !! a).

Definition keys (st : Store) (a : nat) : list word :=
  stdpp.base.elements (default ∅ (elements (obj st a))).

Definition has (st : Store) (a : nat) (x : word) : bool :=
  bool_decide (x ∈ default ∅ (elements (obj st a))).

(** [this.contains(object)] *)
Definition contains (st : Store) (this : nat) (object : word) : bool :=
  match cls (obj st this) with
  | CompleteSet => true
  | EmptySet => false
  | BaseSet => has st this object
  end.

(** [this.intersect(other)] *)
Definition intersect (this other : nat) (st : Store) : nat * Store :=
  match cls (obj st this) with
  | CompleteSet => (other, st)
  | EmptySet => (this, st)
  | BaseSet =>
      if other =? complete then (this, st)
      else if other =? empty then (other, st)
      else
        let '(a, b) :=
          if default 0 (length (obj st this)) <? default 0 (length (obj st other))
          then (this, other) else (other, this) in
        let intersection := filter (fun element => has st b element = true) (keys st a) in
        if List.length intersection =? 0 then (empty, st)
        else constructor BaseSet (array intersection) st
  end.

(** [this.union(other)] *)
Definition union (this other : nat) (st : Store) : nat * Store :=
  match cls (obj st this) with
  | CompleteSet => (this, st)
  | EmptySet => (other, st)
  | BaseSet =>
      if other =? complete then (complete, st)
      else if other =? empty then (this, st)
      else constructor BaseSet (array (keys st this ++ keys st other)) st
  end.

(** What holds of the store from the moment the module is loaded: the
    sentinel variables are cleared, and the only objects of the two
    sentinel classes are [Set.complete] and [Set.empty]. *)
Definition initialized (st : Store) : Prop :=
  completeSentinel st = false /\ emptySentinel st = false /\
  objects st !! complete = Some (mkObj CompleteSet None None) /\
  objects st !! empty = Some (mkObj EmptySet None None) /\
  forall a o, objects st !! a = Some o ->
    (cls o = CompleteSet -> a = complete) /\ (cls o = EmptySet -> a = empty).

(** The address [a] holds an object. *)
Definition valid (st : Store) (a : nat) : Prop := a < List.length (objects st).

(** The store [st'] holds the objects of [st] and later ones. *)
Definition extends (st st' : Store) : Prop :=
  exists more, objects st' = objects st ++ more.

End LunrSet.

(** ** lunr.FieldRef *)

Module FieldRef.

Record FieldRef := mkFieldRef { docRef : word; fieldName : word }.

Definition joiner : ascii := "/"%char.

(** [fieldName + "/" + docRef] *)
Definition toString (r : FieldRef) : word := fieldName r ++ joiner :: docRef r.

(** The characters before the first [/] and those after it. *)
Fixpoint split (s : word) : option (word * word) :=
  match s with
  | [] => None
  | c :: s' =>
      if decide (c = joiner) then Some ([], s')
      else '(a, b) ← split s'; Some (c :: a, b)
  end.

(** [None] is the exception "malformed field ref string". *)
Definition fromString (s : word) : option FieldRef :=
  '(fieldRef, docRef) ← split s; Some (mkFieldRef docRef fieldRef).

End FieldRef.

(** ** lunr.Token and lunr.Pipeline *)

Module Pipeline.

Section WithMetadata.
(** The values that the metadata of a token holds. *)
Context {MetaValue : Type}.

Record Token := mkToken { str : word; metadata : JsObject.t MetaValue }.

(** A pipeline function; the empty list stands for the results that
    discard the token (null, undefined, the empty string), a list of one
    token for a token, any list for an array of tokens. *)
Definition PipelineFunction : Type := Token -> nat -> list Token -> list Token.

(** [run(tokens)] *)
Definition run (_stack : list PipelineFunction) (tokens : list Token) : list Token :=
  foldl (fun tokens fn => concat (imap (fun j token => fn token j tokens) tokens))
        tokens _stack.

(** [runString(str, metadata)] *)
Definition runString (_stack : list PipelineFunction) (s : word)
    (md : JsObject.t MetaValue) : list word :=
  str <$> run _stack [mkToken s md].

End WithMetadata.
Global Arguments Token : clear implicits.
Global Arguments PipelineFunction : clear implicits.

End Pipeline.

(** ** lunr.Builder *)

Module Builder.

Inductive FieldType := string_type | number_type.

(** The names that an object literal inherits from [Object.prototype]:
    [o[k]] is defined for them even when [o] has no such property. *)
Definition Object_prototype : list word :=
  map w ["constructor"; "__defineGetter__"; "__defineSetter__"; "hasOwnProperty";
         "__lookupGetter__"; "__lookupSetter__"; "isPrototypeOf";
         "propertyIsEnumerable"; "toString"; "valueOf"; "__proto__";
         "toLocaleString"]%string.

(** An entry of the two tallies of [calculateAverageFieldLengths]: a
    number, or what [+=] leaves behind once it started from an inherited
    function (a string, which divides to NaN). *)
Inductive tally := Number (n : nat) | NotANumber.

(** [o[k] || (o[k] = 0); o[k] += n] on an object literal. *)
Definition bump (k : word) (n : nat) (o : gmap word tally) : gmap word tally :=
  match o !! k with
  | Some (Number m) => <[k := Number (m + n)]> o
  | Some NotANumber => o
  | None =>
      if bool_decide (k ∈ Object_prototype) then <[k := NotANumber]> o
      else <[k := Number (0 + n)]> o
  end.

(** A length or a count as a number; exact below 2^53. *)
Definition of_nat (n : nat) : float := PrimFloat.of_uint63 (Uint63.of_Z (Z.of_nat n)).

(** The number that a division reads in a tally. *)
Definition to_number (v : option tally) : float :=
  match v with
  | Some (Number n) => of_nat n
  | _ => nan
  end.

(** The number that a tally holds for a key; an absent key counts as 0. *)
Definition held (o : gmap word tally) (k : word) : nat :=
  match o !! k with
  | Some (Number n) => n
  | _ => 0
  end.

(** The tallies after the entries [(field, docRef, n)] were added. *)
Definition bump_all (es : list (word * word * nat)) (o : gmap word tally) : gmap word tally :=
  foldl (fun o e => bump e.1.1 e.2 o) o es.

(** The sum of the entries of a field. *)
Definition sum_for (g : word) (es : list (word * word * nat)) : nat :=
  sum_list ((fun e => if decide (e.1.1 = g) then e.2 else 0) <$> es).

Section WithDocuments.
(** Documents, the values of their fields that are neither null nor
    undefined, and the values of token metadata. *)
Context {Doc Value MetaValue : Type}.
(** [doc[name]], [None] when it is null or undefined. *)
Variable property : Doc -> word -> option Value.
(** The key that a value becomes when it is used as a property name. *)
Variable toString : option Value -> word.
(** [lunr.tokenizer(obj, {fields: [fieldName], type})] for an [obj] that
    is neither null nor undefined. *)
Variable tokenize : Value -> word -> FieldType -> list (Pipeline.Token MetaValue).

Record FieldAttributes := mkFieldAttributes {
  boost : option float;
  extractor : option (Doc -> option Value);
  type : option FieldType
}.

Record DocumentAttributes := mkDocumentAttributes { doc_boost : option float }.

(** A posting: [_index], and for each field the documents that hold the
    term with the metadata recorded for them. *)
Record Posting := mkPosting {
  _index : nat;
  postings : JsObject.t (JsObject.t (JsObject.t (list (option MetaValue))))
}.

Record Builder := mkBuilder {
  invertedIndex : JsObject.t Posting;
  fieldTermFrequencies : JsObject.t (JsObject.t nat);
  fieldLengths : JsObject.t nat;
  pipeline : list (Pipeline.PipelineFunction MetaValue);
  searchPipeline : list (Pipeline.PipelineFunction MetaValue);
  documentCount : nat;
  termIndex : nat;
  metadataWhitelist : list word;
  _ref : word;
  _fields : JsObject.t FieldAttributes;
  _documents : JsObject.t DocumentAttributes;
  _b : float;
  _k1 : float
}.

(** [new lunr.Builder] *)
Definition new : Builder :=
  mkBuilder [] [] [] [] [] 0 0 [] (w "id") [] [] 0.75%float 0x1.3333333333333p+0%float.

(** [field(fieldName, attributes)]; [None] is the RangeError for a name
    that contains [/]. *)
Definition field (fieldName : word) (attributes : FieldAttributes) (b : Builder)
    : option Builder :=
  if bool_decide (FieldRef.joiner ∈ fieldName) then None
  else Some (mkBuilder (invertedIndex b) (fieldTermFrequencies b) (fieldLengths b)
               (pipeline b) (searchPipeline b) (documentCount b) (termIndex b)
               (metadataWhitelist b) (_ref b)
               (JsObject.set fieldName attributes (_fields b))
               (_documents b) (_b b) (_k1 b)).

(** [lunr.tokenizer(obj, metadata)] *)
Definition tokenizer (obj : option Value) (fieldName : word) (ty : FieldType)
    : list (Pipeline.Token MetaValue) :=
  match obj with
  | None => []
  | Some v => tokenize v fieldName ty
  end.

(** [extractor ? extractor(doc) : doc[fieldName]] *)
Definition field_value (b : Builder) (doc : Doc) (fieldName : word) : option Value :=
  match JsObject.get fieldName (_fields b) with
  | Some (mkFieldAttributes _ (Some extractor) _) => extractor doc
  | _ => property doc fieldName
  end.

(** The terms of a field of a document: [pipeline.run(tokenizer(field, ...))]. *)
Definition terms_of (b : Builder) (doc : Doc) (fieldName : word)
    : list (Pipeline.Token MetaValue) :=
  let ty := match JsObject.get fieldName (_fields b) with
            | Some (mkFieldAttributes _ _ (Some ty)) => ty
            | _ => string_type
            end in
  Pipeline.run (pipeline b) (tokenizer (field_value b doc fieldName) fieldName ty).

(** The body of [for (const term of terms)] in [add]: the term frequency
    and the inverted index. *)
Definition add_term (fields : list word) (whitelist : list word) (fieldName docRef : word)
    (term : Pipeline.Token MetaValue)
    (acc : JsObject.t nat * JsObject.t Posting * nat)
    : JsObject.t nat * JsObject.t Posting * nat :=
  let '(fieldTerms, inverted, termIndex) := acc in
  let t := Pipeline.str term in
  let fieldTerms := JsObject.set t (default 0 (JsObject.get t fieldTerms) + 1) fieldTerms in
  let '(posting, termIndex) :=
    match JsObject.get t inverted with
    | Some p => (p, termIndex)
    | None => (mkPosting termIndex (map (fun f => (f, [])) fields), S termIndex)
    end in
  let docs := default [] (JsObject.get fieldName (postings posting)) in
  let md := default [] (JsObject.get docRef docs) in
  let md := foldl (fun md metadataKey =>
                     JsObject.set metadataKey
                       (default [] (JsObject.get metadataKey md)
                          ++ [JsObject.get metadataKey (Pipeline.metadata term)]) md)
                  md whitelist in
  let posting := mkPosting (_index posting)
                   (JsObject.set fieldName (JsObject.set docRef md docs) (postings posting)) in
  (fieldTerms, JsObject.set t posting inverted, termIndex).

(** The body of [for (const fieldName of fields)] in [add]. *)
Definition add_field (doc : Doc) (docRef : word) (fields : list word) (b : Builder)
    (fieldName : word) : Builder :=
  let terms := terms_of b doc fieldName in
  let fieldRef := FieldRef.toString (FieldRef.mkFieldRef docRef fieldName) in
  let lengths := JsObject.set fieldRef 0 (fieldLengths b) in
  let lengths :=
    JsObject.set fieldRef (default 0 (JsObject.get fieldRef lengths) + length terms) lengths in
  let '(fieldTerms, inverted, termIndex) :=
    foldl (fun acc term => add_term fields (metadataWhitelist b) fieldName docRef term acc)
          ([], invertedIndex b, termIndex b) terms in
  mkBuilder inverted (JsObject.set fieldRef fieldTerms (fieldTermFrequencies b)) lengths
    (pipeline b) (searchPipeline b) (documentCount b) termIndex (metadataWhitelist b)
    (_ref b) (_fields b) (_documents b) (_b b) (_k1 b).

(** [add(doc, attributes)] *)
Definition add (doc : Doc) (attributes : DocumentAttributes) (b : Builder) : Builder :=
  let docRef := toString (property doc (_ref b)) in
  let fields := JsObject.keys (_fields b) in
  let b := mkBuilder (invertedIndex b) (fieldTermFrequencies b) (fieldLengths b)
             (pipeline b) (searchPipeline b) (S (documentCount b)) (termIndex b)
             (metadataWhitelist b) (_ref b) (_fields b)
             (JsObject.set docRef attributes (_documents b)) (_b b) (_k1 b) in
  foldl (add_field doc docRef fields) b fields.

(** The first loop of [calculateAverageFieldLengths], over the keys of
    [fieldLengths]; [None] is the exception of [FieldRef.fromString]. *)
Fixpoint tallies (lengths : JsObject.t nat) (accumulator documentsWithField : gmap word tally)
    : option (gmap word tally * gmap word tally) :=
  match lengths with
  | [] => Some (accumulator, documentsWithField)
  | (fieldRefName, len) :: lengths' =>
      fieldRef ← FieldRef.fromString fieldRefName;
      let field := FieldRef.fieldName fieldRef in
      tallies lengths' (bump field len accumulator) (bump field 1 documentsWithField)
  end.

(** [calculateAverageFieldLengths()] *)
Definition calculateAverageFieldLengths (b : Builder) : option (gmap word float) :=
  match tallies (fieldLengths b) ∅ ∅ with
  | None => None
  | Some (accumulator, documentsWithField) =>
  Some (foldl (fun averages fieldName =>
                 <[fieldName := PrimFloat.div (to_number (accumulator !! fieldName))
                                  (to_number (documentsWithField !! fieldName))]> averages)
              ((fun v => to_number (Some v)) <$> accumulator)
              (JsObject.keys (_fields b)))
  end.

(** The sum of the lengths of the field over the documents, whether they
    hold the field or not. *)
Definition total_length (b : Builder) (docs : list Doc) (fieldName : word) : nat :=
  sum_list ((fun doc => length (terms_of b doc fieldName)) <$> docs).

(** The key of [fieldLengths] for a field of a document. *)
Definition fieldRef_key (b : Builder) (doc : Doc) (fieldName : word) : word :=
  FieldRef.toString (FieldRef.mkFieldRef (toString (property doc (_ref b))) fieldName).

(** What [add] records in [fieldLengths] for a list of documents. *)
Definition lengths_of (b : Builder) (docs : list Doc) : JsObject.t nat :=
  doc ← docs;
  (fun fieldName => (fieldRef_key b doc fieldName, length (terms_of b doc fieldName)))
    <$> JsObject.keys (_fields b).

(** The same, with the field and the document of each entry apart. *)
Definition entries_of (b : Builder) (docs : list Doc) : list (word * word * nat) :=
  doc ← docs;
  (fun fieldName => (fieldName, toString (property doc (_ref b)),
                     length (terms_of b doc fieldName)))
    <$> JsObject.keys (_fields b).

(** The field names are distinct, as the keys of an object are, and hold
    no [/], as [field] demands. *)
Definition configured (b : Builder) : Prop :=
  NoDup (JsObject.keys (_fields b)) /\
  Forall (fun fieldName => FieldRef.joiner ∉ fieldName) (JsObject.keys (_fields b)).

(** The average that the specification describes: the lengths of the field
    summed over the documents that hold the field, divided by the number
    of those documents. *)
Definition spec_average (b : Builder) (docs : list Doc) (fieldName : word) : float :=
  let holders := filter (fun doc => is_Some (field_value b doc fieldName)) docs in
  PrimFloat.div (of_nat (total_length b holders fieldName)) (of_nat (length holders)).

(** The builder after [add] was called for each document in turn. *)
Definition add_all (docs : list Doc) (b : Builder) : Builder :=
  foldl (fun b doc => add doc (mkDocumentAttributes None) b) b docs.

End WithDocuments.

End Builder.

(** ** lunr.Vector *)

Module Vector.

(** [elements] is the flat array [index, value, index, value, ...];
    [_magnitude] caches the magnitude, 0 when it is not known. *)
Record Vector := mkVector { elements : list float; _magnitude : float }.

(** [new lunr.Vector] *)
Definition new : Vector := mkVector [] 0.

(** Whether a number counts as true: it is neither 0 nor NaN. *)
Definition truthy (x : float) : bool := negb (PrimFloat.eqb x 0 || PrimFloat.is_nan x).

(** [a[i]] where a missing element reads as NaN in arithmetic. *)
Definition at_ (a : list float) (i : nat) : float := nth i a nan.

(** [positionForIndex(index)]; [None] is an exception of the search. *)
Definition positionForIndex (v : Vector) (index : float) : option Z :=
  if length (elements v) =? 0 then Some 0%Z
  else utils.binarySearch (elements v) index 2 utils.LEAST_UPPER_BOUND.

(** [upsert(insertIdx, val, fn)]; [fn] returns [None] when it throws. *)
Definition upsert (insertIdx val : float) (fn : float -> float -> option float)
    (v : Vector) : option Vector :=
  position ← positionForIndex v insertIdx;
  let position := Z.to_nat position in
  match elements v !! position with
  | Some x =>
      if PrimFloat.eqb x insertIdx then
        y ← fn (at_ (elements v) (position + 1)) val;
        Some (mkVector (<[position + 1 := y]> (elements v)) 0)
      else Some (mkVector (take position (elements v) ++ [insertIdx; val]
                             ++ drop position (elements v)) 0)
  | None => Some (mkVector (take position (elements v) ++ [insertIdx; val]
                              ++ drop position (elements v)) 0)
  end.

(** [insert(insertIdx, val)] *)
Definition insert (insertIdx val : float) : Vector -> option Vector :=
  upsert insertIdx val (fun _ _ => None).

(** The loop of [magnitude]: the squares of the elements at odd positions. *)
Fixpoint sumOfSquares (a : list float) (sum : float) : float :=
  match a with
  | _ :: val :: a' => sumOfSquares a' (sum + val * val)%float
  | _ => sum
  end.

(** [magnitude()], with the vector after the call. *)
Definition magnitude (v : Vector) : float * Vector :=
  if truthy (_magnitude v) then (_magnitude v, v)
  else let m := PrimFloat.sqrt (sumOfSquares (elements v) 0) in
       (m, mkVector (elements v) m).

(** The loop of [dot]; [None] when it does not end. *)
Fixpoint dot_loop (fuel : nat) (a b : list float) (i j : nat) (dotProduct : float)
    : option float :=
  if (i <? length a) && (j <? length b) then
    match fuel with
    | 0 => None
    | S fuel' =>
        let aVal := at_ a i in
        let bVal := at_ b j in
        if PrimFloat.ltb aVal bVal then dot_loop fuel' a b (i + 2) j dotProduct
        else if PrimFloat.ltb bVal aVal then dot_loop fuel' a b i (j + 2) dotProduct
        else if PrimFloat.eqb aVal bVal then
          dot_loop fuel' a b (i + 2) (j + 2)
            (dotProduct + at_ a (i + 1) * at_ b (j + 1))%float
        else dot_loop fuel' a b i j dotProduct
    end
  else Some dotProduct.

(** [dot(otherVector)] *)
Definition dot (v otherVector : Vector) : option float :=
  dot_loop (S (length (elements v) + length (elements otherVector)))
    (elements v) (elements otherVector) 0 0 0.

(** [similarity(otherVector)], with the vector after the call. *)
Definition similarity (v otherVector : Vector) : option (float * Vector) :=
  d ← dot v otherVector;
  let '(m, v') := magnitude v in
  let r := (d / m)%float in
  Some (if truthy r then r else 0%float, v').

End Vector.

(** ** lunr.MatchData *)

Module MatchData.

Section WithMetadata.
Context {MetaValue : Type}.

(** The metadata of a term in a field of a document: key to values. *)
Definition Metadata : Type := JsObject.t (list (option MetaValue)).

(** [metadata]: term, field, key to values. *)
Record MatchData := mkMatchData { metadata : JsObject.t (JsObject.t Metadata) }.

(** [new lunr.MatchData(term, field, metadata)]; the arrays of [metadata]
    are copied, which a value is already. *)
Definition new (term_field : option (word * word)) (md : Metadata) : MatchData :=
  match term_field with
  | None => mkMatchData []
  | Some (term, field) => mkMatchData (JsObject.set term (JsObject.set field md []) [])
  end.

Definition combine_keys (mine other : Metadata) : Metadata :=
  foldl (fun mine key =>
           let theirs := default [] (JsObject.get key other) in
           match JsObject.get key mine with
           | None => JsObject.set key theirs mine
           | Some values => JsObject.set key (values ++ theirs) mine
           end)
        mine (JsObject.keys other).

Definition combine_fields (mine other : JsObject.t Metadata) : JsObject.t Metadata :=
  foldl (fun mine field =>
           JsObject.set field
             (combine_keys (default [] (JsObject.get field mine))
                           (default [] (JsObject.get field other))) mine)
        mine (JsObject.keys other).

(** [combine(otherMatchData)] *)
Definition combine (this otherMatchData : MatchData) : MatchData :=
  mkMatchData
    (foldl (fun mine term =>
              JsObject.set term
                (combine_fields (default [] (JsObject.get term mine))
                                (default [] (JsObject.get term (metadata otherMatchData))))
                mine)
           (metadata this) (JsObject.keys (metadata otherMatchData))).

(** [add(term, field, metadata)] *)
Definition add (term field : word) (md : Metadata) (this : MatchData) : MatchData :=
  match JsObject.get term (metadata this) with
  | None => mkMatchData (JsObject.set term (JsObject.set field md []) (metadata this))
  | Some fields =>
      match JsObject.get field fields with
      | None => mkMatchData (JsObject.set term (JsObject.set field md fields) (metadata this))
      | Some mine =>
          mkMatchData (JsObject.set term
                         (JsObject.set field (combine_keys mine md) fields) (metadata this))
      end
  end.

End WithMetadata.
Global Arguments Metadata : clear implicits.
Global Arguments MatchData : clear implicits.

End MatchData.

(** ** lunr.Query *)

Module Query.

Inductive presence := OPTIONAL | REQUIRED | PROHIBITED.

Global Instance presence_eq_dec : EqDecision presence.
Proof. solve_decision. Defined.

(** A term: a string, a comparator term or a range term; the endpoint
    [None] of a range is ["*"]. *)
Inductive Term :=
  | string_term (s : word)
  | comparator_term (c : NumberMap.comparator) (comparand : float)
  | range_term (start end_ : option float).

(** A clause once [Query.clause] has given it its defaults. *)
Record Clause := mkClause {
  fields : list word;
  fieldTypes : list Builder.FieldType;
  boost : float;
  editDistance : option nat;
  usePipeline : bool;
  presence_ : presence;
  term : Term;
  numberMap : option NumberMap.NumberMap
}.

Definition with_term (c : Clause) (t : Term) : Clause :=
  mkClause (fields c) (fieldTypes c) (boost c) (editDistance c) (usePipeline c)
    (presence_ c) t (numberMap c).

(** [isNegated()] *)
Definition isNegated (clauses : list Clause) : bool :=
  forallb (fun c => bool_decide (presence_ c = PROHIBITED)) clauses.

End Query.

(** ** lunr.Index *)

Module Index.

(** [for] over a list with a body that can throw. *)
Fixpoint foldl_option {A B : Type} (f : A -> B -> option A) (a : A) (l : list B)
    : option A :=
  match l with
  | [] => Some a
  | x :: l' => a' ← f a x; foldl_option f a' l'
  end.

Section WithMetadata.
Context {MetaValue : Type}.

Abbreviation Posting := (@Builder.Posting MetaValue).
Abbreviation MatchData := (MatchData.MatchData MetaValue).

Record Index := mkIndex {
  invertedIndex : JsObject.t Posting;
  fieldVectors : JsObject.t Vector.Vector;
  tokenSet : nat;
  numberMap : NumberMap.NumberMap;
  fields : list word;
  fieldTypes : list Builder.FieldType;
  pipeline : list (Pipeline.PipelineFunction MetaValue)
}.

Record Result := mkResult { ref : word; score : float; matchData : MatchData }.

(** The local variables of [query] that the loop over the clauses
    updates, and the store of the sets. *)
Record State := mkState {
  matchingFields : JsObject.t MatchData;
  queryVectors : gmap word Vector.Vector;
  termFieldCache : gset word;
  requiredMatches : gmap word nat;
  prohibitedMatches : gmap word nat;
  sets : LunrSet.Store
}.

(** [this.tokenSet.intersect(lunr.TokenSet.fromClause(clause)).toArray()];
    [None] when it throws. *)
Variable expand : Query.Clause -> option (list word).
(** The metadata [{fields: clause.fields, fieldTypes: clause.fieldTypes}]
    that the search pipeline receives. *)
Variable clause_metadata : list word -> list Builder.FieldType -> JsObject.t MetaValue.

(** The body of [for (let l = 0; l < matchingDocumentRefs.length; l++)]. *)
Definition collect_match (expandedTerm field : word)
    (fieldPosting : JsObject.t (MatchData.Metadata MetaValue))
    (matching : JsObject.t MatchData) (matchingDocumentRef : word)
    : JsObject.t MatchData :=
  let matchingFieldRef :=
    FieldRef.toString (FieldRef.mkFieldRef matchingDocumentRef field) in
  let md := default [] (JsObject.get matchingDocumentRef fieldPosting) in
  match JsObject.get matchingFieldRef matching with
  | None => JsObject.set matchingFieldRef (MatchData.new (Some (expandedTerm, field)) md) matching
  | Some fieldMatch =>
      JsObject.set matchingFieldRef (MatchData.add expandedTerm field md fieldMatch) matching
  end.

(** [posting[field]] as [Object.keys] and the loop over the documents
    read it: the documents of the field; for the key [_index], when no
    field has that name, the number of the posting, which has no keys;
    [None] is [undefined], on which [Object.keys] throws. *)
Definition field_posting (posting : Posting) (field : word)
    : option (JsObject.t (MatchData.Metadata MetaValue)) :=
  match JsObject.get field (Builder.postings posting) with
  | Some fieldPosting => Some fieldPosting
  | None => if decide (field = w "_index") then Some [] else None
  end.

(** The body of [for (const field of clause.fields)]: the state and
    [clauseMatches] after it.  [None] is a TypeError: the posting has no
    such field, or the index has no such field. *)
Definition match_field (clause : Query.Clause) (expandedTerm : word) (posting : Posting)
    (acc : State * nat) (field : word) : option (State * nat) :=
  let '(s, clauseMatches) := acc in
  fieldPosting ← field_posting posting field;
  let matchingDocumentRefs := JsObject.keys fieldPosting in
  let termField := expandedTerm ++ "/"%char :: field in
  let '(matchingDocumentsSet, sets1) :=
    LunrSet.constructor LunrSet.BaseSet (LunrSet.array matchingDocumentRefs) (sets s) in
  let '(clauseMatches, sets2, required) :=
    if decide (Query.presence_ clause = Query.REQUIRED) then
      let '(u, sets2) := LunrSet.union clauseMatches matchingDocumentsSet sets1 in
      (u, sets2,
       match requiredMatches s !! field with
       | None => <[field := LunrSet.complete]> (requiredMatches s)
       | Some _ => requiredMatches s
       end)
    else (clauseMatches, sets1, requiredMatches s) in
  if decide (Query.presence_ clause = Query.PROHIBITED) then
    let current := default LunrSet.empty (prohibitedMatches s !! field) in
    let '(u, sets3) := LunrSet.union current matchingDocumentsSet sets2 in
    Some (mkState (matchingFields s) (queryVectors s) (termFieldCache s) required
            (<[field := u]> (prohibitedMatches s)) sets3, clauseMatches)
  else
    queryVector ← queryVectors s !! field;
    queryVector ← Vector.upsert (Builder.of_nat (Builder._index posting)) (Query.boost clause)
                    (fun a b => Some (a + b)%float) queryVector;
    let vectors := <[field := queryVector]> (queryVectors s) in
    if decide (termField ∈ termFieldCache s) then
      Some (mkState (matchingFields s) vectors (termFieldCache s) required
              (prohibitedMatches s) sets2, clauseMatches)
    else
      Some (mkState (foldl (collect_match expandedTerm field fieldPosting)
                           (matchingFields s) matchingDocumentRefs)
              vectors ({[termField]} ∪ termFieldCache s) required
              (prohibitedMatches s) sets2, clauseMatches).

(** The body of [for (const expandedTerm of expandedTerms)]. *)
Definition match_term (idx : Index) (clause : Query.Clause) (acc : State * nat)
    (expandedTerm : word) : option (State * nat) :=
  posting ← JsObject.get expandedTerm (invertedIndex idx);
  foldl_option (match_field clause expandedTerm posting) acc (Query.fields clause).

(** [for (let m = 0; m < terms.length; m++)]: when a required term has no
    expansion the required matches of the fields of the clause become
    [Set.empty] and the [break] leaves this loop. *)
Fixpoint match_terms (idx : Index) (clause : Query.Clause) (terms : list Query.Term)
    (acc : State * nat) : option (State * nat) :=
  match terms with
  | [] => Some acc
  | term :: terms' =>
      let clause := Query.with_term clause term in
      expandedTerms ← expand clause;
      if (length expandedTerms =? 0)
         && bool_decide (Query.presence_ clause = Query.REQUIRED) then
        let s := acc.1 in
        Some (mkState (matchingFields s) (queryVectors s) (termFieldCache s)
                (foldl (fun required field => <[field := LunrSet.empty]> required)
                       (requiredMatches s) (Query.fields clause))
                (prohibitedMatches s) (sets s), acc.2)
      else
        acc ← foldl_option (match_term idx clause) acc expandedTerms;
        match_terms idx clause terms' acc
  end.

(** The terms of a clause: the search pipeline on a string, unless the
    clause turns it off. *)
Definition clause_terms (idx : Index) (clause : Query.Clause) : list Query.Term :=
  match Query.term clause with
  | Query.string_term s =>
      if Query.usePipeline clause then
        Query.string_term <$>
          Pipeline.runString (pipeline idx) s
            (clause_metadata (Query.fields clause) (Query.fieldTypes clause))
      else [Query.term clause]
  | _ => [Query.term clause]
  end.

(** The body of [for (const clause of query.clauses)]. *)
Definition match_clause (idx : Index) (s : State) (clause : Query.Clause) : option State :=
  '(s, clauseMatches) ← match_terms idx clause (clause_terms idx clause) (s, LunrSet.empty);
  if decide (Query.presence_ clause = Query.REQUIRED) then
    foldl_option
      (fun s field =>
         required ← requiredMatches s !! field;
         let '(i, sets') := LunrSet.intersect required clauseMatches (sets s) in
         Some (mkState (matchingFields s) (queryVectors s) (termFieldCache s)
                 (<[field := i]> (requiredMatches s)) (prohibitedMatches s) sets'))
      s (Query.fields clause)
  else Some s.

(** The state before the first clause: an empty query vector for each
    field of the index. *)
Definition start (idx : Index) (sets0 : LunrSet.Store) : State :=
  mkState [] (foldl (fun vectors field => <[field := Vector.new]> vectors) ∅ (fields idx))
    ∅ ∅ ∅ sets0.

(** The state after the loop over the clauses. *)
Definition match_clauses (idx : Index) (clauses : list Query.Clause)
    (sets0 : LunrSet.Store) : option State :=
  foldl_option (match_clause idx) (start idx sets0) clauses.

(** [allRequiredMatches] and [allProhibitedMatches]. *)
Definition all_matches (idx : Index) (s : State) : nat * nat * LunrSet.Store :=
  foldl (fun acc field =>
           let '(allRequired, allProhibited, st) := acc in
           let '(allRequired, st) :=
             match requiredMatches s !! field with
             | Some r => LunrSet.intersect allRequired r st
             | None => (allRequired, st)
             end in
           let '(allProhibited, st) :=
             match prohibitedMatches s !! field with
             | Some p => LunrSet.union allProhibited p st
             | None => (allProhibited, st)
             end in
           (allRequired, allProhibited, st))
        (LunrSet.complete, LunrSet.empty, sets s) (fields idx).

(** The field refs to score and the match data of each: those collected
    from the clauses, or every field ref of the index with blank match data
    when the query is negated. *)
Definition candidates (idx : Index) (clauses : list Query.Clause) (s : State)
    : option (list word * JsObject.t MatchData) :=
  if Query.isNegated clauses then
    matching ← foldl_option
                 (fun matching matchingFieldRef =>
                    fieldRef ← FieldRef.fromString matchingFieldRef;
                    Some (JsObject.set (FieldRef.toString fieldRef)
                            (MatchData.new None []) matching))
                 (matchingFields s) (JsObject.keys (fieldVectors idx));
    Some (JsObject.keys (fieldVectors idx), matching)
  else Some (JsObject.keys (matchingFields s), matchingFields s).

(** [docMatch.score += score; docMatch.matchData.combine(...)] on the
    result of the document [docRef], which [matches] and [results] share. *)
Fixpoint update_result (docRef : word) (s : float) (md : MatchData) (results : list Result)
    : option (list Result) :=
  match results with
  | [] => None
  | r :: results' =>
      if decide (ref r = docRef)
      then Some (mkResult (ref r) (score r + s)%float (MatchData.combine (matchData r) md)
                   :: results')
      else (r ::.) <$> update_result docRef s md results'
  end.

(** The body of [for (const matchingFieldRef of matchingFieldRefs)]: the
    query vectors and [results] after it. *)
Definition score_field (idx : Index) (matching : JsObject.t MatchData)
    (allRequired allProhibited : nat) (st : LunrSet.Store)
    (acc : gmap word Vector.Vector * list Result) (matchingFieldRef : word)
    : option (gmap word Vector.Vector * list Result) :=
  let '(vectors, results) := acc in
  fieldRef ← FieldRef.fromString matchingFieldRef;
  let docRef := FieldRef.docRef fieldRef in
  if negb (LunrSet.contains st allRequired docRef) then Some acc
  else if LunrSet.contains st allProhibited docRef then Some acc
  else
    fieldVector ← JsObject.get (FieldRef.toString fieldRef) (fieldVectors idx);
    queryVector ← vectors !! FieldRef.fieldName fieldRef;
    '(score, queryVector) ← Vector.similarity queryVector fieldVector;
    md ← JsObject.get (FieldRef.toString fieldRef) matching;
    let vectors := <[FieldRef.fieldName fieldRef := queryVector]> vectors in
    match update_result docRef score md results with
    | Some results => Some (vectors, results)
    | None => Some (vectors, results ++ [mkResult docRef score md])
    end.

(** [results] before it is sorted. *)
Definition matches (idx : Index) (clauses : list Query.Clause) (sets0 : LunrSet.Store)
    : option (list Result) :=
  s ← match_clauses idx clauses sets0;
  let '(allRequired, allProhibited, st) := all_matches idx s in
  '(matchingFieldRefs, matching) ← candidates idx clauses s;
  snd <$> foldl_option (score_field idx matching allRequired allProhibited st)
            (queryVectors s, []) matchingFieldRefs.

(** The comparator [(a, b) => b.score - a.score]. *)
Definition by_score (a b : Result) : float := (score b - score a)%float.

(** Whether the comparator puts [b] before [a]: its value is above 0. *)
Definition after (a b : Result) : bool := PrimFloat.ltb 0 (by_score a b).

(** [Array.prototype.sort] with the comparator: each element goes behind
    the elements that the comparator does not put after it, so the sort is
    stable. *)
Fixpoint place (r : Result) (sorted : list Result) : list Result :=
  match sorted with
  | [] => [r]
  | x :: sorted' => if after x r then r :: x :: sorted' else x :: place r sorted'
  end.

Definition sort (results : list Result) : list Result :=
  foldl (fun sorted r => place r sorted) [] results.

(** The comparator orders the results of [l] as their scores do: it puts
    [b] before [a] exactly when the score of [b] is the higher one, never
    puts each of two results before the other, and is transitive on the
    results that it leaves in place. *)
Definition ordered (l : list Result) : Prop :=
  forall a b, a ∈ l -> b ∈ l ->
    after a b = PrimFloat.ltb (score a) (score b) /\
    (after a b = true -> after b a = false) /\
    (forall c, c ∈ l -> after a b = false -> after b c = false -> after a c = false).

(** No score is NaN. *)
Definition scored (l : list Result) : Prop :=
  Forall (fun r => PrimFloat.is_nan (score r) = false) l.

(** No result is followed by one whose score it does not reach. *)
Definition descending (l : list Result) : Prop :=
  StronglySorted (fun x y => PrimFloat.leb (score y) (score x) = true) l.

(** The results of [l] that have the score of [x], in their order. *)
Definition ties (x : Result) (l : list Result) : list Result :=
  filter (fun y => PrimFloat.eqb (score x) (score y) = true) l.

(** The comparator leaves [x] and [y] in place: their scores are equal. *)
Definition same_score (x y : Result) : bool := negb (after x y) && negb (after y x).

(** [query(fn)], for the clauses that [fn] adds to the query. *)
Definition query (idx : Index) (clauses : list Query.Clause) (sets0 : LunrSet.Store)
    : option (list Result) :=
  sort <$> matches idx clauses sets0.

(** *** The indexes and the queries of the theorems *)

(** Every key of [fieldVectors] is the string of a field ref whose field
    is a field of the index, as it is in an index that the builder made. *)
Definition field_refs_ok (idx : Index) : Prop :=
  Forall (fun key => exists r, key = FieldRef.toString r /\
                       (FieldRef.joiner ∉ FieldRef.fieldName r) /\
                       FieldRef.fieldName r ∈ fields idx)
         (JsObject.keys (fieldVectors idx)).

(** Every clause names fields of the index only. *)
Definition known_fields (idx : Index) (clauses : list Query.Clause) : Prop :=
  Forall (fun c => Forall (fun f => f ∈ fields idx) (Query.fields c)) clauses.

(** Every posting has an entry for each field of the index, as it has in
    an index that the builder made. *)
Definition postings_ok (idx : Index) : Prop :=
  forall t posting, JsObject.get t (invertedIndex idx) = Some posting ->
    forall f, f ∈ fields idx -> is_Some (JsObject.get f (Builder.postings posting)).

(** The expansion of every term of every clause returns, and it returns
    terms of the inverted index. *)
Definition expands_to_terms (idx : Index) (clauses : list Query.Clause) : Prop :=
  forall c t, c ∈ clauses -> t ∈ clause_terms idx c ->
    exists es, expand (Query.with_term c t) = Some es /\
      forall e, e ∈ es -> is_Some (JsObject.get e (invertedIndex idx)).

(** A clause for a string, without edit distance. *)
Definition plain_clause (c : Query.Clause) : Prop :=
  exists s, Query.term c = Query.string_term s /\ Query.editDistance c = None.

(** The token set of the index, in the store [st], has no cycles and
    holds terms of the inverted index only. *)
Definition vocabulary_ok (idx : Index) (st : TokenSet.Store) : Prop :=
  Language.wf st /\ tokenSet idx < TokenSet._nextId st /\
  (exists d, Language.bounded st d (tokenSet idx)) /\
  forall s, Language.accepts st (tokenSet idx) s = true ->
    is_Some (JsObject.get s (invertedIndex idx)).

(** The document [d] holds, in a field of a clause, a term of the
    expansion of that clause. *)
Definition holds_a_term (idx : Index) (clauses : list Query.Clause) (d : word) : Prop :=
  exists c t es e posting f docs,
    c ∈ clauses /\ t ∈ clause_terms idx c /\
    expand (Query.with_term c t) = Some es /\ e ∈ es /\
    JsObject.get e (invertedIndex idx) = Some posting /\
    f ∈ Query.fields c /\
    JsObject.get f (Builder.postings posting) = Some docs /\
    d ∈ JsObject.keys docs.

(** The document [d] has a field vector in the index. *)
Definition document (idx : Index) (d : word) : Prop :=
  exists key r, key ∈ JsObject.keys (fieldVectors idx) /\
    FieldRef.fromString key = Some r /\ FieldRef.docRef r = d.

(** What the loop over the clauses keeps when every clause is prohibited:
    no match data, the empty query vectors, no required matches, and
    prohibited matches that hold only documents with [Q]. *)
Definition negated_state (idx : Index) (Q : word -> Prop) (s : State) : Prop :=
  matchingFields s = [] /\
  queryVectors s = queryVectors (start idx (sets s)) /\
  requiredMatches s = ∅ /\
  LunrSet.initialized (sets s) /\
  forall g a, prohibitedMatches s !! g = Some a ->
    LunrSet.valid (sets s) a /\
    forall x, LunrSet.contains (sets s) a x = true -> Q x.

End WithMetadata.
Global Arguments Index : clear implicits.
Global Arguments Result : clear implicits.
Global Arguments State : clear implicits.

End Index.

(** ** The order of the numbers *)

Module FloatOrder.

(** The place of a number that is not NaN among the numbers: the class
    and the sign first, then the exponent, then the mantissa. *)
Definition rank (f : spec_float) : Z * Z * Z :=
  match f with
  | S754_zero _ => (0, 0, 0)%Z
  | S754_infinity true => (-2, 0, 0)%Z
  | S754_infinity false => (2, 0, 0)%Z
  | S754_nan => (0, 0, 0)%Z
  | S754_finite false m e => (1, e, Zpos m)%Z
  | S754_finite true m e => (-1, - e, Zneg m)%Z
  end.

(** The one place comes before the other. *)
Definition below (r1 r2 : Z * Z * Z) : Prop :=
  (r1.1.1 < r2.1.1 \/
   (r1.1.1 = r2.1.1 /\ (r1.1.2 < r2.1.2 \/ (r1.1.2 = r2.1.2 /\ r1.2 < r2.2))))%Z.

End FloatOrder.

(** ** The expansion of a clause *)

Module Expand.

(** [TokenSet.fromClause(clause)]; [None] when it throws or when the fuel
    of [fromFuzzyString] runs out. *)
Definition fromClause (fuel : nat) (clause : Query.Clause) (st : TokenSet.Store)
    : option (nat * TokenSet.Store) :=
  match Query.term clause with
  | Query.string_term s =>
      match Query.editDistance clause with
      | Some editDistance => TokenSet.fromFuzzyString fuel s editDistance st
      | None => Some (TokenSet.fromString s st)
      end
  | Query.comparator_term c comparand =>
      nm ← Query.numberMap clause;
      r ← NumberMap.matchComparator nm c comparand st;
      match r with inl _ => None | inr x => Some x end
  | Query.range_term start end_ =>
      nm ← Query.numberMap clause;
      r ← NumberMap.matchRange nm start end_ st;
      match r with inl _ => None | inr x => Some x end
  end.

(** [tokenSet.intersect(TokenSet.fromClause(clause)).toArray()] on the
    store [st], which holds the token set [tokenSet] of the index. *)
Definition expand (fuel : nat) (st : TokenSet.Store) (tokenSet : nat)
    (clause : Query.Clause) : option (list word) :=
  '(termTokenSet, st1) ← fromClause fuel clause st;
  '(output, st2) ← TokenSet.intersect fuel tokenSet termTokenSet st1;
  TokenSet.toArray fuel st2 output.

(** [TokenSet.fromArray(V.sort()).toArray()] *)
Definition vocabulary (fuel : nat) (V : list word) (st : TokenSet.Store)
    : option (list word) :=
  match TokenSet.fromArray (js_sort V) st with
  | inl _ => None
  | inr (tokenSet, st1) => TokenSet.toArray fuel st1 tokenSet
  end.

(** [TokenSet.fromArray(V.sort()).intersect(TokenSet.fromString(p)).toArray()] *)
Definition pattern (fuel : nat) (V : list word) (p : word) (st : TokenSet.Store)
    : option (list word) :=
  match TokenSet.fromArray (js_sort V) st with
  | inl _ => None
  | inr (tokenSet, st1) =>
      let '(termTokenSet, st2) := TokenSet.fromString p st1 in
      match TokenSet.intersect fuel tokenSet termTokenSet st2 with
      | Some (output, st3) => TokenSet.toArray fuel st3 output
      | None => None
      end
  end.

(** [TokenSet.fromArray(V.sort()).intersect(TokenSet.fromFuzzyString(s, k)).toArray()] *)
Definition fuzzy (fuel : nat) (V : list word) (s : word) (k : nat) (st : TokenSet.Store)
    : option (list word) :=
  match TokenSet.fromArray (js_sort V) st with
  | inl _ => None
  | inr (tokenSet, st1) =>
      match TokenSet.fromFuzzyString fuel s k st1 with
      | Some (termTokenSet, st2) =>
          match TokenSet.intersect fuel tokenSet termTokenSet st2 with
          | Some (output, st3) => TokenSet.toArray fuel st3 output
          | None => None
          end
      | None => None
      end
  end.

End Expand.

(** ** Concrete inputs *)

Module Examples.

(** A sorted list of distinct words on which two different nodes of the
    builder get the same key: the node for the prefix 2222222 has the edges
    0 -> 2 and 4 -> 13, the node for the prefix 333333333 has the edges
    0 -> 24 and 1 -> 3, and both print as 002413. *)
Definition colliding_words : list word :=
  map w ["0"; "10"; "22222220"; "222222245"; "33333333306"; "33333333310"]%string.

(** [TokenSet.fromArray(arr).toArray()] on a fresh page ([_nextId] is 1). *)
Definition roundtrip (fuel : nat) (arr : list word) : option (list word) :=
  match TokenSet.fromArray arr TokenSet.initial with
  | inl _ => None
  | inr (r, st) => TokenSet.toArray fuel st r
  end.

(** The number map of an index whose numeric field wordCount holds 5, 4
    and 5 in the documents a, b and c. *)
Definition wordCount_map : NumberMap.NumberMap :=
  NumberMap.mkNumberMap
    [NumberMap.mkEntry 4%float [w "4"]; NumberMap.mkEntry 5%float [w "5"]].

(** [numberMap.matchRange(start, end).toArray()] on a fresh page. *)
Definition matchRange_words (fuel : nat) (nm : NumberMap.NumberMap)
    (start end_ : option float) : option (list word) :=
  match NumberMap.matchRange nm start end_ TokenSet.initial with
  | Some (inr (r, st)) => TokenSet.toArray fuel st r
  | _ => None
  end.

(** Documents as dictionaries of strings, and a tokenizer that takes every
    character other than the space as a token. *)
Definition doc_property (doc : JsObject.t word) (name : word) : option word :=
  JsObject.get name doc.

Definition doc_toString (v : option word) : word := default (w "undefined") v.

Definition letters (v : word) (fieldName : word) (ty : Builder.FieldType)
    : list (Pipeline.Token word) :=
  (fun c => Pipeline.mkToken [c] []) <$> filter (fun c => c <> " "%char) v.

(** A builder with the field title, and two documents: a with the title
    "x y", and b without a title. *)
Definition title_builder : Builder.Builder (Doc := JsObject.t word) (Value := word) (MetaValue := word) :=
  default Builder.new
    (Builder.field (w "title") (Builder.mkFieldAttributes None None None) Builder.new).

Definition two_docs : list (JsObject.t word) :=
  [ [(w "id", w "a"); (w "title", w "x y")]; [(w "id", w "b")] ].

(** *** An index over three documents

    The documents a, b and c with the titles "cat", "dog" and "cat dog" and
    the numeric field wordCount with the values 5, 4 and 5.  The terms are
    cat, 5, dog and 4, numbered in this order; the field vectors hold
    one score for each term of the field. *)

Definition posting (index : nat) (title wordCount : list string) : @Builder.Posting word :=
  Builder.mkPosting index
    [(w "title", (fun d => (w d, [])) <$> title);
     (w "wordCount", (fun d => (w d, [])) <$> wordCount)].

Definition vocabulary : list word := js_sort (map w ["cat"; "dog"; "5"; "4"]%string).

(** The store after [TokenSet.fromArray(vocabulary)] on a fresh page, and
    the root of the token set. *)
Definition vocabulary_store : TokenSet.Store :=
  match TokenSet.fromArray vocabulary TokenSet.initial with
  | inr (_, st) => st
  | inl _ => TokenSet.initial
  end.

Definition vocabulary_root : nat :=
  match TokenSet.fromArray vocabulary TokenSet.initial with
  | inr (r, _) => r
  | inl _ => 0
  end.

Definition vector (elements : list float) : Vector.Vector := Vector.mkVector elements 0.

Definition three_docs : Index.Index word :=
  Index.mkIndex
    [(w "cat", posting 0 ["a"; "c"] []);
     (w "5", posting 1 [] ["a"; "c"]);
     (w "dog", posting 2 ["b"; "c"] []);
     (w "4", posting 3 [] ["b"])]
    [(w "title/a", vector [0; 0.75]%float);
     (w "wordCount/a", vector [1; 0.625]%float);
     (w "title/b", vector [2; 0.75]%float);
     (w "wordCount/b", vector [3; 1.25]%float);
     (w "title/c", vector [0; 0.5; 2; 0.5]%float);
     (w "wordCount/c", vector [1; 0.625]%float)]
    vocabulary_root wordCount_map
    [w "title"; w "wordCount"] [Builder.string_type; Builder.number_type] [].

Definition no_metadata (fields : list word) (fieldTypes : list Builder.FieldType)
    : JsObject.t word := [].

(** [three_docs.query(q => clauses)] *)
Definition run_query (clauses : list Query.Clause) : option (list (word * float)) :=
  (fun results : list (Index.Result word) =>
     (fun r => (Index.ref r, Index.score r)) <$> results) <$>
  Index.query (Expand.expand 256 vocabulary_store vocabulary_root) no_metadata
    three_docs clauses LunrSet.initial.

(** The clause that [q.term(t, {fields, presence})] adds. *)
Definition term_clause (t : string) (fields : list string) (p : Query.presence)
    : Query.Clause :=
  Query.mkClause (w <$> fields) [] 1 None true p (Query.string_term (w t)) None.

(** The clause that [q.range(5, 5, {fields: ["wordCount"]})] adds. *)
Definition range_5_5 : Query.Clause :=
  Query.mkClause [w "wordCount"] [] 1 None true Query.OPTIONAL
    (Query.range_term (Some 5%float) (Some 5%float)) (Some wordCount_map).

(** [Index.query] on [three_docs]. *)
Definition query (clauses : list Query.Clause) : option (list (Index.Result word)) :=
  Index.query (Expand.expand 256 vocabulary_store vocabulary_root) no_metadata
    three_docs clauses LunrSet.initial.

(** [q.term("cat", {fields: ["title"], presence: PROHIBITED})] *)
Definition not_cat : list Query.Clause :=
  [term_clause "cat" ["title"] Query.PROHIBITED].

(** [q.term("dog", {fields: ["title"]}); q.term("cat", {fields: ["title"]})] *)
Definition dog_or_cat : list Query.Clause :=
  [term_clause "dog" ["title"] Query.OPTIONAL;
   term_clause "cat" ["title"] Query.OPTIONAL].

(** [q.term("zzz", {fields, presence: REQUIRED})]: no word of the
    vocabulary is [zzz]. *)
Definition zzz (fields : list string) : Query.Clause :=
  term_clause "zzz" fields Query.REQUIRED.

(** The keys of [matchingFields] after the loop over the clauses. *)
Definition matched_fields (clauses : list Query.Clause) : option (list word) :=
  (fun s : Index.State word => JsObject.keys (Index.matchingFields s)) <$>
  Index.match_clauses (Expand.expand 256 vocabulary_store vocabulary_root) no_metadata
    three_docs clauses LunrSet.initial.

(** *** An index with boosted fields

    The documents a and b with the title "cat", and a with the body "cat"
    too.  The field title has a boost so high that the builder rounds
    each of its scores to Infinity, the field body one so low that each
    of its scores is -Infinity. *)

Definition cat_store : TokenSet.Store :=
  match TokenSet.fromArray [w "cat"] TokenSet.initial with
  | inr (_, st) => st
  | inl _ => TokenSet.initial
  end.

Definition cat_root : nat :=
  match TokenSet.fromArray [w "cat"] TokenSet.initial with
  | inr (r, _) => r
  | inl _ => 0
  end.

Definition boosted_docs : Index.Index word :=
  Index.mkIndex
    [(w "cat", Builder.mkPosting 0
                 [(w "title", [(w "a", []); (w "b", [])]); (w "body", [(w "a", [])])])]
    [(w "title/a", vector [0; infinity]%float);
     (w "body/a", vector [0; neg_infinity]%float);
     (w "title/b", vector [0; infinity]%float);
     (w "body/b", vector [])]
    cat_root (NumberMap.mkNumberMap [])
    [w "title"; w "body"] [Builder.string_type; Builder.string_type] [].

(** [q.term("cat", {fields: ["title", "body"]})] *)
Definition cat_anywhere : list Query.Clause :=
  [term_clause "cat" ["title"; "body"] Query.OPTIONAL].

(** [boosted_docs.query(q => clauses)] *)
Definition boosted_query (clauses : list Query.Clause) : option (list (Index.Result word)) :=
  Index.query (Expand.expand 64 cat_store cat_root) no_metadata
    boosted_docs clauses LunrSet.initial.

(** [results] of [three_docs.query(q => clauses)] before it is sorted. *)
Definition unsorted (clauses : list Query.Clause) : list (Index.Result word) :=
  default []
    (Index.matches (Expand.expand 256 vocabulary_store vocabulary_root) no_metadata
       three_docs clauses LunrSet.initial).

End Examples.

(** ** Decidable checks on a store of token sets *)

Module Checks.
Import TokenSet.

(** No path from [n] has more than [d] edges. *)
Fixpoint depth_le (st : Store) (d n : nat) : bool :=
  match d with
  | 0 => bool_decide (keys st n = [])
  | S d' => forallb (fun e : ascii * nat => depth_le st d' e.2) (keys st n)
  end.

(** Every edge leads from an allocated token set to an allocated one. *)
Definition allocated (st : Store) : bool :=
  forallb (fun x : nat * TokenSet =>
             (x.1 <? _nextId st) &&
             forallb (fun e : ascii * nat => e.2 <? _nextId st) (map_to_list (edges x.2)))
          (map_to_list (nodes st)).

(** A store with a vocabulary and a pattern: the token set of [cat],
    [dog], [4] and [5], then [TokenSet.fromString("c*")]. *)
Definition pattern_store : Store := (fromString (w "c*") Examples.vocabulary_store).2.

Definition pattern_root : nat := (fromString (w "c*") Examples.vocabulary_store).1.

End Checks.

(** ** Example sets *)

Module SetExamples.
Import LunrSet.

(** The store after [new Set(["a", "b"])] and [new Set(["b", "c"])]; the
    two sets are the objects 2 and 3. *)
Definition two_sets : Store :=
  (constructor BaseSet (array [w "b"; w "c"])
     (constructor BaseSet (array [w "a"; w "b"]) initial).2).2.

End SetExamples.

(** ** Arrays that a binary search can be run on *)

Module Search.

(** What the loop of [binarySearchKey] does with a result [r] of the
    comparer: [r < 0] moves the lower bound, [r > 0] the upper bound, and
    anything else (zero, and NaN too) is a hit. *)
Inductive outcome := go_right | hit | go_left.

Definition outcome_of (r : float) : outcome :=
  if PrimFloat.ltb r 0 then go_right
  else if PrimFloat.ltb 0 r then go_left
  else hit.

(** The records of [array], [step] elements each, are in the order of the
    comparer around [key]: the records before [lo] compare less, those
    from [lo] up to [hi] compare equal, those from [hi] on compare
    greater. *)
Definition partitioned {T K : Type} (array : list T) (key : K)
    (keySelector : T -> K) (comparer : K -> K -> float) (step : Z) (lo hi : Z) : Prop :=
  (0 <= lo <= hi)%Z /\ (hi * step <= Z.of_nat (length array))%Z /\
  forall (m : Z) (x : T), (0 <= m)%Z ->
    array !! Z.to_nat (m * step) = Some x ->
    outcome_of (comparer (keySelector x) key) =
      if (m <? lo)%Z then go_right else if (m <? hi)%Z then hit else go_left.

(** The value that the search returns when it finds nothing, for the
    insertion point [l]. *)
Definition missed (bias : utils.Bias) (l step : Z) : Z :=
  match bias with
  | utils.LEAST_UPPER_BOUND => (l * step)%Z
  | utils.GREATEST_LOWER_BOUND => ((l - 1) * step)%Z
  | utils.TWOS_COMPLEMENT => Z.lnot (l * step)
  end.

End Search.

(** ** The tokens of a range of a number map *)

Module Ranges.
Import NumberMap.

(** The tokens of the entries with an index from [a] up to, and without,
    [b]. *)
Definition tokens_between (nm : NumberMap) (a b : nat) : list word :=
  concat (tokens <$> take (b - a) (drop a (entries nm))).

(** The entries in ascending order of value, with the value [v] at index
    [i] and nowhere else. *)
Definition holds_at (nm : NumberMap) (v : float) (i : nat) : Prop :=
  Search.partitioned (entries nm) v value utils.compareNumbers 1
    (Z.of_nat i) (Z.of_nat (S i)).

(** The entries in ascending order of value, without the value [v], which
    would be inserted at index [i]. *)
Definition absent_at (nm : NumberMap) (v : float) (i : nat) : Prop :=
  Search.partitioned (entries nm) v value utils.compareNumbers 1
    (Z.of_nat i) (Z.of_nat i).

(** Where a number lies among the values of the entries: at the index
    [i], or between the entries, where it would be inserted at index [i]. *)
Inductive position := found (i : nat) | missing (i : nat).

Definition lies (nm : NumberMap) (v : float) (p : position) : Prop :=
  match p with
  | found i => holds_at nm v i
  | missing i => absent_at nm v i
  end.

(** Where an endpoint of a range lies; the endpoint ["*"] lies nowhere. *)
Definition endpoint_lies (nm : NumberMap) (endpoint : option float)
    (p : option position) : Prop :=
  match endpoint, p with
  | None, None => True
  | Some v, Some p => lies nm v p
  | _, _ => False
  end.

(** The index at which [matchRange] starts to collect: [startIndex], or
    [~startIndex + 1] for a negative one. *)
Definition range_start (p : option position) : nat :=
  match p with
  | None => 0
  | Some (found i) => i
  | Some (missing i) => S i
  end.

(** The index before which [matchRange] stops: [endIndex], or [~endIndex]
    for a negative one. *)
Definition range_end (nm : NumberMap) (p : option position) : nat :=
  match p with
  | None => length (entries nm)
  | Some (found i) => i
  | Some (missing i) => i
  end.

End Ranges.

(** ** The stack of a pipeline *)

Module PipelineStack.

Section WithFunctions.
(** The pipeline functions as objects: [===] on two functions is equality
    in [Fn]. *)
Context {Fn : Type} `{EqDecision Fn}.

(** [this._stack.indexOf(fn)]; [None] is -1. *)
Fixpoint indexOf (fn : Fn) (_stack : list Fn) : option nat :=
  match _stack with
  | [] => None
  | f :: _stack' => if decide (f = fn) then Some 0 else S <$> indexOf fn _stack'
  end.

(** [this._stack.splice(pos, 0, newFn)] *)
Definition splice_in (pos : nat) (newFn : Fn) (_stack : list Fn) : list Fn :=
  take pos _stack ++ newFn :: drop pos _stack.

(** [this._stack.splice(pos, 1)] *)
Definition splice_out (pos : nat) (_stack : list Fn) : list Fn :=
  take pos _stack ++ drop (S pos) _stack.

(** [add(...functions)] *)
Definition add (functions : list Fn) (_stack : list Fn) : list Fn :=
  foldl (fun _stack fn => _stack ++ [fn]) _stack functions.

(** [after(existingFn, newFn)]; [None] is the error "Cannot find
    existingFn". *)
Definition after (existingFn newFn : Fn) (_stack : list Fn) : option (list Fn) :=
  pos ← indexOf existingFn _stack;
  Some (splice_in (pos + 1) newFn _stack).

(** [before(existingFn, newFn)] *)
Definition before (existingFn newFn : Fn) (_stack : list Fn) : option (list Fn) :=
  pos ← indexOf existingFn _stack;
  Some (splice_in pos newFn _stack).

(** [remove(fn)] *)
Definition remove (fn : Fn) (_stack : list Fn) : list Fn :=
  match indexOf fn _stack with
  | None => _stack
  | Some pos => splice_out pos _stack
  end.

(** [reset()] *)
Definition reset (_stack : list Fn) : list Fn := [].

(** The static [registeredFunctions], and the property [label] of each
    function object. *)
Record Registry := mkRegistry {
  registeredFunctions : gmap word Fn;
  label : Fn -> option word
}.

(** No function is registered and none has a label. *)
Definition no_functions : Registry := mkRegistry ∅ (fun _ => None).

(** [Pipeline.registerFunction(fn, label)]; the warning goes to the
    console. *)
Definition registerFunction (fn : Fn) (l : word) (reg : Registry) : Registry :=
  mkRegistry (<[l := fn]> (registeredFunctions reg))
             (fun g => if decide (g = fn) then Some l else label reg g).

(** [Pipeline.load(serialised)]; [None] is the error "Cannot load
    unregistered function". *)
Fixpoint load_from (reg : Registry) (serialised : list word) (_stack : list Fn)
    : option (list Fn) :=
  match serialised with
  | [] => Some _stack
  | fnName :: serialised' =>
      match registeredFunctions reg !! fnName with
      | Some fn => load_from reg serialised' (add [fn] _stack)
      | None => None
      end
  end.

Definition load (reg : Registry) (serialised : list word) : option (list Fn) :=
  load_from reg serialised [].

(** [toJSON()]; [None] is the label [undefined] of a function that was
    never registered. *)
Definition toJSON (reg : Registry) (_stack : list Fn) : list (option word) :=
  label reg <$> _stack.

(** The registry after the functions were registered in turn. *)
Definition registered (regs : list (Fn * word)) : Registry :=
  foldl (fun reg r => registerFunction r.1 r.2 reg) no_functions regs.

(** The function has a label, and is the function registered under it. *)
Definition loadable (reg : Registry) (fn : Fn) : Prop :=
  exists l, label reg fn = Some l /\ registeredFunctions reg !! l = Some fn.

End WithFunctions.
Global Arguments Registry : clear implicits.

(** A pipeline of three functions. *)
Inductive three := trimmer | stopWordFilter | stemmer.

Global Instance three_eq_dec : EqDecision three.
Proof. solve_decision. Defined.

End PipelineStack.

(** ** What the inverted index of a builder records *)

Module Indexing.
Import Builder.

Section WithMetadata.
Context {MetaValue : Type}.

(** [invertedIndex[t][f][d]] is defined: the term [t] was seen in the
    field [f] of the document [d]. *)
Definition recorded (inverted : JsObject.t (@Posting MetaValue)) (t f d : word) : Prop :=
  exists p docs md,
    JsObject.get t inverted = Some p /\
    JsObject.get f (postings p) = Some docs /\
    JsObject.get d docs = Some md.

(** Every posting has an entry for each of the fields. *)
Definition covered (fields : list word) (inverted : JsObject.t (@Posting MetaValue)) : Prop :=
  forall t p, JsObject.get t inverted = Some p ->
    forall f, f ∈ fields -> is_Some (JsObject.get f (postings p)).

(** The postings are numbered below [termIndex], each term with a number
    of its own. *)
Definition numbered (inverted : JsObject.t (@Posting MetaValue)) (termIndex : nat) : Prop :=
  (forall t p, JsObject.get t inverted = Some p -> _index p < termIndex) /\
  (forall t1 t2 p1 p2,
     JsObject.get t1 inverted = Some p1 -> JsObject.get t2 inverted = Some p2 ->
     _index p1 = _index p2 -> t1 = t2).

(** How often the string [t] occurs among the tokens. *)
Definition occurrences (t : word) (terms : list (Pipeline.Token MetaValue)) : nat :=
  length (filter (fun term => Pipeline.str term = t) terms).

(** [fieldTerms[t]] after the tokens were counted: [undefined] for a
    string that does not occur. *)
Definition frequency (t : word) (terms : list (Pipeline.Token MetaValue)) : option nat :=
  if occurrences t terms =? 0 then None else Some (occurrences t terms).

End WithMetadata.

Section WithDocuments.
Context {Doc Value MetaValue : Type}.

(** A builder on which [add] does not throw: no field is called
    [_index], the key that a posting keeps its number under, and every
    posting has an entry for each field, as is the case when the fields
    were all defined before the first document was added. *)
Definition indexable (b : @Builder Doc Value MetaValue) : Prop :=
  (w "_index" ∉ JsObject.keys (_fields b)) /\
  covered (JsObject.keys (_fields b)) (invertedIndex b).

End WithDocuments.

End Indexing.

(** ** What a query keeps of its clauses *)

Module Matching.
Import Index.

Section WithMetadata.
Context {MetaValue : Type}.
Variable expand : Query.Clause -> option (list word).
Variable clause_metadata : list word -> list Builder.FieldType -> JsObject.t MetaValue.
Variable idx : Index MetaValue.

(** The document [d] holds, in the field [f], a term of the expansion of
    a term of the clause [c]. *)
Definition matches_in (c : Query.Clause) (f d : word) : Prop :=
  exists t es e posting docs,
    t ∈ clause_terms clause_metadata idx c /\
    expand (Query.with_term c t) = Some es /\ e ∈ es /\
    JsObject.get e (invertedIndex idx) = Some posting /\
    JsObject.get f (Builder.postings posting) = Some docs /\
    d ∈ JsObject.keys docs.

(** The sets that the state refers to are sets of its store. *)
Definition sound (s : State MetaValue) : Prop :=
  LunrSet.initialized (sets s) /\
  (forall g a, requiredMatches s !! g = Some a -> LunrSet.valid (sets s) a) /\
  (forall g a, prohibitedMatches s !! g = Some a -> LunrSet.valid (sets s) a).

(** From [s] to [s'] the store grows, the prohibited matches of a field
    grow, and the required matches of a field, once they are defined,
    shrink. *)
Definition widens (s s' : State MetaValue) : Prop :=
  LunrSet.extends (sets s) (sets s') /\
  (forall f a, prohibitedMatches s !! f = Some a ->
     exists a', prohibitedMatches s' !! f = Some a' /\
       forall d, LunrSet.contains (sets s) a d = true ->
                 LunrSet.contains (sets s') a' d = true) /\
  (forall f a, requiredMatches s !! f = Some a ->
     exists a', requiredMatches s' !! f = Some a' /\
       forall d, LunrSet.contains (sets s') a' d = true ->
                 LunrSet.contains (sets s) a d = true).

(** The prohibited matches of the field [f] hold the document [d]. *)
Definition prohibits (s : State MetaValue) (f d : word) : Prop :=
  exists a, prohibitedMatches s !! f = Some a /\ LunrSet.contains (sets s) a d = true.

(** The required matches of the field [f] are defined and hold only
    documents with [Q]. *)
Definition requires (s : State MetaValue) (f : word) (Q : word -> Prop) : Prop :=
  exists a, requiredMatches s !! f = Some a /\
    forall d, LunrSet.contains (sets s) a d = true -> Q d.

End WithMetadata.

End Matching.

(** ** Example queries *)

Module QueryExamples.

(** [q.term("dog", {fields: ["title"]});
     q.term("cat", {fields: ["title"], presence: PROHIBITED})] *)
Definition dog_not_cat : list Query.Clause :=
  [Examples.term_clause "dog" ["title"] Query.OPTIONAL;
   Examples.term_clause "cat" ["title"] Query.PROHIBITED].

(** [q.term("cat", {fields: ["title"], presence: REQUIRED});
     q.term("dog", {fields: ["title"]})] *)
Definition cat_and_maybe_dog : list Query.Clause :=
  [Examples.term_clause "cat" ["title"] Query.REQUIRED;
   Examples.term_clause "dog" ["title"] Query.OPTIONAL].

(** The first result of [cat_and_maybe_dog] on [Examples.three_docs]. *)
Definition first_of_cat_and_maybe_dog : Index.Result word :=
  default (Index.mkResult [] 0 (MatchData.mkMatchData []))
          (head (default [] (Examples.query cat_and_maybe_dog))).

End QueryExamples.

(** ** The words that a builder spells *)

From Stdlib Require DecimalNat DecimalFacts.

Module Spelling.
Import TokenSet Language.

(** One of the characters [0] to [9]. *)
Definition is_digit (c : ascii) : bool :=
  (48 <=? nat_of_ascii c) && (nat_of_ascii c <=? 57).

(** No character of the word is a digit. *)
Definition digit_free (s : word) : bool := forallb (fun c => negb (is_digit c)) s.

(** No label of the token set is a digit. *)
Definition plain_labels (st : Store) (n : nat) : bool :=
  forallb (fun e : ascii * nat => negb (is_digit e.1)) (keys st n).

(** Two token sets, 1 and 2, with an edge [a] to the same token set 3. *)
Definition twins : Store :=
  set_edge 2 "a" 3 (set_edge 1 "a" 3 (new (new (new initial).2).2).2).

(** What [toString] makes of [final] and [edges], where [_str] is not
    consulted. *)
Definition computed (st : Store) (n : nat) : word :=
  foldl (fun str (e : ascii * nat) => str ++ [e.1] ++ decimal e.2)
        (if final (node st n) then w "1" else w "0")
        (sorted_labels st n).

(** The part of a key that an edge contributes. *)
Definition block (e : ascii * nat) : word := e.1 :: decimal e.2.

(** A string that does not go on with a digit. *)
Definition stops (r : word) : Prop :=
  match r with
  | [] => True
  | c :: _ => is_digit c = false
  end.

(** The unchecked entries are edges, each labelled with the character of
    [pw] at its depth; the labels of an unchecked token set are at most
    the character of [pw] at its depth, and its [_str] is not set. *)
Definition tip_ok (st : Store) (pw : word) (depth : nat) (x : nat) : Prop :=
  _str (node st x) = None /\
  forall c m, edges (node st x) !! c = Some m ->
    exists a, pw !! depth = Some a /\ nat_of_ascii c <= nat_of_ascii a.

Fixpoint path_ok (st : Store) (root : nat) (pw : word)
    (unchecked : list (nat * ascii * nat)) : Prop :=
  tip_ok st pw (length unchecked) (last_node root unchecked) /\
  match unchecked with
  | [] => True
  | (_, c, child) :: rest =>
      pw !! length rest = Some c /\
      edges (node st (last_node root rest)) !! c = Some child /\
      path_ok st root pw rest
  end.

(** What holds of a builder between two steps, beyond [built]: the root
    has the strings [inserted], the unchecked entries spell a prefix of
    [previousWord], which is the one string that leads to the last
    unchecked token set, the registered token sets are registered under
    the key that [toString] computes, and no label from the root on is a
    digit. *)
Definition spelt (inserted : list word) (b : Builder.Builder) (st : Store) : Prop :=
  (forall s, accepts st (Builder.root b) s = true <-> s ∈ inserted) /\
  path_ok st (Builder.root b) (Builder.previousWord b) (Builder.uncheckedNodes b) /\
  (forall s, walk st (Builder.root b) s
             = Some (last_node (Builder.root b) (Builder.uncheckedNodes b)) ->
     s = take (length (Builder.uncheckedNodes b)) (Builder.previousWord b)) /\
  (forall key m, Builder.minimizedNodes b !! key = Some m ->
     computed st m = key /\ Builder.root b <= m) /\
  (forall n c m, Builder.root b <= n -> edges (node st n) !! c = Some m ->
     is_digit c = false).

End Spelling.

(** ** lunr.tokenizer *)

Module Tokenizer.

Section WithPrimitives.
(** The strings, the booleans and the numbers that metadata holds. *)
Context {Prim : Type}.

(** A value of a metadata object: a count or an offset, another
    primitive, an array, or a value that [lunr.utils.clone] refuses (a
    nested object, a function, null). *)
#[warnings="-register-all"] Inductive value :=
  | number (n : nat)
  | primitive (p : Prim)
  | array (l : list value)
  | nested.

Definition Token : Type := Pipeline.Token value.

(** The loop of [lunr.utils.clone(obj)] over [Object.keys(obj)]; [None]
    is the TypeError "clone is not deep and does not support nested
    objects". *)
Fixpoint clone_loop (entries : list (word * value)) (clone : JsObject.t value)
    : option (JsObject.t value) :=
  match entries with
  | [] => Some clone
  | (key, val) :: entries' =>
      match val with
      | nested => None
      | _ => clone_loop entries' (JsObject.set key val clone)
      end
  end.

(** [lunr.utils.clone(obj)]; an [obj] that is null or undefined is
    returned as it is. *)
Definition clone (obj : option (JsObject.t value)) : option (option (JsObject.t value)) :=
  match obj with
  | None => Some None
  | Some o => Some <$> clone_loop o []
  end.

(** No value of [obj] is one that [lunr.utils.clone] refuses. *)
Definition cloneable (obj : option (JsObject.t value)) : bool :=
  match obj with
  | None => true
  | Some o => forallb (fun e : word * value =>
                         match e.2 with nested => false | _ => true end) o
  end.

(** [str.slice(sliceStart, sliceEnd)] for [sliceStart <= sliceEnd]. *)
Definition slice (str : word) (sliceStart sliceEnd : nat) : word :=
  take (sliceEnd - sliceStart) (drop sliceStart str).

(** [tokenizer.separator], as the test [char.match(tokenizer.separator)]
    of a string of one character. *)
Variable separator : ascii -> bool.

(** [char.match(tokenizer.separator)] for [char = str.charAt(sliceEnd)],
    which is the empty string behind the end of [str]. *)
Definition matches_separator (char : option ascii) : bool :=
  match char with
  | Some c => separator c
  | None => false
  end.

(** The token that is pushed for the slice from [sliceStart] to
    [sliceEnd]. *)
Definition token_for (metadata : option (JsObject.t value)) (str : word)
    (sliceStart sliceEnd : nat) (tokens : list Token) : option Token :=
  cloned ← clone metadata;
  let tokenMetadata := default [] cloned in
  let tokenMetadata :=
    JsObject.set (w "position")
      (array [number sliceStart; number (sliceEnd - sliceStart)]) tokenMetadata in
  let tokenMetadata := JsObject.set (w "index") (number (length tokens)) tokenMetadata in
  Some (Pipeline.mkToken (slice str sliceStart sliceEnd) tokenMetadata).

(** [for (let sliceEnd = 0, sliceStart = 0; sliceEnd <= len; sliceEnd++)],
    with [n] turns left. *)
Fixpoint tokenizer_loop (metadata : option (JsObject.t value)) (str : word)
    (n sliceEnd sliceStart : nat) (tokens : list Token) : option (list Token) :=
  match n with
  | 0 => Some tokens
  | S n' =>
      if matches_separator (str !! sliceEnd) || bool_decide (sliceEnd = length str) then
        if bool_decide (0 < sliceEnd - sliceStart) then
          token ← token_for metadata str sliceStart sliceEnd tokens;
          tokenizer_loop metadata str n' (S sliceEnd) (S sliceEnd) (tokens ++ [token])
        else tokenizer_loop metadata str n' (S sliceEnd) (S sliceEnd) tokens
      else tokenizer_loop metadata str n' (S sliceEnd) sliceStart tokens
  end.

(** [lunr.tokenizer(obj, metadata)] for an [obj] that is neither null
    nor an array nor a token, where [str] is
    [obj.toString().trim().toLowerCase()]; [None] is the TypeError of
    [lunr.utils.clone]. *)
Definition tokenizer (str : word) (metadata : option (JsObject.t value))
    : option (list Token) :=
  tokenizer_loop metadata str (S (length str)) 0 0 [].

(** The token [t], the [i]-th of the result, is a run of characters of
    [str] between separators or the ends of [str], and its metadata
    tell where it starts, how long it is, and that it is the [i]-th. *)
Definition cut_out (str : word) (i : nat) (t : Token) : Prop :=
  exists sliceStart,
    let len := length (Pipeline.str t) in
    0 < len /\
    Forall (fun c => separator c = false) (Pipeline.str t) /\
    slice str sliceStart (sliceStart + len) = Pipeline.str t /\
    (sliceStart = 0 \/
     exists c, str !! (sliceStart - 1) = Some c /\ separator c = true) /\
    (sliceStart + len = length str \/
     exists c, str !! (sliceStart + len) = Some c /\ separator c = true) /\
    JsObject.get (w "position") (Pipeline.metadata t)
      = Some (array [number sliceStart; number len]) /\
    JsObject.get (w "index") (Pipeline.metadata t) = Some (number i).

End WithPrimitives.
Global Arguments value : clear implicits.
Global Arguments Token : clear implicits.

(** [/[\s-]+/] on a code unit below 256: white space and the hyphen. *)
Definition default_separator (c : ascii) : bool :=
  bool_decide (nat_of_ascii c ∈ [9; 10; 11; 12; 13; 32; 160; 45]).

(** The metadata that [lunr.Builder] passes for the field [title]. *)
Definition title_metadata : option (JsObject.t (value word)) :=
  Some [(w "fields", array [primitive (w "title")])].

(** Metadata with an object among its values. *)
Definition nested_metadata : JsObject.t (value word) :=
  [(w "fields", array [primitive (w "title")]); (w "source", nested)].

End Tokenizer.

(** * Theorems *)

Module TokenSetFacts.
Import TokenSet TokenSet.Builder Examples.

Lemma toArray_loop_mono (k fuel : nat) (st : Store) (stack : list (word * nat))
    (words out : list word) :
  toArray_loop fuel st stack words = Some out ->
  toArray_loop (fuel + k) st stack words = Some out.
Proof.
  revert stack words.
  induction fuel as [|fuel IH]; intros [|frame rest] words; simpl; try done.
  - intros [= <-]. by destruct k.
  - destruct (toArray_step st frame rest words) as [stack' words']. apply IH.
Qed.

Lemma toArray_loop_agree (f1 f2 : nat) (st : Store) (stack : list (word * nat))
    (words out1 out2 : list word) :
  toArray_loop f1 st stack words = Some out1 ->
  toArray_loop f2 st stack words = Some out2 ->
  out1 = out2.
Proof.
  intros H1 H2.
  apply (toArray_loop_mono f2) in H1. apply (toArray_loop_mono f1) in H2.
  rewrite (Nat.add_comm f2 f1) in H2. congruence.
Qed.

(** C9: [Builder.insert(word)] fails with "Out of order word insertion"
    exactly when [word < previousWord]; in every other case it returns a
    builder and a store. *)
Theorem insert_throws_iff_out_of_order (word : word) (b : Builder) (st : Store) :
  if word_ltb word (previousWord b)
  then insert word b st = inl "Out of order word insertion"%string
  else exists b' st', insert word b st = inr (b', st').
Proof.
  unfold insert.
  destruct (word_ltb word (previousWord b)); first done.
  destruct (minimize _ b st) as [b1 st1].
  destruct (extend _ _ _ st1) as [[n' unchecked] st2].
  eauto.
Qed.

(** C2, at the failing input: [colliding_words] is sorted and has no
    duplicates, yet [fromArray(colliding_words).toArray()] returns
    3333333330 and 33333333345 in place of 33333333306 and 33333333310. *)
Theorem fromArray_toArray_loses_words :
  js_sort colliding_words = colliding_words /\
  NoDup colliding_words /\
  roundtrip 64 colliding_words =
    Some (map w ["0"; "22222220"; "222222245"; "10";
                 "3333333330"; "33333333345"]%string) /\
  forall fuel out, roundtrip fuel colliding_words = Some out ->
    ~ out ≡ₚ colliding_words.
Proof.
  assert (Hrun : roundtrip 64 colliding_words =
    Some (map w ["0"; "22222220"; "222222245"; "10";
                 "3333333330"; "33333333345"]%string)) by (by vm_compute).
  split; first by vm_compute.
  split; first by apply (bool_decide_unpack _); vm_compute.
  split; first done.
  intros fuel out Hout Hperm.
  assert (Hin : w "33333333310" ∈ out).
  { rewrite Hperm. apply (bool_decide_unpack _). by vm_compute. }
  revert Hrun Hout Hin. unfold roundtrip.
  destruct (fromArray colliding_words initial) as [e|[r st]]; first done.
  intros H1 H2. rewrite (toArray_loop_agree _ _ _ _ _ _ _ H2 H1).
  intros Hin. apply (bool_decide_pack _) in Hin. by vm_compute in Hin.
Qed.

End TokenSetFacts.

(** ** The store of token sets *)

Module StoreFacts.
Import TokenSet Language.

Lemma node_new (st : Store) (m : nat) :
  node (new st).2 m = if decide (_nextId st = m) then fresh else node st m.
Proof. unfold node, new. simpl. apply lookup_total_insert. Qed.

Lemma nextId_new (st : Store) : _nextId (new st).2 = S (_nextId st).
Proof. done. Qed.

Lemma new_fst (st : Store) : (new st).1 = _nextId st.
Proof. done. Qed.

Lemma node_update (n : nat) (f : TokenSet -> TokenSet) (st : Store) (m : nat) :
  node (update n f st) m = if decide (n = m) then f (node st n) else node st m.
Proof. unfold node, update. simpl. apply lookup_total_insert. Qed.

Lemma nextId_update (n : nat) (f : TokenSet -> TokenSet) (st : Store) :
  _nextId (update n f st) = _nextId st.
Proof. done. Qed.

Lemma edges_set_final (n : nat) (b : bool) (st : Store) (m : nat) :
  edges (node (set_final n b st) m) = edges (node st m).
Proof. unfold set_final. rewrite node_update. by destruct (decide (n = m)) as [->|]. Qed.

Lemma final_set_final (n : nat) (b : bool) (st : Store) (m : nat) :
  final (node (set_final n b st) m) = if decide (n = m) then b else final (node st m).
Proof. unfold set_final. rewrite node_update. by destruct (decide (n = m)). Qed.

Lemma edges_set_str (n : nat) (k : word) (st : Store) (m : nat) :
  edges (node (set_str n k st) m) = edges (node st m).
Proof. unfold set_str. rewrite node_update. by destruct (decide (n = m)) as [->|]. Qed.

Lemma final_set_str (n : nat) (k : word) (st : Store) (m : nat) :
  final (node (set_str n k st) m) = final (node st m).
Proof. unfold set_str. rewrite node_update. by destruct (decide (n = m)) as [->|]. Qed.

Lemma edges_set_edge (n : nat) (c : ascii) (x : nat) (st : Store) (m : nat) :
  edges (node (set_edge n c x st) m)
  = if decide (n = m) then <[c := x]> (edges (node st n)) else edges (node st m).
Proof. unfold set_edge. rewrite node_update. by destruct (decide (n = m)). Qed.

Lemma final_set_edge (n : nat) (c : ascii) (x : nat) (st : Store) (m : nat) :
  final (node (set_edge n c x st) m) = final (node st m).
Proof. unfold set_edge. rewrite node_update. by destruct (decide (n = m)) as [->|]. Qed.

Lemma edges_new (st : Store) (m : nat) :
  edges (node (new st).2 m) = if decide (_nextId st = m) then ∅ else edges (node st m).
Proof. rewrite node_new. by destruct (decide (_nextId st = m)). Qed.

Lemma final_new (st : Store) (m : nat) :
  final (node (new st).2 m) = if decide (_nextId st = m) then false else final (node st m).
Proof. rewrite node_new. by destruct (decide (_nextId st = m)). Qed.

(** *** Walks *)

Lemma walk_app (st : Store) (n : nat) (s t : word) :
  walk st n (s ++ t) = walk st n s ≫= fun m => walk st m t.
Proof.
  revert n. induction s as [|c s IH]; intros n; simpl; first done.
  destruct (edges (node st n) !! c) as [m|]; last done. apply IH.
Qed.

Lemma walk_snoc (st : Store) (n : nat) (s : word) (c : ascii) :
  walk st n (s ++ [c]) = walk st n s ≫= fun m => edges (node st m) !! c.
Proof.
  rewrite walk_app. destruct (walk st n s) as [m|]; last done. simpl.
  by destruct (edges (node st m) !! c).
Qed.

Lemma walk_snoc_Some (st : Store) (n : nat) (s : word) (c : ascii) (x : nat) :
  walk st n (s ++ [c]) = Some x <->
  exists m, walk st n s = Some m /\ edges (node st m) !! c = Some x.
Proof.
  rewrite walk_snoc. destruct (walk st n s) as [m|]; simpl.
  - split; first by exists m. by intros (? & [= <-] & ?).
  - split; first done. by intros (? & ? & ?).
Qed.

Lemma walk_cons_Some (st : Store) (n : nat) (c : ascii) (s : word) (x : nat) :
  walk st n (c :: s) = Some x <->
  exists m, edges (node st n) !! c = Some m /\ walk st m s = Some x.
Proof.
  simpl. destruct (edges (node st n) !! c) as [m|].
  - split; first by exists m. by intros (? & [= <-] & ?).
  - split; first done. by intros (? & ? & ?).
Qed.

Lemma walk_ext (st st' : Store) (n : nat) (s : word) :
  (forall m, edges (node st' m) = edges (node st m)) -> walk st' n s = walk st n s.
Proof.
  intros Hedges. revert n. induction s as [|c s IH]; intros n; simpl; first done.
  rewrite Hedges. destruct (edges (node st n) !! c); [apply IH | done].
Qed.

Lemma walk_lt (st : Store) (n : nat) (s : word) (m : nat) :
  wf st -> n < _nextId st -> walk st n s = Some m -> m < _nextId st.
Proof.
  intros Hwf. revert n. induction s as [|c s IH]; intros n Hn; simpl.
  - by intros [= <-].
  - destruct (edges (node st n) !! c) as [x|] eqn:Hx; last done.
    apply IH. by apply (Hwf n c x).
Qed.

Lemma walk_ge (st : Store) (r n : nat) (s : word) (m : nat) :
  tree st r -> r <= n -> walk st n s = Some m -> r <= m.
Proof.
  intros [Htree _]. revert n. induction s as [|c s IH]; intros n Hn; simpl.
  - by intros [= <-].
  - destruct (edges (node st n) !! c) as [x|] eqn:Hx; last done.
    apply IH. specialize (Htree n c x Hn Hx). lia.
Qed.

(** A walk from the root of a tree that ends in the root is empty. *)
Lemma walk_root (st : Store) (r : nat) (s : word) :
  tree st r -> walk st r s = Some r -> s = [].
Proof.
  intros Htree. destruct s as [|c s _] using rev_ind; first done.
  intros (m & Hm & Hedge)%walk_snoc_Some.
  pose proof (walk_ge _ _ _ _ _ Htree (Nat.le_refl r) Hm) as Hrm.
  destruct Htree as [Htree _]. specialize (Htree m c r Hrm Hedge). lia.
Qed.

(** In a tree one walk leads to a token set. *)
Lemma walk_inj (st : Store) (r : nat) (s s' : word) (m : nat) :
  tree st r -> walk st r s = Some m -> walk st r s' = Some m -> s = s'.
Proof.
  intros Htree. revert s' m.
  induction s as [|c s IH] using rev_ind; intros s' m Hs Hs'.
  - injection Hs as <-. symmetry. by apply (walk_root st r).
  - destruct s' as [|c' s' _] using rev_ind.
    + injection Hs' as <-. by apply (walk_root st r).
    + apply walk_snoc_Some in Hs as (x & Hx & Hedge).
      apply walk_snoc_Some in Hs' as (x' & Hx' & Hedge').
      pose proof (walk_ge _ _ _ _ _ Htree (Nat.le_refl r) Hx) as Hrx.
      pose proof (walk_ge _ _ _ _ _ Htree (Nat.le_refl r) Hx') as Hrx'.
      destruct (proj2 Htree x c x' c' m Hrx Hrx' Hedge Hedge') as [<- <-].
      by rewrite (IH s' x Hx Hx').
Qed.

(** *** Frozen token sets *)

Lemma frozen_refl (r : nat) (st : Store) : frozen r st st.
Proof. by intros n Hn. Qed.

Lemma frozen_trans (r : nat) (st0 st1 st2 : Store) :
  frozen r st0 st1 -> frozen r st1 st2 -> frozen r st0 st2.
Proof. intros H1 H2 n Hn. by rewrite H2, H1. Qed.

Lemma frozen_le (r r' : nat) (st0 st : Store) :
  r' <= r -> frozen r st0 st -> frozen r' st0 st.
Proof. intros Hle H n Hn. apply H. lia. Qed.

Lemma frozen_new (r : nat) (st : Store) : r <= _nextId st -> frozen r st (new st).2.
Proof.
  intros Hr n Hn. rewrite node_new. destruct (decide (_nextId st = n)); [lia | done].
Qed.

Lemma frozen_update (r n : nat) (f : TokenSet -> TokenSet) (st : Store) :
  r <= n -> frozen r st (update n f st).
Proof.
  intros Hr m Hm. rewrite node_update. destruct (decide (n = m)); [lia | done].
Qed.

Lemma walk_frozen (r : nat) (st0 st : Store) (n : nat) (s : word) :
  frozen r st0 st -> wf st0 -> _nextId st0 <= r -> n < _nextId st0 ->
  walk st n s = walk st0 n s.
Proof.
  intros Hfrozen Hwf Hr. revert n. induction s as [|c s IH]; intros n Hn; simpl; first done.
  rewrite Hfrozen by lia.
  destruct (edges (node st0 n) !! c) as [m|] eqn:Hm; last done.
  apply IH. by apply (Hwf n c m).
Qed.

Lemma accepts_frozen (r : nat) (st0 st : Store) (n : nat) (s : word) :
  frozen r st0 st -> wf st0 -> _nextId st0 <= r -> n < _nextId st0 ->
  accepts st n s = accepts st0 n s.
Proof.
  intros Hfrozen Hwf Hr Hn. unfold accepts.
  rewrite (walk_frozen r st0 st) by done.
  destruct (walk st0 n s) as [m|] eqn:Hm; last done.
  rewrite Hfrozen; first done.
  pose proof (walk_lt _ _ _ _ Hwf Hn Hm). lia.
Qed.

Lemma takes_frozen (r : nat) (st0 st : Store) (q : nat) (t : word) :
  frozen r st0 st -> wf st0 -> _nextId st0 <= r -> q < _nextId st0 ->
  takes st q t <-> takes st0 q t.
Proof.
  intros Hfrozen Hwf Hr Hq. unfold takes.
  split; intros (labels & Hm & Ha); exists labels; split; try done.
  - by rewrite (accepts_frozen r st0 st) in Ha.
  - by rewrite (accepts_frozen r st0 st).
Qed.

(** *** Bounded token sets *)

Lemma bounded_S (st : Store) (d n : nat) : bounded st d n -> bounded st (S d) n.
Proof.
  revert n. induction d as [|d IH]; intros n; simpl.
  - intros Hempty c m. by rewrite Hempty, lookup_empty.
  - intros H c m Hm. apply IH, (H c m Hm).
Qed.

Lemma bounded_mono (st : Store) (d d' n : nat) :
  d <= d' -> bounded st d n -> bounded st d' n.
Proof. induction 1; [done | intros; by apply bounded_S; auto]. Qed.

Lemma bounded_child (st : Store) (d n : nat) (c : ascii) (m : nat) :
  bounded st d n -> edges (node st n) !! c = Some m -> bounded st (pred d) m.
Proof.
  destruct d as [|d]; simpl.
  - intros ->. by rewrite lookup_empty.
  - intros H. apply H.
Qed.

Lemma bounded_frozen (r : nat) (st0 st : Store) (d n : nat) :
  frozen r st0 st -> wf st0 -> _nextId st0 <= r -> n < _nextId st0 ->
  bounded st0 d n -> bounded st d n.
Proof.
  intros Hfrozen Hwf Hr. revert n. induction d as [|d IH]; intros n Hn; simpl.
  - by rewrite Hfrozen by lia.
  - intros H c m. rewrite Hfrozen by lia. intros Hm.
    apply IH; [by apply (Hwf n c m) | by apply (H c)].
Qed.

End StoreFacts.

(** ** fromArray on a sorted array *)

Module BuildFacts.
Import TokenSet Language StoreFacts.

(** *** The order of strings *)

Lemma word_ltb_asym (a b : word) : word_ltb a b = true -> word_ltb b a = false.
Proof.
  revert b. induction a as [|x a IH]; intros [|y b]; simpl; try done.
  destruct (nat_of_ascii x <? nat_of_ascii y) eqn:Hxy.
  - intros _. apply Nat.ltb_lt in Hxy.
    destruct (nat_of_ascii y <? nat_of_ascii x) eqn:Hyx; last done.
    apply Nat.ltb_lt in Hyx. lia.
  - destruct (nat_of_ascii y <? nat_of_ascii x); first done. apply IH.
Qed.

Lemma word_ltb_nil (a : word) : word_ltb a [] = false.
Proof. by destruct a. Qed.

Lemma sorted_insert_ascending (x previous : word) (l : list word) :
  word_ltb x previous = false -> ascending previous l = true ->
  ascending previous (sorted_insert x l) = true.
Proof.
  revert previous. induction l as [|y l IH]; intros previous Hx; simpl.
  - intros _. by rewrite Hx.
  - intros [Hy Hl]%andb_prop. destruct (word_ltb x y) eqn:Hxy; simpl.
    + by rewrite Hx, (word_ltb_asym _ _ Hxy), Hl.
    + rewrite Hy. simpl. by apply IH.
Qed.

(** [arr.sort()] is in the order that [insert] asks for. *)
Lemma js_sort_ascending (l : list word) : ascending [] (js_sort l) = true.
Proof.
  induction l as [|x l IH]; simpl; first done.
  apply sorted_insert_ascending; [apply word_ltb_nil | done].
Qed.

(** *** The unchecked entries *)

Lemma last_node_in (root : nat) (unchecked : list (nat * ascii * nat)) :
  last_node root unchecked ∈ chain_nodes root unchecked.
Proof.
  unfold chain_nodes. destruct unchecked as [|[[p c] ch] u]; simpl.
  - by left.
  - right. by left.
Qed.

Lemma chain_nodes_cons (root : nat) (e : nat * ascii * nat)
    (unchecked : list (nat * ascii * nat)) (x : nat) :
  x ∈ chain_nodes root (e :: unchecked) <-> x = e.2 \/ x ∈ chain_nodes root unchecked.
Proof.
  unfold chain_nodes. rewrite fmap_cons, !elem_of_cons. tauto.
Qed.

Lemma linked_le (root : nat) (unchecked : list (nat * ascii * nat)) (x : nat) :
  linked root unchecked -> x ∈ chain_nodes root unchecked ->
  x <= last_node root unchecked.
Proof.
  revert x. induction unchecked as [|[[p c] ch] u IH]; intros x; simpl.
  - intros _ Hx. unfold chain_nodes in Hx. simpl in Hx.
    apply list_elem_of_singleton in Hx. lia.
  - intros (-> & Hlt & Hlinked) [->|Hx]%chain_nodes_cons; simpl; first done.
    specialize (IH x Hlinked Hx). lia.
Qed.

Lemma linked_parent (root : nat) (unchecked : list (nat * ascii * nat))
    (x : nat) (c : ascii) (t : nat) :
  linked root unchecked -> (x, c, t) ∈ unchecked -> x ∈ chain_nodes root unchecked.
Proof.
  induction unchecked as [|[[p c'] ch] u IH]; simpl.
  - by intros _ ?%elem_of_nil.
  - intros (-> & Hlt & Hlinked) [[= -> -> ->]|Hx]%elem_of_cons;
      apply chain_nodes_cons; right.
    + apply last_node_in.
    + by apply IH.
Qed.

(** *** Token sets that a change leaves alone *)

Lemma bounded_closed (M : nat -> Prop) (st st' : Store) (d m : nat) :
  (forall x c t, M x -> edges (node st x) !! c = Some t -> M t) ->
  (forall x, M x -> edges (node st' x) = edges (node st x)) ->
  M m -> bounded st d m -> bounded st' d m.
Proof.
  intros Hclosed Hsame. revert m. induction d as [|d IH]; intros m Hm; simpl.
  - by rewrite Hsame.
  - intros H c t. rewrite Hsame by done. intros Ht.
    apply IH; [by apply (Hclosed m c) | by apply (H c)].
Qed.

Lemma bounded_ext (st st' : Store) (d m : nat) :
  (forall x, edges (node st' x) = edges (node st x)) ->
  bounded st d m -> bounded st' d m.
Proof.
  intros Hsame. apply (bounded_closed (fun _ => True)); auto.
Qed.

(** *** minimize *)

Lemma minimize_step_built (d root : nat) (previous : word) (entry : nat * ascii * nat)
    (unchecked : list (nat * ascii * nat)) (minimizedNodes minimizedNodes' : gmap word nat)
    (st st' : Store) :
  built d (Builder.mkBuilder root previous (entry :: unchecked) minimizedNodes) st ->
  Builder.minimize_step entry minimizedNodes st = (minimizedNodes', st') ->
  built (S d) (Builder.mkBuilder root previous unchecked minimizedNodes') st'.
Proof.
  destruct entry as [[p c] ch].
  intros (Hwf & Hlt & (-> & Hpch & Hlinked) & HM & Hchain). simpl in *.
  assert (HA : ch ∉ chain_nodes root unchecked).
  { intros Hch%linked_le; [lia | done]. }
  assert (HC : forall c' t, edges (node st ch) !! c' = Some t ->
                 minimized (Builder.mkBuilder root previous
                              ((last_node root unchecked, c, ch) :: unchecked)
                              minimizedNodes) t).
  { intros c' t Ht. destruct (Hchain ch c' t) as [Hmin|Hin]; try done.
    - apply chain_nodes_cons. by left.
    - apply elem_of_cons in Hin as [[= Heq _ _]|Hin]; first lia.
      destruct HA. by apply (linked_parent _ _ _ c' t). }
  apply Forall_cons in Hlt as [Hroot Hlt]. rewrite fmap_cons in Hlt.
  apply Forall_cons in Hlt as [Hch Hlt]. simpl in Hch.
  unfold Builder.minimize_step.
  destruct (minimizedNodes !! toString st ch) as [canonical|] eqn:Hkey; intros [= <- <-].
  - (* the parent is given the registered token set *)
    assert (Hcanonical : minimized (Builder.mkBuilder root previous
                                     ((last_node root unchecked, c, ch) :: unchecked)
                                     minimizedNodes) canonical) by by eexists.
    refine (conj _ (conj _ (conj _ (conj _ _)))); simpl.
    + intros n c' m. rewrite edges_set_edge.
      destruct (decide (last_node root unchecked = n)) as [<-|Hne]; last apply Hwf.
      rewrite lookup_insert. destruct (decide (c = c')) as [<-|]; last apply Hwf.
      intros [= <-]. split; last by apply HM.
      assert (Hall : Forall (fun x => x < _nextId st) (chain_nodes root unchecked))
        by by apply Forall_cons.
      rewrite Forall_forall in Hall. apply Hall, last_node_in.
    + by apply Forall_cons.
    + done.
    + intros m Hm. destruct (HM m Hm) as (Hmlt & Hmchain & Hmedges & Hmb).
      assert (Hsame : forall x, minimized (Builder.mkBuilder root previous
                                   ((last_node root unchecked, c, ch) :: unchecked)
                                   minimizedNodes) x ->
                edges (node (set_edge (last_node root unchecked) c canonical st) x)
                = edges (node st x)).
      { intros x Hx. rewrite edges_set_edge.
        destruct (decide (last_node root unchecked = x)) as [<-|]; last done.
        destruct (HM _ Hx) as (_ & Hnot & _). destruct Hnot.
        apply chain_nodes_cons. right. apply last_node_in. }
      split; first done. split.
      { intros Hin. apply Hmchain, chain_nodes_cons. by right. }
      split.
      { intros c' t. rewrite Hsame by done. apply Hmedges. }
      apply bounded_S.
      apply (bounded_closed _ st _ d m (fun x c' t Hx => proj1 (proj2 (proj2 (HM x Hx))) c' t)
               Hsame Hm Hmb).
    + intros x c' t Hx. rewrite edges_set_edge.
      destruct (decide (last_node root unchecked = x)) as [<-|Hne].
      * rewrite lookup_insert. destruct (decide (c = c')) as [<-|Hc].
        -- intros [= <-]. by left.
        -- intros Ht. destruct (Hchain (last_node root unchecked) c' t) as [?|Hin]; try done.
           { apply chain_nodes_cons. by right. }
           { by left. }
           apply elem_of_cons in Hin as [[= ? ?]|Hin]; [done | by right].
      * intros Ht. destruct (Hchain x c' t) as [?|Hin]; try done.
        { apply chain_nodes_cons. by right. }
        { by left. }
        apply elem_of_cons in Hin as [[= ? ?]|Hin]; [done | by right].
  - (* the child is registered *)
    assert (Hold : forall m, minimized (Builder.mkBuilder root previous
                                 ((last_node root unchecked, c, ch) :: unchecked)
                                 minimizedNodes) m ->
                   minimized (Builder.mkBuilder root previous unchecked
                                (<[toString st ch := ch]> minimizedNodes)) m).
    { intros m [key Hm]. exists key. simpl in *. rewrite lookup_insert_ne; first done.
      intros <-. by rewrite Hkey in Hm. }
    assert (Hnew : forall m, minimized (Builder.mkBuilder root previous unchecked
                                (<[toString st ch := ch]> minimizedNodes)) m ->
                   m = ch \/ minimized (Builder.mkBuilder root previous
                                 ((last_node root unchecked, c, ch) :: unchecked)
                                 minimizedNodes) m).
    { intros m [key Hm]. simpl in Hm. apply lookup_insert_Some in Hm as [[_ <-]|[_ Hm]].
      - by left.
      - right. by exists key. }
    refine (conj _ (conj _ (conj _ (conj _ _)))); simpl.
    + intros n c' m. rewrite edges_set_str. apply Hwf.
    + by apply Forall_cons.
    + done.
    + intros m [->|Hm]%Hnew.
      * split; first done. split; first done. split.
        { intros c' t. rewrite edges_set_str. intros Ht. by apply Hold, (HC c'). }
        simpl. intros c' t. rewrite edges_set_str. intros Ht.
        apply (bounded_ext st); first by intros; rewrite edges_set_str.
        by apply (HM t), (HC c').
      * destruct (HM m Hm) as (Hmlt & Hmchain & Hmedges & Hmb).
        split; first done. split.
        { intros Hin. apply Hmchain, chain_nodes_cons. by right. }
        split.
        { intros c' t. rewrite edges_set_str. intros Ht. by apply Hold, (Hmedges c'). }
        apply bounded_S, (bounded_ext st); [by intros; rewrite edges_set_str | done].
    + intros x c' t Hx. rewrite edges_set_str. intros Ht.
      destruct (Hchain x c' t) as [?|Hin]; try done.
      { apply chain_nodes_cons. by right. }
      { left. by apply Hold. }
      apply elem_of_cons in Hin as [[= -> -> ->]|Hin]; last by right.
      left. exists (toString st ch). simpl. apply lookup_insert_eq.
Qed.

Lemma nextId_minimize_step (entry : nat * ascii * nat) (minimizedNodes : gmap word nat)
    (st : Store) :
  _nextId (Builder.minimize_step entry minimizedNodes st).2 = _nextId st.
Proof.
  destruct entry as [[p c] ch]. unfold Builder.minimize_step.
  by destruct (minimizedNodes !! toString st ch).
Qed.

Lemma minimize_loop_built (downTo root : nat) (previous : word)
    (unchecked : list (nat * ascii * nat)) :
  forall (d : nat) (minimizedNodes : gmap word nat) (st : Store),
    built d (Builder.mkBuilder root previous unchecked minimizedNodes) st ->
    exists d' unchecked' minimizedNodes' st',
      Builder.minimize_loop downTo unchecked minimizedNodes st
      = (unchecked', minimizedNodes', st') /\
      built d' (Builder.mkBuilder root previous unchecked' minimizedNodes') st' /\
      _nextId st' = _nextId st /\
      (downTo = 0 -> unchecked' = []).
Proof.
  induction unchecked as [|entry unchecked IH]; intros d minimizedNodes st Hbuilt.
  - exists d, [], minimizedNodes, st. by simpl.
  - cbn [Builder.minimize_loop].
    destruct (decide (downTo < length (entry :: unchecked))) as [Hlt|Hge].
    + destruct (Builder.minimize_step entry minimizedNodes st)
        as [minimizedNodes1 st1] eqn:Hstep.
      pose proof (minimize_step_built _ _ _ _ _ _ _ _ _ Hbuilt Hstep) as Hbuilt1.
      destruct (IH _ _ _ Hbuilt1) as (d' & u' & m' & st' & -> & Hbuilt' & Hnext & Hnil).
      exists d', u', m', st'. split_and!; try done.
      rewrite Hnext. by rewrite <-(nextId_minimize_step entry minimizedNodes st), Hstep.
    + exists d, (entry :: unchecked), minimizedNodes, st. split_and!; try done.
      intros ->. simpl in Hge. lia.
Qed.

(** *** insert *)

Lemma built_ext (d : nat) (b : Builder.Builder) (st st' : Store) :
  (forall x, edges (node st' x) = edges (node st x)) ->
  _nextId st' = _nextId st ->
  built d b st -> built d b st'.
Proof.
  intros Hsame Hnext (Hwf & Hlt & Hlinked & HM & Hchain).
  refine (conj _ (conj _ (conj _ (conj _ _)))).
  - intros n c m. rewrite Hsame, Hnext. apply Hwf.
  - by rewrite Hnext.
  - done.
  - intros m Hm. destruct (HM m Hm) as (Hmlt & Hmchain & Hmedges & Hmb).
    rewrite Hnext. split_and!; try done.
    + intros c t. rewrite Hsame. apply Hmedges.
    + by apply (bounded_ext st).
  - intros x c t Hx. rewrite Hsame. by apply Hchain.
Qed.

Lemma extend_built (root : nat) (previous : word) (minimizedNodes : gmap word nat)
    (chars : word) :
  forall (d n : nat) (unchecked : list (nat * ascii * nat)) (st : Store),
    built d (Builder.mkBuilder root previous unchecked minimizedNodes) st ->
    n = last_node root unchecked ->
    exists n' unchecked' st',
      Builder.extend chars n unchecked st = (n', unchecked', st') /\
      built d (Builder.mkBuilder root previous unchecked' minimizedNodes) st' /\
      _nextId st <= _nextId st'.
Proof.
  induction chars as [|char chars IH]; intros d n unchecked st Hbuilt ->.
  - by exists (last_node root unchecked), unchecked, st.
  - destruct Hbuilt as (Hwf & Hlt & Hlinked & HM & Hchain).
    simpl in Hlt, Hlinked, HM, Hchain.
    cbn [Builder.extend]. rewrite (surjective_pairing (new st)), new_fst.
    set (n := last_node root unchecked).
    set (st2 := set_edge n char (_nextId st) (new st).2).
    assert (Hn : n ∈ chain_nodes root unchecked) by apply last_node_in.
    assert (Hnlt : n < _nextId st).
    { rewrite Forall_forall in Hlt. by apply Hlt. }
    assert (Hedges : forall x, x <> n -> x <> _nextId st ->
                       edges (node st2 x) = edges (node st x)).
    { intros x Hxn Hx. unfold st2. rewrite edges_set_edge, !edges_new.
      destruct (decide (n = x)) as [<-|]; first done.
      by destruct (decide (_nextId st = x)) as [<-|]. }
    assert (Hedges_n : edges (node st2 n) = <[char := _nextId st]> (edges (node st n))).
    { unfold st2. rewrite edges_set_edge, !edges_new, decide_True by done.
      destruct (decide (_nextId st = n)); [lia | done]. }
    assert (Hedges_new : edges (node st2 (_nextId st)) = ∅).
    { unfold st2. rewrite edges_set_edge, !edges_new.
      destruct (decide (n = _nextId st)); first lia. by rewrite decide_True. }
    destruct (IH d (_nextId st) ((n, char, _nextId st) :: unchecked) st2)
      as (n' & unchecked' & st' & -> & Hbuilt' & Hnext); last first.
    { exists n', unchecked', st'. split_and!; try done.
      unfold st2 in Hnext. simpl in Hnext. lia. }
    { done. }
    refine (conj _ (conj _ (conj _ (conj _ _)))); simpl.
    + intros x c m. change (_nextId st2) with (S (_nextId st)).
      destruct (decide (x = n)) as [->|Hxn].
      * rewrite Hedges_n, lookup_insert. destruct (decide (char = c)).
        -- intros [= <-]. lia.
        -- intros Hm. specialize (Hwf _ _ _ Hm). lia.
      * destruct (decide (x = _nextId st)) as [->|Hx].
        -- by rewrite Hedges_new, lookup_empty.
        -- rewrite Hedges by done. intros Hm. specialize (Hwf _ _ _ Hm). lia.
    + change (_nextId st2) with (S (_nextId st)).
      apply Forall_forall. intros x [->|Hx]%chain_nodes_cons; simpl; first lia.
      rewrite Forall_forall in Hlt. specialize (Hlt x Hx). lia.
    + done.
    + intros m Hm. destruct (HM m Hm) as (Hmlt & Hmchain & Hmedges & Hmb).
      assert (Hsame : forall x, minimized (Builder.mkBuilder root previous unchecked
                                             minimizedNodes) x ->
                        edges (node st2 x) = edges (node st x)).
      { intros x Hx. destruct (HM x Hx) as (Hxlt & Hxchain & _).
        apply Hedges; [by intros -> | lia]. }
      change (_nextId st2) with (S (_nextId st)).
      split; first lia. split.
      { intros [->|Hin]%chain_nodes_cons; simpl in *; [lia | done]. }
      split.
      { intros c t. rewrite Hsame by done. apply Hmedges. }
      apply (bounded_closed _ st _ d m (fun x c' t Hx => proj1 (proj2 (proj2 (HM x Hx))) c' t)
               Hsame Hm Hmb).
    + intros x c t [->|Hx]%chain_nodes_cons; simpl.
      { by rewrite Hedges_new, lookup_empty. }
      destruct (decide (x = n)) as [->|Hxn].
      * rewrite Hedges_n, lookup_insert. destruct (decide (char = c)) as [<-|].
        -- intros [= <-]. right. by left.
        -- intros Ht. destruct (Hchain n c t Hx Ht) as [?|?]; [by left | right; by right].
      * rewrite Forall_forall in Hlt. specialize (Hlt x Hx).
        rewrite Hedges by (done || lia).
        intros Ht. destruct (Hchain x c t Hx Ht) as [?|?]; [by left | right; by right].
Qed.

Lemma insert_built (d : nat) (word : word) (b : Builder.Builder) (st : Store) :
  built d b st -> word_ltb word (Builder.previousWord b) = false ->
  exists d' b' st',
    Builder.insert word b st = inr (b', st') /\
    built d' b' st' /\
    Builder.previousWord b' = word /\
    Builder.root b' = Builder.root b /\
    _nextId st <= _nextId st'.
Proof.
  intros Hbuilt Hord. unfold Builder.insert, Builder.minimize. rewrite Hord.
  destruct b as [root previous unchecked minimizedNodes]. simpl in *.
  destruct (minimize_loop_built (Builder.commonPrefix word previous) root previous
              unchecked d minimizedNodes st Hbuilt)
    as (d1 & u1 & m1 & st1 & -> & Hbuilt1 & Hnext1 & _).
  simpl.
  destruct (extend_built root previous m1
              (drop (Builder.commonPrefix word previous) word) d1
              (last_node root u1) u1 st1 Hbuilt1 eq_refl)
    as (n' & u2 & st2 & Hextend & Hbuilt2 & Hnext2).
  unfold last_node in Hextend. rewrite Hextend.
  exists d1, (Builder.mkBuilder root word u2 m1), (set_final n' true st2).
  split_and!; try done.
  - apply (built_ext _ _ st2); [intros x; apply edges_set_final | done | done].
  - simpl. lia.
Qed.

(** *** fromArray *)

Lemma insert_all_built (arr : list word) :
  forall (d : nat) (b : Builder.Builder) (st : Store),
    built d b st -> ascending (Builder.previousWord b) arr = true ->
    exists d' b' st',
      insert_all arr b st = inr (b', st') /\
      built d' b' st' /\
      Builder.root b' = Builder.root b /\
      _nextId st <= _nextId st'.
Proof.
  induction arr as [|word arr IH]; intros d b st Hbuilt Hord; simpl.
  - by exists d, b, st.
  - simpl in Hord. apply andb_prop in Hord as [Hword Harr].
    apply negb_true_iff in Hword.
    destruct (insert_built d word b st Hbuilt Hword)
      as (d1 & b1 & st1 & -> & Hbuilt1 & Hprev & Hroot & Hnext).
    rewrite <-Hprev in Harr.
    destruct (IH d1 b1 st1 Hbuilt1 Harr) as (d' & b' & st' & -> & Hbuilt' & Hroot' & Hnext').
    exists d', b', st'. split_and!; try done; [congruence | lia].
Qed.

(** [TokenSet.fromArray(arr)] on a sorted array returns a token set
    without cycles. *)
Lemma fromArray_returns (arr : list word) (st : Store) :
  wf st -> ascending [] arr = true ->
  exists root st' d,
    fromArray arr st = inr (root, st') /\
    wf st' /\ root < _nextId st' /\ bounded st' d root /\ _nextId st <= _nextId st'.
Proof.
  intros Hwf Hord. unfold fromArray, Builder.new, Builder.finish, Builder.minimize.
  rewrite (surjective_pairing (new st)), new_fst.
  assert (Hbuilt : built 0 (Builder.mkBuilder (_nextId st) [] [] ∅) (new st).2).
  { refine (conj _ (conj _ (conj _ (conj _ _)))).
    - intros n c m. rewrite edges_new, nextId_new. destruct (decide (_nextId st = n)).
      + by rewrite lookup_empty.
      + intros Hm. specialize (Hwf _ _ _ Hm). lia.
    - repeat constructor.
    - done.
    - intros m [key Hkey]. simpl in Hkey. by rewrite lookup_empty in Hkey.
    - intros x c t ->%list_elem_of_singleton.
      by rewrite edges_new, decide_True, lookup_empty. }
  destruct (insert_all_built arr 0 _ _ Hbuilt Hord)
    as (d1 & [root previous unchecked minimizedNodes] & st1 & -> & Hbuilt1 & Hroot & Hnext).
  simpl in Hroot. subst root.
  destruct (minimize_loop_built 0 (_nextId st) previous unchecked d1 minimizedNodes st1 Hbuilt1)
    as (d2 & u2 & m2 & st2 & Hloop & Hbuilt2 & Hnext2 & Hnil).
  simpl. rewrite Hloop. rewrite (Hnil eq_refl) in Hbuilt2.
  destruct Hbuilt2 as (Hwf2 & Hlt2 & _ & HM2 & Hchain2). simpl in *.
  exists (_nextId st), st2, (S d2). split_and!; try done.
  - by apply Forall_cons in Hlt2 as [? _].
  - simpl. intros c t Ht.
    destruct (Hchain2 (_nextId st) c t) as [Hmin|Hin]; try done.
    + by left.
    + by apply HM2.
    + by apply elem_of_nil in Hin.
  - simpl in Hnext. lia.
Qed.

End BuildFacts.

(** ** toArray *)

Module ToArrayFacts.
Import TokenSet Language StoreFacts.

Lemma elem_of_rev {A : Type} (x : A) (l : list A) : x ∈ rev l <-> x ∈ l.
Proof. rewrite !list_elem_of_In. symmetry. apply in_rev. Qed.

Lemma toArray_loop_nil (fuel : nat) (st : Store) (words : list word) :
  toArray_loop fuel st [] words = Some words.
Proof. by destruct fuel. Qed.

Lemma accepts_nil (st : Store) (n : nat) : accepts st n [] = final (node st n).
Proof. done. Qed.

Lemma accepts_cons (st : Store) (n : nat) (c : ascii) (s : word) :
  accepts st n (c :: s) = true <->
  exists m, edges (node st n) !! c = Some m /\ accepts st m s = true.
Proof.
  unfold accepts. simpl. destruct (edges (node st n) !! c) as [m|].
  - split; first by exists m. by intros (? & [= <-] & ?).
  - split; first done. by intros (? & ? & ?).
Qed.

Section Loop.
Variable st : Store.

(** The frames [frames] on top of the stack are worked off in [k] turns
    of the loop, and add the words [found]. *)
Lemma toArray_frames_step (d : nat) :
  (forall frames : list (word * nat),
     Forall (fun f => exists n c, bounded st d n /\ edges (node st n) !! c = Some f.2) frames ->
     exists k found,
       (forall fuel rest words,
          toArray_loop (k + fuel) st (frames ++ rest) words
          = toArray_loop fuel st rest (words ++ found)) /\
       forall s, s ∈ found <->
         exists f t, f ∈ frames /\ s = f.1 ++ t /\ accepts st f.2 t = true) ->
  forall frames : list (word * nat),
    Forall (fun f => bounded st d f.2) frames ->
    exists k found,
      (forall fuel rest words,
         toArray_loop (k + fuel) st (frames ++ rest) words
         = toArray_loop fuel st rest (words ++ found)) /\
      forall s, s ∈ found <->
        exists f t, f ∈ frames /\ s = f.1 ++ t /\ accepts st f.2 t = true.
Proof.
  intros Hchildren frames. induction frames as [|[prefix n] frames IH]; intros Hframes.
  - exists 0, []. split.
    + intros fuel rest words. by rewrite app_nil_r.
    + intros s. split; first by intros ?%elem_of_nil.
      by intros (f & t & ?%elem_of_nil & _).
  - apply Forall_cons in Hframes as [Hn Hframes]. simpl in Hn.
    destruct (IH Hframes) as (k2 & found2 & Hloop2 & Hfound2).
    set (pushed := (fun e : ascii * nat => (prefix ++ [e.1], e.2)) <$> keys st n).
    destruct (Hchildren (rev pushed)) as (k1 & found1 & Hloop1 & Hfound1).
    { apply Forall_forall. intros f Hf. rewrite elem_of_rev in Hf.
      apply list_elem_of_fmap in Hf as ([c m] & -> & Hcm).
      apply elem_of_map_to_list in Hcm. by exists n, c. }
    exists (S (k1 + k2)), ((if final (node st n) then [prefix] else []) ++ found1 ++ found2).
    split.
    + intros fuel rest words. simpl.
      change (map ?f ?l) with (f <$> l). fold pushed.
      rewrite <-(assoc_L Nat.add), Hloop1, Hloop2.
      f_equal. destruct (final (node st n)); by rewrite <-?(assoc_L (++)).
    + intros s. rewrite !elem_of_app, Hfound1, Hfound2. split.
      * intros [Hs|[(f & t & Hf & -> & Ht)|(f & t & Hf & -> & Ht)]].
        -- destruct (final (node st n)) eqn:Hfinal; last by apply elem_of_nil in Hs.
           apply list_elem_of_singleton in Hs as ->.
           exists (prefix, n), []. split; first by left.
           by rewrite app_nil_r, accepts_nil.
        -- rewrite elem_of_rev in Hf.
           apply list_elem_of_fmap in Hf as ([c m] & -> & Hcm).
           apply elem_of_map_to_list in Hcm. simpl in *.
           exists (prefix, n), (c :: t). split; first by left.
           split; first by rewrite <-(assoc_L (++)).
           apply accepts_cons. by exists m.
        -- exists f, t. split; [by right | done].
      * intros (f & t & Hf & -> & Ht). apply elem_of_cons in Hf as [->|Hf].
        -- simpl in *. destruct t as [|c t].
           ++ left. rewrite accepts_nil in Ht. rewrite Ht, app_nil_r. by left.
           ++ right. left. apply accepts_cons in Ht as (m & Hm & Ht).
              exists (prefix ++ [c], m), t. split; last (simpl; by rewrite <-(assoc_L (++))).
              rewrite elem_of_rev. apply list_elem_of_fmap. exists (c, m). split; first done.
              by apply elem_of_map_to_list.
        -- right. right. by exists f, t.
Qed.

Lemma toArray_frames (d : nat) (frames : list (word * nat)) :
  Forall (fun f => bounded st d f.2) frames ->
  exists k found,
    (forall fuel rest words,
       toArray_loop (k + fuel) st (frames ++ rest) words
       = toArray_loop fuel st rest (words ++ found)) /\
    forall s, s ∈ found <->
      exists f t, f ∈ frames /\ s = f.1 ++ t /\ accepts st f.2 t = true.
Proof.
  revert frames. induction d as [|d IH]; apply toArray_frames_step.
  - intros [|f frames] Hframes.
    + exists 0, []. split.
      * intros fuel rest words. by rewrite app_nil_r.
      * intros s. split; first by intros ?%elem_of_nil.
        by intros (f & t & ?%elem_of_nil & _).
    + apply Forall_cons in Hframes as [(n & c & Hn & Hc) _]. simpl in Hn.
      by rewrite Hn, lookup_empty in Hc.
  - intros frames Hframes. apply IH. eapply Forall_impl; first done.
    intros f (n & c & Hn & Hc). by apply (Hn c).
Qed.

(** [n.toArray()] returns, and returns the strings that lead from [n] to
    a final token set. *)
Lemma toArray_returns (d n : nat) :
  bounded st d n ->
  exists k words,
    (forall fuel, k <= fuel -> toArray fuel st n = Some words) /\
    forall s, s ∈ words <-> accepts st n s = true.
Proof.
  intros Hn.
  destruct (toArray_frames d [([], n)]) as (k & found & Hloop & Hfound).
  { by repeat constructor. }
  exists k, found. split.
  - intros fuel Hfuel. unfold toArray.
    replace fuel with (k + (fuel - k)) by lia.
    change [([], n)] with ([([] : word, n)] ++ []).
    rewrite (Hloop (fuel - k) [] []). apply toArray_loop_nil.
  - intros s. rewrite Hfound. split.
    + by intros (f & t & ->%list_elem_of_singleton & -> & Ht).
    + intros Hs. exists ([], n), s. split; [by left | done].
Qed.

End Loop.

End ToArrayFacts.

(** ** Trees that grow by one token set *)

Module TreeFacts.
Import TokenSet Language StoreFacts.

Lemma wf_ext (st st' : Store) :
  (forall x, edges (node st' x) = edges (node st x)) -> _nextId st' = _nextId st ->
  wf st -> wf st'.
Proof. intros Hsame Hnext Hwf n c m. rewrite Hsame, Hnext. apply Hwf. Qed.

Lemma tree_ext (st st' : Store) (r : nat) :
  (forall x, edges (node st' x) = edges (node st x)) -> tree st r -> tree st' r.
Proof.
  intros Hsame [H1 H2]. split.
  - intros n c m. rewrite Hsame. apply H1.
  - intros n1 c1 n2 c2 m. rewrite !Hsame. apply H2.
Qed.

(** Nothing changes but the [final] of the child [m] of [n]. *)
Lemma grows_final (r : nat) (st : Store) (n : nat) (c : ascii) (m : nat) (v : bool) :
  wf st -> tree st r -> r <= n -> edges (node st n) !! c = Some m ->
  grows r st (set_final m v st) n c m.
Proof.
  intros Hwf Htree Hn Hm.
  assert (Hsame : forall x, edges (node (set_final m v st) x) = edges (node st x))
    by (intros x; apply edges_set_final).
  refine (conj _ (conj _ (conj _ (conj _ (conj _ (conj _ (conj _ _))))))).
  - apply frozen_update. destruct Htree as [H1 _]. specialize (H1 n c m Hn Hm). lia.
  - done.
  - by apply (wf_ext st).
  - by apply (tree_ext st).
  - intros s x. by rewrite (walk_ext st (set_final m v st)).
  - intros s x. rewrite (walk_ext st (set_final m v st)) by done. by left.
  - by rewrite Hsame.
  - intros x Hx. rewrite final_set_final. by destruct (decide (m = x)).
Qed.

(** Nothing changes. *)
Lemma grows_refl (r : nat) (st : Store) (n : nat) (c : ascii) (m : nat) :
  wf st -> tree st r -> edges (node st n) !! c = Some m -> grows r st st n c m.
Proof.
  intros Hwf Htree Hm.
  refine (conj _ (conj _ (conj _ (conj _ (conj _ (conj _ (conj _ _))))))); try done.
  intros s x. by left.
Qed.

Section Leaf.
Variables (r : nat) (st st' : Store) (n : nat) (c : ascii).
Hypothesis Hwf : wf st.
Hypothesis Htree : tree st r.
Hypothesis Hrn : r <= n.
Hypothesis Hn : n < _nextId st.
Hypothesis Hnone : edges (node st n) !! c = None.
Hypothesis Hedges_n : edges (node st' n) = <[c := _nextId st]> (edges (node st n)).
Hypothesis Hedges_new : edges (node st' (_nextId st)) = ∅.
Hypothesis Hedges : forall x, x <> n -> x <> _nextId st ->
  edges (node st' x) = edges (node st x).
Hypothesis Hfinal : forall x, x <> _nextId st -> final (node st' x) = final (node st x).
Hypothesis Hfrozen : frozen r st st'.
Hypothesis Hnext : _nextId st' = S (_nextId st).

Lemma leaf_edge (a : nat) (c' : ascii) (x : nat) :
  edges (node st' a) !! c' = Some x ->
  (a = n /\ c' = c /\ x = _nextId st) \/
  (edges (node st a) !! c' = Some x /\ x < _nextId st /\ a <> _nextId st).
Proof using All.
  destruct (decide (a = n)) as [->|Han].
  - rewrite Hedges_n, lookup_insert. destruct (decide (c = c')) as [<-|Hc].
    + intros [= <-]. by left.
    + intros Hx. right. split; first done. split; [by apply (Hwf n c' x) | lia].
  - destruct (decide (a = _nextId st)) as [->|Ha].
    + by rewrite Hedges_new, lookup_empty.
    + rewrite Hedges by done. intros Hx. right. split; first done.
      split; [by apply (Hwf a c' x) | done].
Qed.

Lemma leaf_edge_old (a : nat) (c' : ascii) (x : nat) :
  a < _nextId st -> edges (node st a) !! c' = Some x ->
  edges (node st' a) !! c' = Some x.
Proof using All.
  intros Ha Hx. destruct (decide (a = n)) as [->|Han].
  - rewrite Hedges_n, lookup_insert_ne; first done. intros <-. by rewrite Hnone in Hx.
  - rewrite Hedges; [done | done | lia].
Qed.

Lemma leaf_walk_old (a : nat) (s : word) (x : nat) :
  a < _nextId st -> walk st a s = Some x -> walk st' a s = Some x.
Proof using All.
  revert a. induction s as [|c' s IH]; intros a Ha; simpl; first done.
  destruct (edges (node st a) !! c') as [y|] eqn:Hy; last done.
  rewrite (leaf_edge_old a c' y Ha Hy). apply IH. by apply (Hwf a c' y).
Qed.

Lemma leaf_walk_new (s : word) (x : nat) :
  walk st' r s = Some x ->
  walk st r s = Some x \/
  (x = _nextId st /\ exists s1, s = s1 ++ [c] /\ walk st r s1 = Some n).
Proof using All.
  revert x. induction s as [|c' s IH] using rev_ind; intros x.
  - intros [= <-]. by left.
  - intros (a & Ha & Hx)%walk_snoc_Some.
    destruct (IH a Ha) as [Hold|[-> _]].
    + destruct (leaf_edge a c' x Hx) as [(-> & -> & ->)|(Hx' & _)].
      * right. split; first done. by exists s.
      * left. apply walk_snoc_Some. by exists a.
    + by rewrite Hedges_new, lookup_empty in Hx.
Qed.

Lemma grows_leaf : grows r st st' n c (_nextId st).
Proof using All.
  refine (conj _ (conj _ (conj _ (conj _ (conj _ (conj _ (conj _ _))))))).
  - done.
  - lia.
  - intros a c' x Hx. rewrite Hnext.
    destruct (leaf_edge a c' x Hx) as [(-> & -> & ->)|(Hx' & ? & _)]; first lia.
    destruct (Hwf a c' x Hx'). lia.
  - destruct Htree as [H1 H2]. split.
    + intros a c' x Ha Hx.
      destruct (leaf_edge a c' x Hx) as [(-> & -> & ->)|(Hx' & _)]; first lia.
      by apply (H1 a c').
    + intros a1 c1 a2 c2 x Ha1 Ha2 Hx1 Hx2.
      destruct (leaf_edge a1 c1 x Hx1) as [(-> & -> & ->)|(Hx1' & Hlt1 & _)];
        destruct (leaf_edge a2 c2 _ Hx2) as [(-> & -> & Heq)|(Hx2' & Hlt2 & _)];
        try done; try lia.
      by apply (H2 a1 c1 a2 c2 x).
  - intros s x. apply leaf_walk_old. lia.
  - apply leaf_walk_new.
  - by rewrite Hedges_n, lookup_insert_eq.
  - done.
Qed.

End Leaf.

(** [new TokenSet] and the edge [c] from [n] to it. *)
Lemma grows_new (r : nat) (st : Store) (n : nat) (c : ascii) (v : bool) :
  wf st -> tree st r -> r <= n -> n < _nextId st ->
  edges (node st n) !! c = None ->
  grows r st (set_edge n c (_nextId st) (set_final (_nextId st) v (new st).2))
    n c (_nextId st).
Proof.
  intros Hwf Htree Hrn Hn Hnone.
  assert (Hne : n <> _nextId st) by lia.
  apply grows_leaf; try done.
  - rewrite edges_set_edge, decide_True, edges_set_final, edges_new by done.
    by destruct (decide (_nextId st = n)).
  - rewrite edges_set_edge. destruct (decide (n = _nextId st)); first done.
    by rewrite edges_set_final, edges_new, decide_True.
  - intros x Hxn Hx. rewrite edges_set_edge.
    destruct (decide (n = x)) as [<-|]; first done.
    rewrite edges_set_final, edges_new.
    by destruct (decide (_nextId st = x)) as [<-|].
  - intros x Hx. rewrite final_set_edge, final_set_final, final_new.
    by destruct (decide (_nextId st = x)) as [<-|].
  - eapply frozen_trans; last (apply frozen_update; lia).
    eapply frozen_trans; last (apply frozen_update; lia).
    apply frozen_new. lia.
Qed.

End TreeFacts.

(** ** intersect *)

Module IntersectFacts.
Import TokenSet Language StoreFacts TreeFacts ToArrayFacts.

Local Arguments new : simpl never.
Local Arguments set_edge : simpl never.
Local Arguments set_final : simpl never.

(** *** Strings that a query token set takes *)

Lemma matches_nil_inv (labels : word) : matches labels [] -> labels = [].
Proof. apply Forall2_nil_inv_r. Qed.

Lemma matches_snoc (labels s : word) (l c : ascii) :
  matches labels s -> label_matches l c = true -> matches (labels ++ [l]) (s ++ [c]).
Proof. intros Hm Hl. apply Forall2_app; first done. by repeat constructor. Qed.

Lemma takes_nil (st : Store) (q : nat) : takes st q [] <-> final (node st q) = true.
Proof.
  split.
  - by intros (labels & ->%matches_nil_inv & Ha).
  - intros Hq. exists []. split; [constructor | done].
Qed.

Lemma takes_cons (st : Store) (q : nat) (c : ascii) (s : word) :
  takes st q (c :: s) <->
  exists l q', edges (node st q) !! l = Some q' /\ label_matches l c = true /\ takes st q' s.
Proof.
  split.
  - intros (labels & Hm & Ha).
    apply Forall2_cons_inv_r in Hm as (l & labels' & Hl & Hm & ->).
    apply accepts_cons in Ha as (q' & Hq' & Ha).
    exists l, q'. split; first done. split; first done. by exists labels'.
  - intros (l & q' & Hq' & Hl & labels & Hm & Ha).
    exists (l :: labels). split; first by constructor.
    apply accepts_cons. by exists q'.
Qed.

Lemma accepts_app (st : Store) (n : nat) (s t : word) :
  accepts st n (s ++ t)
  = match walk st n s with
    | Some m => accepts st m t
    | None => false
    end.
Proof. unfold accepts. rewrite walk_app. by destruct (walk st n s). Qed.

Lemma accepts_snoc (st : Store) (n : nat) (s : word) (c : ascii) (m : nat) :
  walk st n (s ++ [c]) = Some m -> accepts st n (s ++ [c]) = final (node st m).
Proof. unfold accepts. by intros ->. Qed.

(** The paths of [o] in [st'] are paths of [n] in [st]. *)
Lemma bounded_walks (st st' : Store) (d : nat) :
  forall o n,
    (forall s m, walk st' o s = Some m -> is_Some (walk st n s)) ->
    bounded st d n -> bounded st' d o.
Proof.
  induction d as [|d IH]; intros o n Hwalks; simpl.
  - intros Hempty. apply map_eq. intros c. rewrite lookup_empty.
    destruct (edges (node st' o) !! c) as [m|] eqn:Hm; last done.
    destruct (Hwalks [c] m) as [x Hx]; first by simpl; rewrite Hm.
    simpl in Hx. by rewrite Hempty, lookup_empty in Hx.
  - intros Hn c m Hm.
    destruct (Hwalks [c] m) as [x Hx]; first by simpl; rewrite Hm.
    simpl in Hx. destruct (edges (node st n) !! c) as [n'|] eqn:Hn'; last done.
    apply (IH m n'); last by apply (Hn c).
    intros s y Hy. destruct (Hwalks (c :: s) y) as [z Hz]; first by simpl; rewrite Hm.
    simpl in Hz. rewrite Hn' in Hz. by exists z.
Qed.

Section Intersect.
Variables (st0 : Store) (this b : nat).
Hypothesis Hwf0 : wf st0.
Hypothesis Hthis : this < _nextId st0.
Hypothesis Hb : b < _nextId st0.

Local Abbreviation out := (output st0).
Local Abbreviation intersecting := (intersecting st0 this b).
Local Abbreviation reaches := (reaches st0 this b).
Local Abbreviation frame_ok := (frame_ok st0 this b).
Local Abbreviation task_ok := (task_ok st0 this b).
Local Abbreviation frame_covers := (frame_covers st0).
Local Abbreviation task_covers := (task_covers st0).

Lemma reaches_lt (st : Store) (s : word) (qNode o n : nat) :
  reaches st s qNode o n -> qNode < _nextId st0 /\ n < _nextId st0.
Proof using Hwf0 Hthis Hb.
  intros (_ & Hn & labels & _ & Hq). split.
  - by apply (walk_lt st0 b labels).
  - by apply (walk_lt st0 this s).
Qed.

Lemma reaches_mono (st st' : Store) (s : word) (qNode o n : nat) :
  (forall s x, walk st out s = Some x -> walk st' out s = Some x) ->
  reaches st s qNode o n -> reaches st' s qNode o n.
Proof. intros Hold (Ho & Hn & Hq). split; [by apply Hold | done]. Qed.

Lemma frame_ok_mono (st st' : Store) (frame : nat * nat * nat) :
  (forall s x, walk st out s = Some x -> walk st' out s = Some x) ->
  frame_ok st frame -> frame_ok st' frame.
Proof. intros Hold [s Hs]. exists s. by apply (reaches_mono st). Qed.

Lemma task_ok_mono (st st' : Store) (task : nat * (ascii * nat) * (ascii * nat)) :
  (forall s x, walk st out s = Some x -> walk st' out s = Some x) ->
  task_ok st task -> task_ok st' task.
Proof.
  intros Hold (s & qNode & n & Hs & Hq & Hn). exists s, qNode, n.
  split; [by apply (reaches_mono st) | done].
Qed.

Lemma frame_covers_mono (st st' : Store) (s : word) (frame : nat * nat * nat) :
  (forall s x, walk st out s = Some x -> walk st' out s = Some x) ->
  frame_covers st s frame -> frame_covers st' s frame.
Proof.
  intros Hold (s1 & s2 & -> & Hs2 & Ho & Ha & Ht). exists s1, s2.
  split_and!; try done. by apply Hold.
Qed.

Lemma task_covers_mono (st st' : Store) (s : word)
    (task : nat * (ascii * nat) * (ascii * nat)) :
  (forall s x, walk st out s = Some x -> walk st' out s = Some x) ->
  task_covers st s task -> task_covers st' s task.
Proof.
  intros Hold (s1 & s2 & -> & Hl & Ho & Ha & Ht). exists s1, s2.
  split_and!; try done. by apply Hold.
Qed.

(** *** The start of the loop *)

Lemma intersecting_start : intersecting (new st0).2 [(b, out, this)] [].
Proof using Hwf0 Hthis Hb.
  assert (Hwalk : forall s m, walk (new st0).2 out s = Some m -> s = [] /\ m = out).
  { intros [|c s] m; cbn [walk]; first by intros [= <-].
    by rewrite edges_new, decide_True, lookup_empty. }
  refine (conj _ (conj _ (conj _ (conj _ (conj _ (conj _ (conj _ (conj _ _)))))))).
  - by apply frozen_new.
  - rewrite nextId_new. unfold output. lia.
  - intros n c m. rewrite edges_new, nextId_new.
    destruct (decide (_nextId st0 = n)); first by rewrite lookup_empty.
    intros Hm. destruct (Hwf0 n c m Hm). lia.
  - split.
    + intros n c m Hn. rewrite edges_new.
      destruct (decide (_nextId st0 = n)); first by rewrite lookup_empty.
      intros Hm. destruct (Hwf0 n c m Hm). unfold output in Hn. lia.
    + intros n1 c1 n2 c2 m Hn1 _. rewrite edges_new.
      destruct (decide (_nextId st0 = n1)); first by rewrite lookup_empty.
      intros Hm. destruct (Hwf0 n1 c1 m Hm). unfold output in Hn1. lia.
  - intros s m [-> ->]%Hwalk. by exists this.
  - intros s. unfold accepts.
    destruct (walk (new st0).2 out s) as [m|] eqn:Hm; last done.
    apply Hwalk in Hm as [-> ->]. by rewrite final_new, decide_True.
  - repeat constructor. exists []. split; first done. split; first done.
    exists []. split; [constructor | done].
  - constructor.
  - intros s Hs Ha Ht. right. left. constructor. by exists [], s.
Qed.

(** *** A frame is popped *)

Lemma elem_of_tasks_of (st : Store) (frame : nat * nat * nat)
    (task : nat * (ascii * nat) * (ascii * nat)) :
  task ∈ tasks_of st frame <->
  task.1.1 = frame.1.2 /\
  edges (node st frame.1.1) !! task.1.2.1 = Some task.1.2.2 /\
  edges (node st frame.2) !! task.2.1 = Some task.2.2.
Proof.
  unfold tasks_of, keys. rewrite list_elem_of_bind. split.
  - intros ([l q'] & Hin & Hq). apply list_elem_of_bind in Hin as ([c n'] & Hin & Hn).
    apply list_elem_of_singleton in Hin as ->.
    apply elem_of_map_to_list in Hn, Hq. by simpl.
  - destruct task as [[o [l q']] [c n']]. simpl. intros (-> & Hq & Hn).
    exists (l, q'). split; last by apply elem_of_map_to_list.
    apply list_elem_of_bind. exists (c, n'). split; first by left.
    by apply elem_of_map_to_list.
Qed.

Lemma intersecting_pop (st : Store) (frame : nat * nat * nat)
    (stack : list (nat * nat * nat)) :
  intersecting st (frame :: stack) [] -> intersecting st stack (tasks_of st frame).
Proof using Hwf0 Hthis Hb.
  intros (Hfrozen & Hnext & Hwf & Htree & Hwalks & Hfinals & Hframes & _ & Hcover).
  apply Forall_cons in Hframes as [[s0 Hframe] Hframes].
  destruct frame as [[qNode o] n]. simpl in Hframe.
  destruct (reaches_lt _ _ _ _ _ Hframe) as [HqNode Hn].
  refine (conj Hfrozen (conj Hnext (conj Hwf (conj Htree (conj Hwalks (conj Hfinals
            (conj Hframes (conj _ _)))))))).
  - apply Forall_forall. intros task (Ho & Hq & Hn')%elem_of_tasks_of. simpl in *.
    rewrite Hfrozen in Hq, Hn' by done.
    exists s0, qNode, n. by rewrite Ho.
  - intros s Hs Ha Ht. destruct (Hcover s Hs Ha Ht) as [?|[Hex|Hex]]; first by left.
    + apply Exists_cons in Hex as [(s1 & s2 & -> & Hs2 & Ho & Ha2 & Ht2)|Hex].
      * simpl in *. destruct s2 as [|c s2]; first done.
        apply accepts_cons in Ha2 as (n' & Hn' & Ha2).
        apply takes_cons in Ht2 as (l & q' & Hq' & Hl & Ht2).
        right. right. apply Exists_exists. exists (o, (l, q'), (c, n')). split.
        -- apply elem_of_tasks_of. simpl. by rewrite !Hfrozen.
        -- by exists s1, s2.
      * right. by left.
    + by apply Exists_nil in Hex.
Qed.

(** *** A turn of the inner loop *)

(** The edges do not match. *)
Lemma intersecting_skip (st : Store) (stack : list (nat * nat * nat))
    (task : nat * (ascii * nat) * (ascii * nat))
    (tasks : list (nat * (ascii * nat) * (ascii * nat))) :
  label_matches task.1.2.1 task.2.1 = false ->
  intersecting st stack (task :: tasks) -> intersecting st stack tasks.
Proof.
  intros Hl (Hfrozen & Hnext & Hwf & Htree & Hwalks & Hfinals & Hframes & Htasks & Hcover).
  apply Forall_cons in Htasks as [_ Htasks].
  refine (conj Hfrozen (conj Hnext (conj Hwf (conj Htree (conj Hwalks (conj Hfinals
            (conj Hframes (conj Htasks _)))))))).
  intros s Hs Ha Ht. destruct (Hcover s Hs Ha Ht) as [?|[?|Hex]]; [by left | by right; left |].
  apply Exists_cons in Hex as [(s1 & s2 & _ & Hl' & _)|Hex]; first congruence.
  right. by right.
Qed.

(** The edges match: the output has the string [s ++ [c]], at [next]. *)
Lemma intersecting_grown (st st' : Store) (stack : list (nat * nat * nat))
    (o : nat) (l : ascii) (q' : nat) (c : ascii) (n' : nat)
    (tasks : list (nat * (ascii * nat) * (ascii * nat)))
    (s : word) (qNode n next : nat) :
  intersecting st stack ((o, (l, q'), (c, n')) :: tasks) ->
  reaches st s qNode o n ->
  edges (node st0 qNode) !! l = Some q' ->
  edges (node st0 n) !! c = Some n' ->
  label_matches l c = true ->
  grows out st st' o c next ->
  (final (node st' next) = true ->
   (exists s2, walk st out s2 = Some next /\ final (node st next) = true) \/
   final (node st0 n') && final (node st0 q') = true) ->
  (forall s2, walk st out s2 = Some next -> final (node st next) = true ->
     final (node st' next) = true) ->
  (final (node st0 n') && final (node st0 q') = true -> final (node st' next) = true) ->
  intersecting st' ((q', next, n') :: stack) tasks.
Proof using Hwf0 Hthis Hb.
  intros (Hfrozen & Hnext & Hwf & Htree & Hwalks & Hfinals & Hframes & Htasks & Hcover)
    Hreach Hq' Hn' Hl
    (Hfrozen' & Hnext' & Hwf' & Htree' & Hold & Hnew & Hedge & Hsame) Hsound Hmono Hfin.
  destruct Hreach as (Ho & Hn & labels & Hlabels & HqNode).
  assert (Hnext_walk : walk st' out (s ++ [c]) = Some next).
  { apply walk_snoc_Some. exists o. split; [by apply Hold | done]. }
  assert (Hthis' : walk st0 this (s ++ [c]) = Some n').
  { apply walk_snoc_Some. by exists n. }
  assert (Hb' : walk st0 b (labels ++ [l]) = Some q').
  { apply walk_snoc_Some. by exists qNode. }
  assert (Hlabels' : matches (labels ++ [l]) (s ++ [c])) by by apply matches_snoc.
  assert (Hfound : final (node st0 n') && final (node st0 q') = true ->
                   s ++ [c] <> [] /\ accepts st0 this (s ++ [c]) = true /\
                   takes st0 b (s ++ [c])).
  { intros [Hfn Hfq]%andb_prop. split; first by destruct s.
    split; first by rewrite (accepts_snoc _ _ _ _ _ Hthis').
    exists (labels ++ [l]). split; first done. by rewrite (accepts_snoc _ _ _ _ _ Hb'). }
  assert (Haccepts : forall s2, accepts st out s2 = true -> accepts st' out s2 = true).
  { intros s2. unfold accepts. destruct (walk st out s2) as [m|] eqn:Hm; last done.
    rewrite (Hold _ _ Hm). destruct (decide (m = next)) as [->|Hne].
    - by apply (Hmono s2).
    - by rewrite Hsame. }
  apply Forall_cons in Htasks as [_ Htasks].
  refine (conj _ (conj _ (conj Hwf' (conj Htree' (conj _ (conj _ (conj _ (conj _ _)))))))).
  - by apply (frozen_trans _ _ st).
  - lia.
  - intros s2 m Hm. destruct (Hnew s2 m Hm) as [Hm'|(-> & s1 & -> & Hs1)].
    + by apply (Hwalks s2 m).
    + rewrite (walk_inj st out s1 s o Htree Hs1 Ho). by exists n'.
  - intros s2 Hs2. unfold accepts in Hs2.
    destruct (walk st' out s2) as [m|] eqn:Hm; last done.
    destruct (decide (m = next)) as [->|Hne].
    + destruct (Hsound Hs2) as [(s3 & Hs3 & Hfinal)|Hboth].
      * rewrite (walk_inj st' out s2 s3 next Htree' Hm (Hold _ _ Hs3)).
        apply Hfinals. unfold accepts. by rewrite Hs3.
      * rewrite (walk_inj st' out s2 (s ++ [c]) next Htree' Hm Hnext_walk).
        by apply Hfound.
    + destruct (Hnew s2 m Hm) as [Hm'|(-> & _)]; last done.
      apply Hfinals. unfold accepts. by rewrite Hm', <-Hsame.
  - apply Forall_cons. split.
    + exists (s ++ [c]). split; first done. split; first done. by exists (labels ++ [l]).
    + eapply Forall_impl; first done. intros f. by apply frame_ok_mono.
  - eapply Forall_impl; first done. intros t. by apply task_ok_mono.
  - intros s2 Hs2 Ha Ht. destruct (Hcover s2 Hs2 Ha Ht) as [Hacc|[Hex|Hex]].
    + left. by apply Haccepts.
    + right. left. apply Exists_cons. right.
      eapply Exists_impl; first done. intros f. by apply frame_covers_mono.
    + apply Exists_cons in Hex as [(s1 & s3 & -> & _ & Hs1 & Ha3 & Ht3)|Hex].
      * simpl in *. rewrite (walk_inj st out s1 s o Htree Hs1 Ho) in *.
        destruct s3 as [|c3 s3].
        -- left. rewrite (accepts_snoc _ _ _ _ _ Hnext_walk). apply Hfin.
           apply takes_nil in Ht3. rewrite accepts_nil in Ha3. by rewrite Ha3, Ht3.
        -- right. left. apply Exists_cons. left.
           exists (s ++ [c]), (c3 :: s3). simpl.
           split_and!; try done. by rewrite <-(assoc_L (++)).
      * right. right. eapply Exists_impl; first done. intros t. by apply task_covers_mono.
Qed.

Lemma run_task_intersecting (st : Store) (stack : list (nat * nat * nat))
    (task : nat * (ascii * nat) * (ascii * nat))
    (tasks : list (nat * (ascii * nat) * (ascii * nat))) :
  intersecting st stack (task :: tasks) ->
  exists st' fs,
    run_task (st, stack) task = (st', fs ++ stack) /\
    intersecting st' (fs ++ stack) tasks /\
    Forall (fun f => f.2 = task.2.2) fs.
Proof using Hwf0 Hthis Hb.
  intros Hinv. pose proof Hinv as (Hfrozen & Hnext & Hwf & Htree & _ & _ & _ & Htasks & _).
  apply Forall_cons in Htasks as [(s & qNode & n & Hreach & Hq' & Hn') _].
  destruct task as [[o [l q']] [c n']]. simpl in Hreach, Hq', Hn'.
  destruct (reaches_lt _ _ _ _ _ Hreach) as [HqNode Hn].
  destruct (Hwf0 _ _ _ Hq') as [_ Hq'lt]. destruct (Hwf0 _ _ _ Hn') as [_ Hn'lt].
  pose proof Hreach as (Ho & _).
  pose proof (walk_ge st out out s o Htree (Nat.le_refl _) Ho) as Hole.
  pose proof (walk_lt st out s o Hwf Hnext Ho) as Holt.
  unfold run_task, intersect_edge. cbn [fst snd].
  change (bool_decide (c = l) || bool_decide (l = wildcardChar)) with (label_matches l c).
  destruct (label_matches l c) eqn:Hl; last first.
  { exists st, []. split; first done. split; last by constructor.
    by apply (intersecting_skip st stack (o, (l, q'), (c, n'))). }
  rewrite (Hfrozen n'), (Hfrozen q') by done.
  destruct (edges (node st o) !! c) as [next|] eqn:Hedge.
  - exists (set_final next (final (node st next) || final (node st0 n') && final (node st0 q')) st),
      [(q', next, n')].
    split; first done. split; last by repeat constructor.
    apply (intersecting_grown st _ stack o l q' c n' tasks s qNode n next); try done.
    + by apply grows_final.
    + rewrite final_set_final, decide_True by done. intros [Hf|Hf]%orb_prop.
      * left. exists (s ++ [c]). split; last done. apply walk_snoc_Some. by exists o.
      * by right.
    + intros s2 _ Hf. by rewrite final_set_final, decide_True, Hf.
    + intros Hf. rewrite final_set_final, decide_True, Hf by done. apply orb_true_r.
  - rewrite (surjective_pairing (new st)), new_fst.
    exists (set_edge o c (_nextId st)
              (set_final (_nextId st) (final (node st0 n') && final (node st0 q')) (new st).2)),
      [(q', _nextId st, n')].
    split; first done. split; last by repeat constructor.
    apply (intersecting_grown st _ stack o l q' c n' tasks s qNode n (_nextId st)); try done.
    + by apply grows_new.
    + rewrite final_set_edge, final_set_final, decide_True by done. intros Hf. by right.
    + intros s2 Hs2. pose proof (walk_lt st out s2 _ Hwf Hnext Hs2). lia.
    + intros Hf. by rewrite final_set_edge, final_set_final, decide_True.
Qed.

Lemma run_tasks_intersecting (P : nat -> Prop)
    (tasks : list (nat * (ascii * nat) * (ascii * nat))) :
  forall (st : Store) (stack : list (nat * nat * nat)),
    intersecting st stack tasks ->
    Forall (fun t => P t.2.2) tasks ->
    exists st' fs,
      foldl run_task (st, stack) tasks = (st', fs ++ stack) /\
      intersecting st' (fs ++ stack) [] /\
      Forall (fun f => P f.2) fs.
Proof using Hwf0 Hthis Hb.
  induction tasks as [|t tasks IH]; intros st stack Hinv HP.
  - by exists st, [].
  - destruct (run_task_intersecting st stack t tasks Hinv) as (st1 & fs1 & Hrun & Hinv1 & Hfs1).
    apply Forall_cons in HP as [Ht HP].
    destruct (IH st1 (fs1 ++ stack) Hinv1 HP) as (st' & fs & Hfold & Hinv' & Hfs).
    exists st', (fs ++ fs1). cbn [foldl]. rewrite Hrun, Hfold, <-(assoc_L (++)).
    split; first done. split; first done.
    apply Forall_app. split; first done.
    eapply Forall_impl; first done. by intros f ->.
Qed.

Lemma intersect_step_tasks (frame : nat * nat * nat) (st : Store)
    (stack : list (nat * nat * nat)) :
  intersect_step frame st stack = foldl run_task (st, stack) (tasks_of st frame).
Proof.
  destruct frame as [[qNode o] n]. unfold intersect_step, tasks_of. cbn [fst snd].
  generalize (keys st qNode) (keys st n) (st, stack). intros qEdges nEdges.
  induction qEdges as [|qEdge qEdges IH]; intros acc; first done.
  cbn [foldl]. change ((qEdge :: qEdges) ≫= ?f) with (f qEdge ++ (qEdges ≫= f)).
  rewrite foldl_app, <-IH. f_equal.
  clear IH. revert acc. induction nEdges as [|nEdge nEdges IH]; intros acc; first done.
  cbn [foldl]. change ((nEdge :: nEdges) ≫= ?f) with (f nEdge ++ (nEdges ≫= f)).
  by rewrite foldl_app, <-IH.
Qed.

(** *** The loop returns *)

Lemma intersect_frames_step (d : nat) :
  (forall (fs stack : list (nat * nat * nat)) (st : Store),
     intersecting st (fs ++ stack) [] ->
     Forall (fun f => exists n c, bounded st0 d n /\ edges (node st0 n) !! c = Some f.2) fs ->
     exists k st',
       (forall fuel, intersect_loop (k + fuel) st (fs ++ stack)
                     = intersect_loop fuel st' stack) /\
       intersecting st' stack []) ->
  forall (fs stack : list (nat * nat * nat)) (st : Store),
    intersecting st (fs ++ stack) [] ->
    Forall (fun f => bounded st0 d f.2) fs ->
    exists k st',
      (forall fuel, intersect_loop (k + fuel) st (fs ++ stack)
                    = intersect_loop fuel st' stack) /\
      intersecting st' stack [].
Proof using Hwf0 Hthis Hb.
  intros Hchildren fs. induction fs as [|f fs IH]; intros stack st Hinv Hfs.
  - by exists 0, st.
  - apply Forall_cons in Hfs as [Hf Hfs].
    change ((f :: fs) ++ stack) with (f :: (fs ++ stack)) in *.
    pose proof (intersecting_pop st f (fs ++ stack) Hinv) as Hpop.
    destruct (run_tasks_intersecting
                (fun x => exists n c, bounded st0 d n /\ edges (node st0 n) !! c = Some x)
                (tasks_of st f) st (fs ++ stack) Hpop) as (st1 & fs1 & Hfold & Hinv1 & Hfs1).
    { destruct Hinv as (Hfrozen & _ & _ & _ & _ & _ & Hframes & _).
      apply Forall_cons in Hframes as [[s Hs] _].
      destruct (reaches_lt _ _ _ _ _ Hs) as [_ Hn].
      apply Forall_forall. intros t (_ & _ & Ht)%elem_of_tasks_of.
      rewrite Hfrozen in Ht by done. by exists f.2, t.2.1. }
    destruct (Hchildren fs1 (fs ++ stack) st1 Hinv1 Hfs1) as (k1 & st2 & Hloop1 & Hinv2).
    destruct (IH stack st2 Hinv2 Hfs) as (k2 & st' & Hloop2 & Hinv').
    exists (S (k1 + k2)), st'. split; last done.
    intros fuel. cbn [Nat.add intersect_loop].
    by rewrite intersect_step_tasks, Hfold, <-(assoc_L Nat.add), Hloop1, Hloop2.
Qed.

Lemma intersect_frames (d : nat) :
  forall (fs stack : list (nat * nat * nat)) (st : Store),
    intersecting st (fs ++ stack) [] ->
    Forall (fun f => bounded st0 d f.2) fs ->
    exists k st',
      (forall fuel, intersect_loop (k + fuel) st (fs ++ stack)
                    = intersect_loop fuel st' stack) /\
      intersecting st' stack [].
Proof using Hwf0 Hthis Hb.
  induction d as [|d IH]; apply intersect_frames_step.
  - intros [|f fs] stack st Hinv Hfs; first by exists 0, st.
    apply Forall_cons in Hfs as [(n & c & Hn & Hc) _]. simpl in Hn.
    by rewrite Hn, lookup_empty in Hc.
  - intros fs stack st Hinv Hfs. apply IH; first done.
    eapply Forall_impl; first done. intros f (n & c & Hn & Hc). by apply (Hn c).
Qed.

(** [this.intersect(b)] returns, and its output has the non-empty strings
    of [this] that [b] takes. *)
Lemma intersect_returns (d : nat) :
  bounded st0 d this ->
  exists k st',
    (forall fuel, k <= fuel -> intersect fuel this b st0 = Some (out, st')) /\
    wf st' /\ out < _nextId st' /\ bounded st' d out /\ frozen out st0 st' /\
    forall s, accepts st' out s = true <->
      s <> [] /\ accepts st0 this s = true /\ takes st0 b s.
Proof using Hwf0 Hthis Hb.
  intros Hd.
  destruct (intersect_frames d [(b, out, this)] [] (new st0).2) as (k & st' & Hloop & Hinv).
  { apply intersecting_start. }
  { by repeat constructor. }
  destruct Hinv as (Hfrozen & Hnext & Hwf & Htree & Hwalks & Hfinals & _ & _ & Hcover).
  exists k, st'. split_and!; try done.
  - intros fuel Hfuel. unfold intersect.
    rewrite (surjective_pairing (new st0)), new_fst.
    replace fuel with (k + (fuel - k)) by lia.
    change [(b, _nextId st0, this)] with ([(b, out, this)] ++ []).
    rewrite Hloop. by destruct (fuel - k).
  - by apply (bounded_walks st0 st' d out this).
  - intros s. split; first apply Hfinals.
    intros (Hs & Ha & Ht). destruct (Hcover s Hs Ha Ht) as [?|[Hex|Hex]]; first done.
    + by apply Exists_nil in Hex.
    + by apply Exists_nil in Hex.
Qed.

End Intersect.

End IntersectFacts.

(** ** fromString *)

Module FromStringFacts.
Import TokenSet Language StoreFacts TreeFacts ToArrayFacts IntersectFacts.

Local Arguments new : simpl never.
Local Arguments set_edge : simpl never.
Local Arguments set_final : simpl never.

(** *** Glob patterns *)

Lemma glob_star (p s : word) : glob (wildcardChar :: p) s = some_suffix (glob p) s.
Proof. done. Qed.

Lemma glob_char (c : ascii) (p s : word) :
  c <> wildcardChar ->
  glob (c :: p) s
  = match s with
    | [] => false
    | x :: s' => bool_decide (x = c) && glob p s'
    end.
Proof. intros Hc. cbn [glob]. by rewrite bool_decide_false. Qed.

Lemma some_suffix_idemp (g : word -> bool) (s : word) :
  some_suffix (some_suffix g) s = some_suffix g s.
Proof.
  induction s as [|x s IH]; cbn [some_suffix].
  - by rewrite !orb_false_r.
  - rewrite IH. by destruct (g (x :: s)), (some_suffix g s).
Qed.

Lemma glob_star_star (p s : word) :
  glob (wildcardChar :: wildcardChar :: p) s = glob (wildcardChar :: p) s.
Proof. rewrite !glob_star. apply some_suffix_idemp. Qed.

Lemma some_suffix_nil (s : word) :
  some_suffix (fun s => bool_decide (s = [])) s = true.
Proof.
  induction s as [|x s IH]; cbn [some_suffix]; first done.
  rewrite IH. apply orb_true_r.
Qed.

Lemma label_matches_star (x : ascii) : label_matches wildcardChar x = true.
Proof.
  unfold label_matches. rewrite (bool_decide_true (wildcardChar = wildcardChar)) by done.
  apply orb_true_r.
Qed.

Lemma label_matches_char (c x : ascii) :
  c <> wildcardChar -> label_matches c x = bool_decide (x = c).
Proof.
  intros Hc. unfold label_matches.
  by rewrite (bool_decide_false (c = wildcardChar)), orb_false_r.
Qed.

(** *** The token set of a pattern *)

(** The strings of a token set with a loop on ['*'] or no edge. *)
Lemma takes_last (st : Store) (n : nat) (star : bool) (s : word) :
  edges (node st n) = (if star then {[wildcardChar := n]} else ∅) ->
  final (node st n) = true ->
  takes st n s <-> glob (if star then [wildcardChar] else []) s = true.
Proof.
  intros Hedges Hfinal. destruct star.
  - rewrite glob_star. cbn [glob]. rewrite some_suffix_nil. split; first done. intros _.
    induction s as [|x s IH]; first by apply takes_nil.
    apply takes_cons. exists wildcardChar, n.
    split; first by rewrite Hedges, lookup_singleton_eq.
    split; [apply label_matches_star | done].
  - destruct s as [|x s]; cbn [glob].
    + split; [done | intros _; by apply takes_nil].
    + split; last done. intros (l & q' & Hq' & _)%takes_cons.
      by rewrite Hedges, lookup_empty in Hq'.
Qed.

(** The strings of a token set with an edge on [char], and a loop on
    ['*'] or no other edge. *)
Lemma takes_char (st : Store) (n next : nat) (char : ascii) (star : bool) (p : word) :
  edges (node st n)
  = <[char := next]> (if star then {[wildcardChar := n]} else ∅) ->
  char <> wildcardChar ->
  final (node st n) = false ->
  (forall s, takes st next s <-> glob p s = true) ->
  forall s, takes st n s <->
    glob (if star then wildcardChar :: char :: p else char :: p) s = true.
Proof.
  intros Hedges Hchar Hfinal Hnext s.
  assert (Hstep : forall x s', takes st n (x :: s') <->
            (x = char /\ takes st next s') \/ (star = true /\ takes st n s')).
  { intros x s'. rewrite takes_cons. split.
    - intros (l & q' & Hq' & Hl & Ht). rewrite Hedges in Hq'.
      apply lookup_insert_Some in Hq' as [[<- <-]|[Hne Hq']].
      + left. rewrite label_matches_char in Hl by done.
        by apply bool_decide_eq_true in Hl.
      + destruct star; last by rewrite lookup_empty in Hq'.
        apply lookup_singleton_Some in Hq' as [<- <-]. by right.
    - intros [[-> Ht]|[-> Ht]].
      + exists char, next. rewrite Hedges, lookup_insert_eq.
        split; first done. split; last done.
        rewrite label_matches_char by done. by apply bool_decide_eq_true.
      + exists wildcardChar, n. rewrite Hedges, lookup_insert_ne by done.
        rewrite lookup_singleton_eq. split; first done.
        split; [apply label_matches_star | done]. }
  induction s as [|x s IH].
  - rewrite takes_nil, Hfinal. destruct star.
    + rewrite glob_star. cbn [some_suffix]. by rewrite glob_char.
    + by rewrite glob_char.
  - rewrite Hstep, Hnext. destruct star.
    + rewrite glob_star in *. cbn [some_suffix]. rewrite glob_char by done.
      rewrite orb_true_iff, andb_true_iff, bool_decide_eq_true, IH. tauto.
    + rewrite glob_char by done. rewrite andb_true_iff, bool_decide_eq_true.
      split; [by intros [?|[? _]] | by left].
Qed.

Lemma takes_ext (st st' : Store) (q : nat) (s : word) :
  (forall x, node st' x = node st x) -> takes st' q s <-> takes st q s.
Proof.
  intros Hsame. unfold takes, accepts.
  split; intros (labels & Hm & Ha); exists labels; split; try done.
  - rewrite (walk_ext st st') in Ha by (intros; by rewrite Hsame).
    destruct (walk st q labels); last done. by rewrite <-Hsame.
  - rewrite (walk_ext st st') by (intros; by rewrite Hsame).
    destruct (walk st q labels); last done. by rewrite Hsame.
Qed.

Lemma fromString_loop_spec (str : word) :
  forall (n : nat) (star : bool) (st : Store),
    wf st -> n < _nextId st ->
    edges (node st n) = (if star then {[wildcardChar := n]} else ∅) ->
    final (node st n) = bool_decide (str = []) ->
    wf (fromString_loop str n st) /\
    _nextId st <= _nextId (fromString_loop str n st) /\
    (forall x, x < _nextId st -> x <> n -> node (fromString_loop str n st) x = node st x) /\
    (forall s, takes (fromString_loop str n st) n s <->
               glob (if star then wildcardChar :: str else str) s = true).
Proof.
  induction str as [|char str IH]; intros n star st Hwf Hn Hedges Hfinal.
  - cbn [fromString_loop]. split_and!; try done.
    intros s. by apply takes_last.
  - cbn [fromString_loop]. destruct (decide (char = wildcardChar)) as [->|Hchar].
    + set (st1 := set_final n (bool_decide (str = [])) (set_edge n wildcardChar n st)).
      assert (Hedges1 : edges (node st1 n) = {[wildcardChar := n]}).
      { unfold st1. rewrite edges_set_final, edges_set_edge, decide_True, Hedges by done.
        destruct star; [apply insert_singleton_eq | apply insert_empty]. }
      assert (Hother : forall x, x <> n -> node st1 x = node st x).
      { intros x Hx. unfold st1, set_final, set_edge. rewrite !node_update.
        by rewrite !decide_False by done. }
      destruct (IH n true st1) as (Hwf' & Hnext' & Hframe' & Htakes').
      * intros x c m. destruct (decide (x = n)) as [->|Hx].
        -- rewrite Hedges1. intros [<- <-]%lookup_singleton_Some. by split.
        -- rewrite Hother by done. apply Hwf.
      * done.
      * done.
      * unfold st1. by rewrite final_set_final, decide_True.
      * split_and!; try done.
        -- intros x Hx Hxn. rewrite Hframe' by done. by apply Hother.
        -- intros s. rewrite Htakes'. destruct star; last done. by rewrite glob_star_star.
    + rewrite (surjective_pairing (new st)), new_fst.
      set (next := _nextId st).
      set (st3 := set_edge n char next (set_final next (bool_decide (str = [])) (new st).2)).
      assert (Hne : n <> next) by (unfold next; lia).
      assert (Hedges_n : edges (node st3 n)
                         = <[char := next]> (if star then {[wildcardChar := n]} else ∅)).
      { unfold st3. rewrite edges_set_edge, decide_True, edges_set_final, edges_new by done.
        rewrite decide_False by done. by rewrite Hedges. }
      assert (Hedges_next : edges (node st3 next) = ∅).
      { unfold st3. rewrite edges_set_edge, decide_False by done.
        by rewrite edges_set_final, edges_new, decide_True. }
      assert (Hother : forall x, x <> n -> x <> next -> node st3 x = node st x).
      { intros x Hxn Hx. unfold st3, set_final, set_edge. rewrite !node_update.
        rewrite !decide_False by done. rewrite node_new. by rewrite decide_False. }
      assert (Hfinal_n : final (node st3 n) = false).
      { unfold st3. rewrite final_set_edge, final_set_final, decide_False by done.
        rewrite final_new, decide_False, Hfinal by done. by apply bool_decide_false. }
      destruct (IH next false st3) as (Hwf' & Hnext' & Hframe' & Htakes').
      * intros x c m. change (_nextId st3) with (S (_nextId st)).
        destruct (decide (x = n)) as [->|Hxn].
        -- rewrite Hedges_n. intros [[<- <-]|[_ Hm]]%lookup_insert_Some.
           { unfold next. lia. }
           destruct star; last by rewrite lookup_empty in Hm.
           apply lookup_singleton_Some in Hm as [_ <-]. lia.
        -- destruct (decide (x = next)) as [->|Hx]; first by rewrite Hedges_next, lookup_empty.
           rewrite Hother by done. intros Hm. destruct (Hwf x c m Hm). lia.
      * change (_nextId st3) with (S (_nextId st)). unfold next. lia.
      * done.
      * unfold st3. by rewrite final_set_edge, final_set_final, decide_True.
      * change (_nextId st3) with (S (_nextId st)) in *.
        assert (Hn' : node (fromString_loop str next st3) n = node st3 n).
        { apply Hframe'; [lia | done]. }
        split_and!; try done.
        -- lia.
        -- intros x Hx Hxn. rewrite Hframe' by (unfold next; lia).
           apply Hother; [done | unfold next; lia].
        -- apply (takes_char _ n next char star str); try done.
           ++ by rewrite Hn'.
           ++ by rewrite Hn'.
Qed.

(** [TokenSet.fromString(p)] takes the non-empty strings that match [p]. *)
Lemma fromString_spec (p : word) (st : Store) :
  wf st ->
  (fromString p st).1 = _nextId st /\
  wf (fromString p st).2 /\
  _nextId st < _nextId (fromString p st).2 /\
  frozen (_nextId st) st (fromString p st).2 /\
  forall s, s <> [] -> takes (fromString p st).2 (_nextId st) s <-> glob p s = true.
Proof.
  intros Hwf. unfold fromString. rewrite (surjective_pairing (new st)), new_fst.
  cbn [fst snd].
  assert (Hwf1 : wf (new st).2).
  { intros x c m. rewrite edges_new, nextId_new.
    destruct (decide (_nextId st = x)); first by rewrite lookup_empty.
    intros Hm. destruct (Hwf x c m Hm). lia. }
  assert (Hedges : edges (node (new st).2 (_nextId st)) = ∅).
  { by rewrite edges_new, decide_True. }
  assert (Hfinal : final (node (new st).2 (_nextId st)) = false).
  { by rewrite final_new, decide_True. }
  split; first done.
  destruct p as [|char p].
  - cbn [fromString_loop]. split_and!; try done.
    + rewrite nextId_new. lia.
    + by apply frozen_new.
    + intros [|x s] Hs; first done. cbn [glob]. split; last done.
      intros (l & q' & Hq' & _)%takes_cons. by rewrite Hedges, lookup_empty in Hq'.
  - destruct (fromString_loop_spec (char :: p) (_nextId st) false (new st).2)
      as (Hwf' & Hnext' & Hframe' & Htakes'); try done.
    { rewrite nextId_new. lia. }
    rewrite nextId_new in Hnext', Hframe'.
    refine (conj Hwf' (conj _ (conj _ _))).
    + lia.
    + intros x Hx. rewrite Hframe' by lia. rewrite node_new. by rewrite decide_False by lia.
    + intros s _. apply Htakes'.
Qed.

End FromStringFacts.

(** ** fromFuzzyString *)

Module FuzzyFacts.
Import TokenSet Language StoreFacts TreeFacts ToArrayFacts IntersectFacts FromStringFacts.

Local Arguments new : simpl never.
Local Arguments set_edge : simpl never.
Local Arguments set_final : simpl never.
Local Arguments child : simpl never.

(** *** Edit distance *)

Lemma within_refl (k : nat) (s : word) : within k s s.
Proof. destruct k; [done | by left]. Qed.

Lemma within_S (k : nat) (s t : word) : within k s t -> within (S k) s t.
Proof.
  revert t. induction k as [|k IH]; intros t.
  - intros ->. by left.
  - intros [->|(u & Hu & He)]; first by left.
    right. exists u. split; [by apply IH | done].
Qed.

Lemma within_mono (j k : nat) (s t : word) : j <= k -> within j s t -> within k s t.
Proof. induction 1; [done | intros; by apply within_S; auto]. Qed.

Lemma within_edit (j k : nat) (s u t : word) :
  S j <= k -> within j s u -> edit u t -> within k s t.
Proof.
  intros Hk Hu He. apply (within_mono (S j)); first done. right. by exists u.
Qed.

Lemma matches_snoc_inv (labels : word) (c : ascii) (t : word) :
  matches (labels ++ [c]) t ->
  exists t0 x, t = t0 ++ [x] /\ matches labels t0 /\ label_matches c x = true.
Proof.
  intros (t0 & t1 & Ht0 & Ht1 & ->)%Forall2_app_inv_l.
  apply Forall2_cons_inv_l in Ht1 as (x & t2 & Hx & Ht2 & ->).
  apply Forall2_nil_inv_l in Ht2 as ->. by exists t0, x.
Qed.

Lemma label_matches_eq (c x : ascii) :
  c <> wildcardChar -> label_matches c x = true -> x = c.
Proof. intros Hc. rewrite label_matches_char by done. apply bool_decide_eq_true. Qed.

(** *** The child of a token set *)

Lemma walk_child (st : Store) (r n : nat) (c : ascii) (m : nat) (labels : word) :
  tree st r -> r <= n -> edges (node st n) !! c = Some m ->
  walk st r labels = Some m ->
  exists labels', labels = labels' ++ [c] /\ walk st r labels' = Some n.
Proof.
  intros Htree Hn Hm. destruct labels as [|c' labels' _] using rev_ind.
  - intros [= ->]. destruct Htree as [H1 _]. specialize (H1 n c m Hn Hm). lia.
  - intros (a & Ha & Hedge)%walk_snoc_Some.
    pose proof (walk_ge _ _ _ _ _ Htree (Nat.le_refl r) Ha) as Hra.
    destruct (proj2 Htree a c' n c m Hra Hn Hedge Hm) as [-> ->]. by exists labels'.
Qed.

Lemma child_spec (st : Store) (r n : nat) (c : ascii) (m : nat) (st1 : Store) :
  wf st -> tree st r -> r <= n -> n < _nextId st ->
  child n c st = (m, st1) ->
  grows r st st1 n c m /\
  (forall labels x, walk st1 r labels = Some x -> x < _nextId st ->
     walk st r labels = Some x) /\
  (forall labels x, walk st1 r labels = Some x -> final (node st1 x) = true ->
     walk st r labels = Some x /\ final (node st x) = true).
Proof.
  intros Hwf Htree Hrn Hn. unfold child.
  destruct (edges (node st n) !! c) as [m'|] eqn:Hedge.
  - intros [= <- <-]. split; first by apply grows_refl. by split.
  - rewrite (surjective_pairing (new st)), new_fst. intros Heq.
    pose proof (f_equal fst Heq) as Hm. pose proof (f_equal snd Heq) as Hst1.
    cbn [fst snd] in Hm, Hst1. subst m st1. clear Heq.
    assert (Hne : n <> _nextId st) by lia.
    assert (Hgrows : grows r st (set_edge n c (_nextId st) (new st).2) n c (_nextId st)).
    { apply grows_leaf; try done.
      - rewrite edges_set_edge, decide_True, edges_new by done.
        by rewrite decide_False by done.
      - rewrite edges_set_edge, decide_False by done. by rewrite edges_new, decide_True.
      - intros x Hxn Hx. rewrite edges_set_edge, decide_False by done.
        by rewrite edges_new, decide_False.
      - intros x Hx. rewrite final_set_edge, final_new. by rewrite decide_False.
      - eapply frozen_trans; last (apply frozen_update; lia). apply frozen_new. lia. }
    split; first done.
    destruct Hgrows as (_ & _ & _ & _ & _ & Hnew & _ & Hsame).
    split.
    + intros labels x Hx Hlt. destruct (Hnew labels x Hx) as [?|[-> _]]; [done | lia].
    + intros labels x Hx Hfinal. destruct (Hnew labels x Hx) as [Hold|[-> _]].
      * split; first done. rewrite <-Hsame; first done.
        assert (r < _nextId st) by lia.
        pose proof (walk_lt st r labels x Hwf ltac:(done) Hold). lia.
      * by rewrite final_set_edge, final_new, decide_True in Hfinal.
Qed.

Section Fuzzy.
Variables (st0 : Store) (str0 : word) (editDistance : nat).

Local Abbreviation r := (fuzzy_root st0).
Local Abbreviation sound := (sound st0 str0 editDistance).
Local Abbreviation fuzzy_frame_ok := (fuzzy_frame_ok st0 str0 editDistance).
Local Abbreviation fuzzing := (fuzzing st0 str0 editDistance).
Local Abbreviation fuzzy_part_ok := (fuzzy_part_ok st0 str0 editDistance).

Lemma fuzzing_child (st : Store) (stack : list (nat * nat * word))
    (n : nat) (c : ascii) (m : nat) (st1 : Store) :
  fuzzing st stack -> r <= n -> n < _nextId st ->
  child n c st = (m, st1) ->
  fuzzing st1 stack /\
  r <= m /\ m < _nextId st1 /\ _nextId st <= _nextId st1 /\
  (forall n' e str, n' < _nextId st -> sound st n' e str -> sound st1 n' e str) /\
  (forall e str e' str',
     sound st n e str ->
     (forall t0 x, label_matches c x = true ->
        within (editDistance - e) str0 (t0 ++ str) ->
        within (editDistance - e') str0 ((t0 ++ [x]) ++ str')) ->
     sound st1 m e' str').
Proof.
  intros (Hfrozen & Hnext & Hwf & Htree & Hframes & Hfinals) Hrn Hn Hchild.
  destruct (child_spec st r n c m st1 Hwf Htree Hrn Hn Hchild)
    as ((Hfrozen' & Hnext' & Hwf' & Htree' & Hold & Hnew & Hedge & Hsame) & HW & HF).
  assert (Hpersist : forall n' e str, n' < _nextId st ->
                       sound st n' e str -> sound st1 n' e str).
  { intros n' e str Hn' Hsound labels t Hwalk. apply Hsound. by apply HW. }
  split_and!.
  - refine (conj _ (conj _ (conj Hwf' (conj Htree' (conj _ _))))).
    + by apply (frozen_trans _ _ st).
    + lia.
    + eapply Forall_impl; first done.
      intros [[n' e] str] (Hr' & Hn' & He & Hstar & Hs). cbn [fst snd] in *.
      refine (conj Hr' (conj _ (conj He (conj Hstar _)))); cbn [fst snd];
        [lia | by apply Hpersist].
    + intros labels x t Hx Hfinal. destruct (HF labels x Hx Hfinal).
      by apply (Hfinals labels x).
  - destruct Htree' as [H1 _]. specialize (H1 n c m Hrn Hedge). lia.
  - by destruct (Hwf' n c m Hedge).
  - done.
  - done.
  - intros e str e' str' Hsound Hedit labels t Hwalk Hmatches.
    destruct (walk_child st1 r n c m labels Htree' Hrn Hedge Hwalk) as (labels' & -> & Hn').
    apply matches_snoc_inv in Hmatches as (t0 & x & -> & Ht0 & Hx).
    apply Hedit; first done. apply (Hsound labels' t0); last done. by apply HW.
Qed.

Lemma fuzzing_final (st : Store) (stack : list (nat * nat * word)) (m e : nat) :
  fuzzing st stack -> r <= m -> sound st m e [] ->
  fuzzing (set_final m true st) stack /\
  (forall n' e' str, sound st n' e' str -> sound (set_final m true st) n' e' str).
Proof.
  intros (Hfrozen & Hnext & Hwf & Htree & Hframes & Hfinals) Hm Hsound.
  assert (Hsame : forall x, edges (node (set_final m true st) x) = edges (node st x))
    by (intros x; apply edges_set_final).
  assert (Hpersist : forall n' e' str, sound st n' e' str ->
                       sound (set_final m true st) n' e' str).
  { intros n' e' str Hs labels t. rewrite (walk_ext st) by done. apply Hs. }
  split; last done.
  refine (conj _ (conj Hnext (conj _ (conj _ (conj _ _))))).
  - eapply frozen_trans; first done. by apply frozen_update.
  - by apply (wf_ext st).
  - by apply (tree_ext st).
  - eapply Forall_impl; first done.
    intros [[n' e'] str] (Hr' & Hn' & He & Hstar & Hs). cbn [fst snd] in *.
    refine (conj Hr' (conj Hn' (conj He (conj Hstar _)))). by apply Hpersist.
  - intros labels x t. rewrite (walk_ext st) by done. rewrite final_set_final.
    destruct (decide (m = x)) as [<-|Hne]; last apply Hfinals.
    intros Hwalk _ Hmatches. specialize (Hsound labels t Hwalk Hmatches).
    rewrite app_nil_r in Hsound. apply (within_mono (editDistance - e)); [lia | done].
Qed.

Lemma fuzzing_push (st : Store) (stack : list (nat * nat * word))
    (frame : nat * nat * word) :
  fuzzing st stack -> fuzzy_frame_ok st frame -> fuzzing st (frame :: stack).
Proof.
  intros (Hfrozen & Hnext & Hwf & Htree & Hframes & Hfinals) Hframe.
  refine (conj Hfrozen (conj Hnext (conj Hwf (conj Htree (conj _ Hfinals))))).
  by apply Forall_cons.
Qed.

Lemma fuzzing_nextId (st : Store) (stack : list (nat * nat * word)) :
  fuzzing st stack -> r < _nextId st.
Proof. by intros (_ & ? & _). Qed.

Lemma fuzzing_pop (st : Store) (stack : list (nat * nat * word))
    (frame : nat * nat * word) :
  fuzzing st (frame :: stack) -> fuzzy_frame_ok st frame /\ fuzzing st stack.
Proof.
  intros (Hfrozen & Hnext & Hwf & Htree & Hframes & Hfinals).
  apply Forall_cons in Hframes as [Hframe Hframes]. split; first done.
  by refine (conj Hfrozen (conj Hnext (conj Hwf (conj Htree (conj _ Hfinals))))).
Qed.

(** *** The parts of a turn of the loop *)

(** The part does nothing. *)
Lemma part_skip (n e : nat) (str : word) (st : Store) (stack : list (nat * nat * word)) :
  fuzzing st stack -> sound st n e str ->
  exists st' pushed,
    (st, stack) = (st', pushed ++ stack) /\
    fuzzing st' (pushed ++ stack) /\
    _nextId st <= _nextId st' /\
    sound st' n e str /\
    Forall (fun f => fuzzy_size f < fuzzy_size (n, e, str)) pushed.
Proof. intros Hinv Hsound. exists st, []. by split_and!. Qed.

(** The part takes the child on [c], and makes it final or pushes a
    frame for it. *)
Lemma child_then_ok (n e : nat) (str : word) (c : ascii) (e' : nat) (str' : word)
    (cond : bool) (st : Store) (stack : list (nat * nat * word)) :
  fuzzing st stack -> r <= n -> n < _nextId st -> sound st n e str ->
  (forall t0 x, label_matches c x = true ->
     within (editDistance - e) str0 (t0 ++ str) ->
     within (editDistance - e') str0 ((t0 ++ [x]) ++ str')) ->
  e' <= editDistance -> wildcardChar ∉ str' -> (cond = true -> str' = []) ->
  length str' + 2 * e' < length str + 2 * e ->
  exists st' pushed,
    (let '(m, st1) := child n c st in
     if cond then (set_final m true st1, stack)
     else (st1, (m, e', str') :: stack)) = (st', pushed ++ stack) /\
    fuzzing st' (pushed ++ stack) /\
    _nextId st <= _nextId st' /\
    sound st' n e str /\
    Forall (fun f => fuzzy_size f < fuzzy_size (n, e, str)) pushed.
Proof.
  intros Hinv Hrn Hn Hsound Hedit He' Hstar' Hcond Hsize.
  destruct (child n c st) as [m st1] eqn:Hchild.
  destruct (fuzzing_child st stack n c m st1 Hinv Hrn Hn Hchild)
    as (Hinv1 & Hm & Hmlt & Hnext1 & Hpersist & Htransfer).
  pose proof (Htransfer e str e' str' Hsound Hedit) as Hsound_m.
  destruct cond.
  - rewrite (Hcond eq_refl) in Hsound_m.
    destruct (fuzzing_final st1 stack m e' Hinv1 Hm Hsound_m) as [Hinv2 Hpersist2].
    exists (set_final m true st1), []. split_and!; try done.
    by apply Hpersist2, Hpersist.
  - exists st1, [(m, e', str')]. split_and!; try done.
    + apply fuzzing_push; first done. by split_and!.
    + by apply Hpersist.
    + apply Forall_singleton. unfold fuzzy_size. cbn [fst snd]. lia.
Qed.

Lemma noEdit_ok : fuzzy_part_ok fuzzy_noEdit.
Proof.
  intros n e str st stack Hinv Hrn Hn He Hstar Hsound. unfold fuzzy_noEdit.
  destruct str as [|char rest]; first by apply part_skip.
  assert (Hchar : char <> wildcardChar).
  { intros ->. apply Hstar. by left. }
  assert (Hrest : wildcardChar ∉ rest).
  { intros Hin. apply Hstar. by right. }
  destruct (child n char st) as [m st1] eqn:Hchild.
  destruct (fuzzing_child st stack n char m st1 Hinv Hrn Hn Hchild)
    as (Hinv1 & Hm & Hmlt & Hnext1 & Hpersist & Htransfer).
  assert (Hsound_m : sound st1 m e rest).
  { apply (Htransfer e (char :: rest)); first done.
    intros t0 x ->%label_matches_eq; last done. by rewrite <-(assoc_L (++)). }
  destruct rest as [|char2 rest]; cbn [length Nat.eqb].
  - destruct (fuzzing_final st1 stack m e Hinv1 Hm Hsound_m) as [Hinv2 Hpersist2].
    exists (set_final m true st1), [(m, e, [])]. split_and!; try done.
    + apply fuzzing_push; first done. split_and!; try done. by apply Hpersist2.
    + by apply Hpersist2, Hpersist.
    + apply Forall_singleton. unfold fuzzy_size. cbn [fst snd length]. lia.
  - exists st1, [(m, e, char2 :: rest)]. split_and!; try done.
    + apply fuzzing_push; first done. by split_and!.
    + by apply Hpersist.
    + apply Forall_singleton. unfold fuzzy_size. cbn [fst snd length]. lia.
Qed.

Lemma deletion_ok : fuzzy_part_ok fuzzy_deletion.
Proof.
  intros n e str st stack Hinv Hrn Hn He Hstar Hsound. unfold fuzzy_deletion.
  destruct str as [|a [|char rest]]; try by apply part_skip.
  destruct (0 <? e) eqn:He0; last by apply part_skip.
  apply Nat.ltb_lt in He0.
  apply child_then_ok; try done.
  - intros t0 x ->%label_matches_eq Hw.
    + apply (within_edit (editDistance - e) _ _ (t0 ++ a :: char :: rest)); [lia | done |].
      rewrite <-(assoc_L (++)). apply edit_deletion.
    + intros ->. apply Hstar. right. by left.
  - lia.
  - intros Hin. apply Hstar. right. by right.
  - destruct rest; [done | by cbn].
  - cbn [length]. lia.
Qed.

Lemma lastDeletion_ok : fuzzy_part_ok fuzzy_lastDeletion.
Proof.
  intros n e str st stack Hinv Hrn Hn He Hstar Hsound. unfold fuzzy_lastDeletion.
  destruct ((0 <? e) && (length str =? 1)) eqn:Hcond; last by apply part_skip.
  apply andb_prop in Hcond as [He0%Nat.ltb_lt Hlen%Nat.eqb_eq].
  destruct str as [|a [|? ?]]; try done.
  assert (Hsound' : sound st n (e - 1) []).
  { intros labels t Hwalk Hmatches.
    apply (within_edit (editDistance - e) _ _ (t ++ [a])); first lia.
    - by apply (Hsound labels t).
    - apply edit_deletion. }
  destruct (fuzzing_final st stack n (e - 1) Hinv Hrn Hsound') as [Hinv' Hpersist].
  exists (set_final n true st), []. split_and!; try done. by apply Hpersist.
Qed.

Lemma substitution_ok : fuzzy_part_ok fuzzy_substitution.
Proof.
  intros n e str st stack Hinv Hrn Hn He Hstar Hsound. unfold fuzzy_substitution.
  destruct ((0 <? e) && (1 <=? length str)) eqn:Hcond; last by apply part_skip.
  apply andb_prop in Hcond as [He0%Nat.ltb_lt Hlen%Nat.leb_le].
  destruct str as [|a rest]; first (simpl in Hlen; lia).
  apply child_then_ok; try done.
  - intros t0 x _ Hw.
    apply (within_edit (editDistance - e) _ _ (t0 ++ a :: rest)); [lia | done |].
    rewrite <-(assoc_L (++)). apply edit_substitution.
  - lia.
  - intros Hin. apply Hstar. by right.
  - destruct rest; [done | by cbn].
  - cbn [length drop]. rewrite drop_0. lia.
Qed.

Lemma insertion_ok : fuzzy_part_ok fuzzy_insertion.
Proof.
  intros n e str st stack Hinv Hrn Hn He Hstar Hsound. unfold fuzzy_insertion.
  destruct (0 <? e) eqn:He0; last by apply part_skip.
  apply Nat.ltb_lt in He0.
  apply child_then_ok; try done.
  - intros t0 x _ Hw.
    apply (within_edit (editDistance - e) _ _ (t0 ++ str)); [lia | done |].
    rewrite <-(assoc_L (++)). apply edit_insertion.
  - lia.
  - destruct str; [done | by cbn].
  - lia.
Qed.

Lemma transposition_ok : fuzzy_part_ok fuzzy_transposition.
Proof.
  intros n e str st stack Hinv Hrn Hn He Hstar Hsound. unfold fuzzy_transposition.
  destruct str as [|a [|b rest]]; try by apply part_skip.
  destruct (0 <? e) eqn:He0; last by apply part_skip.
  apply Nat.ltb_lt in He0.
  apply child_then_ok; try done.
  - intros t0 x ->%label_matches_eq Hw.
    + apply (within_edit (editDistance - e) _ _ (t0 ++ a :: b :: rest)); [lia | done |].
      rewrite <-(assoc_L (++)). apply edit_transposition.
    + intros ->. apply Hstar. right. by left.
  - lia.
  - intros [<-|Hin]%elem_of_cons; apply Hstar; [by left | right; by right].
  - cbn [length]. lia.
Qed.

Lemma part_ok_compose
    (part1 part2 : nat * nat * word -> Store * list (nat * nat * word) ->
                   Store * list (nat * nat * word)) :
  fuzzy_part_ok part1 -> fuzzy_part_ok part2 ->
  fuzzy_part_ok (fun frame acc => part2 frame (part1 frame acc)).
Proof.
  intros H1 H2 n e str st stack Hinv Hrn Hn He Hstar Hsound.
  destruct (H1 n e str st stack Hinv Hrn Hn He Hstar Hsound)
    as (st1 & fs1 & Heq1 & Hinv1 & Hnext1 & Hsound1 & Hsize1).
  destruct (H2 n e str st1 (fs1 ++ stack) Hinv1 Hrn ltac:(lia) He Hstar Hsound1)
    as (st2 & fs2 & Heq2 & Hinv2 & Hnext2 & Hsound2 & Hsize2).
  exists st2, (fs2 ++ fs1). rewrite Heq1, Heq2, <-(assoc_L (++)).
  split_and!; try done; [lia | by apply Forall_app].
Qed.

(** A turn of the loop. *)
Lemma fuzzy_step_ok (frame : nat * nat * word) (st : Store)
    (stack : list (nat * nat * word)) :
  fuzzing st (frame :: stack) ->
  exists st' pushed,
    fuzzy_step frame st stack = (st', pushed ++ stack) /\
    fuzzing st' (pushed ++ stack) /\
    Forall (fun f => fuzzy_size f < fuzzy_size frame) pushed.
Proof.
  intros [(Hrn & Hn & He & Hstar & Hsound) Hinv]%fuzzing_pop.
  destruct frame as [[n e] str]. cbn [fst snd] in *.
  destruct (part_ok_compose _ _
              (part_ok_compose _ _
                 (part_ok_compose _ _
                    (part_ok_compose _ _
                       (part_ok_compose _ _ noEdit_ok deletion_ok)
                       lastDeletion_ok)
                    substitution_ok)
                 insertion_ok)
              transposition_ok n e str st stack Hinv Hrn Hn He Hstar Hsound)
    as (st' & pushed & Heq & Hinv' & _ & _ & Hsize).
  by exists st', pushed.
Qed.

(** *** The loop returns *)

Lemma fuzzy_frames (size : nat) :
  forall (fs stack : list (nat * nat * word)) (st : Store),
    fuzzing st (fs ++ stack) ->
    Forall (fun f => fuzzy_size f < size) fs ->
    exists j st',
      (forall fuel, fuzzy_loop (j + fuel) st (fs ++ stack) = fuzzy_loop fuel st' stack) /\
      fuzzing st' stack.
Proof.
  induction size as [|size IHsize]; intros fs.
  - intros stack st Hinv Hfs. destruct fs as [|f fs]; first by exists 0, st.
    apply Forall_cons in Hfs as [Hf _]. lia.
  - induction fs as [|f fs IHfs]; intros stack st Hinv Hfs; first by exists 0, st.
    apply Forall_cons in Hfs as [Hf Hfs].
    change ((f :: fs) ++ stack) with (f :: (fs ++ stack)) in *.
    destruct (fuzzy_step_ok f st (fs ++ stack) Hinv) as (st1 & fs1 & Hstep & Hinv1 & Hfs1).
    destruct (IHsize fs1 (fs ++ stack) st1 Hinv1) as (j1 & st2 & Hloop1 & Hinv2).
    { eapply Forall_impl; first done. intros f'. cbn beta. lia. }
    destruct (IHfs stack st2 Hinv2 Hfs) as (j2 & st' & Hloop2 & Hinv').
    exists (S (j1 + j2)), st'. split; last done.
    intros fuel. cbn [Nat.add fuzzy_loop].
    by rewrite Hstep, <-(assoc_L Nat.add), Hloop1, Hloop2.
Qed.

(** [TokenSet.fromFuzzyString(str0, editDistance)] returns, and takes
    only strings within [editDistance] edits of [str0], when [str0] has
    no ['*']. *)
Lemma fromFuzzyString_returns :
  wf st0 -> wildcardChar ∉ str0 ->
  exists j st',
    (forall fuel, j <= fuel ->
       fromFuzzyString fuel str0 editDistance st0 = Some (r, st')) /\
    wf st' /\ r < _nextId st' /\ frozen r st0 st' /\
    forall t, takes st' r t -> within editDistance str0 t.
Proof.
  intros Hwf0 Hstar.
  assert (Hwalk : forall labels m, walk (new st0).2 r labels = Some m ->
                    labels = [] /\ m = r).
  { intros [|c labels] m; cbn [walk]; first by intros [= <-].
    by rewrite edges_new, decide_True, lookup_empty. }
  destruct (fuzzy_frames (S (fuzzy_size (r, editDistance, str0)))
              [(r, editDistance, str0)] [] (new st0).2) as (j & st' & Hloop & Hinv).
  { refine (conj _ (conj _ (conj _ (conj _ (conj _ _))))).
    - by apply frozen_new.
    - rewrite nextId_new. unfold fuzzy_root. lia.
    - intros n c m. rewrite edges_new, nextId_new.
      destruct (decide (_nextId st0 = n)); first by rewrite lookup_empty.
      intros Hm. destruct (Hwf0 n c m Hm). lia.
    - split.
      + intros n c m Hn. rewrite edges_new.
        destruct (decide (_nextId st0 = n)); first by rewrite lookup_empty.
        intros Hm. destruct (Hwf0 n c m Hm). unfold fuzzy_root in Hn. lia.
      + intros n1 c1 n2 c2 m Hn1 _. rewrite edges_new.
        destruct (decide (_nextId st0 = n1)); first by rewrite lookup_empty.
        intros Hm. destruct (Hwf0 n1 c1 m Hm). unfold fuzzy_root in Hn1. lia.
    - apply Forall_singleton.
      refine (conj _ (conj _ (conj _ (conj Hstar _)))); cbn [fst snd]; try done.
      + rewrite nextId_new. unfold fuzzy_root. lia.
      + intros labels t [-> _]%Hwalk ->%Forall2_nil_inv_l.
        rewrite Nat.sub_diag. by cbn.
    - intros labels n t [-> ->]%Hwalk. by rewrite final_new, decide_True. }
  { repeat constructor. }
  destruct Hinv as (Hfrozen & Hnext & Hwf & Htree & _ & Hfinals).
  exists j, st'. split_and!; try done.
  - intros fuel Hfuel. unfold fromFuzzyString.
    rewrite (surjective_pairing (new st0)), new_fst.
    replace fuel with (j + (fuel - j)) by lia.
    change [(_nextId st0, editDistance, str0)] with ([(r, editDistance, str0)] ++ []).
    rewrite Hloop. by destruct (fuel - j).
  - intros t (labels & Hmatches & Ha). unfold accepts in Ha.
    destruct (walk st' r labels) as [m|] eqn:Hm; last done.
    by apply (Hfinals labels m t).
Qed.

End Fuzzy.

End FuzzyFacts.

(** ** Patterns and fuzzy strings against a vocabulary *)

Module ExpandFacts.
Import TokenSet Language StoreFacts TreeFacts ToArrayFacts IntersectFacts FromStringFacts.
Import FuzzyFacts.

Lemma wf_initial : wf initial.
Proof. intros n c m. unfold node, initial. simpl. by rewrite lookup_total_empty. Qed.

(** C3, as the code has it: against the token set of the sorted
    vocabulary [V], the pattern [p] returns the strings that are not
    empty, are strings of that token set, and match [p], where ['*']
    matches any sequence of characters. *)
Theorem pattern_returns_the_matching_words (V : list word) (p : word) (st : Store) :
  wf st ->
  exists k words0 words,
    forall fuel, k <= fuel ->
      Expand.vocabulary fuel V st = Some words0 /\
      Expand.pattern fuel V p st = Some words /\
      forall s, s ∈ words <-> s <> [] /\ s ∈ words0 /\ glob p s = true.
Proof.
  intros Hwf. unfold Expand.vocabulary, Expand.pattern.
  destruct (BuildFacts.fromArray_returns (js_sort V) st Hwf (BuildFacts.js_sort_ascending V))
    as (idx & st1 & d & -> & Hwf1 & Hidx & Hd & _).
  destruct (toArray_returns st1 d idx Hd) as (k0 & words0 & Hwords0 & Hin0).
  destruct (fromString_spec p st1 Hwf1) as (Hq & Hwf2 & Hnext2 & Hfrozen2 & Htakes).
  destruct (fromString p st1) as [q st2]. simpl in Hq, Hwf2, Hnext2, Hfrozen2, Htakes.
  subst q.
  destruct (intersect_returns st2 idx (_nextId st1) Hwf2 ltac:(lia) Hnext2 d)
    as (k1 & st3 & Hintersect & Hwf3 & Hout & Hd3 & _ & Haccepts).
  { by apply (bounded_frozen (_nextId st1) st1 st2). }
  destruct (toArray_returns st3 d (output st2) Hd3) as (k2 & words & Hwords & Hin).
  exists (k0 + k1 + k2), words0, words. intros fuel Hfuel.
  rewrite Hwords0, Hintersect, Hwords by lia.
  split; first done. split; first done.
  intros s. rewrite Hin, Haccepts, Hin0.
  rewrite (accepts_frozen (_nextId st1) st1 st2) by done.
  split.
  - intros (Hs & Ha & Ht). split; first done. split; first done. by apply Htakes.
  - intros (Hs & Ha & Hg). split; first done. split; first done. by apply Htakes.
Qed.

(** The theorem at the vocabulary of [Examples.vocabulary_store]. *)
Lemma pattern_witness :
  exists k words0 words,
    forall fuel, k <= fuel ->
      Expand.vocabulary fuel [w "cat"; w "dog"] initial = Some words0 /\
      Expand.pattern fuel [w "cat"; w "dog"] (w "c*") initial = Some words /\
      forall s, s ∈ words <-> s <> [] /\ s ∈ words0 /\ glob (w "c*") s = true.
Proof. apply (pattern_returns_the_matching_words _ _ initial). apply wf_initial. Defined.

(** C3, as the specification has it, fails for the empty string: it is in
    the vocabulary and matches ["*"], and is not returned. *)
Lemma pattern_misses_the_empty_string :
  Expand.vocabulary 8 [w ""] initial = Some [w ""] /\
  glob (w "*") (w "") = true /\
  Expand.pattern 8 [w ""] (w "*") initial = Some [].
Proof. by vm_compute. Qed.

(** C4, as the code has it: against the token set of the sorted
    vocabulary [V], a fuzzy string [s] without ['*'] and with edit
    distance [k] returns, and returns only strings within [k] edits
    (insertions, deletions, substitutions, transpositions of adjacent
    characters) of [s]. *)
Theorem fuzzy_returns_words_within_the_distance (V : list word) (s : word) (k : nat)
    (st : Store) :
  wf st -> wildcardChar ∉ s ->
  exists j words,
    (forall fuel, j <= fuel -> Expand.fuzzy fuel V s k st = Some words) /\
    forall t, t ∈ words -> within k s t.
Proof.
  intros Hwf Hstar. unfold Expand.fuzzy.
  destruct (BuildFacts.fromArray_returns (js_sort V) st Hwf (BuildFacts.js_sort_ascending V))
    as (idx & st1 & d & -> & Hwf1 & Hidx & Hd & _).
  destruct (fromFuzzyString_returns st1 s k Hwf1 Hstar)
    as (j0 & st2 & Hfuzzy & Hwf2 & Hnext2 & Hfrozen2 & Htakes).
  unfold fuzzy_root in *.
  destruct (intersect_returns st2 idx (_nextId st1) Hwf2 ltac:(lia) Hnext2 d)
    as (j1 & st3 & Hintersect & Hwf3 & Hout & Hd3 & _ & Haccepts).
  { by apply (bounded_frozen (_nextId st1) st1 st2). }
  destruct (toArray_returns st3 d (output st2) Hd3) as (j2 & words & Hwords & Hin).
  exists (j0 + j1 + j2), words. split.
  - intros fuel Hfuel. by rewrite Hfuzzy, Hintersect, Hwords by lia.
  - intros t (_ & _ & Ht)%Hin%Haccepts. by apply Htakes.
Qed.

(** The theorem at a vocabulary of two words and the fuzzy string [cot]
    with edit distance 1. *)
Lemma fuzzy_witness :
  exists j words,
    (forall fuel, j <= fuel ->
       Expand.fuzzy fuel [w "cat"; w "dog"] (w "cot") 1 initial = Some words) /\
    forall t, t ∈ words -> within 1 (w "cot") t.
Proof.
  apply (fuzzy_returns_words_within_the_distance _ _ _ initial).
  - apply wf_initial.
  - apply (bool_decide_unpack _). by vm_compute.
Defined.

(** C4, as the specification has it, fails for a fuzzy string that holds
    ['*']: the character is an edge that matches every character, so with
    edit distance 0 the string ["*"] returns the word [a], which is one
    substitution away. *)
Lemma fuzzy_star_matches_any_character :
  Expand.fuzzy 8 [w "a"] (w "*") 0 initial = Some [w "a"] /\
  ~ within 0 (w "*") (w "a").
Proof. split; [by vm_compute | by intros [=]]. Qed.

(** The expansion of a clause for a string without edit distance, against
    a token set without cycles: it returns, and returns the strings of the
    token set that are not empty and match the string of the clause. *)
Lemma expand_string_returns (st : Store) (tokenSet d : nat) (c : Query.Clause) (s : word) :
  wf st -> tokenSet < _nextId st -> bounded st d tokenSet ->
  Query.term c = Query.string_term s -> Query.editDistance c = None ->
  exists k es,
    (forall fuel, k <= fuel -> Expand.expand fuel st tokenSet c = Some es) /\
    forall e, e ∈ es <-> e <> [] /\ accepts st tokenSet e = true /\ glob s e = true.
Proof.
  intros Hwf Hroot Hd Hterm Hedit. unfold Expand.expand, Expand.fromClause.
  rewrite Hterm, Hedit.
  destruct (fromString_spec s st Hwf) as (Hq & Hwf1 & Hnext1 & Hfrozen1 & Htakes).
  destruct (fromString s st) as [q st1]. simpl in Hq, Hwf1, Hnext1, Hfrozen1, Htakes.
  subst q.
  destruct (intersect_returns st1 tokenSet (_nextId st) Hwf1 ltac:(lia) Hnext1 d)
    as (k1 & st2 & Hintersect & Hwf2 & Hout & Hd2 & _ & Haccepts).
  { by apply (bounded_frozen (_nextId st) st st1). }
  destruct (toArray_returns st2 d (output st1) Hd2) as (k2 & es & Hes & Hin).
  exists (k1 + k2), es. split.
  - intros fuel Hfuel. cbn [mbind option_bind]. rewrite Hintersect by lia.
    cbn [mbind option_bind]. apply Hes. lia.
  - intros e. rewrite Hin, Haccepts.
    rewrite (accepts_frozen (_nextId st) st st1) by done.
    split.
    + intros (He & Ha & Ht). split; first done. split; first done. by apply Htakes.
    + intros (He & Ha & Hg). split; first done. split; first done. by apply Htakes.
Qed.

End ExpandFacts.

Module NumberMapFacts.
Import NumberMap Examples.

(** C1, at the failing input: on the number map with the values 4 and 5,
    [matchRange(5, 5)] resolves both endpoints to index 1 and collects no
    token, so the token set it returns is empty; and [matchRange(4.5, 5.5)]
    starts at index 2, one past the first value that is at least 4.5.
    The query [q.range(5, 5, {fields: ["wordCount"]})] on the index of the
    documents a, b and c, whose word counts are 5, 4 and 5, returns no
    document. *)
Theorem matchRange_5_5_collects_nothing :
  run_query [range_5_5] = Some [] /\
  matchRange_indices wordCount_map (Some 5%float) (Some 5%float) = Some (1, 1)%Z /\
  collected wordCount_map 1 1 = [] /\
  matchRange_words 8 wordCount_map (Some 5%float) (Some 5%float) = Some [] /\
  matchRange_indices wordCount_map (Some 4.5%float) (Some 5.5%float) = Some (2, 2)%Z /\
  matchRange_words 8 wordCount_map (Some 4.5%float) (Some 5.5%float) = Some [].
Proof. repeat split; by vm_compute. Qed.

End NumberMapFacts.

Module LunrSetFacts.
Import LunrSet.

Lemma loaded_initial : loaded = Some initial.
Proof. reflexivity. Qed.

Lemma initialized_initial : initialized initial.
Proof.
  repeat split; try done.
  all: destruct a as [|[|a]]; simpl in *; simplify_eq; done.
Qed.

(** A set that user code constructs is [Set.empty] or a new object of the
    base class; the store stays initialised. *)
Lemma constructor_initialized (els : Elements) (st st' : Store) (a : nat) :
  initialized st -> constructor BaseSet els st = (a, st') -> initialized st'.
Proof.
  intros Hinit Hnew. pose proof Hinit as (Hc & He & H0 & H1 & Huniq).
  assert (Halloc : forall o, cls o = BaseSet -> initialized (alloc o st).2).
  { intros o Ho. unfold alloc; simpl.
    split; first done. split; first done.
    split; first by apply lookup_app_l_Some.
    split; first by apply lookup_app_l_Some.
    intros b o' Hb. simpl in Hb.
    apply lookup_app_Some in Hb as [Hb|[_ Hb]]; first by eapply Huniq.
    apply list_lookup_singleton_Some in Hb as [_ <-]. split; congruence. }
  unfold constructor in Hnew. rewrite Hc, He in Hnew. simpl in Hnew.
  destruct els as [|l|].
  - by injection Hnew as <- <-.
  - destruct (List.length l =? 0).
    + by injection Hnew as <- <-.
    + specialize (Halloc (mkObj BaseSet (Some (list_to_set l)) (Some (List.length l))) eq_refl).
      by rewrite Hnew in Halloc.
  - by injection Hnew as <- <-.
Qed.

(** C10: once the module is loaded, [new Set()] and [new Set([])] return
    [Set.empty] itself and create no object; [Set.empty] contains nothing;
    and [intersect] and [union] answer an empty operand with one of their
    operands, again without creating an object. *)
Theorem new_Set_of_nothing_is_Set_empty (st : Store) (els : Elements) :
  initialized st ->
  els = absent \/ els = array [] ->
  constructor BaseSet els st = (empty, st) /\
  (forall x, contains st empty x = false) /\
  (forall this o, objects st !! this = Some o ->
     intersect this empty st = (empty, st) /\
     intersect empty this st = (empty, st) /\
     union this empty st = (this, st) /\
     union empty this st = (this, st)).
Proof.
  intros (Hc & He & H0 & H1 & Huniq) Hels.
  assert (Hobj : obj st empty = mkObj EmptySet None None)
    by (unfold obj; by rewrite H1).
  split; [|split].
  - by destruct Hels as [-> | ->].
  - intros x. unfold contains. by rewrite Hobj.
  - intros this o Hthis.
    assert (Ho : obj st this = o) by (unfold obj; by rewrite Hthis).
    destruct (Huniq _ _ Hthis) as [_ Hempty].
    unfold intersect, union. rewrite Hobj, Ho. simpl.
    destruct (cls o) eqn:Hcls; simpl; try done.
    by rewrite (Hempty eq_refl).
Qed.

(** The theorem at the store of a freshly loaded module and at a set with
    one element. *)
Lemma new_Set_of_nothing_witness :
  let st := (constructor BaseSet (array [w "a"]) initial).2 in
  constructor BaseSet (array []) st = (empty, st) /\
  (forall x, contains st empty x = false) /\
  (forall this o, objects st !! this = Some o ->
     intersect this empty st = (empty, st) /\
     intersect empty this st = (empty, st) /\
     union this empty st = (this, st) /\
     union empty this st = (this, st)).
Proof.
  intros st.
  apply (new_Set_of_nothing_is_Set_empty st (array [])).
  - eapply (constructor_initialized (array [w "a"]) initial).
    + exact initialized_initial.
    + reflexivity.
  - by right.
Defined.

(** *** The contents of the sets that the operations return *)

Lemma extends_refl (st : Store) : extends st st.
Proof. exists []. by rewrite app_nil_r. Qed.

Lemma extends_trans (st1 st2 st3 : Store) :
  extends st1 st2 -> extends st2 st3 -> extends st1 st3.
Proof.
  intros [m1 H1] [m2 H2]. exists (m1 ++ m2). by rewrite H2, H1, app_assoc.
Qed.

Lemma valid_extends (st st' : Store) (a : nat) :
  extends st st' -> valid st a -> valid st' a.
Proof.
  intros [more H] Ha. unfold valid in *. rewrite H, length_app. lia.
Qed.

Lemma obj_extends (st st' : Store) (a : nat) :
  extends st st' -> valid st a -> obj st' a = obj st a.
Proof.
  intros [more H] Ha. unfold obj. by rewrite H, lookup_app_l.
Qed.

Lemma contains_extends (st st' : Store) (a : nat) (x : word) :
  extends st st' -> valid st a -> contains st' a x = contains st a x.
Proof.
  intros Hext Ha. unfold contains, has. by rewrite (obj_extends st st' a Hext Ha).
Qed.

Lemma initialized_valid (st : Store) :
  initialized st -> valid st complete /\ valid st empty.
Proof.
  intros (_ & _ & H0 & H1 & _). split; by eapply lookup_lt_Some.
Qed.

Lemma contains_complete (st : Store) (x : word) :
  initialized st -> contains st complete x = true.
Proof. intros (_ & _ & H0 & _). unfold contains, obj. by rewrite H0. Qed.

Lemma contains_empty (st : Store) (x : word) :
  initialized st -> contains st empty x = false.
Proof. intros (_ & _ & _ & H1 & _). unfold contains, obj. by rewrite H1. Qed.

Lemma obj_valid (st : Store) (a : nat) :
  valid st a -> objects st !! a = Some (obj st a).
Proof.
  intros Ha. apply lookup_lt_is_Some_2 in Ha as [o Ho]. unfold obj. by rewrite Ho.
Qed.

(** [new Set(l)]: the set holds the elements of [l]. *)
Lemma constructor_spec (l : list word) (st st' : Store) (a : nat) :
  initialized st -> constructor BaseSet (array l) st = (a, st') ->
  initialized st' /\ extends st st' /\ valid st' a /\
  forall x, contains st' a x = bool_decide (x ∈ l).
Proof.
  intros Hinit Hnew.
  pose proof (constructor_initialized _ _ _ _ Hinit Hnew) as Hinit'.
  split; first done.
  unfold constructor in Hnew.
  destruct (List.length l =? 0) eqn:Hlen.
  - injection Hnew as <- <-. split; first apply extends_refl.
    split; first by apply initialized_valid.
    intros x. rewrite (contains_empty st x Hinit).
    apply Nat.eqb_eq in Hlen. destruct l; [|done].
    symmetry. apply bool_decide_eq_false. apply not_elem_of_nil.
  - unfold alloc in Hnew. injection Hnew as <- <-.
    split; first by eexists.
    split; first (unfold valid; simpl; rewrite length_app; simpl; lia).
    intros x. unfold contains, has, obj. simpl.
    rewrite lookup_app_r by done. rewrite Nat.sub_diag. simpl.
    apply bool_decide_ext. apply elem_of_list_to_set.
Qed.

(** [this.union(other)]: the set holds the elements of both. *)
Lemma union_spec (this other : nat) (st st' : Store) (a : nat) :
  initialized st -> valid st this -> valid st other ->
  union this other st = (a, st') ->
  initialized st' /\ extends st st' /\ valid st' a /\
  forall x, contains st' a x = contains st this x || contains st other x.
Proof.
  intros Hinit Hthis Hother Hun.
  pose proof Hinit as (_ & _ & _ & _ & Huniq).
  pose proof (initialized_valid st Hinit) as [Hvc Hve].
  unfold union in Hun.
  destruct (cls (obj st this)) eqn:Hcls.
  - injection Hun as <- <-. refine (conj _ (conj _ (conj _ _))); [done | apply extends_refl | done |].
    intros x. unfold contains at 1 2. by rewrite Hcls.
  - injection Hun as <- <-. refine (conj _ (conj _ (conj _ _))); [done | apply extends_refl | done |].
    intros x. unfold contains at 2. by rewrite Hcls.
  - destruct (other =? complete) eqn:Hoc.
    { injection Hun as <- <-. refine (conj _ (conj _ (conj _ _))); [done | apply extends_refl | done |].
      intros x. apply Nat.eqb_eq in Hoc as ->.
      by rewrite (contains_complete st x Hinit), orb_true_r. }
    destruct (other =? empty) eqn:Hoe.
    { injection Hun as <- <-. refine (conj _ (conj _ (conj _ _))); [done | apply extends_refl | done |].
      intros x. apply Nat.eqb_eq in Hoe as ->.
      by rewrite (contains_empty st x Hinit), orb_false_r. }
    destruct (constructor_spec _ _ _ _ Hinit Hun) as (Hi & He & Hv & Hc).
    refine (conj _ (conj _ (conj _ _))); try done.
    intros x. rewrite Hc.
    assert (Hbase : cls (obj st other) = BaseSet).
    { apply Nat.eqb_neq in Hoc, Hoe.
      destruct (Huniq other (obj st other) (obj_valid st other Hother)) as [H1 H2].
      destruct (cls (obj st other)); [by destruct Hoc; apply H1 | by destruct Hoe; apply H2 | done]. }
    unfold contains. rewrite Hcls, Hbase. unfold has, keys.
    destruct (bool_decide (x ∈ _ ++ _)) eqn:Hd.
    + apply bool_decide_eq_true in Hd. apply elem_of_app in Hd as [Hd|Hd];
        apply elem_of_elements in Hd; symmetry; apply orb_true_iff;
        [left | right]; by apply bool_decide_eq_true.
    + apply bool_decide_eq_false in Hd. symmetry. apply orb_false_iff.
      split; apply bool_decide_eq_false; intros Hin; apply Hd, elem_of_app;
        [left | right]; by apply elem_of_elements.
Qed.

End LunrSetFacts.

Module JsObjectFacts.
Import JsObject.

Lemma number_not_digit (k1 k2 : word) (c : ascii) (acc : N) :
  digit c = None -> number (k1 ++ c :: k2) acc = None.
Proof.
  intros Hc. revert acc. induction k1 as [|d k1 IH]; intros acc; simpl.
  - by rewrite Hc.
  - destruct (digit d); simpl; [apply IH | done].
Qed.

(** A key that holds a character other than a digit is no array index. *)
Lemma array_index_not_digit (k1 k2 : word) (c : ascii) :
  digit c = None -> array_index (k1 ++ c :: k2) = None.
Proof.
  intros Hc. unfold array_index.
  destruct k1 as [|d k1].
  - simpl. destruct (decide (c = "0"%char)) as [->|_]; first done.
    by rewrite Hc.
  - rewrite <- app_comm_cons.
    destruct (decide (d = "0"%char)) as [->|_].
    + by destruct k1.
    + rewrite app_comm_cons. by rewrite (number_not_digit (d :: k1) k2 c 0 Hc).
Qed.

Lemma set_fresh {V : Type} (k : word) (v : V) (o : t V) :
  array_index k = None -> k ∉ keys o -> set k v o = o ++ [(k, v)].
Proof.
  intros Hk. unfold keys. induction o as [|[k' v'] o IH]; simpl; first done.
  intros Hnotin. apply not_elem_of_cons in Hnotin as [Hne Hnotin].
  destruct (decide (k = k')); first done.
  unfold before. rewrite Hk. by rewrite IH.
Qed.

Lemma set_last {V : Type} (k : word) (v v' : V) (o : t V) :
  array_index k = None -> k ∉ keys o -> set k v' (o ++ [(k, v)]) = o ++ [(k, v')].
Proof.
  intros Hk. unfold keys. induction o as [|[k0 v0] o IH]; simpl.
  - intros _. by destruct (decide (k = k)).
  - intros Hnotin. apply not_elem_of_cons in Hnotin as [Hne Hnotin].
    destruct (decide (k = k0)); first done.
    unfold before. rewrite Hk. by rewrite IH.
Qed.

Lemma get_last {V : Type} (k : word) (v : V) (o : t V) :
  k ∉ keys o -> get k (o ++ [(k, v)]) = Some v.
Proof.
  unfold keys. induction o as [|[k0 v0] o IH]; simpl.
  - intros _. by destruct (decide (k = k)).
  - intros Hnotin. apply not_elem_of_cons in Hnotin as [Hne Hnotin].
    destruct (decide (k = k0)); first done. by apply IH.
Qed.

Lemma get_set_eq {V : Type} (k : word) (v : V) (o : t V) :
  get k (set k v o) = Some v.
Proof.
  induction o as [|[k' v'] o IH]; simpl.
  - by rewrite decide_True.
  - destruct (decide (k = k')) as [->|Hne]; simpl.
    + by rewrite decide_True.
    + destruct (before k k'); simpl.
      * by rewrite decide_True.
      * by rewrite decide_False.
Qed.

Lemma get_set_ne {V : Type} (k k0 : word) (v : V) (o : t V) :
  k0 <> k -> get k0 (set k v o) = get k0 o.
Proof.
  intros Hne. induction o as [|[k' v'] o IH]; simpl.
  - by rewrite decide_False.
  - destruct (decide (k = k')) as [->|Hne']; simpl.
    + by rewrite !decide_False.
    + destruct (before k k'); simpl.
      * by rewrite (decide_False (P := k0 = k)).
      * destruct (decide (k0 = k')); [done | exact IH].
Qed.

Lemma get_key {V : Type} (k : word) (o : t V) :
  k ∈ keys o -> is_Some (get k o).
Proof.
  unfold keys. induction o as [|[k' v'] o IH]; simpl.
  - intros H. by apply elem_of_nil in H.
  - intros H. destruct (decide (k = k')); first by eexists.
    apply elem_of_cons in H as [->|H]; [done | by apply IH].
Qed.

End JsObjectFacts.

Module FieldRefFacts.
Import FieldRef.

Lemma split_toString (f r : word) :
  joiner ∉ f -> split (f ++ joiner :: r) = Some (f, r).
Proof.
  induction f as [|c f IH]; simpl; intros Hf.
  - by destruct (decide (joiner = joiner)).
  - apply not_elem_of_cons in Hf as [Hc Hf].
    destruct (decide (c = joiner)) as [->|_]; first done.
    by rewrite (IH Hf).
Qed.

Lemma fromString_toString (r : FieldRef) :
  joiner ∉ fieldName r -> fromString (toString r) = Some r.
Proof.
  intros Hf. unfold fromString, toString. rewrite (split_toString _ _ Hf).
  by destruct r.
Qed.

Lemma toString_inj (r1 r2 : FieldRef) :
  joiner ∉ fieldName r1 -> joiner ∉ fieldName r2 ->
  toString r1 = toString r2 -> r1 = r2.
Proof.
  intros H1 H2 Heq.
  apply fromString_toString in H1. apply fromString_toString in H2.
  rewrite Heq in H1. congruence.
Qed.

End FieldRefFacts.

Module BuilderFacts.
Import Builder JsObjectFacts FieldRefFacts.

Section WithDocuments.
Context {Doc Value MetaValue : Type}.
Variable property : Doc -> word -> option Value.
Variable toString : option Value -> word.
Variable tokenize : Value -> word -> FieldType -> list (Pipeline.Token MetaValue).

Local Abbreviation Builder := (@Builder Doc Value MetaValue).
Local Abbreviation terms_of := (terms_of property tokenize).
Local Abbreviation fieldRef_key := (fieldRef_key property toString).
Local Abbreviation lengths_of := (lengths_of property toString tokenize).
Local Abbreviation add := (add property toString tokenize).
Local Abbreviation add_field := (add_field property tokenize).
Local Abbreviation add_all := (add_all property toString tokenize).

(** Two builders with the same configuration. *)
Local Abbreviation same_config b b' :=
  (_fields b = _fields b' /\ pipeline b = pipeline b' /\ _ref b = _ref b').

Lemma terms_of_config (b b' : Builder) (doc : Doc) (f : word) :
  same_config b b' -> terms_of b doc f = terms_of b' doc f.
Proof.
  intros (Hf & Hp & _). unfold terms_of, Builder.terms_of, field_value.
  by rewrite Hf, Hp.
Qed.

Lemma fieldRef_key_is_no_index (r f : word) :
  JsObject.array_index (FieldRef.toString (FieldRef.mkFieldRef r f)) = None.
Proof. by apply array_index_not_digit. Qed.

Lemma add_field_spec (b : Builder) (doc : Doc) (r : word) (fields : list word) (f : word) :
  let key := FieldRef.toString (FieldRef.mkFieldRef r f) in
  key ∉ JsObject.keys (fieldLengths b) ->
  fieldLengths (add_field doc r fields b f)
    = fieldLengths b ++ [(key, length (terms_of b doc f))] /\
  same_config (add_field doc r fields b f) b.
Proof.
  intros key Hfresh. unfold add_field, Builder.add_field. fold key.
  destruct (foldl _ _ _) as [[fieldTerms inverted] termIndex]. simpl.
  split; last done.
  rewrite (set_fresh key 0 _ (fieldRef_key_is_no_index r f) Hfresh).
  rewrite (get_last key 0 _ Hfresh). simpl.
  by rewrite (set_last key 0 _ _ (fieldRef_key_is_no_index r f) Hfresh).
Qed.

Lemma add_fields_spec (doc : Doc) (r : word) (fields fs : list word) (b : Builder) :
  NoDup fs ->
  (forall f, f ∈ fs ->
     FieldRef.toString (FieldRef.mkFieldRef r f) ∉ JsObject.keys (fieldLengths b)) ->
  let b' := foldl (add_field doc r fields) b fs in
  fieldLengths b'
    = fieldLengths b ++
      ((fun f => (FieldRef.toString (FieldRef.mkFieldRef r f), length (terms_of b doc f))) <$> fs) /\
  same_config b' b.
Proof.
  revert b. induction fs as [|f fs IH]; intros b Hnodup Hfresh; simpl.
  - by rewrite app_nil_r.
  - apply NoDup_cons in Hnodup as [Hf Hnodup].
    destruct (add_field_spec b doc r fields f) as [Hlen Hcfg].
    { apply Hfresh. by left. }
    destruct (IH (add_field doc r fields b f) Hnodup) as [Hlen' Hcfg'].
    { intros g Hg. rewrite Hlen. unfold JsObject.keys. rewrite fmap_app. simpl.
      intros Hin. apply elem_of_app in Hin as [Hin|Hin].
      - apply (Hfresh g); [by right | done].
      - apply list_elem_of_singleton in Hin.
        unfold FieldRef.toString in Hin. simpl in Hin.
        apply app_inv_tail in Hin. by subst. }
    split.
    + rewrite Hlen', Hlen, <- app_assoc. simpl. do 2 f_equal.
      apply list_fmap_ext. intros _ g _. do 2 f_equal. by apply terms_of_config.
    + destruct Hcfg' as (? & ? & ?), Hcfg as (? & ? & ?). repeat split; congruence.
Qed.

Lemma add_spec (b : Builder) (doc : Doc) (attrs : DocumentAttributes) :
  NoDup (JsObject.keys (_fields b)) ->
  (forall f, f ∈ JsObject.keys (_fields b) ->
     fieldRef_key b doc f ∉ JsObject.keys (fieldLengths b)) ->
  fieldLengths (add doc attrs b) = fieldLengths b ++ lengths_of b [doc] /\
  same_config (add doc attrs b) b.
Proof.
  intros Hnodup Hfresh. unfold add, Builder.add.
  match goal with |- context [foldl _ ?b1 _] => set (b1' := b1) end.
  assert (Hcfg : same_config b1' b) by done.
  destruct (add_fields_spec doc (toString (property doc (_ref b)))
              (JsObject.keys (_fields b)) (JsObject.keys (_fields b)) b1' Hnodup)
    as [Hlen Hcfg'].
  { intros f Hf. by apply Hfresh. }
  split.
  - rewrite Hlen. unfold lengths_of, Builder.lengths_of. simpl. by rewrite app_nil_r.
  - destruct Hcfg' as (? & ? & ?), Hcfg as (? & ? & ?). repeat split; congruence.
Qed.

Lemma lengths_of_config (b b' : Builder) (docs : list Doc) :
  same_config b b' -> lengths_of b docs = lengths_of b' docs.
Proof.
  intros Hcfg. unfold lengths_of, Builder.lengths_of.
  pose proof Hcfg as (Hf & Hp & Hr). rewrite Hf.
  apply list_bind_ext; last done. intros doc.
  apply list_fmap_ext. intros _ g _. unfold fieldRef_key, Builder.fieldRef_key.
  rewrite Hr. do 2 f_equal. by apply terms_of_config.
Qed.

Lemma lengths_of_key (b : Builder) (docs : list Doc) (k : word) :
  k ∈ JsObject.keys (lengths_of b docs) ->
  exists doc f, doc ∈ docs /\ f ∈ JsObject.keys (_fields b) /\ k = fieldRef_key b doc f.
Proof.
  unfold JsObject.keys, lengths_of, Builder.lengths_of.
  intros Hk. apply list_elem_of_fmap in Hk as ([k' n] & -> & Hin).
  apply list_elem_of_bind in Hin as (doc & Hin & Hdoc).
  apply list_elem_of_fmap in Hin as (f & [= -> ->] & Hf). eauto.
Qed.

Lemma add_all_spec (b0 : Builder) (docs done : list Doc) (b : Builder) :
  configured b0 -> same_config b b0 ->
  fieldLengths b = lengths_of b0 done ->
  NoDup ((fun doc => toString (property doc (_ref b0))) <$> (done ++ docs)) ->
  fieldLengths (add_all docs b) = lengths_of b0 (done ++ docs) /\
  same_config (add_all docs b) b0.
Proof.
  intros [Hnodup Hjoin]. revert done b.
  induction docs as [|doc docs IH]; intros done b Hcfg Hlen Hrefs; simpl.
  - by rewrite app_nil_r.
  - pose proof Hcfg as (Hf & Hp & Hr).
    destruct (add_spec b doc (mkDocumentAttributes None)) as [Hlen' Hcfg'].
    { by rewrite Hf. }
    { intros f Hf' Hin. rewrite Hlen in Hin.
      apply lengths_of_key in Hin as (doc' & f' & Hdoc' & Hf'' & Heq).
      unfold fieldRef_key, Builder.fieldRef_key in Heq. rewrite Hr in Heq.
      rewrite Hf in Hf'. rewrite Forall_forall in Hjoin.
      apply FieldRefFacts.toString_inj in Heq; [|by apply Hjoin..].
      injection Heq as Href _.
      rewrite fmap_app in Hrefs. apply NoDup_app in Hrefs as (_ & Hdisj & _).
      apply (Hdisj (toString (property doc' (_ref b0)))).
      - by apply (list_elem_of_fmap_2 (fun doc => toString (property doc (_ref b0)))).
      - rewrite <- Href, fmap_cons. by left. }
    destruct (IH (done ++ [doc]) (add doc (mkDocumentAttributes None) b)) as [Hlen2 Hcfg2].
    { destruct Hcfg' as (? & ? & ?). repeat split; congruence. }
    { rewrite Hlen', Hlen. rewrite (lengths_of_config b b0 [doc] Hcfg).
      unfold lengths_of, Builder.lengths_of. by rewrite bind_app. }
    { by rewrite <- app_assoc. }
    rewrite <- app_assoc in Hlen2. done.
Qed.

Lemma lengths_of_entries (b : Builder) (docs : list Doc) :
  lengths_of b docs
  = (fun e => (FieldRef.toString (FieldRef.mkFieldRef e.1.2 e.1.1), e.2))
      <$> entries_of property toString tokenize b docs.
Proof.
  unfold lengths_of, Builder.lengths_of, entries_of.
  induction docs as [|doc docs IH]; first done.
  change (doc :: docs) with ([doc] ++ docs).
  rewrite !bind_app, fmap_app, <- IH. f_equal.
  simpl. rewrite !app_nil_r, <- list_fmap_compose. by apply list_fmap_ext.
Qed.

Lemma entries_of_fields (b : Builder) (docs : list Doc) :
  Forall (fun e => e.1.1 ∈ JsObject.keys (_fields b))
         (entries_of property toString tokenize b docs).
Proof.
  apply Forall_forall. intros e He. unfold entries_of in He.
  apply list_elem_of_bind in He as (doc & He & _).
  by apply list_elem_of_fmap in He as (f & -> & Hf).
Qed.

End WithDocuments.

(** *** The two tallies *)

Lemma tallies_spec (es : list (word * word * nat)) (acc dwf : gmap word tally) :
  Forall (fun e => FieldRef.joiner ∉ e.1.1) es ->
  tallies ((fun e => (FieldRef.toString (FieldRef.mkFieldRef e.1.2 e.1.1), e.2)) <$> es)
          acc dwf
  = Some (bump_all es acc, bump_all ((fun e => (e.1, 1)) <$> es) dwf).
Proof.
  revert acc dwf. induction es as [|[[f r] n] es IH]; intros acc dwf Hes; simpl; first done.
  apply Forall_cons in Hes as [Hf Hes]. simpl in Hf.
  rewrite (fromString_toString (FieldRef.mkFieldRef r f) Hf). simpl.
  by rewrite (IH _ _ Hes).
Qed.

Lemma bump_lookup (g f : word) (n : nat) (o : gmap word tally) :
  g ∉ Object_prototype -> o !! g <> Some NotANumber ->
  bump f n o !! g
  = if decide (f = g) then Some (Number (held o g + n)) else o !! g.
Proof.
  intros Hg Ho. unfold bump, held.
  destruct (decide (f = g)) as [->|Hne].
  - destruct (o !! g) as [[m|]|] eqn:Hog; try done.
    + by rewrite lookup_insert_eq.
    + rewrite bool_decide_eq_false_2 by done. by rewrite lookup_insert_eq.
  - destruct (o !! f) as [[m|]|]; try done.
    + by rewrite lookup_insert_ne.
    + destruct (bool_decide _); by rewrite lookup_insert_ne.
Qed.

Lemma sum_for_absent (g : word) (es : list (word * word * nat)) :
  g ∉ es.*1.*1 -> sum_for g es = 0.
Proof.
  unfold sum_for. induction es as [|e es IH]; simpl; first done.
  intros Hg. apply not_elem_of_cons in Hg as [Hne Hg].
  destruct (decide (e.1.1 = g)); first done. by apply IH.
Qed.

Lemma bump_all_lookup (g : word) (es : list (word * word * nat)) (o : gmap word tally) :
  g ∉ Object_prototype -> o !! g <> Some NotANumber ->
  bump_all es o !! g
  = if decide (g ∈ es.*1.*1) then Some (Number (held o g + sum_for g es)) else o !! g.
Proof.
  intros Hg. revert o.
  induction es as [|e es IH]; intros o Ho.
  - rewrite decide_False; [done | apply not_elem_of_nil].
  - change (bump_all (e :: es) o) with (bump_all es (bump e.1.1 e.2 o)).
    change (sum_for g (e :: es))
      with ((if decide (e.1.1 = g) then e.2 else 0) + sum_for g es).
    rewrite !fmap_cons.
    pose proof (bump_lookup g e.1.1 e.2 o Hg Ho) as Hb.
    rewrite IH by (rewrite Hb; by destruct (decide (e.1.1 = g))).
    destruct (decide (e.1.1 = g)) as [Heq|Hne].
    + assert (Hheld : held (bump e.1.1 e.2 o) g = held o g + e.2)
        by (unfold held at 1; by rewrite Hb).
      rewrite Hheld, Hb.
      rewrite (decide_True (P := g ∈ e.1.1 :: es.*1.*1)) by (rewrite Heq; by left).
      destruct (decide (g ∈ es.*1.*1)) as [_|Hnot].
      * do 2 f_equal. lia.
      * rewrite (sum_for_absent g es Hnot). do 2 f_equal. lia.
    + assert (Hheld : held (bump e.1.1 e.2 o) g = held o g)
        by (unfold held; by rewrite Hb).
      rewrite Hheld, Hb.
      destruct (decide (g ∈ es.*1.*1)) as [Hin|Hnot].
      * rewrite (decide_True (P := g ∈ e.1.1 :: es.*1.*1)) by (by right). done.
      * rewrite (decide_False (P := g ∈ e.1.1 :: es.*1.*1)); first done.
        intros Hin. apply elem_of_cons in Hin as [->|Hin]; done.
Qed.

Lemma averages_lookup (val : word -> float) (fields : list word)
    (averages : gmap word float) (f : word) :
  foldl (fun averages g => <[g := val g]> averages) averages fields !! f
  = if decide (f ∈ fields) then Some (val f) else averages !! f.
Proof.
  revert averages. induction fields as [|g fields IH]; intros averages.
  - rewrite decide_False; [done | apply not_elem_of_nil].
  - change (foldl ?h averages (g :: fields)) with (foldl h (h averages g) fields).
    rewrite IH.
    destruct (decide (f ∈ fields)) as [Hin|Hnot].
    + rewrite (decide_True (P := f ∈ g :: fields)) by (by right). done.
    + destruct (decide (f = g)) as [->|Hne].
      * rewrite lookup_insert_eq.
        rewrite (decide_True (P := g ∈ g :: fields)) by (by left). done.
      * rewrite lookup_insert_ne by done.
        rewrite (decide_False (P := f ∈ g :: fields)); first done.
        intros Hin. apply elem_of_cons in Hin as [->|Hin]; done.
Qed.

Lemma sum_for_app (g : word) (es1 es2 : list (word * word * nat)) :
  sum_for g (es1 ++ es2) = sum_for g es1 + sum_for g es2.
Proof.
  unfold sum_for. rewrite fmap_app.
  induction (_ <$> es1) as [|n l IH]; simpl; [done | lia].
Qed.

Lemma sum_for_fields (g r : word) (h : word -> nat) (fields : list word) :
  NoDup fields -> g ∈ fields ->
  sum_for g ((fun f => (f, r, h f)) <$> fields) = h g.
Proof.
  induction fields as [|f fields IH]; intros Hnodup Hg.
  - by apply elem_of_nil in Hg.
  - apply NoDup_cons in Hnodup as [Hf Hnodup].
    rewrite fmap_cons.
    change (sum_for g ((f, r, h f) :: ?l))
      with ((if decide (f = g) then h f else 0) + sum_for g l).
    destruct (decide (f = g)) as [->|Hne].
    + rewrite sum_for_absent; first lia.
      rewrite <- !list_fmap_compose. simpl.
      intros Hin. apply list_elem_of_fmap in Hin as (f & -> & Hin). done.
    + apply elem_of_cons in Hg as [->|Hg]; first done.
      by rewrite IH.
Qed.

Lemma sum_for_docs {Doc : Type} (g : word) (r : Doc -> word) (h : Doc -> word -> nat)
    (fields : list word) (docs : list Doc) :
  NoDup fields -> g ∈ fields ->
  sum_for g (doc ← docs; (fun f => (f, r doc, h doc f)) <$> fields)
  = sum_list ((fun doc => h doc g) <$> docs).
Proof.
  intros Hnodup Hg. induction docs as [|doc docs IH]; first done.
  change (doc :: docs) with ([doc] ++ docs).
  rewrite bind_app, sum_for_app, fmap_app, IH. simpl. rewrite app_nil_r.
  by rewrite (sum_for_fields g (r doc) (h doc) fields Hnodup Hg).
Qed.

Lemma ones_of_docs {Doc : Type} (r : Doc -> word) (h : Doc -> word -> nat)
    (fields : list word) (docs : list Doc) :
  (fun e : word * word * nat => (e.1, 1)) <$> (doc ← docs; (fun f => (f, r doc, h doc f)) <$> fields)
  = doc ← docs; (fun f => (f, r doc, 1)) <$> fields.
Proof.
  induction docs as [|doc docs IH]; first done.
  change (doc :: docs) with ([doc] ++ docs).
  rewrite !bind_app, fmap_app, IH. f_equal.
  simpl. rewrite !app_nil_r, <- list_fmap_compose. by apply list_fmap_ext.
Qed.

Lemma field_of_docs {Doc : Type} (g : word) (r : Doc -> word) (h : Doc -> word -> nat)
    (fields : list word) (doc : Doc) (docs : list Doc) :
  g ∈ fields ->
  g ∈ (doc' ← doc :: docs; (fun f => (f, r doc', h doc' f)) <$> fields).*1.*1.
Proof.
  intros Hg. change (doc :: docs) with ([doc] ++ docs).
  rewrite bind_app, !fmap_app. apply elem_of_app. left.
  simpl. rewrite app_nil_r, <- !list_fmap_compose.
  by apply (list_elem_of_fmap_2 (fst ∘ (fst ∘ (fun f => (f, r doc, h doc f))))).
Qed.

Section Average.
Context {Doc Value MetaValue : Type}.
Variable property : Doc -> word -> option Value.
Variable toString : option Value -> word.
Variable tokenize : Value -> word -> FieldType -> list (Pipeline.Token MetaValue).

(** C5, as the code has it: for a builder whose fields were set before any
    document was added, for documents with distinct references, and for a
    field whose name no object inherits, [averageFieldLength[f]] is the
    sum of the lengths of [f] over all the documents divided by the number
    of all the documents; a document without [f] adds 0 to the sum and 1
    to the divisor. *)
Theorem averageFieldLength_divides_by_all_documents
    (b0 : @Builder Doc Value MetaValue) (docs : list Doc) (f : word) :
  configured b0 ->
  fieldLengths b0 = [] ->
  NoDup ((fun doc => toString (property doc (_ref b0))) <$> docs) ->
  f ∈ JsObject.keys (_fields b0) ->
  f ∉ Object_prototype ->
  exists averages,
    calculateAverageFieldLengths (add_all property toString tokenize docs b0) = Some averages /\
    averages !! f
    = Some (PrimFloat.div (of_nat (total_length property tokenize b0 docs f))
                          (of_nat (length docs))).
Proof.
  intros Hconf Hempty Hrefs Hf Hproto.
  destruct (add_all_spec property toString tokenize b0 docs [] b0 Hconf) as [Hlen Hcfg];
    [done | done | done |].
  simpl in Hlen. rewrite lengths_of_entries in Hlen.
  set (es := entries_of property toString tokenize b0 docs) in *.
  assert (Hes : Forall (fun e => FieldRef.joiner ∉ e.1.1) es).
  { destruct Hconf as [_ Hjoin]. rewrite Forall_forall in Hjoin.
    eapply Forall_impl; first apply entries_of_fields. intros e He. by apply Hjoin. }
  unfold calculateAverageFieldLengths. rewrite Hlen, (tallies_spec es ∅ ∅ Hes).
  eexists. split; first done.
  destruct Hcfg as (Hfields & _ & _). rewrite Hfields.
  rewrite averages_lookup, (decide_True (P := f ∈ JsObject.keys (_fields b0))) by done.
  f_equal.
  rewrite !(bump_all_lookup f _ ∅ Hproto) by (by rewrite lookup_empty).
  destruct Hconf as [Hnodup _].
  destruct docs as [|doc docs]; first done.
  unfold es, entries_of. rewrite ones_of_docs.
  rewrite !decide_True by (by apply field_of_docs).
  rewrite !sum_for_docs by done.
  unfold held. rewrite lookup_empty. simpl to_number.
  assert (Hones : forall l : list Doc, sum_list ((fun _ => 1) <$> l) = length l).
  { induction l as [|d l IH]; simpl; [done | f_equal; exact IH]. }
  by rewrite Hones.
Qed.

End Average.

(** C5, the claim refuted: with the field title, the document a whose
    title has two terms and the document b without a title,
    [averageFieldLength.title] is 2 / 2, whereas the sum over the documents
    that hold a title divided by their number is 2 / 1. *)
Lemma averageFieldLength_counts_documents_without_the_field :
  let b := add_all Examples.doc_property Examples.doc_toString Examples.letters
             Examples.two_docs Examples.title_builder in
  field_value Examples.doc_property Examples.title_builder [(w "id", w "b")] (w "title") = None /\
  (calculateAverageFieldLengths b ≫= (fun averages => averages !! w "title")) = Some 1%float /\
  spec_average Examples.doc_property Examples.letters Examples.title_builder
    Examples.two_docs (w "title") = 2%float /\
  (calculateAverageFieldLengths b ≫= (fun averages => averages !! w "title"))
  <> Some (spec_average Examples.doc_property Examples.letters Examples.title_builder
             Examples.two_docs (w "title")).
Proof.
  assert (H1 : (calculateAverageFieldLengths
                  (add_all Examples.doc_property Examples.doc_toString Examples.letters
                     Examples.two_docs Examples.title_builder)
                ≫= (fun averages => averages !! w "title")) = Some 1%float)
    by (by vm_compute).
  assert (H2 : spec_average Examples.doc_property Examples.letters Examples.title_builder
                 Examples.two_docs (w "title") = 2%float) by (by vm_compute).
  intros b. split; first by vm_compute.
  split; first done. split; first done.
  unfold b. rewrite H1, H2. intros [= Heq].
Qed.

(** The theorem at the builder and the documents of the refutation. *)
Lemma averageFieldLength_witness :
  exists averages,
    calculateAverageFieldLengths
      (add_all Examples.doc_property Examples.doc_toString Examples.letters
         Examples.two_docs Examples.title_builder) = Some averages /\
    averages !! w "title"
    = Some (PrimFloat.div
              (of_nat (total_length Examples.doc_property Examples.letters
                         Examples.title_builder Examples.two_docs (w "title")))
              (of_nat 2)).
Proof.
  apply (averageFieldLength_divides_by_all_documents
           Examples.doc_property Examples.doc_toString Examples.letters
           Examples.title_builder Examples.two_docs (w "title")).
  - split; apply (bool_decide_unpack _); by vm_compute.
  - reflexivity.
  - apply (bool_decide_unpack _); by vm_compute.
  - apply (bool_decide_unpack _); by vm_compute.
  - apply (bool_decide_unpack _); by vm_compute.
Defined.

End BuilderFacts.

(** ** Comparing numbers by their difference *)

Module FloatFacts.
Import FloatOrder.

Lemma SFltb_rank (f1 f2 : spec_float) :
  f1 <> S754_nan -> f2 <> S754_nan ->
  SFltb f1 f2 = true <-> below (rank f1) (rank f2).
Proof.
  intros H1 H2. unfold SFltb, below.
  destruct f1 as [s1|s1| |s1 m1 e1], f2 as [s2|s2| |s2 m2 e2]; try done;
    try (destruct s1); try (destruct s2); simpl; try (split; [done | lia]);
    try (split; [lia | done]).
  all: rewrite ?Pos.compare_cont_spec; simpl.
  - destruct (Z.compare_spec e1 e2), (Pos.compare_spec m1 m2); simpl; split; (done || lia).
  - destruct (Z.compare_spec e1 e2), (Pos.compare_spec m1 m2); simpl; split; (done || lia).
Qed.

Lemma SFeqb_rank (f1 f2 : spec_float) :
  f1 <> S754_nan -> f2 <> S754_nan ->
  SFeqb f1 f2 = true <-> rank f1 = rank f2.
Proof.
  intros H1 H2. unfold SFeqb.
  destruct f1 as [s1|s1| |s1 m1 e1], f2 as [s2|s2| |s2 m2 e2]; try done;
    try (destruct s1); try (destruct s2); simpl; try (split; done).
  all: rewrite ?Pos.compare_cont_spec; simpl.
  - destruct (Z.compare_spec e1 e2), (Pos.compare_spec m1 m2); simpl;
      split; try done; try (intros [= ? ?]; lia). intros _. by subst.
  - destruct (Z.compare_spec e1 e2), (Pos.compare_spec m1 m2); simpl;
      split; try done; try (intros [= ? ?]; lia). intros _. by subst.
Qed.

Lemma SFleb_rank (f1 f2 : spec_float) :
  f1 <> S754_nan -> f2 <> S754_nan ->
  SFleb f1 f2 = true <-> below (rank f1) (rank f2) \/ rank f1 = rank f2.
Proof.
  intros H1 H2.
  rewrite <-(SFltb_rank f1 f2 H1 H2), <-(SFeqb_rank f1 f2 H1 H2).
  unfold SFleb, SFltb, SFeqb.
  destruct (SFcompare f1 f2) as [[| |]|]; simpl; split; try done; try (by left); try (by right).
  - by intros [|].
  - by intros [|].
Qed.

(** The ranks are in one line. *)
Lemma below_total (r1 r2 : Z * Z * Z) : below r1 r2 \/ r1 = r2 \/ below r2 r1.
Proof.
  destruct r1 as [[a1 b1] c1], r2 as [[a2 b2] c2]. unfold below. simpl.
  destruct (Z.lt_total a1 a2) as [|[->|]]; [lia | | lia].
  destruct (Z.lt_total b1 b2) as [|[->|]]; [lia | | lia].
  destruct (Z.lt_total c1 c2) as [|[->|]]; [lia | | lia].
  right. by left.
Qed.

Lemma below_irrefl (r : Z * Z * Z) : ~ below r r.
Proof. unfold below. lia. Qed.

Lemma below_trans (r1 r2 r3 : Z * Z * Z) : below r1 r2 -> below r2 r3 -> below r1 r3.
Proof. unfold below. lia. Qed.

Local Open Scope Z_scope.

(** *** Mantissas *)

Lemma digits2_bounds (m : positive) :
  2 ^ (Zpos (digits2_pos m) - 1) <= Zpos m < 2 ^ Zpos (digits2_pos m).
Proof.
  induction m as [m IH|m IH|]; cbn [digits2_pos].
  - rewrite Pos2Z.inj_succ, (Pos2Z.inj_xI m).
    replace (Z.succ (Zpos (digits2_pos m)) - 1) with (Z.succ (Zpos (digits2_pos m) - 1)) by lia.
    rewrite !Z.pow_succ_r by lia.
    generalize dependent (2 ^ (Zpos (digits2_pos m) - 1)).
    generalize dependent (2 ^ Zpos (digits2_pos m)). lia.
  - rewrite Pos2Z.inj_succ, (Pos2Z.inj_xO m).
    replace (Z.succ (Zpos (digits2_pos m)) - 1) with (Z.succ (Zpos (digits2_pos m) - 1)) by lia.
    rewrite !Z.pow_succ_r by lia.
    generalize dependent (2 ^ (Zpos (digits2_pos m) - 1)).
    generalize dependent (2 ^ Zpos (digits2_pos m)). lia.
  - done.
Qed.

Lemma iter_xO (d m : positive) : Zpos (Pos.iter xO m d) = Zpos m * 2 ^ Zpos d.
Proof.
  induction d as [|d IH] using Pos.peano_ind.
  - simpl. lia.
  - rewrite Pos.iter_succ, Pos2Z.inj_xO, IH, Pos2Z.inj_succ, Z.pow_succ_r by lia. lia.
Qed.

(** [shl_align] towards a lower exponent keeps the number. *)
Lemma shl_align_fst (m : positive) (e e' : Z) :
  e' <= e -> Zpos (fst (shl_align m e e')) = Zpos m * 2 ^ (e - e').
Proof.
  intros He. unfold shl_align.
  destruct (e' - e) as [|d|d] eqn:Hd; simpl.
  - replace (e - e') with 0 by lia. lia.
  - lia.
  - rewrite iter_xO. f_equal. f_equal. lia.
Qed.

Lemma shl_align_snd (m : positive) (e e' : Z) : snd (shl_align m e e') = Z.min e e'.
Proof. unfold shl_align. destruct (e' - e) eqn:Hd; simpl; lia. Qed.

(** What a number of the format knows of its mantissa and its exponent. *)
Lemma valid_finite (s : bool) (m : positive) (e : Z) :
  valid_binary (S754_finite s m e) = true ->
  emin <= e /\ Zpos (digits2_pos m) <= prec /\
  (emin < e -> Zpos (digits2_pos m) = prec).
Proof.
  unfold SpecFloat.valid_binary, bounded, canonical_mantissa, fexp, SpecFloat.emin, prec, emax.
  intros [Hc _]%andb_prop. apply Z.eqb_eq in Hc. lia.
Qed.

(** *** Rounding a positive number *)

Lemma shr_1_m (mrs : shr_record) :
  0 <= shr_m mrs -> shr_m (shr_1 mrs) = Z.div2 (shr_m mrs).
Proof. destruct mrs as [[|[p|p|]|p] r s]; simpl; (done || lia). Qed.

Lemma iter_shr_1 (p : positive) :
  forall mrs, 0 <= shr_m mrs ->
    shr_m (SpecFloat.iter_pos shr_1 p mrs) = Z.shiftr (shr_m mrs) (Zpos p).
Proof.
  assert (Hone : forall mrs, 0 <= shr_m mrs ->
            shr_m (shr_1 mrs) = Z.shiftr (shr_m mrs) 1 /\ 0 <= shr_m (shr_1 mrs)).
  { intros mrs Hm. rewrite shr_1_m, Z.div2_spec by done. split; first done.
    by apply Z.shiftr_nonneg. }
  induction p as [p IH|p IH|]; intros mrs Hm; cbn [SpecFloat.iter_pos].
  - destruct (Hone mrs Hm) as [H1 Hn1].
    rewrite IH, IH, H1, !Z.shiftr_shiftr by (done || lia || (rewrite IH by done; by apply Z.shiftr_nonneg)).
    f_equal. lia.
  - rewrite IH, IH, !Z.shiftr_shiftr by (done || lia || (rewrite IH by done; by apply Z.shiftr_nonneg)).
    f_equal. lia.
  - by apply Hone.
Qed.

(** A positive mantissa at an exponent of the format stays positive when
    it is cut to the precision. *)
Lemma shr_fexp_pos (m : positive) (e : Z) (l : location) :
  emin <= e ->
  exists m', shr_m (fst (shr_fexp prec emax (Zpos m) e l)) = Zpos m' /\
             emin <= snd (shr_fexp prec emax (Zpos m) e l).
Proof.
  intros He. unfold shr_fexp, shr. cbn [Zdigits2].
  assert (Hrec : shr_m (shr_record_of_loc (Zpos m) l) = Zpos m).
  { by destruct l as [|[| |]]. }
  pose proof (digits2_bounds m) as [Hlow _].
  set (d := Zpos (digits2_pos m)) in *.
  assert (Hn : fexp prec emax (d + e) - e < d).
  { unfold fexp, SpecFloat.emin, prec, emax in *. lia. }
  destruct (fexp prec emax (d + e) - e) as [|n|n] eqn:Hshift; cbn [fst snd].
  - by exists m.
  - rewrite iter_shr_1 by (rewrite Hrec; lia). rewrite Hrec.
    rewrite Z.shiftr_div_pow2 by lia.
    assert (Hpos : 0 < Zpos m / 2 ^ Zpos n).
    { apply Z.div_str_pos. split; first (apply Z.pow_pos_nonneg; lia).
      etransitivity; last exact Hlow. apply Z.pow_le_mono_r; lia. }
    destruct (Zpos m / 2 ^ Zpos n) as [|m'|m'] eqn:Hq; try lia.
    exists m'. split; first done. lia.
  - by exists m.
Qed.

Lemma round_nearest_even_pos (m : positive) (l : location) :
  exists m', round_nearest_even (Zpos m) l = Zpos m'.
Proof.
  destruct l as [|[| |]]; cbn [round_nearest_even]; try by eexists.
  destruct (Z.even (Zpos m)); by eexists.
Qed.

(** A positive number rounds to a positive number or to infinity. *)
Lemma binary_round_aux_pos (s : bool) (m : positive) (e : Z) (l : location) :
  emin <= e ->
  (exists m' e', binary_round_aux prec emax s (Zpos m) e l = S754_finite s m' e') \/
  binary_round_aux prec emax s (Zpos m) e l = S754_infinity s.
Proof.
  intros He. unfold binary_round_aux.
  destruct (shr_fexp_pos m e l He) as (m1 & Hm1 & He1).
  destruct (shr_fexp prec emax (Zpos m) e l) as [mrs1 e1]. cbn [fst snd] in Hm1, He1.
  rewrite Hm1.
  destruct (round_nearest_even_pos m1 (loc_of_shr_record mrs1)) as [m2 ->].
  destruct (shr_fexp_pos m2 e1 loc_Exact He1) as (m3 & Hm3 & He3).
  destruct (shr_fexp prec emax (Zpos m2) e1 loc_Exact) as [mrs3 e3]. cbn [fst snd] in Hm3, He3.
  rewrite Hm3. destruct (e3 <=? emax - prec); [left; by eexists _, _ | by right].
Qed.

Lemma binary_round_pos (s : bool) (m : positive) (e : Z) :
  emin <= e ->
  (exists m' e', binary_round prec emax s m e = S754_finite s m' e') \/
  binary_round prec emax s m e = S754_infinity s.
Proof.
  intros He. unfold binary_round.
  pose proof (shl_align_snd m e (fexp prec emax (Zpos (digits2_pos m) + e))) as Hsnd.
  destruct (shl_align m e _) as [mz ez]. cbn [snd] in Hsnd.
  apply binary_round_aux_pos. unfold fexp, SpecFloat.emin, prec, emax in *. lia.
Qed.

(** The sign of a number at an exponent of the format, once rounded. *)
Lemma binary_normalize_sign (D e : Z) :
  emin <= e ->
  SFltb (S754_zero false) (binary_normalize prec emax D e false) = (0 <? D).
Proof.
  intros He. unfold binary_normalize. destruct D as [|p|p]; first done.
  - destruct (binary_round_pos false p e He) as [(m' & e' & ->)| ->]; done.
  - destruct (binary_round_pos true p e He) as [(m' & e' & ->)| ->]; done.
Qed.

(** *** The sign of a difference *)

(** The mantissas of two numbers of the format, brought to the lower of
    the two exponents, compare as the exponents and the mantissas do. *)
Lemma aligned_lt (sx sy : bool) (mx my : positive) (ex ey : Z) :
  valid_binary (S754_finite sx mx ex) = true ->
  valid_binary (S754_finite sy my ey) = true ->
  Zpos (fst (shl_align mx ex (Z.min ex ey))) < Zpos (fst (shl_align my ey (Z.min ex ey)))
  <-> ex < ey \/ (ex = ey /\ Zpos mx < Zpos my).
Proof.
  intros (Hex & Hdx & Hnx)%valid_finite (Hey & Hdy & Hny)%valid_finite.
  rewrite !shl_align_fst by lia.
  pose proof (digits2_bounds mx) as [Hxl Hxu]. pose proof (digits2_bounds my) as [Hyl Hyu].
  assert (Hp : forall d : positive, Zpos d <= prec -> 2 ^ Zpos d <= 2 ^ prec).
  { intros d Hd. apply Z.pow_le_mono_r; lia. }
  assert (Hq : forall k, 0 < k -> 2 <= 2 ^ k).
  { intros k Hk. change 2 with (2 ^ 1) at 1. apply Z.pow_le_mono_r; lia. }
  assert (H53 : 2 ^ prec = 2 * 2 ^ (prec - 1)) by done.
  destruct (Z.lt_total ex ey) as [Hlt|[->|Hgt]].
  - rewrite Z.min_l by lia. rewrite Z.sub_diag, Z.pow_0_r, Z.mul_1_r.
    specialize (Hny ltac:(lia)). rewrite Hny in Hyl.
    specialize (Hp _ Hdx). specialize (Hq (ey - ex) ltac:(lia)).
    split; first by left. intros _. nia.
  - rewrite Z.min_id, Z.sub_diag, Z.pow_0_r, !Z.mul_1_r. lia.
  - rewrite Z.min_r by lia. rewrite Z.sub_diag, Z.pow_0_r, Z.mul_1_r.
    specialize (Hnx ltac:(lia)). rewrite Hnx in Hxl.
    specialize (Hp _ Hdy). specialize (Hq (ex - ey) ltac:(lia)).
    split; last lia. intros Hlt. nia.
Qed.

(** Zero is below the difference [y - x] of two numbers exactly when [x]
    is below [y]: a difference is 0 only when the two are equal, and has
    the sign of the exact difference. *)
Lemma SFsub_sign (x y : spec_float) :
  valid_binary x = true -> valid_binary y = true ->
  x <> S754_nan -> y <> S754_nan ->
  SFltb (S754_zero false) (SFsub prec emax y x) = SFltb x y.
Proof.
  intros Hvx Hvy Hx Hy.
  destruct x as [sx|sx| |sx mx ex], y as [sy|sy| |sy my ey]; try done;
    try (by destruct sx, sy); try (by destruct sx); try (by destruct sy).
  cbn [SFsub].
  pose proof (valid_finite _ _ _ Hvx) as (Hex & _). pose proof (valid_finite _ _ _ Hvy) as (Hey & _).
  rewrite binary_normalize_sign by lia.
  apply Bool.eq_iff_eq_true. rewrite Z.ltb_lt, SFltb_rank by done.
  pose proof (aligned_lt sx sy mx my ex ey Hvx Hvy) as Hxy.
  pose proof (aligned_lt sy sx my mx ey ex Hvy Hvx) as Hyx.
  rewrite (Z.min_comm ex ey) in Hxy.
  unfold below. destruct sx, sy; cbn [rank cond_Zopp fst snd]; lia.
Qed.

(** *** JavaScript numbers *)

Local Open Scope float_scope.

Lemma not_nan (x : float) : PrimFloat.is_nan x = false -> Prim2SF x <> S754_nan.
Proof.
  unfold PrimFloat.is_nan. rewrite FloatAxioms.eqb_spec. intros Hx Hnan. by rewrite Hnan in Hx.
Qed.

(** [0 < y - x] exactly when [x < y], for numbers that are not NaN. *)
Lemma ltb_sub (x y : float) :
  PrimFloat.is_nan x = false -> PrimFloat.is_nan y = false ->
  (0 <? y - x) = (x <? y).
Proof.
  intros Hx%not_nan Hy%not_nan. rewrite !FloatAxioms.ltb_spec, FloatAxioms.sub_spec.
  change (Prim2SF 0) with (S754_zero false).
  apply SFsub_sign; (done || apply Prim2SF_valid).
Qed.

Lemma ltb_asym (x y : float) : (x <? y) = true -> (y <? x) = false.
Proof.
  rewrite !FloatAxioms.ltb_spec. unfold SFltb.
  destruct (Prim2SF x) as [sx|sx| |sx mx ex] eqn:Hx, (Prim2SF y) as [sy|sy| |sy my ey] eqn:Hy;
    try done.
  all: rewrite <-Hx, <-Hy; intros Hlt; apply not_true_is_false; intros Hgt.
  all: apply SFltb_rank in Hlt; [|by rewrite Hx|by rewrite Hy].
  all: apply SFltb_rank in Hgt; [|by rewrite Hy|by rewrite Hx].
  all: by destruct (below_irrefl _ (below_trans _ _ _ Hlt Hgt)).
Qed.

(** Numbers that are not NaN are in one line. *)
Lemma ltb_between (x y z : float) :
  PrimFloat.is_nan y = false ->
  (x <? z) = true -> (x <? y) = true \/ (y <? z) = true.
Proof.
  intros Hy%not_nan. rewrite !FloatAxioms.ltb_spec. intros Hxz.
  assert (Hx : Prim2SF x <> S754_nan) by (intros H; by rewrite H in Hxz).
  assert (Hz : Prim2SF z <> S754_nan).
  { intros H. rewrite H in Hxz. unfold SFltb in Hxz. by destruct (Prim2SF x) as [?|[]| |]. }
  rewrite !SFltb_rank in * by done.
  destruct (below_total (rank (Prim2SF x)) (rank (Prim2SF y))) as [?|[Heq|?]].
  - by left.
  - right. by rewrite <-Heq.
  - right. by apply (below_trans _ (rank (Prim2SF x))).
Qed.

Lemma leb_ltb (x y : float) :
  PrimFloat.is_nan x = false -> PrimFloat.is_nan y = false ->
  (y <=? x) = negb (x <? y).
Proof.
  intros Hx%not_nan Hy%not_nan. rewrite FloatAxioms.leb_spec, FloatAxioms.ltb_spec.
  apply Bool.eq_iff_eq_true. rewrite negb_true_iff, <-not_true_iff_false.
  rewrite SFleb_rank, SFltb_rank by done.
  destruct (below_total (rank (Prim2SF x)) (rank (Prim2SF y))) as [Hlt|[Heq|Hgt]].
  - split; last done. intros [Hgt|Heq] _.
    + by apply (below_irrefl _ (below_trans _ _ _ Hlt Hgt)).
    + rewrite Heq in Hlt. by apply (below_irrefl _ Hlt).
  - split; first (rewrite Heq; intros _; apply below_irrefl). intros _. by right.
  - split; last by left. intros _ Hlt. by apply (below_irrefl _ (below_trans _ _ _ Hlt Hgt)).
Qed.

Lemma eqb_ltb (x y : float) :
  PrimFloat.is_nan x = false -> PrimFloat.is_nan y = false ->
  (x =? y) = negb (x <? y) && negb (y <? x).
Proof.
  intros Hx%not_nan Hy%not_nan. rewrite FloatAxioms.eqb_spec, !FloatAxioms.ltb_spec.
  apply Bool.eq_iff_eq_true.
  rewrite andb_true_iff, !negb_true_iff, <-!not_true_iff_false.
  rewrite SFeqb_rank, !SFltb_rank by done.
  destruct (below_total (rank (Prim2SF x)) (rank (Prim2SF y))) as [Hlt|[Heq|Hgt]].
  - split; last by intros [? _]. intros Heq. rewrite Heq in Hlt. by destruct (below_irrefl _ Hlt).
  - split; first (intros _; rewrite Heq; split; apply below_irrefl). done.
  - split; last by intros [_ ?]. intros Heq. rewrite Heq in Hgt. by destruct (below_irrefl _ Hgt).
Qed.

End FloatFacts.

Module IndexFacts.
Import Index.

Section Sorting.
Context {MetaValue : Type}.
Implicit Types (r x y z : Result MetaValue) (l : list (Result MetaValue)).

Lemma place_perm r l : place r l ≡ₚ r :: l.
Proof.
  induction l as [|x l IH]; simpl; first done.
  destruct (after x r); first done.
  by rewrite IH, Permutation_swap.
Qed.

Lemma sort_from_perm l acc : foldl (fun sorted r => place r sorted) acc l ≡ₚ acc ++ l.
Proof.
  revert acc. induction l as [|r l IH]; intros acc; simpl.
  - by rewrite app_nil_r.
  - rewrite IH, place_perm. simpl. apply Permutation_middle.
Qed.

Lemma sort_perm l : sort l ≡ₚ l.
Proof. apply (sort_from_perm l []). Qed.

(** The comparator [b.score - a.score] puts [b] before [a] exactly when
    the score of [b] is the higher one, when neither score is NaN. *)
Lemma after_ltb x y :
  PrimFloat.is_nan (score x) = false -> PrimFloat.is_nan (score y) = false ->
  after x y = PrimFloat.ltb (score x) (score y).
Proof. intros Hx Hy. unfold after, by_score. by apply FloatFacts.ltb_sub. Qed.

(** Without a NaN among the scores the comparator is consistent. *)
Lemma scores_ordered l : scored l -> ordered l.
Proof.
  unfold scored. rewrite Forall_forall. intros Hnan a b Ha Hb.
  pose proof (Hnan a Ha) as Hna. pose proof (Hnan b Hb) as Hnb.
  split; first by apply after_ltb.
  split.
  - rewrite !after_ltb by done. apply FloatFacts.ltb_asym.
  - intros c Hc. pose proof (Hnan c Hc) as Hnc. rewrite !after_ltb by done.
    intros Hab Hbc. destruct (PrimFloat.ltb (score a) (score c)) eqn:Hac; last done.
    destruct (FloatFacts.ltb_between _ (score b) _ Hnb Hac); congruence.
Qed.

Lemma same_score_eqb x y :
  PrimFloat.is_nan (score x) = false -> PrimFloat.is_nan (score y) = false ->
  same_score x y = PrimFloat.eqb (score x) (score y).
Proof.
  intros Hx Hy. unfold same_score. rewrite !after_ltb by done.
  symmetry. by apply FloatFacts.eqb_ltb.
Qed.

Lemma filter_agree {A : Type} (P Q : A -> Prop)
    `{forall a, Decision (P a)} `{forall a, Decision (Q a)} (l : list A) :
  Forall (fun a => P a <-> Q a) l -> filter P l = filter Q l.
Proof.
  induction 1 as [|a l Ha _ IH]; first done.
  rewrite !filter_cons, IH.
  destruct (decide (P a)) as [HP|HP], (decide (Q a)) as [HQ|HQ]; try done.
  - by destruct HQ; apply Ha.
  - by destruct HP; apply Ha.
Qed.

(** The results that the comparator leaves in place with [x] are those
    that have the score of [x]. *)
Lemma ties_same_score x l :
  PrimFloat.is_nan (score x) = false -> scored l ->
  ties x l = filter (fun y => same_score x y = true) l.
Proof.
  intros Hx Hl. unfold ties. apply filter_agree.
  eapply Forall_impl; first exact Hl.
  intros y Hy. simpl. by rewrite same_score_eqb.
Qed.

(** A result that lies behind [x] in a sorted list and [r], which the
    comparator puts before [x]: the comparator puts [r] before it too. *)
Lemma after_behind (pre : list (Result MetaValue)) x y r :
  ordered pre -> x ∈ pre -> y ∈ pre -> r ∈ pre ->
  after x y = false -> after x r = true -> after y r = true.
Proof.
  intros Hord Hx Hy Hr Hxy Hxr.
  destruct (after y r) eqn:Hyr; first done.
  destruct (Hord x y Hx Hy) as (_ & _ & Htrans).
  by rewrite (Htrans r Hr Hxy Hyr) in Hxr.
Qed.

Lemma place_sorted (pre : list (Result MetaValue)) r l :
  ordered pre -> r ∈ pre -> Forall (.∈ pre) l ->
  StronglySorted (fun x y => after x y = false) l ->
  StronglySorted (fun x y => after x y = false) (place r l).
Proof.
  intros Hord Hr. induction l as [|x l IH]; intros Hl Hsorted; simpl.
  - by repeat constructor.
  - apply Forall_cons in Hl as [Hx Hl].
    apply StronglySorted_inv in Hsorted as [Hsorted Hbehind].
    destruct (after x r) eqn:Hxr.
    + constructor; first by constructor.
      constructor.
      * by apply (Hord x r Hx Hr).
      * rewrite Forall_forall in Hbehind, Hl. apply Forall_forall. intros y Hy.
        apply (Hord y r (Hl y Hy) Hr).
        by apply (after_behind pre x y r Hord Hx (Hl y Hy) Hr (Hbehind y Hy)).
    + constructor; first by apply IH.
      rewrite place_perm. by constructor.
Qed.

Lemma filter_none {A : Type} (P : A -> Prop) `{forall a, Decision (P a)} (l : list A) :
  Forall (fun a => ~ P a) l -> filter P l = [].
Proof.
  induction 1 as [|a l Ha _ IH]; first done.
  rewrite filter_cons, decide_False by done. exact IH.
Qed.

Lemma place_same_score (pre : list (Result MetaValue)) x r l :
  ordered pre -> x ∈ pre -> r ∈ pre -> Forall (.∈ pre) l ->
  StronglySorted (fun x y => after x y = false) l ->
  filter (fun y => same_score x y = true) (place r l)
  = filter (fun y => same_score x y = true) l
    ++ (if same_score x r then [r] else []).
Proof.
  intros Hord Hx Hr. induction l as [|y l IH]; intros Hl Hsorted; simpl.
  - rewrite filter_cons, filter_nil. by destruct (same_score x r).
  - apply Forall_cons in Hl as [Hy Hl].
    apply StronglySorted_inv in Hsorted as [Hsorted Hbehind].
    destruct (after y r) eqn:Hyr.
    + rewrite filter_cons. destruct (same_score x r) eqn:Hxr.
      * rewrite decide_True by done.
        (* nothing from [y] on has the score of [x] *)
        assert (Hnone : Forall (fun z => ~ same_score x z = true) (y :: l)).
        { apply Forall_forall. intros z Hz Hxz.
          assert (Hzpre : z ∈ pre).
          { apply elem_of_cons in Hz as [->|Hz]; first done.
            rewrite Forall_forall in Hl. by apply Hl. }
          assert (Hzr : after z r = true).
          { apply elem_of_cons in Hz as [->|Hz]; first done.
            rewrite Forall_forall in Hbehind.
            by apply (after_behind pre y z r Hord Hy Hzpre Hr (Hbehind z Hz)). }
          unfold same_score in Hxr, Hxz.
          apply andb_prop in Hxr as [Hxr _]. apply andb_prop in Hxz as [_ Hzx].
          apply negb_true_iff in Hxr, Hzx.
          destruct (Hord z x Hzpre Hx) as (_ & _ & Htrans).
          by rewrite (Htrans r Hr Hzx Hxr) in Hzr. }
        by rewrite (filter_none _ (y :: l) Hnone).
      * rewrite decide_False by done. by rewrite app_nil_r.
    + rewrite !filter_cons, IH by done.
      by destruct (decide (same_score x y = true)).
Qed.

Lemma sort_from_sorted (pre : list (Result MetaValue)) l acc :
  ordered pre -> Forall (.∈ pre) l -> Forall (.∈ pre) acc ->
  StronglySorted (fun x y => after x y = false) acc ->
  StronglySorted (fun x y => after x y = false)
    (foldl (fun sorted r => place r sorted) acc l) /\
  forall x, x ∈ pre ->
    filter (fun y => same_score x y = true) (foldl (fun sorted r => place r sorted) acc l)
    = filter (fun y => same_score x y = true) (acc ++ l).
Proof.
  intros Hord. revert acc. induction l as [|r l IH]; intros acc Hl Hacc Hsorted; simpl.
  - by rewrite app_nil_r.
  - apply Forall_cons in Hl as [Hr Hl].
    destruct (IH (place r acc) Hl) as [Hs Hf].
    { rewrite place_perm. by constructor. }
    { by apply (place_sorted pre). }
    split; first done.
    intros x Hx. rewrite (Hf x Hx), !filter_app, filter_cons.
    rewrite (place_same_score pre x r acc Hord Hx Hr Hacc Hsorted).
    rewrite <- app_assoc. f_equal.
    by destruct (same_score x r).
Qed.

(** A list in which the comparator puts no result before one in front
    of it is in descending order. *)
Lemma descending_after l :
  scored l -> StronglySorted (fun x y => after x y = false) l -> descending l.
Proof.
  unfold scored, descending. intros Hnan Hs.
  induction Hs as [|x l Hs IH Hbehind]; first constructor.
  apply Forall_cons in Hnan as [Hx Hl].
  constructor; first by apply IH.
  rewrite Forall_forall in Hbehind, Hl. apply Forall_forall. intros y Hy.
  rewrite FloatFacts.leb_ltb, <-after_ltb by (done || by apply Hl).
  by rewrite (Hbehind y Hy).
Qed.

Section Query.
Variable expand : Query.Clause -> option (list word).
Variable clause_metadata : list word -> list Builder.FieldType -> JsObject.t MetaValue.

(** C8, as the code has it: [query] returns what [sort] makes of the
    results that were collected, and for every list of results without a
    score that is NaN, [sort] returns the results of the list, each with
    a score that is at least the score of each result behind it, and
    those that share a score in the order that they had in the list. *)
Theorem query_sorts_by_score_and_keeps_ties (idx : Index MetaValue)
    (clauses : list Query.Clause) (sets0 : LunrSet.Store)
    (collected : list (Result MetaValue)) :
  scored collected ->
  (matches expand clause_metadata idx clauses sets0 = Some collected ->
   query expand clause_metadata idx clauses sets0 = Some (sort collected)) /\
  sort collected ≡ₚ collected /\
  descending (sort collected) /\
  forall x, x ∈ collected -> ties x (sort collected) = ties x collected.
Proof.
  intros Hnan. pose proof (scores_ordered collected Hnan) as Hord.
  split; first (intros Hm; unfold query; by rewrite Hm).
  split; first apply sort_perm.
  destruct (sort_from_sorted collected collected [] Hord) as [Hs Hf].
  { by apply Forall_forall. }
  { constructor. }
  { constructor. }
  fold (sort collected) in Hs, Hf.
  assert (Hnan' : scored (sort collected)).
  { unfold scored. by rewrite sort_perm. }
  split; first by apply descending_after.
  intros x Hx.
  assert (Hnx : PrimFloat.is_nan (score x) = false).
  { unfold scored in Hnan. rewrite Forall_forall in Hnan. by apply Hnan. }
  rewrite !ties_same_score by done. by apply Hf.
Qed.

End Query.

End Sorting.

(** A loop whose turns keep an invariant and do not throw. *)
Lemma foldl_option_inv {A B : Type} (I : A -> Prop) (f : A -> B -> option A)
    (l : list B) (a : A) :
  (forall a x, x ∈ l -> I a -> exists a', f a x = Some a' /\ I a') ->
  I a -> exists a', foldl_option f a l = Some a' /\ I a'.
Proof.
  revert a. induction l as [|x l IH]; intros a Hstep Ha; simpl.
  - by exists a.
  - destruct (Hstep a x) as (a1 & -> & Ha1); [by left | done |]. simpl.
    apply IH; last done. intros a2 y Hy. apply Hstep. by right.
Qed.

Local Arguments LunrSet.constructor : simpl never.
Local Arguments LunrSet.union : simpl never.
Local Arguments LunrSet.intersect : simpl never.
Local Arguments LunrSet.contains : simpl never.

Section Negated.
Context {MetaValue : Type}.
Variable expand : Query.Clause -> option (list word).
Variable clause_metadata : list word -> list Builder.FieldType -> JsObject.t MetaValue.
Variable idx : Index MetaValue.
Variable Q : word -> Prop.

Local Abbreviation negated_state := (negated_state (MetaValue := MetaValue) idx Q).

Lemma match_field_prohibited (clause : Query.Clause) (e : word)
    (posting : Builder.Posting) (s : State MetaValue) (cm : nat) (f : word)
    (docs : JsObject.t (MatchData.Metadata MetaValue)) :
  Query.presence_ clause = Query.PROHIBITED ->
  negated_state s ->
  JsObject.get f (Builder.postings posting) = Some docs ->
  (forall x, x ∈ JsObject.keys docs -> Q x) ->
  exists s', match_field clause e posting (s, cm) f = Some (s', cm) /\ negated_state s'.
Proof.
  intros Hpres (Hmf & Hqv & Hreq & Hinit & Hproh) Hget Hdocs.
  unfold match_field, field_posting. rewrite Hget. simpl.
  destruct (LunrSet.constructor _ _ (sets s)) as [m sets1] eqn:Hnew.
  destruct (LunrSetFacts.constructor_spec _ _ _ _ Hinit Hnew) as (Hinit1 & Hext1 & Hm & Hmc).
  rewrite Hpres. rewrite decide_False by done. rewrite decide_True by done.
  set (current := default LunrSet.empty (prohibitedMatches s !! f)).
  assert (Hcur : LunrSet.valid sets1 current /\
                 forall x, LunrSet.contains sets1 current x = true -> Q x).
  { unfold current. destruct (prohibitedMatches s !! f) as [a|] eqn:Ha; simpl.
    - destruct (Hproh f a Ha) as [Hv Hc]. split.
      + by apply (LunrSetFacts.valid_extends (sets s)).
      + intros x Hx. apply Hc. by rewrite <- (LunrSetFacts.contains_extends _ sets1).
    - split; first by apply LunrSetFacts.initialized_valid.
      intros x Hx. by rewrite (LunrSetFacts.contains_empty sets1 x Hinit1) in Hx. }
  destruct Hcur as [Hcv Hcc].
  destruct (LunrSet.union current m sets1) as [u sets3] eqn:Hun.
  destruct (LunrSetFacts.union_spec _ _ _ _ _ Hinit1 Hcv Hm Hun) as (Hinit3 & Hext3 & Hu & Huc).
  eexists. split; first done.
  refine (conj _ (conj _ (conj _ (conj _ _)))); simpl; try done.
  intros g a Hga.
  destruct (decide (g = f)) as [->|Hne].
  - rewrite lookup_insert_eq in Hga. injection Hga as <-. split; first done.
    intros x Hx. rewrite Huc in Hx. apply orb_true_iff in Hx as [Hx|Hx].
    + by apply Hcc.
    + rewrite Hmc in Hx. apply bool_decide_eq_true in Hx. by apply Hdocs.
  - rewrite lookup_insert_ne in Hga by done.
    destruct (Hproh g a Hga) as [Hv Hc].
    assert (Hext : LunrSet.extends (sets s) sets3)
      by (by apply (LunrSetFacts.extends_trans _ sets1)).
    split; first by apply (LunrSetFacts.valid_extends (sets s)).
    intros x Hx. apply Hc. by rewrite <- (LunrSetFacts.contains_extends _ sets3).
Qed.

(** The postings of the term [e] know the fields of the clause, and hold
    only documents with [Q]. *)
Local Abbreviation term_ok c e :=
  (exists posting, JsObject.get e (invertedIndex idx) = Some posting /\
     forall f, f ∈ Query.fields c ->
       exists docs, JsObject.get f (Builder.postings posting) = Some docs /\
         forall x, x ∈ JsObject.keys docs -> Q x).

Lemma match_term_prohibited (clause : Query.Clause) (e : word) (acc : State MetaValue * nat) :
  Query.presence_ clause = Query.PROHIBITED ->
  negated_state acc.1 -> term_ok clause e ->
  exists acc', match_term idx clause acc e = Some acc' /\ negated_state acc'.1.
Proof.
  intros Hpres Hacc (posting & Hget & Hfields).
  unfold match_term. rewrite Hget. simpl.
  apply (foldl_option_inv (fun acc => negated_state acc.1)); last done.
  intros [s cm] f Hf Hs. destruct (Hfields f Hf) as (docs & Hdocs & HQ).
  destruct (match_field_prohibited clause e posting s cm f docs Hpres Hs Hdocs HQ)
    as (s' & -> & Hs').
  by eexists.
Qed.

Lemma match_terms_prohibited (ts : list Query.Term) (c : Query.Clause)
    (acc : State MetaValue * nat) :
  Query.presence_ c = Query.PROHIBITED ->
  negated_state acc.1 ->
  (forall t, t ∈ ts ->
     exists es, expand (Query.with_term c t) = Some es /\
       forall e, e ∈ es -> term_ok c e) ->
  exists acc', match_terms expand idx c ts acc = Some acc' /\ negated_state acc'.1.
Proof.
  revert c acc. induction ts as [|t ts IH]; intros c acc Hpres Hacc Hts; simpl.
  - by eexists.
  - destruct (Hts t) as (es & -> & Hes); first by left. simpl.
    rewrite Hpres. rewrite (bool_decide_eq_false_2 (Query.PROHIBITED = Query.REQUIRED)) by done.
    rewrite andb_false_r.
    destruct (foldl_option_inv (fun acc => negated_state acc.1)
                (match_term idx (Query.with_term c t)) es acc) as (acc1 & -> & Hacc1);
      [|done|].
    { intros acc0 e He Hacc0.
      by apply (match_term_prohibited (Query.with_term c t) e acc0 Hpres Hacc0), Hes. }
    simpl. apply (IH (Query.with_term c t) acc1 Hpres Hacc1).
    intros t' Ht'. apply (Hts t'). by right.
Qed.

Lemma match_clause_prohibited (c : Query.Clause) (s : State MetaValue) :
  Query.presence_ c = Query.PROHIBITED ->
  negated_state s ->
  (forall t, t ∈ clause_terms clause_metadata idx c ->
     exists es, expand (Query.with_term c t) = Some es /\
       forall e, e ∈ es -> term_ok c e) ->
  exists s', match_clause expand clause_metadata idx s c = Some s' /\ negated_state s'.
Proof.
  intros Hpres Hs Hts. unfold match_clause.
  destruct (match_terms_prohibited _ c (s, LunrSet.empty) Hpres Hs Hts)
    as ([s' cm] & -> & Hs').
  simpl. rewrite Hpres. rewrite decide_False by done. by eexists.
Qed.

Lemma all_matches_negated (s : State MetaValue) :
  negated_state s ->
  exists ap st', all_matches idx s = (LunrSet.complete, ap, st') /\
    LunrSet.initialized st' /\
    forall x, LunrSet.contains st' ap x = true -> Q x.
Proof.
  intros (_ & _ & Hreq & Hinit & Hproh). unfold all_matches.
  assert (Hnone : forall g, requiredMatches s !! g = None)
    by (intros g; by rewrite Hreq, lookup_empty).
  assert (Hgen : forall flds ap st,
    LunrSet.initialized st -> LunrSet.extends (sets s) st -> LunrSet.valid st ap ->
    (forall x, LunrSet.contains st ap x = true -> Q x) ->
    exists ap' st',
      foldl (fun acc field =>
               let '(allRequired, allProhibited, st) := acc in
               let '(allRequired, st) :=
                 match requiredMatches s !! field with
                 | Some r => LunrSet.intersect allRequired r st
                 | None => (allRequired, st)
                 end in
               let '(allProhibited, st) :=
                 match prohibitedMatches s !! field with
                 | Some p => LunrSet.union allProhibited p st
                 | None => (allProhibited, st)
                 end in
               (allRequired, allProhibited, st))
            (LunrSet.complete, ap, st) flds = (LunrSet.complete, ap', st') /\
      LunrSet.initialized st' /\
      forall x, LunrSet.contains st' ap' x = true -> Q x).
  { induction flds as [|g flds IH]; intros ap st Hi He Hv Hc; simpl.
    - by exists ap, st.
    - rewrite (Hnone g).
      destruct (prohibitedMatches s !! g) as [p|] eqn:Hp; last by apply IH.
      destruct (Hproh g p Hp) as [Hpv Hpc].
      destruct (LunrSet.union ap p st) as [u st1] eqn:Hun.
      destruct (LunrSetFacts.union_spec _ _ _ _ _ Hi Hv
                  (LunrSetFacts.valid_extends _ _ _ He Hpv) Hun)
        as (Hi1 & He1 & Hu & Huc).
      apply IH; [done | by apply (LunrSetFacts.extends_trans _ st) | done |].
      intros x Hx. rewrite Huc in Hx. apply orb_true_iff in Hx as [Hx|Hx].
      + by apply Hc.
      + apply Hpc. by rewrite <- (LunrSetFacts.contains_extends _ st). }
  apply Hgen; [done | apply LunrSetFacts.extends_refl | by apply LunrSetFacts.initialized_valid |].
  intros x Hx. by rewrite (LunrSetFacts.contains_empty _ x Hinit) in Hx.
Qed.

Lemma isNegated_prohibited (clauses : list Query.Clause) :
  Forall (fun c => Query.presence_ c = Query.PROHIBITED) clauses ->
  Query.isNegated clauses = true.
Proof.
  intros H. unfold Query.isNegated. apply forallb_forall. intros c Hc.
  apply bool_decide_eq_true. rewrite Forall_forall in H. apply H.
  by apply list_elem_of_In.
Qed.

Lemma blank_match_data (ks : list word) (m : JsObject.t (MatchData.MatchData MetaValue)) :
  Forall (fun key => exists r, key = FieldRef.toString r /\
                       (FieldRef.joiner ∉ FieldRef.fieldName r) /\
                       FieldRef.fieldName r ∈ fields idx) ks ->
  exists m',
    foldl_option
      (fun matching matchingFieldRef =>
         fieldRef ← FieldRef.fromString matchingFieldRef;
         Some (JsObject.set (FieldRef.toString fieldRef)
                 (MatchData.new None []) matching)) m ks = Some m' /\
    (forall k, is_Some (JsObject.get k m) -> is_Some (JsObject.get k m')) /\
    forall k, k ∈ ks -> is_Some (JsObject.get k m').
Proof.
  revert m. induction ks as [|key ks IH]; intros m Hks; cbn [foldl_option].
  - exists m. repeat split; try done. intros k Hk. by apply elem_of_nil in Hk.
  - apply Forall_cons in Hks as [(r & -> & Hj & _) Hks].
    rewrite (FieldRefFacts.fromString_toString r Hj). cbn [mbind option_bind].
    destruct (IH (JsObject.set (FieldRef.toString r) (MatchData.new None []) m) Hks)
      as (m' & -> & Hmono & Hall).
    exists m'. split; first done.
    assert (Hset : forall k, is_Some (JsObject.get k m) \/ k = FieldRef.toString r ->
                     is_Some (JsObject.get k m')).
    { intros k Hk. apply Hmono.
      destruct (decide (k = FieldRef.toString r)) as [->|Hne].
      - rewrite JsObjectFacts.get_set_eq. by eexists.
      - rewrite JsObjectFacts.get_set_ne by done. by destruct Hk. }
    split.
    + intros k Hk. apply Hset. by left.
    + intros k Hk. apply elem_of_cons in Hk as [->|Hk]; [apply Hset; by right | by apply Hall].
Qed.

Lemma similarity_new (fv : Vector.Vector) :
  Vector.similarity Vector.new fv = Some (0%float, Vector.new).
Proof. reflexivity. Qed.

Lemma start_vectors (flds : list word) (m : gmap word Vector.Vector) (f : word) :
  foldl (fun vectors field => <[field := Vector.new]> vectors) m flds !! f
  = if decide (f ∈ flds) then Some Vector.new else m !! f.
Proof.
  revert m. induction flds as [|g flds IH]; intros m.
  - rewrite decide_False; [done | apply not_elem_of_nil].
  - change (foldl ?h m (g :: flds)) with (foldl h (h m g) flds). rewrite IH.
    destruct (decide (f ∈ flds)) as [Hin|Hnot].
    + rewrite (decide_True (P := f ∈ g :: flds)) by (by right). done.
    + destruct (decide (f = g)) as [->|Hne].
      * rewrite lookup_insert_eq.
        rewrite (decide_True (P := g ∈ g :: flds)) by (by left). done.
      * rewrite lookup_insert_ne by done.
        rewrite (decide_False (P := f ∈ g :: flds)); first done.
        intros Hin. apply elem_of_cons in Hin as [->|Hin]; done.
Qed.

Lemma update_result_zero (d : word) (md : MatchData.MatchData MetaValue)
    (results results' : list (Result MetaValue)) :
  Forall (fun r => score r = 0%float) results ->
  update_result d 0 md results = Some results' ->
  Forall (fun r => score r = 0%float) results' /\ ref <$> results' = ref <$> results.
Proof.
  revert results'. induction results as [|r results IH]; intros results' Hz; simpl; first done.
  apply Forall_cons in Hz as [Hr Hz].
  destruct (decide (ref r = d)).
  - intros [= <-]. split; last done.
    constructor; last done. simpl. by rewrite Hr.
  - destruct (update_result d 0 md results) as [rs|]; last done.
    simpl. intros [= <-]. destruct (IH rs Hz eq_refl) as [Hz' Hrefs].
    split; first by constructor.
    by rewrite !fmap_cons, Hrefs.
Qed.

Lemma update_result_found (d : word) (v : float) (md : MatchData.MatchData MetaValue)
    (results results' : list (Result MetaValue)) :
  update_result d v md results = Some results' -> d ∈ ref <$> results.
Proof.
  revert results'.
  induction results as [|r results IH]; intros results'; cbn [update_result]; first done.
  rewrite fmap_cons. destruct (decide (ref r = d)) as [<-|Hne].
  - intros _. by left.
  - destruct (update_result d v md results) as [rs|]; last done.
    intros _. right. by apply (IH rs).
Qed.

Lemma score_field_negated (matching : JsObject.t (MatchData.MatchData MetaValue))
    (ap : nat) (st : LunrSet.Store)
    (acc : gmap word Vector.Vector * list (Result MetaValue)) (key : word) :
  LunrSet.initialized st ->
  (forall x, LunrSet.contains st ap x = true -> Q x) ->
  (exists r, key = FieldRef.toString r /\ (FieldRef.joiner ∉ FieldRef.fieldName r) /\
             FieldRef.fieldName r ∈ fields idx) ->
  key ∈ JsObject.keys (fieldVectors idx) ->
  is_Some (JsObject.get key matching) ->
  acc.1 = queryVectors (start idx st) ->
  Forall (fun r => score r = 0%float) acc.2 ->
  exists acc',
    score_field idx matching LunrSet.complete ap st acc key = Some acc' /\
    acc'.1 = queryVectors (start idx st) /\
    Forall (fun r => score r = 0%float) acc'.2 /\
    (forall d, d ∈ ref <$> acc.2 -> d ∈ ref <$> acc'.2) /\
    (forall r, FieldRef.fromString key = Some r -> ~ Q (FieldRef.docRef r) ->
       FieldRef.docRef r ∈ ref <$> acc'.2).
Proof.
  intros Hinit Hap (r & -> & Hj & Hf) Hkey [md Hmd] Hvec Hzero.
  destruct acc as [vectors results]. simpl in Hvec, Hzero.
  unfold score_field. rewrite (FieldRefFacts.fromString_toString r Hj).
  cbn [mbind option_bind]. rewrite (LunrSetFacts.contains_complete st _ Hinit).
  cbn [negb].
  destruct (LunrSet.contains st ap (FieldRef.docRef r)) eqn:Hc.
  - exists (vectors, results). repeat split; try done.
    intros r' [= <-] Hnot. destruct (Hnot (Hap _ Hc)).
  - destruct (JsObjectFacts.get_key _ _ Hkey) as [fv Hfv]. rewrite Hfv.
    cbn [mbind option_bind].
    assert (Hq : vectors !! FieldRef.fieldName r = Some Vector.new).
    { rewrite Hvec. unfold start. cbn [queryVectors].
      by rewrite start_vectors, decide_True. }
    rewrite Hq. cbn [mbind option_bind]. rewrite similarity_new, Hmd.
    cbn [mbind option_bind]. rewrite (insert_id _ _ _ Hq).
    destruct (update_result (FieldRef.docRef r) 0 md results) as [results'|] eqn:Hup.
    + destruct (update_result_zero _ _ _ _ Hzero Hup) as [Hzero' Hrefs].
      exists (vectors, results'). simpl. repeat split; try done.
      * intros d Hd. by rewrite Hrefs.
      * intros r' [= <-] _. rewrite Hrefs. by apply (update_result_found _ _ _ _ _ Hup).
    + exists (vectors, results ++ [mkResult (FieldRef.docRef r) 0 md]). simpl.
      repeat split; try done.
      * apply Forall_app. split; first done. by repeat constructor.
      * intros d Hd. rewrite fmap_app. apply elem_of_app. by left.
      * intros r' [= <-] _. rewrite fmap_app. apply elem_of_app. right. simpl. by left.
Qed.

Lemma score_fields_negated (matching : JsObject.t (MatchData.MatchData MetaValue))
    (ap : nat) (st : LunrSet.Store) (ks : list word)
    (acc : gmap word Vector.Vector * list (Result MetaValue)) :
  LunrSet.initialized st ->
  (forall x, LunrSet.contains st ap x = true -> Q x) ->
  Forall (fun key => (exists r, key = FieldRef.toString r /\
                        (FieldRef.joiner ∉ FieldRef.fieldName r) /\
                        FieldRef.fieldName r ∈ fields idx) /\
                     key ∈ JsObject.keys (fieldVectors idx) /\
                     is_Some (JsObject.get key matching)) ks ->
  acc.1 = queryVectors (start idx st) ->
  Forall (fun r => score r = 0%float) acc.2 ->
  exists acc',
    foldl_option (score_field idx matching LunrSet.complete ap st) acc ks = Some acc' /\
    Forall (fun r => score r = 0%float) acc'.2 /\
    (forall d, d ∈ ref <$> acc.2 -> d ∈ ref <$> acc'.2) /\
    (forall key r, key ∈ ks -> FieldRef.fromString key = Some r ->
       ~ Q (FieldRef.docRef r) -> FieldRef.docRef r ∈ ref <$> acc'.2).
Proof.
  intros Hinit Hap. revert acc.
  induction ks as [|key ks IH]; intros acc Hks Hvec Hzero; cbn [foldl_option].
  - exists acc. repeat split; try done. intros key r Hk. by apply elem_of_nil in Hk.
  - apply Forall_cons in Hks as [(Hr & Hkey & Hmd) Hks].
    destruct (score_field_negated matching ap st acc key Hinit Hap Hr Hkey Hmd Hvec Hzero)
      as (acc1 & -> & Hvec1 & Hzero1 & Hmono1 & Hnew1).
    cbn [mbind option_bind].
    destruct (IH acc1 Hks Hvec1 Hzero1) as (acc' & -> & Hzero' & Hmono' & Hnew').
    exists acc'. repeat split; try done.
    + intros d Hd. by apply Hmono', Hmono1.
    + intros key' r Hk Hfrom Hnot. apply elem_of_cons in Hk as [->|Hk].
      * by apply Hmono', Hnew1.
      * by apply (Hnew' key').
Qed.

End Negated.

Section NegatedQuery.
Context {MetaValue : Type}.
Variable expand : Query.Clause -> option (list word).
Variable clause_metadata : list word -> list Builder.FieldType -> JsObject.t MetaValue.

(** C7, as the code has it: on an index as the builder makes it, when
    every clause is prohibited and names fields of the index only, and
    every expansion returns terms of the inverted index, the query
    returns, and every document of the index that holds no term of the
    expansion of a clause, in a field of that clause, has a result whose
    score is 0. *)
Theorem negated_query_returns_the_other_documents (idx : Index MetaValue)
    (clauses : list Query.Clause) (sets0 : LunrSet.Store) :
  Forall (fun c => Query.presence_ c = Query.PROHIBITED) clauses ->
  LunrSet.initialized sets0 ->
  field_refs_ok idx ->
  postings_ok idx ->
  known_fields idx clauses ->
  expands_to_terms expand clause_metadata idx clauses ->
  exists results,
    query expand clause_metadata idx clauses sets0 = Some results /\
    forall d, document idx d ->
      ~ holds_a_term expand clause_metadata idx clauses d ->
      exists r, r ∈ results /\ ref r = d /\ score r = 0%float.
Proof.
  intros Hproh Hinit Hrefs Hpost Hknown Hexp.
  set (Q := holds_a_term expand clause_metadata idx clauses).
  (* the loop over the clauses *)
  assert (Hloop : exists s, match_clauses expand clause_metadata idx clauses sets0 = Some s /\
                            negated_state idx Q s).
  { unfold match_clauses. apply foldl_option_inv.
    - intros s c Hc Hs. rewrite Forall_forall in Hproh.
      apply (match_clause_prohibited expand clause_metadata idx Q c s (Hproh c Hc) Hs).
      intros t Ht. destruct (Hexp c t Hc Ht) as (es & Hes & Hterms).
      exists es. split; first done.
      intros e He. destruct (Hterms e He) as [posting Hget].
      exists posting. split; first done.
      intros f Hf.
      assert (Hfield : f ∈ fields idx).
      { unfold known_fields in Hknown. rewrite Forall_forall in Hknown.
        specialize (Hknown c Hc). rewrite Forall_forall in Hknown. by apply Hknown. }
      destruct (Hpost e posting Hget f Hfield) as [docs Hdocs].
      exists docs. split; first done.
      intros x Hx. by exists c, t, es, e, posting, f, docs.
    - by refine (conj _ (conj _ (conj _ (conj _ _)))). }
  destruct Hloop as (s & Hs & Hneg).
  destruct (all_matches_negated idx Q s Hneg) as (ap & st & Hall & Hinit' & Hap).
  destruct (blank_match_data idx (JsObject.keys (fieldVectors idx)) (matchingFields s) Hrefs)
    as (matching & Hblank & _ & Hmatching).
  pose proof Hneg as (_ & Hvec & _).
  destruct (score_fields_negated idx Q matching ap st (JsObject.keys (fieldVectors idx))
              (queryVectors s, []) Hinit' Hap) as (acc & Hacc & Hzero & _ & Hnew).
  { unfold field_refs_ok in Hrefs. rewrite Forall_forall in Hrefs.
    apply Forall_forall. intros key Hkey. repeat split; try done.
    - by apply Hrefs.
    - by apply Hmatching. }
  { done. }
  { constructor. }
  exists (sort acc.2). split.
  - unfold query, matches. rewrite Hs. cbn [mbind option_bind]. rewrite Hall.
    unfold candidates. rewrite (isNegated_prohibited clauses Hproh), Hblank.
    cbn [mbind option_bind]. by rewrite Hacc.
  - intros d (key & r & Hkey & Hfrom & <-) Hnot.
    specialize (Hnew key r Hkey Hfrom Hnot).
    apply list_elem_of_fmap in Hnew as (res & Href & Hres).
    exists res. split; first by rewrite sort_perm.
    split; first done.
    rewrite Forall_forall in Hzero. by apply Hzero.
Qed.

End NegatedQuery.

(** One fuel for the turns of a list. *)
Lemma uniform_fuel {A : Type} (P : A -> nat -> Prop) (l : list A) :
  (forall a, a ∈ l -> exists k, forall fuel, k <= fuel -> P a fuel) ->
  exists k, forall a, a ∈ l -> forall fuel, k <= fuel -> P a fuel.
Proof.
  induction l as [|x l IH]; intros Hall.
  - exists 0. intros a Ha. by apply elem_of_nil in Ha.
  - destruct (Hall x) as [k Hk]; first by left.
    destruct IH as [k' Hk']; first (intros a Ha; apply Hall; by right).
    exists (k `max` k'). intros a [->|Ha]%elem_of_cons fuel Hfuel.
    + apply Hk. lia.
    + apply Hk'; [done | lia].
Qed.

Section Plain.
Context {MetaValue : Type}.
Variable clause_metadata : list word -> list Builder.FieldType -> JsObject.t MetaValue.

(** The expansions of clauses for strings, without edit distance, return
    terms of the inverted index, with enough fuel, when the token set of
    the index holds terms of the inverted index only. *)
Lemma plain_clauses_expand_to_terms (idx : Index MetaValue) (clauses : list Query.Clause)
    (st : TokenSet.Store) :
  vocabulary_ok idx st ->
  Forall plain_clause clauses ->
  exists k, forall fuel, k <= fuel ->
    expands_to_terms (Expand.expand fuel st (tokenSet idx)) clause_metadata idx clauses.
Proof.
  intros (Hwf & Hroot & [d Hd] & Hterms) Hplain.
  destruct (uniform_fuel
              (fun ct fuel =>
                 exists es, Expand.expand fuel st (tokenSet idx) (Query.with_term ct.1 ct.2)
                            = Some es /\
                   forall e, e ∈ es -> is_Some (JsObject.get e (invertedIndex idx)))
              (c ← clauses; (fun t => (c, t)) <$> clause_terms clause_metadata idx c))
    as [k Hk].
  { intros [c t] (c' & Ht & Hc)%list_elem_of_bind.
    apply list_elem_of_fmap in Ht as (t' & [= <- <-] & Ht).
    rewrite Forall_forall in Hplain. destruct (Hplain c Hc) as (s & Hterm & Hedit).
    assert (Hstring : exists s', t = Query.string_term s').
    { unfold clause_terms in Ht. rewrite Hterm in Ht.
      destruct (Query.usePipeline c).
      - apply list_elem_of_fmap in Ht as (s' & -> & _). by exists s'.
      - apply list_elem_of_singleton in Ht as ->. by exists s. }
    destruct Hstring as [s' ->].
    destruct (ExpandFacts.expand_string_returns st (tokenSet idx) d
                (Query.with_term c (Query.string_term s')) s' Hwf Hroot Hd eq_refl Hedit)
      as (k & es & Hes & Hin).
    exists k. intros fuel Hfuel. exists es. split; first by apply Hes.
    intros e (_ & He & _)%Hin. by apply Hterms. }
  exists k. intros fuel Hfuel c t Hc Ht.
  apply (Hk (c, t)); last done.
  apply list_elem_of_bind. exists c. split; last done. by apply list_elem_of_fmap_2.
Qed.

End Plain.

(** The theorem at the index [Examples.three_docs] and the query that
    prohibits [cat] in the titles. *)
Lemma negated_query_witness :
  exists results,
    Examples.query Examples.not_cat = Some results /\
    forall d, document Examples.three_docs d ->
      ~ holds_a_term (Expand.expand 256 Examples.vocabulary_store Examples.vocabulary_root)
          Examples.no_metadata Examples.three_docs Examples.not_cat d ->
      exists r, r ∈ results /\ ref r = d /\ score r = 0%float.
Proof.
  apply (negated_query_returns_the_other_documents
           (Expand.expand 256 Examples.vocabulary_store Examples.vocabulary_root)
           Examples.no_metadata Examples.three_docs Examples.not_cat LunrSet.initial).
  - repeat constructor.
  - apply LunrSetFacts.initialized_initial.
  - repeat apply Forall_cons_2; try apply Forall_nil_2.
    + exists (FieldRef.mkFieldRef (w "a") (w "title")).
      repeat split; (apply (bool_decide_unpack _); by vm_compute).
    + exists (FieldRef.mkFieldRef (w "a") (w "wordCount")).
      repeat split; (apply (bool_decide_unpack _); by vm_compute).
    + exists (FieldRef.mkFieldRef (w "b") (w "title")).
      repeat split; (apply (bool_decide_unpack _); by vm_compute).
    + exists (FieldRef.mkFieldRef (w "b") (w "wordCount")).
      repeat split; (apply (bool_decide_unpack _); by vm_compute).
    + exists (FieldRef.mkFieldRef (w "c") (w "title")).
      repeat split; (apply (bool_decide_unpack _); by vm_compute).
    + exists (FieldRef.mkFieldRef (w "c") (w "wordCount")).
      repeat split; (apply (bool_decide_unpack _); by vm_compute).
  - intros t posting Hget f Hf.
    assert (Hposting : posting ∈ (invertedIndex Examples.three_docs).*2).
    { clear Hf. revert Hget. generalize (invertedIndex Examples.three_docs).
      intros o. induction o as [|[k v] o IH]; simpl; first done.
      destruct (decide (t = k)); [intros [= ->]; by left | intros ?; right; by apply IH]. }
    change (f ∈ [w "title"; w "wordCount"]) in Hf.
    apply elem_of_cons in Hf as [-> | ->%list_elem_of_singleton];
      repeat (apply elem_of_cons in Hposting as [-> | Hposting]);
      (by eexists) || (by apply elem_of_nil in Hposting).
  - repeat constructor.
  - intros c t Hc Ht. apply list_elem_of_singleton in Hc as ->.
    apply list_elem_of_singleton in Ht as ->.
    exists [w "cat"]. split; first by vm_compute.
    intros e He. apply list_elem_of_singleton in He as ->.
    eexists. by vm_compute.
Defined.

(** C7, as the specification has it, fails for a clause that names a
    field the index does not have: no document holds [cat] in a field
    [nope], so that each document of [Examples.three_docs] should be a
    result, and the query throws. *)
Lemma prohibited_clause_on_an_unknown_field_throws :
  Examples.query [Examples.term_clause "cat" ["nope"] Query.PROHIBITED] = None /\
  document Examples.three_docs (w "b") /\
  ~ holds_a_term (Expand.expand 256 Examples.vocabulary_store Examples.vocabulary_root)
      Examples.no_metadata Examples.three_docs
      [Examples.term_clause "cat" ["nope"] Query.PROHIBITED] (w "b").
Proof.
  split; first by vm_compute.
  split.
  - exists (w "title/b"), (FieldRef.mkFieldRef (w "b") (w "title")).
    split; first (apply (bool_decide_unpack _); by vm_compute). by vm_compute.
  - intros (c & t & es & e & posting & f & docs & Hc & Ht & Hes & He & Hget & Hf & Hdocs & _).
    apply list_elem_of_singleton in Hc as ->.
    apply list_elem_of_singleton in Ht as ->.
    vm_compute in Hes. injection Hes as <-.
    apply list_elem_of_singleton in He as ->.
    vm_compute in Hget. injection Hget as <-.
    apply list_elem_of_singleton in Hf as ->.
    by vm_compute in Hdocs.
Qed.

(** The theorem at the index [Examples.three_docs] and the query for
    [dog] or [cat] in the titles: no score is NaN, and the documents b
    and a, which have the same score, stay in the order in which they
    were collected. *)
Lemma query_sorts_witness :
  (matches (Expand.expand 256 Examples.vocabulary_store Examples.vocabulary_root)
     Examples.no_metadata Examples.three_docs Examples.dog_or_cat LunrSet.initial
   = Some (Examples.unsorted Examples.dog_or_cat) ->
   Examples.query Examples.dog_or_cat = Some (sort (Examples.unsorted Examples.dog_or_cat))) /\
  sort (Examples.unsorted Examples.dog_or_cat) ≡ₚ Examples.unsorted Examples.dog_or_cat /\
  descending (sort (Examples.unsorted Examples.dog_or_cat)) /\
  forall x, x ∈ Examples.unsorted Examples.dog_or_cat ->
    ties x (sort (Examples.unsorted Examples.dog_or_cat))
    = ties x (Examples.unsorted Examples.dog_or_cat).
Proof.
  apply (query_sorts_by_score_and_keeps_ties
           (Expand.expand 256 Examples.vocabulary_store Examples.vocabulary_root)
           Examples.no_metadata Examples.three_docs Examples.dog_or_cat LunrSet.initial
           (Examples.unsorted Examples.dog_or_cat)).
  apply (bool_decide_unpack _). by vm_compute.
Defined.

(** C8, as the specification has it, fails when a score is NaN.  On
    [Examples.boosted_docs] the document a scores Infinity in its title
    and -Infinity in its body, which add up to NaN; the document b scores
    Infinity.  The comparator returns NaN for the two, the results stay
    as they were collected, and the result with the score NaN, which is
    not at least Infinity, stands before the result with the score
    Infinity. *)
Lemma nan_score_is_not_ranked :
  (fun results : list (Result word) => (fun r => (ref r, score r)) <$> results)
    <$> Examples.boosted_query Examples.cat_anywhere
  = Some [(w "a", nan); (w "b", infinity)] /\
  forall results,
    Examples.boosted_query Examples.cat_anywhere = Some results -> ~ descending results.
Proof.
  split; first by vm_compute.
  intros results Hquery. vm_compute in Hquery. injection Hquery as <-.
  intros [_ Hbehind]%StronglySorted_inv. apply Forall_inv in Hbehind.
  by vm_compute in Hbehind.
Qed.

(** C6: a REQUIRED clause whose term has no expansion does not end the
    loop over the clauses, its [break] leaves the loop over the terms of
    that clause only.  On [Examples.three_docs], [zzz] has no expansion;
    the clause for [cat] that follows it still records its matching fields,
    which a query of the one clause [zzz] does not have;
    when the clause that follows looks in a field that the index does not
    have, the query throws, where the query of the one clause returns no
    result; and when the REQUIRED clause has no field, the query returns
    the documents of the clause that follows. *)
Theorem required_miss_does_not_end_the_clauses :
  Expand.expand 256 Examples.vocabulary_store Examples.vocabulary_root
    (Examples.zzz ["title"]) = Some [] /\
  Examples.matched_fields [Examples.zzz ["title"]] = Some [] /\
  Examples.matched_fields
    [Examples.zzz ["title"]; Examples.term_clause "cat" ["title"] Query.OPTIONAL]
  = Some [w "title/a"; w "title/c"] /\
  Examples.run_query [Examples.zzz ["title"]] = Some [] /\
  Examples.run_query
    [Examples.zzz ["title"]; Examples.term_clause "cat" ["nope"] Query.OPTIONAL]
  = None /\
  Examples.run_query
    [Examples.zzz []; Examples.term_clause "cat" ["title"] Query.OPTIONAL]
  = Some [(w "a", 0.75%float); (w "c", 0.5%float)].
Proof. repeat split; by vm_compute. Qed.

End IndexFacts.

(** ** Token sets: what each operation builds *)

Module TokenSetLaws.
Import TokenSet Language StoreFacts.

Lemma depth_le_bounded (st : Store) (d n : nat) :
  Checks.depth_le st d n = true -> bounded st d n.
Proof.
  revert n. induction d as [|d IH]; intros n; simpl.
  - intros H%bool_decide_eq_true. unfold keys in H.
    by apply map_to_list_empty_iff.
  - intros H c m Hcm. apply IH.
    rewrite forallb_forall in H. apply (H (c, m)).
    apply list_elem_of_In. by apply elem_of_map_to_list.
Qed.

Lemma allocated_wf (st : Store) : Checks.allocated st = true -> wf st.
Proof.
  unfold Checks.allocated. rewrite forallb_forall. intros H n c m Hcm.
  unfold node in Hcm. rewrite lookup_total_alt in Hcm.
  destruct (nodes st !! n) as [t|] eqn:Hn; simpl in Hcm; last done.
  specialize (H (n, t)). rewrite andb_true_iff, forallb_forall in H.
  destruct H as [H1 H2].
  { apply list_elem_of_In. by apply elem_of_map_to_list. }
  split.
  - by apply Nat.ltb_lt.
  - apply Nat.ltb_lt. apply (H2 (c, m)).
    apply list_elem_of_In. by apply elem_of_map_to_list.
Qed.

Lemma minimize_root (downTo : nat) (b : Builder.Builder) (st : Store) :
  Builder.root (Builder.minimize downTo b st).1 = Builder.root b.
Proof.
  unfold Builder.minimize.
  by destruct (Builder.minimize_loop _ _ _ _) as [[u m] st2].
Qed.

Lemma insert_root (x : word) (b b' : Builder.Builder) (st st' : Store) :
  Builder.insert x b st = inr (b', st') -> Builder.root b' = Builder.root b.
Proof.
  unfold Builder.insert. destruct (word_ltb _ _); first done.
  pose proof (minimize_root (Builder.commonPrefix x (Builder.previousWord b)) b st) as Hroot.
  destruct (Builder.minimize _ b st) as [b1 st1].
  destruct (Builder.extend _ _ _ st1) as [[n' unchecked] st2].
  by intros [= <- _].
Qed.

Lemma insert_all_root (arr : list word) (b b' : Builder.Builder) (st st' : Store) :
  insert_all arr b st = inr (b', st') -> Builder.root b' = Builder.root b.
Proof.
  revert b st. induction arr as [|x arr IH]; intros b st; simpl.
  - by intros [= <- _].
  - destruct (Builder.insert x b st) as [e|[b1 st1]] eqn:Hx; first done.
    intros H. rewrite (IH _ _ H). by apply (insert_root _ _ _ _ _ Hx).
Qed.

(** The token set that [TokenSet.fromArray] returns is the root that the
    builder creates first. *)
Lemma fromArray_root (arr : list word) (st st' : Store) (root : nat) :
  fromArray arr st = inr (root, st') -> root = _nextId st.
Proof.
  unfold fromArray, Builder.new, Builder.finish.
  rewrite (surjective_pairing (new st)), new_fst.
  destruct (insert_all _ _ _) as [e|[b1 st1]] eqn:Hall; first done.
  pose proof (minimize_root 0 b1 st1) as Hroot.
  destruct (Builder.minimize 0 b1 st1) as [b2 st2].
  intros [= <- _]. simpl in Hroot. rewrite Hroot.
  by rewrite (insert_all_root _ _ _ _ _ Hall).
Qed.

(** [n.toArray()] on a token set without cycles returns, and the array
    holds exactly the strings that lead from [n] to a final token set. *)
Theorem toArray_lists_the_strings_of_a_token_set (st : Store) (d n : nat) :
  bounded st d n ->
  exists k words,
    (forall fuel, k <= fuel -> toArray fuel st n = Some words) /\
    forall s, s ∈ words <-> accepts st n s = true.
Proof. apply ToArrayFacts.toArray_returns. Qed.

Lemma toArray_lists_the_strings_witness :
  exists k words,
    (forall fuel, k <= fuel ->
       toArray fuel Examples.vocabulary_store Examples.vocabulary_root = Some words) /\
    forall s, s ∈ words <-> accepts Examples.vocabulary_store Examples.vocabulary_root s = true.
Proof.
  apply (toArray_lists_the_strings_of_a_token_set _ 3).
  apply depth_le_bounded. by vm_compute.
Defined.

(** [TokenSet.fromArray(arr)] on an array in ascending order never throws:
    it returns a new token set without cycles, in a store where every
    edge leads to an allocated token set, so that [toArray] returns on
    it. *)
Theorem fromArray_of_a_sorted_array_returns (arr : list word) (st : Store) :
  wf st -> ascending [] arr = true ->
  exists st' k words,
    fromArray arr st = inr (_nextId st, st') /\
    wf st' /\ _nextId st < _nextId st' /\
    forall fuel, k <= fuel -> toArray fuel st' (_nextId st) = Some words.
Proof.
  intros Hwf Hord.
  destruct (BuildFacts.fromArray_returns arr st Hwf Hord)
    as (root & st' & d & Hrun & Hwf' & Hroot & Hd & Hnext).
  destruct (ToArrayFacts.toArray_returns st' d root Hd) as (k & words & Hwords & _).
  pose proof (fromArray_root _ _ _ _ Hrun) as ->.
  exists st', k, words. by split_and!.
Qed.

Lemma fromArray_of_a_sorted_array_witness :
  exists st' k words,
    fromArray [w "cat"; w "cow"; w "dog"] initial = inr (_nextId initial, st') /\
    wf st' /\ _nextId initial < _nextId st' /\
    forall fuel, k <= fuel -> toArray fuel st' (_nextId initial) = Some words.
Proof.
  apply fromArray_of_a_sorted_array_returns.
  - apply allocated_wf. by vm_compute.
  - by vm_compute.
Defined.

(** [this.intersect(b)], for a token set [this] without cycles, returns a
    new token set and leaves the token sets that existed as they were;
    its strings are the non-empty strings of [this] that go along labels
    that lead [b] to a final token set, where a label ['*'] of [b] goes
    with any character. *)
Theorem intersect_keeps_the_strings_that_the_query_takes (st : Store) (this b d : nat) :
  wf st -> this < _nextId st -> b < _nextId st -> bounded st d this ->
  exists k st',
    (forall fuel, k <= fuel -> intersect fuel this b st = Some (_nextId st, st')) /\
    wf st' /\ frozen (_nextId st) st st' /\ bounded st' d (_nextId st) /\
    forall s, accepts st' (_nextId st) s = true <->
      s <> [] /\ accepts st this s = true /\ takes st b s.
Proof.
  intros Hwf Hthis Hb Hd.
  destruct (IntersectFacts.intersect_returns st this b Hwf Hthis Hb d Hd)
    as (k & st' & Hrun & Hwf' & _ & Hd' & Hfrozen & Hs).
  by exists k, st'.
Qed.

Lemma intersect_keeps_the_strings_witness :
  exists k st',
    (forall fuel, k <= fuel ->
       intersect fuel Examples.vocabulary_root Checks.pattern_root Checks.pattern_store
       = Some (_nextId Checks.pattern_store, st')) /\
    wf st' /\ frozen (_nextId Checks.pattern_store) Checks.pattern_store st' /\
    bounded st' 3 (_nextId Checks.pattern_store) /\
    forall s, accepts st' (_nextId Checks.pattern_store) s = true <->
      s <> [] /\ accepts Checks.pattern_store Examples.vocabulary_root s = true /\
      takes Checks.pattern_store Checks.pattern_root s.
Proof.
  apply intersect_keeps_the_strings_that_the_query_takes.
  - apply allocated_wf. by vm_compute.
  - vm_compute. lia.
  - vm_compute. lia.
  - apply depth_le_bounded. by vm_compute.
Defined.

(** [TokenSet.fromString(p)] returns a new token set and leaves the token
    sets that existed as they were; a non-empty string goes along labels
    that lead it to a final token set exactly when the string matches the
    pattern [p], where ['*'] stands for any sequence of characters. *)
Theorem fromString_takes_the_strings_that_match_the_pattern (p : word) (st : Store) :
  wf st ->
  (fromString p st).1 = _nextId st /\
  wf (fromString p st).2 /\
  frozen (_nextId st) st (fromString p st).2 /\
  forall s, s <> [] -> takes (fromString p st).2 (_nextId st) s <-> glob p s = true.
Proof.
  intros Hwf.
  destruct (FromStringFacts.fromString_spec p st Hwf) as (H1 & H2 & _ & H3 & H4).
  done.
Qed.

Lemma fromString_takes_the_strings_witness :
  (fromString (w "c*t") initial).1 = _nextId initial /\
  wf (fromString (w "c*t") initial).2 /\
  frozen (_nextId initial) initial (fromString (w "c*t") initial).2 /\
  forall s, s <> [] ->
    takes (fromString (w "c*t") initial).2 (_nextId initial) s <-> glob (w "c*t") s = true.
Proof.
  apply fromString_takes_the_strings_that_match_the_pattern.
  apply allocated_wf. by vm_compute.
Defined.

(** [TokenSet.fromFuzzyString(s, k)], for a string [s] without ['*'],
    returns a new token set and leaves the token sets that existed as
    they were; every string that goes along labels that lead it to a
    final token set is within [k] edits of [s]: insertions, deletions,
    substitutions and transpositions of adjacent characters. *)
Theorem fromFuzzyString_takes_strings_within_the_distance (s : word) (k : nat) (st : Store) :
  wf st -> wildcardChar ∉ s ->
  exists j st',
    (forall fuel, j <= fuel -> fromFuzzyString fuel s k st = Some (_nextId st, st')) /\
    wf st' /\ frozen (_nextId st) st st' /\
    forall t, takes st' (_nextId st) t -> within k s t.
Proof.
  intros Hwf Hstar.
  destruct (FuzzyFacts.fromFuzzyString_returns st s k Hwf Hstar)
    as (j & st' & Hrun & Hwf' & _ & Hfrozen & Ht).
  by exists j, st'.
Qed.

Lemma fromFuzzyString_takes_strings_witness :
  exists j st',
    (forall fuel, j <= fuel ->
       fromFuzzyString fuel (w "cat") 2 initial = Some (_nextId initial, st')) /\
    wf st' /\ frozen (_nextId initial) initial st' /\
    forall t, takes st' (_nextId initial) t -> within 2 (w "cat") t.
Proof.
  apply fromFuzzyString_takes_strings_within_the_distance.
  - apply allocated_wf. by vm_compute.
  - apply (bool_decide_unpack _). by vm_compute.
Defined.

End TokenSetLaws.

(** ** Sets: what intersect and union return *)

Module LunrSetLaws.
Import LunrSet LunrSetFacts.

Lemma base_set (st : Store) (a : nat) :
  initialized st -> valid st a -> a <> complete -> a <> empty ->
  cls (obj st a) = BaseSet.
Proof.
  intros (_ & _ & _ & _ & Huniq) Ha Hc He.
  destruct (Huniq a (obj st a) (obj_valid st a Ha)) as [H1 H2].
  destruct (cls (obj st a)); [by destruct Hc; apply H1 | by destruct He; apply H2 | done].
Qed.

Lemma two_sets_initialized : initialized SetExamples.two_sets.
Proof.
  unfold SetExamples.two_sets.
  eapply constructor_initialized; last by apply surjective_pairing.
  eapply constructor_initialized; last by apply surjective_pairing.
  apply initialized_initial.
Qed.

(** [this.intersect(other)]: the set holds the elements of both. *)
Lemma intersect_spec (this other : nat) (st st' : Store) (a : nat) :
  initialized st -> valid st this -> valid st other ->
  intersect this other st = (a, st') ->
  initialized st' /\ extends st st' /\ valid st' a /\
  forall x, contains st' a x = contains st this x && contains st other x.
Proof.
  intros Hinit Hthis Hother Hrun.
  pose proof (initialized_valid st Hinit) as [Hvc Hve].
  unfold intersect in Hrun.
  destruct (cls (obj st this)) eqn:Hcls.
  - injection Hrun as <- <-. refine (conj _ (conj _ (conj _ _))); [done | apply extends_refl | done |].
    intros x. unfold contains at 2. by rewrite Hcls.
  - injection Hrun as <- <-. refine (conj _ (conj _ (conj _ _))); [done | apply extends_refl | done |].
    intros x. unfold contains at 1 2. by rewrite Hcls.
  - destruct (other =? complete) eqn:Hoc.
    { injection Hrun as <- <-.
      refine (conj _ (conj _ (conj _ _))); [done | apply extends_refl | done |].
      intros x. apply Nat.eqb_eq in Hoc as ->.
      by rewrite (contains_complete st x Hinit), andb_true_r. }
    destruct (other =? empty) eqn:Hoe.
    { injection Hrun as <- <-.
      refine (conj _ (conj _ (conj _ _))); [done | apply extends_refl | done |].
      intros x. apply Nat.eqb_eq in Hoe as ->.
      by rewrite (contains_empty st x Hinit), andb_false_r. }
    apply Nat.eqb_neq in Hoc, Hoe.
    pose proof (base_set st other Hinit Hother Hoc Hoe) as Hbase.
    assert (Hboth : forall a0 b0 x,
      cls (obj st a0) = BaseSet -> cls (obj st b0) = BaseSet ->
      bool_decide (x ∈ filter (fun element => has st b0 element = true) (keys st a0))
      = contains st a0 x && contains st b0 x).
    { intros a0 b0 x Ha0 Hb0. unfold contains. rewrite Ha0, Hb0. unfold has at 2, keys.
      destruct (bool_decide (x ∈ filter _ _)) eqn:Hd.
      - apply bool_decide_eq_true in Hd. apply list_elem_of_filter in Hd as [Hb Ha].
        apply elem_of_elements in Ha. symmetry. apply andb_true_iff.
        split; [by apply bool_decide_eq_true | done].
      - apply bool_decide_eq_false in Hd. symmetry. apply andb_false_iff.
        destruct (has st b0 x) eqn:Hb; last by right.
        left. apply bool_decide_eq_false. intros Ha. apply Hd.
        apply list_elem_of_filter. split; first done. by apply elem_of_elements. }
    destruct (default 0 (length (obj st this)) <? default 0 (length (obj st other))).
    + destruct (List.length (filter _ _) =? 0) eqn:Hlen.
      * injection Hrun as <- <-.
        refine (conj _ (conj _ (conj _ _))); [done | apply extends_refl | done |].
        intros x. rewrite (contains_empty st x Hinit), <-(Hboth this other x) by done.
        apply Nat.eqb_eq, nil_length_inv in Hlen. rewrite Hlen.
        symmetry. apply bool_decide_eq_false, not_elem_of_nil.
      * destruct (constructor_spec _ _ _ _ Hinit Hrun) as (Hi & He & Hv & Hc).
        refine (conj _ (conj _ (conj _ _))); try done.
        intros x. rewrite Hc. by apply Hboth.
    + destruct (List.length (filter _ _) =? 0) eqn:Hlen.
      * injection Hrun as <- <-.
        refine (conj _ (conj _ (conj _ _))); [done | apply extends_refl | done |].
        intros x. rewrite (contains_empty st x Hinit), andb_comm, <-(Hboth other this x) by done.
        apply Nat.eqb_eq, nil_length_inv in Hlen. rewrite Hlen.
        symmetry. apply bool_decide_eq_false, not_elem_of_nil.
      * destruct (constructor_spec _ _ _ _ Hinit Hrun) as (Hi & He & Hv & Hc).
        refine (conj _ (conj _ (conj _ _))); try done.
        intros x. rewrite Hc, andb_comm. by apply Hboth.
Qed.

(** [this.intersect(other)] returns a set that holds exactly the strings
    that both sets hold; the sets that existed stay as they were. *)
Theorem intersect_holds_the_common_elements (this other : nat) (st st' : Store) (a : nat) :
  initialized st -> valid st this -> valid st other ->
  intersect this other st = (a, st') ->
  initialized st' /\ extends st st' /\ valid st' a /\
  forall x, contains st' a x = contains st this x && contains st other x.
Proof. apply intersect_spec. Qed.

Lemma intersect_holds_the_common_elements_witness :
  initialized (intersect 2 3 SetExamples.two_sets).2 /\
  extends SetExamples.two_sets (intersect 2 3 SetExamples.two_sets).2 /\
  valid (intersect 2 3 SetExamples.two_sets).2 (intersect 2 3 SetExamples.two_sets).1 /\
  forall x, contains (intersect 2 3 SetExamples.two_sets).2
              (intersect 2 3 SetExamples.two_sets).1 x
            = contains SetExamples.two_sets 2 x && contains SetExamples.two_sets 3 x.
Proof.
  apply (intersect_holds_the_common_elements 2 3 SetExamples.two_sets).
  - apply two_sets_initialized.
  - unfold valid. vm_compute. lia.
  - unfold valid. vm_compute. lia.
  - apply surjective_pairing.
Defined.

(** [this.union(other)] returns a set that holds exactly the strings that
    one of the two sets holds; the sets that existed stay as they were. *)
Theorem union_holds_the_elements_of_both (this other : nat) (st st' : Store) (a : nat) :
  initialized st -> valid st this -> valid st other ->
  union this other st = (a, st') ->
  initialized st' /\ extends st st' /\ valid st' a /\
  forall x, contains st' a x = contains st this x || contains st other x.
Proof. apply union_spec. Qed.

Lemma union_holds_the_elements_of_both_witness :
  initialized (union 2 3 SetExamples.two_sets).2 /\
  extends SetExamples.two_sets (union 2 3 SetExamples.two_sets).2 /\
  valid (union 2 3 SetExamples.two_sets).2 (union 2 3 SetExamples.two_sets).1 /\
  forall x, contains (union 2 3 SetExamples.two_sets).2 (union 2 3 SetExamples.two_sets).1 x
            = contains SetExamples.two_sets 2 x || contains SetExamples.two_sets 3 x.
Proof.
  apply (union_holds_the_elements_of_both 2 3 SetExamples.two_sets).
  - apply two_sets_initialized.
  - unfold valid. vm_compute. lia.
  - unfold valid. vm_compute. lia.
  - apply surjective_pairing.
Defined.

End LunrSetLaws.

(** ** Binary search *)

Module SearchLaws.
Import utils Search.

Section Loop.
Context {T K : Type}.
Variables (array : list T) (key : K) (keySelector : T -> K) (comparer : K -> K -> float).
Variables (step : Z) (bias : Bias) (lo hi : Z).
Hypothesis Hstep : (1 <= step)%Z.
Hypothesis Hlen : (Z.of_nat (length array) mod step = 0)%Z.
Hypothesis Hpart : partitioned array key keySelector comparer step lo hi.

(** The number of records. *)
Local Abbreviation n := (Z.of_nat (length array) / step)%Z.

Lemma record_in_range (m : Z) :
  (0 <= m < n)%Z -> exists x, array !! Z.to_nat (m * step) = Some x.
Proof using Hstep Hlen.
  intros Hm. apply lookup_lt_is_Some_2.
  assert (Z.of_nat (length array) = step * n)%Z as Hn.
  { apply Z.div_exact; [lia | done]. }
  nia.
Qed.

(** The loop returns whatever the comparer answers: it reads inside the
    array and ends before the fuel does. *)
Lemma binarySearchKey_loop_returns (fuel : nat) (l h : Z) :
  (0 <= l)%Z -> (h < n)%Z -> (h - l + 1 < Z.of_nat fuel)%Z ->
  is_Some (binarySearchKey_loop fuel array key keySelector comparer step bias l h).
Proof using Hstep Hlen.
  revert l h. induction fuel as [|fuel IH]; intros l h Hl Hn Hfuel.
  { simpl. destruct (Z.leb_spec l h); [lia | done]. }
  simpl. destruct (Z.leb_spec l h) as [Hlh|Hlh]; last done.
  assert (Hm : (l <= l + Z.shiftr (h - l) 1 <= h)%Z).
  { rewrite Z.shiftr_div_pow2 by lia. change (2 ^ 1)%Z with 2%Z.
    pose proof (Z.div_pos (h - l) 2 ltac:(lia) ltac:(lia)).
    pose proof (Z.mul_div_le (h - l) 2 ltac:(lia)). lia. }
  set (m := (l + Z.shiftr (h - l) 1)%Z) in *.
  destruct (record_in_range m ltac:(lia)) as [x ->].
  destruct (PrimFloat.ltb (comparer (keySelector x) key) 0); first by apply IH; lia.
  destruct (PrimFloat.ltb 0 (comparer (keySelector x) key)); first by apply IH; lia.
  done.
Qed.

Lemma hi_le_n : (hi <= n)%Z.
Proof using Hstep Hpart.
  destruct Hpart as (_ & Hhi & _). apply Z.div_le_lower_bound; lia.
Qed.

(** The loop finds a record that compares equal when there is one, and
    the insertion point when there is none. *)
Lemma binarySearchKey_loop_spec (fuel : nat) (l h : Z) :
  (0 <= l <= lo)%Z -> (hi <= h + 1)%Z -> (h < n)%Z -> (h - l + 1 < Z.of_nat fuel)%Z ->
  exists r,
    binarySearchKey_loop fuel array key keySelector comparer step bias l h = Some r /\
    (((lo < hi)%Z /\ exists m, (lo <= m < hi)%Z /\ r = (m * step)%Z) \/
     (lo = hi /\ r = missed bias lo step)).
Proof using Hstep Hlen Hpart.
  pose proof Hpart as (Hlohi & _ & _).
  revert l h. induction fuel as [|fuel IH]; intros l h Hl Hh Hn Hfuel.
  { exfalso. lia. }
  simpl. destruct (Z.leb_spec l h) as [Hlh|Hlh].
  - assert (Hm : (l <= l + Z.shiftr (h - l) 1 <= h)%Z).
    { rewrite Z.shiftr_div_pow2 by lia. change (2 ^ 1)%Z with 2%Z.
      pose proof (Z.div_pos (h - l) 2 ltac:(lia) ltac:(lia)).
      pose proof (Z.mul_div_le (h - l) 2 ltac:(lia)). lia. }
    set (m := (l + Z.shiftr (h - l) 1)%Z) in *.
    destruct (record_in_range m ltac:(lia)) as [x Hx]. rewrite Hx.
    destruct Hpart as (_ & _ & Hcmp).
    pose proof (Hcmp m x ltac:(lia) Hx) as Hout. unfold outcome_of in Hout.
    destruct (PrimFloat.ltb (comparer (keySelector x) key) 0).
    { destruct (Z.ltb_spec m lo); last by destruct (m <? hi)%Z.
      apply IH; lia. }
    destruct (PrimFloat.ltb 0 (comparer (keySelector x) key)).
    { destruct (Z.ltb_spec m lo); first done.
      destruct (Z.ltb_spec m hi); first done.
      apply IH; lia. }
    destruct (Z.ltb_spec m lo); first done.
    destruct (Z.ltb_spec m hi); last done.
    eexists. split; first done. left. split; first lia. by exists m.
  - eexists. split; first done. right.
    assert (l = lo) as -> by lia. split; [lia | done].
Qed.

End Loop.

Lemma records_le_length {T : Type} (array : list T) (step : Z) :
  (1 <= step)%Z -> (Z.of_nat (length array) / step <= Z.of_nat (length array))%Z.
Proof. intros Hstep. apply Z.div_le_upper_bound; nia. Qed.

Lemma binarySearchKey_spec {T K : Type} (array : list T) (key : K)
    (keySelector : T -> K) (comparer : K -> K -> float) (step : Z) (bias : Bias)
    (lo hi : Z) :
  (1 <= step)%Z -> (Z.of_nat (length array) mod step = 0)%Z ->
  partitioned array key keySelector comparer step lo hi ->
  exists r,
    binarySearchKey array key keySelector comparer step bias = Some r /\
    (((lo < hi)%Z /\ exists m, (lo <= m < hi)%Z /\ r = (m * step)%Z) \/
     (lo = hi /\ r = missed bias lo step)).
Proof.
  intros Hstep Hlen Hpart. unfold binarySearchKey.
  destruct (Z.ltb_spec step 1); first lia.
  rewrite Hlen. cbn [Z.eqb negb].
  pose proof (hi_le_n array key keySelector comparer step lo hi Hstep Hpart) as Hhi.
  pose proof (records_le_length array step Hstep).
  destruct Hpart as (Hlo & Hpart').
  apply (binarySearchKey_loop_spec array key keySelector comparer step bias lo hi);
    try done; lia.
Qed.

(** [binarySearchKey] on an array whose records are in the order of the
    comparer around the key, with a step and a length below 2^31: no read goes
    outside the array, the search returns, and it returns the index of a
    record that compares equal when there is one, and otherwise the
    insertion point, as the bias has it ([~l] by default). *)
Theorem binarySearchKey_finds_the_key {T K : Type} (array : list T) (key : K)
    (keySelector : T -> K) (comparer : K -> K -> float) (step : Z) (bias : Bias)
    (lo hi : Z) :
  (1 <= step < 2 ^ 31)%Z -> (Z.of_nat (length array) mod step = 0)%Z ->
  (Z.of_nat (length array) < 2 ^ 31)%Z ->
  partitioned array key keySelector comparer step lo hi ->
  exists r,
    binarySearchKey array key keySelector comparer step bias = Some r /\
    (((lo < hi)%Z /\ exists m, (lo <= m < hi)%Z /\ r = (m * step)%Z) \/
     (lo = hi /\ r = missed bias lo step)).
Proof. intros [Hstep _] Hlen _. by apply binarySearchKey_spec. Qed.

(** The vector elements [index, value, index, value] with the indices 1,
    4 and 7, searched for the index 4 in steps of 2. *)
Lemma binarySearchKey_finds_the_key_witness :
  exists r,
    binarySearch [1; 0.5; 4; 0.25; 7; 0.125]%float 4%float 2 TWOS_COMPLEMENT = Some r /\
    (((1 < 2)%Z /\ exists m, (1 <= m < 2)%Z /\ r = (m * 2)%Z) \/
     (1%Z = 2%Z /\ r = missed TWOS_COMPLEMENT 1 2)).
Proof.
  apply (binarySearchKey_finds_the_key _ _ _ _ 2 TWOS_COMPLEMENT 1 2).
  - lia.
  - reflexivity.
  - reflexivity.
  - split; first lia. split; first (simpl; lia).
    intros m x Hm.
    destruct (Z.to_nat m) as [|[|[|k]]] eqn:Hk.
    + assert (m = 0%Z) as -> by lia. by intros [= <-].
    + assert (m = 1%Z) as -> by lia. by intros [= <-].
    + assert (m = 2%Z) as -> by lia. by intros [= <-].
    + intros Hx. apply lookup_lt_Some in Hx. simpl in Hx. lia.
Defined.

(** [binarySearchKey], for an integer step and a length below 2^31,
    throws only for a step below 1 or one that does not divide the length
    of the array: with any other step and any comparer at all, it reads
    inside the array and returns. *)
Theorem binarySearchKey_throws_only_for_a_bad_step {T K : Type} (array : list T) (key : K)
    (keySelector : T -> K) (comparer : K -> K -> float) (step : Z) (bias : Bias) :
  (step < 2 ^ 31)%Z -> (Z.of_nat (length array) < 2 ^ 31)%Z ->
  binarySearchKey array key keySelector comparer step bias = None <->
  (step < 1)%Z \/ (Z.of_nat (length array) mod step <> 0)%Z.
Proof.
  intros _ _. unfold binarySearchKey.
  destruct (Z.ltb_spec step 1) as [Hstep|Hstep]; first by split; [left | done].
  destruct (Z.eqb_spec (Z.of_nat (length array) mod step) 0) as [Hlen|Hlen];
    cbn [negb]; last by split; [right | done].
  pose proof (records_le_length array step Hstep).
  destruct (binarySearchKey_loop_returns array key keySelector comparer step bias
              Hstep Hlen (S (length array)) 0
              (Z.of_nat (length array) / step - 1)) as [r Hr]; try lia.
  rewrite Hr. split; first done. intros [?|?]; [lia | done].
Qed.

Lemma binarySearchKey_throws_only_for_a_bad_step_witness :
  binarySearch [1; 0.5; 4]%float 4%float 2 TWOS_COMPLEMENT = None <->
  (2 < 1)%Z \/ (Z.of_nat (length [1; 0.5; 4]%float) mod 2 <> 0)%Z.
Proof.
  apply (binarySearchKey_throws_only_for_a_bad_step _ _ _ _ 2 TWOS_COMPLEMENT);
    reflexivity.
Defined.

End SearchLaws.

(** ** Number maps: the entries that a range collects *)

Module NumberMapLaws.
Import NumberMap Ranges TokenSet Language.

Lemma collect_spec (es : list Entry) (n : nat) (result : list word) :
  collect es n result = result ++ concat (tokens <$> take n es).
Proof.
  revert n result. induction es as [|e es IH]; intros [|n] result; simpl;
    rewrite ?app_nil_r; try done.
  by rewrite IH, <-(assoc_L (++)).
Qed.

(** [collectTokens] clamps the two indices to the array. *)
Lemma collected_spec (nm : NumberMap) (startIndex endIndex : Z) :
  collected nm startIndex endIndex
  = tokens_between nm (Z.to_nat startIndex) (Z.to_nat endIndex).
Proof.
  unfold collected, tokens_between.
  destruct (Z.ltb_spec startIndex (Z.of_nat (length (entries nm)))) as [Hs|Hs]; simpl.
  - destruct (Z.ltb_spec 0 endIndex) as [He|He]; simpl.
    + rewrite collect_spec. simpl.
      assert (Z.to_nat (if (startIndex <? 0)%Z then 0%Z else startIndex)
              = Z.to_nat startIndex) as ->.
      { destruct (Z.ltb_spec startIndex 0); lia. }
      destruct (Z.ltb_spec (Z.of_nat (length (entries nm))) endIndex) as [Hl|Hl].
      * rewrite !take_ge; first done.
        all: rewrite length_drop; destruct (Z.ltb_spec startIndex 0); lia.
      * f_equal. f_equal. f_equal. destruct (Z.ltb_spec startIndex 0); lia.
    + replace (Z.to_nat endIndex) with 0 by lia. done.
  - rewrite drop_ge by lia. by rewrite take_nil.
Qed.

Lemma binarySearch_position (nm : NumberMap) (v : float) (p : position) :
  lies nm v p ->
  binarySearch nm v = Some match p with
                           | found i => Z.of_nat i
                           | missing i => Z.lnot (Z.of_nat i)
                           end.
Proof.
  intros Hp. unfold binarySearch.
  destruct p as [i|i]; simpl in Hp.
  - destruct (SearchLaws.binarySearchKey_spec (entries nm) v value utils.compareNumbers 1
                utils.TWOS_COMPLEMENT _ _ ltac:(lia) (Z.mod_1_r _) Hp)
      as (r & -> & [(_ & m & Hm & ->)|(? & _)]); last lia.
    f_equal. lia.
  - destruct (SearchLaws.binarySearchKey_spec (entries nm) v value utils.compareNumbers 1
                utils.TWOS_COMPLEMENT _ _ ltac:(lia) (Z.mod_1_r _) Hp)
      as (r & -> & [(? & _)|(_ & ->)]); first lia.
    simpl. by rewrite Z.mul_1_r.
Qed.

Lemma lies_le_length (nm : NumberMap) (v : float) (p : position) :
  lies nm v p ->
  match p with found i => i < length (entries nm) | missing i => i <= length (entries nm) end.
Proof. destruct p as [i|i]; intros (_ & H & _); lia. Qed.

Lemma tokens_between_end (nm : NumberMap) (a b : nat) :
  length (entries nm) <= b ->
  tokens_between nm a b = tokens_between nm a (length (entries nm)).
Proof.
  intros Hb. unfold tokens_between. rewrite !take_ge; first done.
  all: rewrite length_drop; lia.
Qed.

Lemma wordCount_4 : holds_at Examples.wordCount_map 4%float 0.
Proof.
  split; first lia. split; first (simpl; lia).
  intros m x Hm. rewrite Z.mul_1_r.
  destruct (Z.to_nat m) as [|[|k]] eqn:Hk.
  - assert (m = 0%Z) as -> by lia. by intros [= <-].
  - assert (m = 1%Z) as -> by lia. by intros [= <-].
  - intros Hx. apply lookup_lt_Some in Hx. simpl in Hx. lia.
Qed.

Lemma wordCount_5 : holds_at Examples.wordCount_map 5%float 1.
Proof.
  split; first lia. split; first (simpl; lia).
  intros m x Hm. rewrite Z.mul_1_r.
  destruct (Z.to_nat m) as [|[|k]] eqn:Hk.
  - assert (m = 0%Z) as -> by lia. by intros [= <-].
  - assert (m = 1%Z) as -> by lia. by intros [= <-].
  - intros Hx. apply lookup_lt_Some in Hx. simpl in Hx. lia.
Qed.

Lemma wordCount_4_5 : absent_at Examples.wordCount_map 4.5%float 1.
Proof.
  split; first lia. split; first (simpl; lia).
  intros m x Hm. rewrite Z.mul_1_r.
  destruct (Z.to_nat m) as [|[|k]] eqn:Hk.
  - assert (m = 0%Z) as -> by lia. by intros [= <-].
  - assert (m = 1%Z) as -> by lia. by intros [= <-].
  - intros Hx. apply lookup_lt_Some in Hx. simpl in Hx. lia.
Qed.

(** [collectTokens(startIndex, endIndex)] never reads outside the entries
    and never throws: whatever the two integers are, it builds a token
    set from the sorted tokens of the entries whose index is at least
    [startIndex] and less than [endIndex]. *)
Theorem collectTokens_takes_the_entries_in_range (nm : NumberMap) (startIndex endIndex : Z)
    (st : Store) :
  wf st ->
  collectTokens nm startIndex endIndex st
  = fromArray (js_sort (tokens_between nm (Z.to_nat startIndex) (Z.to_nat endIndex))) st /\
  exists st', collectTokens nm startIndex endIndex st = inr (_nextId st, st') /\ wf st'.
Proof.
  intros Hwf. unfold collectTokens. rewrite collected_spec. split; first done.
  destruct (BuildFacts.fromArray_returns _ st Hwf
              (BuildFacts.js_sort_ascending
                 (tokens_between nm (Z.to_nat startIndex) (Z.to_nat endIndex))))
    as (root & st' & d & Hrun & Hwf' & _).
  pose proof (TokenSetLaws.fromArray_root _ _ _ _ Hrun) as ->.
  by exists st'.
Qed.

Lemma collectTokens_takes_the_entries_witness :
  collectTokens Examples.wordCount_map (-1) 7 initial
  = fromArray (js_sort (tokens_between Examples.wordCount_map (Z.to_nat (-1)) (Z.to_nat 7)))
      initial /\
  exists st', collectTokens Examples.wordCount_map (-1) 7 initial
              = inr (_nextId initial, st') /\ wf st'.
Proof.
  apply collectTokens_takes_the_entries_in_range.
  apply TokenSetLaws.allocated_wf. by vm_compute.
Defined.

(** [matchRange(start, end)] on entries in ascending order of value,
    fewer than 2^31: an endpoint ["*"] leaves its side open; a lower
    endpoint that is the value of an entry starts the range at that
    entry, and one that is between the values starts it one entry after
    the place where it would be inserted; an upper endpoint ends the
    range before its entry, or before the place where it would be
    inserted. *)
Theorem matchRange_collects_between_the_endpoints (nm : NumberMap) (start end_ : option float)
    (p q : option position) (st : Store) :
  (Z.of_nat (length (entries nm)) < 2 ^ 31)%Z ->
  endpoint_lies nm start p -> endpoint_lies nm end_ q ->
  matchRange_indices nm start end_
  = Some (Z.of_nat (range_start p), Z.of_nat (range_end nm q)) /\
  matchRange nm start end_ st
  = Some (fromArray (js_sort (tokens_between nm (range_start p) (range_end nm q))) st).
Proof.
  intros _ Hp Hq.
  assert (Hindices : matchRange_indices nm start end_
                     = Some (Z.of_nat (range_start p), Z.of_nat (range_end nm q))).
  { unfold matchRange_indices.
    destruct start as [a|], p as [p|]; try done; destruct end_ as [b|], q as [q|]; try done;
      simpl in Hp, Hq; rewrite ?(binarySearch_position _ _ _ Hp), ?(binarySearch_position _ _ _ Hq);
      simpl; try destruct p as [i|i]; try destruct q as [j|j]; cbn [range_start range_end];
      repeat match goal with
             | |- context [(?x <? 0)%Z] => destruct (Z.ltb_spec x 0)
             end;
      try (f_equal; f_equal; unfold Z.lnot in *; lia);
      try (exfalso; unfold Z.lnot in *; lia). }
  split; first done.
  unfold matchRange. rewrite Hindices. simpl. unfold collectTokens.
  by rewrite collected_spec, !Nat2Z.id.
Qed.

Lemma matchRange_collects_witness :
  matchRange_indices Examples.wordCount_map (Some 4.5%float) (Some 5%float)
  = Some (Z.of_nat (range_start (Some (missing 1))),
          Z.of_nat (range_end Examples.wordCount_map (Some (found 1)))) /\
  matchRange Examples.wordCount_map (Some 4.5%float) (Some 5%float) initial
  = Some (fromArray (js_sort (tokens_between Examples.wordCount_map
                                (range_start (Some (missing 1)))
                                (range_end Examples.wordCount_map (Some (found 1)))))
            initial).
Proof.
  apply matchRange_collects_between_the_endpoints.
  - reflexivity.
  - apply wordCount_4_5.
  - apply wordCount_5.
Defined.

(** [matchComparator(comparator, comparand)] on entries in ascending
    order of value, fewer than 2^31, with the comparand the value of the
    entry at index [i]: [>] collects the tokens of the entries after [i],
    [>=] those from [i] on, [<] those before [i], and [<=] those up to and
    with [i]. *)
Theorem matchComparator_with_a_value_of_the_map (nm : NumberMap) (comparand : float)
    (i : nat) (st : Store) :
  (Z.of_nat (length (entries nm)) < 2 ^ 31)%Z ->
  holds_at nm comparand i ->
  matchComparator nm GREATERTHAN comparand st
  = Some (fromArray (js_sort (tokens_between nm (S i) (length (entries nm)))) st) /\
  matchComparator nm GREATERTHAN_EQUALS comparand st
  = Some (fromArray (js_sort (tokens_between nm i (length (entries nm)))) st) /\
  matchComparator nm LESSTHAN comparand st
  = Some (fromArray (js_sort (tokens_between nm 0 i)) st) /\
  matchComparator nm LESSTHAN_EQUALS comparand st
  = Some (fromArray (js_sort (tokens_between nm 0 (S i))) st).
Proof.
  intros _ Hi. unfold matchComparator, matchComparator_indices.
  rewrite (binarySearch_position nm comparand (found i) Hi). simpl.
  destruct (Z.ltb_spec (Z.of_nat i) 0); first lia.
  unfold collectTokens. rewrite !collected_spec, !Nat2Z.id.
  replace (Z.to_nat (Z.of_nat i + 1)) with (S i) by lia.
  done.
Qed.

Lemma matchComparator_with_a_value_witness :
  matchComparator Examples.wordCount_map GREATERTHAN 4%float initial
  = Some (fromArray (js_sort (tokens_between Examples.wordCount_map 1
                                (length (entries Examples.wordCount_map)))) initial) /\
  matchComparator Examples.wordCount_map GREATERTHAN_EQUALS 4%float initial
  = Some (fromArray (js_sort (tokens_between Examples.wordCount_map 0
                                (length (entries Examples.wordCount_map)))) initial) /\
  matchComparator Examples.wordCount_map LESSTHAN 4%float initial
  = Some (fromArray (js_sort (tokens_between Examples.wordCount_map 0 0)) initial) /\
  matchComparator Examples.wordCount_map LESSTHAN_EQUALS 4%float initial
  = Some (fromArray (js_sort (tokens_between Examples.wordCount_map 0 1)) initial).
Proof.
  apply matchComparator_with_a_value_of_the_map.
  - reflexivity.
  - apply wordCount_4.
Defined.

(** [matchComparator(comparator, comparand)] on entries in ascending
    order of value, fewer than 2^31, with a comparand that is between the
    values and would be inserted at index [i]: [>] and [>=] collect the
    tokens of the entries after [i], and [<] and [<=] those up to and with
    [i]. *)
Theorem matchComparator_between_the_values (nm : NumberMap) (comparand : float)
    (i : nat) (st : Store) :
  (Z.of_nat (length (entries nm)) < 2 ^ 31)%Z ->
  absent_at nm comparand i ->
  matchComparator nm GREATERTHAN comparand st
  = Some (fromArray (js_sort (tokens_between nm (S i) (length (entries nm)))) st) /\
  matchComparator nm GREATERTHAN_EQUALS comparand st
  = Some (fromArray (js_sort (tokens_between nm (S i) (length (entries nm)))) st) /\
  matchComparator nm LESSTHAN comparand st
  = Some (fromArray (js_sort (tokens_between nm 0 (S i))) st) /\
  matchComparator nm LESSTHAN_EQUALS comparand st
  = Some (fromArray (js_sort (tokens_between nm 0 (S i))) st).
Proof.
  intros _ Hi. unfold matchComparator, matchComparator_indices.
  rewrite (binarySearch_position nm comparand (missing i) Hi). simpl.
  destruct (Z.ltb_spec (Z.lnot (Z.of_nat i)) 0); last (unfold Z.lnot in *; lia).
  unfold collectTokens. rewrite !collected_spec, !Nat2Z.id.
  replace (Z.to_nat (Z.lnot (Z.lnot (Z.of_nat i)) + 1)) with (S i)
    by (unfold Z.lnot; lia).
  done.
Qed.

Lemma matchComparator_between_the_values_witness :
  matchComparator Examples.wordCount_map GREATERTHAN 4.5%float initial
  = Some (fromArray (js_sort (tokens_between Examples.wordCount_map 2
                                (length (entries Examples.wordCount_map)))) initial) /\
  matchComparator Examples.wordCount_map GREATERTHAN_EQUALS 4.5%float initial
  = Some (fromArray (js_sort (tokens_between Examples.wordCount_map 2
                                (length (entries Examples.wordCount_map)))) initial) /\
  matchComparator Examples.wordCount_map LESSTHAN 4.5%float initial
  = Some (fromArray (js_sort (tokens_between Examples.wordCount_map 0 2)) initial) /\
  matchComparator Examples.wordCount_map LESSTHAN_EQUALS 4.5%float initial
  = Some (fromArray (js_sort (tokens_between Examples.wordCount_map 0 2)) initial).
Proof.
  apply matchComparator_between_the_values.
  - reflexivity.
  - apply wordCount_4_5.
Defined.

End NumberMapLaws.

(** ** Field refs *)

Module FieldRefLaws.
Import FieldRef.

Lemma split_None (s : word) : split s = None <-> joiner ∉ s.
Proof.
  induction s as [|c s IH]; simpl.
  - split; [intros _; apply not_elem_of_nil | done].
  - destruct (decide (c = joiner)) as [->|Hc].
    + split; first done. intros H. destruct H. by left.
    + destruct (split s) as [[a b]|]; simpl.
      * split; first done. intros H. exfalso.
        assert (joiner ∉ s) as Hs by (intros ?; apply H; by right).
        by apply IH in Hs.
      * split; last done. intros _. apply not_elem_of_cons. split; first done.
        by apply IH.
Qed.

Lemma split_Some (s a b : word) :
  split s = Some (a, b) -> s = a ++ joiner :: b /\ joiner ∉ a.
Proof.
  revert a. induction s as [|c s IH]; intros a; simpl; first done.
  destruct (decide (c = joiner)) as [->|Hc].
  - intros [= <- <-]. split; [done | apply not_elem_of_nil].
  - destruct (split s) as [[a' b']|]; last done. simpl.
    intros [= <- <-]. destruct (IH a' eq_refl) as [-> Ha].
    split; first done. apply not_elem_of_cons. by split.
Qed.

(** [FieldRef.fromString(s)] throws "malformed field ref string" exactly
    when [s] holds no [/]; otherwise it cuts [s] at its first [/]: the
    field name is the part before it and holds no [/], the document ref
    is all that follows, and the field ref prints as [s]. *)
Theorem fromString_cuts_at_the_first_joiner (s : word) :
  (fromString s = None <-> joiner ∉ s) /\
  forall r, fromString s = Some r ->
    s = fieldName r ++ joiner :: docRef r /\ (joiner ∉ fieldName r) /\ toString r = s.
Proof.
  unfold fromString. split.
  - rewrite <-split_None. destruct (split s) as [[a b]|]; simpl; by split.
  - intros r. destruct (split s) as [[a b]|] eqn:Hs; last done. simpl.
    intros [= <-]. apply split_Some in Hs as [-> Ha]. by split_and!.
Qed.

(** A field ref comes back from its string exactly when its field name
    holds no [/]; the document ref may hold any character. *)
Theorem fromString_of_toString_needs_a_field_without_joiner (r : FieldRef) :
  fromString (toString r) = Some r <-> joiner ∉ fieldName r.
Proof.
  split; last by apply FieldRefFacts.fromString_toString.
  intros Hr. unfold fromString in Hr.
  destruct (split (toString r)) as [[a b]|] eqn:Hs; last done.
  simpl in Hr. injection Hr as <-. simpl.
  by apply split_Some in Hs as [_ Ha].
Qed.

End FieldRefLaws.

(** ** The stack of a pipeline *)

Module PipelineLaws.
Import PipelineStack.

Section WithFunctions.
Context {Fn : Type} `{EqDecision Fn}.

Lemma indexOf_None (fn : Fn) (stack : list Fn) : indexOf fn stack = None <-> fn ∉ stack.
Proof.
  induction stack as [|f stack IH]; simpl.
  - split; [intros _; apply not_elem_of_nil | done].
  - destruct (decide (f = fn)) as [->|Hf].
    + split; first done. intros H'. destruct H'. by left.
    + rewrite fmap_None, IH, not_elem_of_cons. split; first by intros ?.
      by intros [_ ?].
Qed.

Lemma indexOf_Some (fn : Fn) (stack : list Fn) (pos : nat) :
  indexOf fn stack = Some pos ->
  exists pre post, stack = pre ++ fn :: post /\ (fn ∉ pre) /\ length pre = pos.
Proof.
  revert pos. induction stack as [|f stack IH]; intros pos; simpl; first done.
  destruct (decide (f = fn)) as [->|Hf].
  - intros [= <-]. exists [], stack. split_and!; [done | apply not_elem_of_nil | done].
  - destruct (indexOf fn stack) as [p|]; last done. simpl. intros [= <-].
    destruct (IH p eq_refl) as (pre & post & -> & Hpre & <-).
    exists (f :: pre), post. split_and!; try done.
    apply not_elem_of_cons. by split.
Qed.

Lemma indexOf_first (fn : Fn) (pre post : list Fn) :
  fn ∉ pre -> indexOf fn (pre ++ fn :: post) = Some (length pre).
Proof.
  induction pre as [|f pre IH]; simpl; intros Hpre.
  - by rewrite decide_True.
  - apply not_elem_of_cons in Hpre as [Hf Hpre].
    rewrite decide_False by done. by rewrite IH.
Qed.

Lemma add_appends (functions stack : list Fn) : add functions stack = stack ++ functions.
Proof.
  unfold add. revert stack. induction functions as [|fn functions IH]; intros stack; simpl.
  - by rewrite app_nil_r.
  - by rewrite IH, <-(assoc_L (++)).
Qed.

Lemma remove_first (fn : Fn) (pre post : list Fn) :
  fn ∉ pre -> remove fn (pre ++ fn :: post) = pre ++ post.
Proof.
  intros Hpre. unfold remove, splice_out. rewrite (indexOf_first _ _ _ Hpre).
  rewrite take_app_length. f_equal.
  rewrite (cons_middle fn pre post), (assoc_L (++)).
  apply drop_app_length'. rewrite length_app. simpl. lia.
Qed.

Lemma after_first (existingFn newFn : Fn) (pre post : list Fn) :
  existingFn ∉ pre ->
  after existingFn newFn (pre ++ existingFn :: post)
  = Some (pre ++ existingFn :: newFn :: post).
Proof.
  intros Hpre. unfold after, splice_in. rewrite (indexOf_first _ _ _ Hpre). simpl.
  f_equal. rewrite (cons_middle existingFn pre post), (assoc_L (++)).
  assert (length (pre ++ [existingFn]) = length pre + 1) as <-
    by (rewrite length_app; simpl; lia).
  rewrite take_app_length, drop_app_length. by rewrite <-(assoc_L (++)).
Qed.

Lemma before_first (existingFn newFn : Fn) (pre post : list Fn) :
  existingFn ∉ pre ->
  before existingFn newFn (pre ++ existingFn :: post)
  = Some (pre ++ newFn :: existingFn :: post).
Proof.
  intros Hpre. unfold before, splice_in. rewrite (indexOf_first _ _ _ Hpre). simpl.
  by rewrite take_app_length, drop_app_length.
Qed.

(** [after(existingFn, newFn)] and [before(existingFn, newFn)] throw
    "Cannot find existingFn" exactly when the stack does not hold
    [existingFn], and leave the stack as it was then. *)
Theorem after_and_before_throw_without_the_existing_function
    (existingFn newFn : Fn) (stack : list Fn) :
  (after existingFn newFn stack = None <-> existingFn ∉ stack) /\
  (before existingFn newFn stack = None <-> existingFn ∉ stack).
Proof.
  unfold after, before. rewrite <-indexOf_None.
  destruct (indexOf existingFn stack); simpl; by split.
Qed.

(** [after] puts the new function right behind the first occurrence of
    the existing one, and [before] right in front of it; all other
    functions keep their places. *)
Theorem after_and_before_insert_at_the_first_occurrence
    (existingFn newFn : Fn) (pre post : list Fn) :
  existingFn ∉ pre ->
  after existingFn newFn (pre ++ existingFn :: post)
  = Some (pre ++ existingFn :: newFn :: post) /\
  before existingFn newFn (pre ++ existingFn :: post)
  = Some (pre ++ newFn :: existingFn :: post).
Proof. intros Hpre. split; [by apply after_first | by apply before_first]. Qed.

(** [remove(fn)] takes out the first occurrence of [fn] and nothing else,
    and leaves a stack without [fn] as it is. *)
Theorem remove_takes_out_the_first_occurrence (fn : Fn) (pre post : list Fn) :
  fn ∉ pre ->
  remove fn pre = pre /\
  remove fn (pre ++ fn :: post) = pre ++ post.
Proof.
  intros Hpre. split; last by apply remove_first.
  unfold remove. apply indexOf_None in Hpre. by rewrite Hpre.
Qed.

(** [remove(newFn)] undoes [after(existingFn, newFn)] and
    [before(existingFn, newFn)] on a stack that did not hold [newFn]. *)
Theorem remove_undoes_after_and_before (existingFn newFn : Fn) (stack stack' : list Fn) :
  newFn ∉ stack ->
  after existingFn newFn stack = Some stack' \/ before existingFn newFn stack = Some stack' ->
  remove newFn stack' = stack.
Proof.
  intros Hnew Hrun.
  assert (exists pos, indexOf existingFn stack = Some pos) as [pos Hpos].
  { unfold after, before in Hrun.
    destruct (indexOf existingFn stack) as [pos|]; first by exists pos.
    by destruct Hrun. }
  destruct (indexOf_Some _ _ _ Hpos) as (pre & post & -> & Hpre & _).
  apply not_elem_of_app in Hnew as [Hnew1 Hnew2].
  apply not_elem_of_cons in Hnew2 as [Hne Hnew2].
  rewrite after_first, before_first in Hrun by done.
  destruct Hrun as [[= <-]|[= <-]].
  - rewrite (cons_middle existingFn pre (newFn :: post)), (assoc_L (++)).
    rewrite remove_first; first by rewrite <-(assoc_L (++)).
    apply not_elem_of_app. split; first done.
    apply not_elem_of_cons. split; [done | apply not_elem_of_nil].
  - by rewrite remove_first.
Qed.

(** *** Serialisation *)

Lemma registered_snoc (regs : list (Fn * word)) (fn : Fn) (l : word) :
  registered (regs ++ [(fn, l)]) = registerFunction fn l (registered regs).
Proof. unfold registered. by rewrite foldl_app. Qed.

Lemma registered_label (regs : list (Fn * word)) (fn : Fn) (l : word) :
  label (registered regs) fn = Some l -> l ∈ regs.*2.
Proof.
  induction regs as [|[g k] regs IH] using rev_ind; first done.
  rewrite registered_snoc, fmap_app. simpl.
  destruct (decide (fn = g)) as [->|Hne].
  - intros [= <-]. apply elem_of_app. right. by left.
  - intros Hl. apply elem_of_app. left. by apply IH.
Qed.

Lemma registered_loadable (regs : list (Fn * word)) (fn : Fn) :
  NoDup regs.*2 -> fn ∈ regs.*1 -> loadable (registered regs) fn.
Proof.
  induction regs as [|[g k] regs IH] using rev_ind.
  { intros _ Hin. by apply elem_of_nil in Hin. }
  rewrite !fmap_app, registered_snoc. simpl.
  intros [Hnodup [Hk _]]%NoDup_app Hin.
  destruct (decide (fn = g)) as [->|Hne].
  - exists k. simpl. rewrite decide_True by done. by rewrite lookup_insert_eq.
  - apply elem_of_app in Hin as [Hin|Hin]; last by apply list_elem_of_singleton in Hin.
    destruct (IH Hnodup Hin) as (l & Hl & Hfn).
    exists l. simpl. rewrite decide_False by done. split; first done.
    rewrite lookup_insert_ne; first done.
    intros <-. apply (Hk k); last by left.
    by apply (registered_label regs fn).
Qed.

Lemma load_from_loadable (reg : Registry Fn) (stack acc : list Fn) :
  (forall fn, fn ∈ stack -> loadable reg fn) ->
  exists names,
    toJSON reg stack = Some <$> names /\
    load_from reg names acc = Some (acc ++ stack).
Proof.
  revert acc. induction stack as [|fn stack IH]; intros acc Hstack.
  - exists []. by rewrite app_nil_r.
  - destruct (Hstack fn ltac:(by left)) as (l & Hl & Hfn).
    destruct (IH (acc ++ [fn])) as (names & Hjson & Hload).
    { intros g Hg. apply Hstack. by right. }
    exists (l :: names). simpl. rewrite Hl, Hfn. split.
    + f_equal. exact Hjson.
    + rewrite Hload. by rewrite <-(assoc_L (++)).
Qed.

(** When the functions of a pipeline were registered, each label given to
    one function only, [toJSON()] lists a label for each function of the
    stack, and [Pipeline.load] of these labels rebuilds the stack. *)
Theorem load_of_toJSON_rebuilds_the_stack (regs : list (Fn * word)) (stack : list Fn) :
  NoDup regs.*2 ->
  (forall fn, fn ∈ stack -> fn ∈ regs.*1) ->
  exists names,
    toJSON (registered regs) stack = Some <$> names /\
    load (registered regs) names = Some stack.
Proof.
  intros Hnodup Hstack.
  destruct (load_from_loadable (registered regs) stack []) as (names & Hjson & Hload).
  { intros fn Hfn. apply registered_loadable; [done | by apply Hstack]. }
  by exists names.
Qed.

(** [Pipeline.load] throws "Cannot load unregistered function" exactly
    when one of the names is not registered. *)
Theorem load_throws_for_an_unregistered_name (reg : Registry Fn) (serialised : list word) :
  load reg serialised = None <->
  exists fnName, fnName ∈ serialised /\ registeredFunctions reg !! fnName = None.
Proof.
  unfold load. generalize (@nil Fn).
  induction serialised as [|fnName serialised IH]; intros acc; simpl.
  - split; first done. by intros (? & ?%elem_of_nil & _).
  - destruct (registeredFunctions reg !! fnName) as [fn|] eqn:Hfn.
    + rewrite IH. split.
      * intros (x & Hx & Hnone). exists x. split; [by right | done].
      * intros (x & [->|Hx]%elem_of_cons & Hnone); first congruence. by exists x.
    + split; last done. intros _. exists fnName. split; [by left | done].
Qed.

End WithFunctions.

Lemma after_and_before_insert_at_the_first_occurrence_witness :
  after stopWordFilter stemmer [trimmer; stopWordFilter]
  = Some [trimmer; stopWordFilter; stemmer] /\
  before stopWordFilter stemmer [trimmer; stopWordFilter]
  = Some [trimmer; stemmer; stopWordFilter].
Proof.
  apply (after_and_before_insert_at_the_first_occurrence stopWordFilter stemmer [trimmer] []).
  apply (bool_decide_unpack _). by vm_compute.
Defined.

Lemma remove_takes_out_the_first_occurrence_witness :
  remove stemmer [trimmer; stopWordFilter] = [trimmer; stopWordFilter] /\
  remove stemmer ([trimmer; stopWordFilter] ++ stemmer :: [trimmer; stemmer])
  = [trimmer; stopWordFilter] ++ [trimmer; stemmer].
Proof.
  apply remove_takes_out_the_first_occurrence.
  apply (bool_decide_unpack _). by vm_compute.
Defined.

Lemma remove_undoes_after_and_before_witness :
  remove stemmer [trimmer; stemmer; stopWordFilter] = [trimmer; stopWordFilter].
Proof.
  apply (remove_undoes_after_and_before trimmer stemmer).
  - apply (bool_decide_unpack _). by vm_compute.
  - left. reflexivity.
Defined.

Lemma load_of_toJSON_rebuilds_the_stack_witness :
  exists names,
    toJSON (registered [(trimmer, w "trimmer"); (stopWordFilter, w "stopWordFilter");
                        (stemmer, w "stemmer")])
           [trimmer; stemmer; trimmer] = Some <$> names /\
    load (registered [(trimmer, w "trimmer"); (stopWordFilter, w "stopWordFilter");
                      (stemmer, w "stemmer")]) names
    = Some [trimmer; stemmer; trimmer].
Proof.
  apply load_of_toJSON_rebuilds_the_stack.
  - apply (bool_decide_unpack _). by vm_compute.
  - intros fn _. destruct fn; apply (bool_decide_unpack _); by vm_compute.
Defined.

End PipelineLaws.

(** ** The builder: what add records *)

Module BuilderLaws.
Import Builder Indexing JsObjectFacts.

Lemma foldl_invariant {A B : Type} (I : A -> Prop) (f : A -> B -> A) (l : list B) (a : A) :
  I a -> (forall a x, x ∈ l -> I a -> I (f a x)) -> I (foldl f a l).
Proof.
  revert a. induction l as [|x l IH]; intros a Ha Hstep; simpl; first done.
  apply IH.
  - apply Hstep; [by left | done].
  - intros a' y Hy. apply Hstep. by right.
Qed.

Lemma get_blank_fields {V : Type} (fields : list word) (f : word) :
  f ∈ fields ->
  JsObject.get f (map (fun f => (f, @nil V)) fields) = Some [].
Proof.
  induction fields as [|g fields IH]; simpl.
  - by intros ?%elem_of_nil.
  - intros Hf. destruct (decide (f = g)); first done.
    apply elem_of_cons in Hf as [?|Hf]; [done | by apply IH].
Qed.

Section WithMetadata.
Context {MetaValue : Type}.
Implicit Types (inverted : JsObject.t (@Posting MetaValue)).
Implicit Types (term : Pipeline.Token MetaValue).

Local Abbreviation State := (JsObject.t nat * JsObject.t (@Posting MetaValue) * nat)%type.

(** The posting of the term after [add_term], and the next number. *)
Lemma add_term_inverted (fields whitelist : list word) (f d : word) term (acc : State) :
  exists p0 md,
    (p0, (add_term fields whitelist f d term acc).2)
    = match JsObject.get (Pipeline.str term) acc.1.2 with
      | Some p => (p, acc.2)
      | None => (mkPosting acc.2 (map (fun f => (f, [])) fields), S acc.2)
      end /\
    (add_term fields whitelist f d term acc).1.2
    = JsObject.set (Pipeline.str term)
        (mkPosting (_index p0)
           (JsObject.set f
              (JsObject.set d md (default [] (JsObject.get f (postings p0))))
              (postings p0)))
        acc.1.2.
Proof.
  destruct acc as [[ft inverted] ti]. unfold add_term. simpl.
  destruct (JsObject.get (Pipeline.str term) inverted) as [p|]; simpl; by eexists _, _.
Qed.

Lemma add_term_fieldTerms (fields whitelist : list word) (f d : word) term (acc : State) :
  (add_term fields whitelist f d term acc).1.1
  = JsObject.set (Pipeline.str term)
      (default 0 (JsObject.get (Pipeline.str term) acc.1.1) + 1) acc.1.1.
Proof.
  destruct acc as [[ft inverted] ti]. unfold add_term. simpl.
  by destruct (JsObject.get (Pipeline.str term) inverted) as [p|].
Qed.

Lemma add_term_covered (fields whitelist : list word) (f d : word) term (acc : State) :
  covered fields acc.1.2 ->
  covered fields (add_term fields whitelist f d term acc).1.2.
Proof.
  intros Hcov.
  destruct (add_term_inverted fields whitelist f d term acc) as (p0 & md & Hp0 & ->).
  intros t p Hp g Hg.
  destruct (decide (t = Pipeline.str term)) as [->|Hne].
  - rewrite get_set_eq in Hp. injection Hp as <-. simpl.
    destruct (decide (g = f)) as [->|Hgf]; first by rewrite get_set_eq.
    rewrite get_set_ne by done.
    destruct (JsObject.get (Pipeline.str term) acc.1.2) as [p|] eqn:Hterm.
    + injection Hp0 as -> _. by apply (Hcov _ _ Hterm).
    + injection Hp0 as -> _. simpl. eexists. by apply get_blank_fields.
  - rewrite get_set_ne in Hp by done. by apply (Hcov t p).
Qed.

Lemma add_term_recorded (fields whitelist : list word) (f d : word) term (acc : State)
    (t g e : word) :
  recorded acc.1.2 t g e ->
  recorded (add_term fields whitelist f d term acc).1.2 t g e.
Proof.
  intros (p & docs & m & Hp & Hdocs & Hm).
  destruct (add_term_inverted fields whitelist f d term acc) as (p0 & md & Hp0 & ->).
  destruct (decide (t = Pipeline.str term)) as [->|Hne].
  - rewrite Hp in Hp0. injection Hp0 as -> _.
    destruct (decide (g = f)) as [->|Hgf].
    + rewrite Hdocs. simpl.
      destruct (decide (e = d)) as [->|Hed].
      * eexists _, _, md. split; first apply get_set_eq. simpl.
        split; apply get_set_eq.
      * eexists _, _, m. split; first apply get_set_eq. simpl.
        split; first apply get_set_eq. by rewrite get_set_ne.
    + eexists _, docs, m. split; first apply get_set_eq. simpl.
      by rewrite get_set_ne.
  - exists p, docs, m. by rewrite get_set_ne.
Qed.

Lemma add_term_records (fields whitelist : list word) (f d : word) term (acc : State) :
  recorded (add_term fields whitelist f d term acc).1.2 (Pipeline.str term) f d.
Proof.
  destruct (add_term_inverted fields whitelist f d term acc) as (p0 & md & Hp0 & ->).
  eexists _, _, md. split; first apply get_set_eq. simpl.
  split; apply get_set_eq.
Qed.

Lemma add_term_numbered (fields whitelist : list word) (f d : word) term (acc : State) :
  numbered acc.1.2 acc.2 ->
  numbered (add_term fields whitelist f d term acc).1.2
           (add_term fields whitelist f d term acc).2.
Proof.
  intros [Hlt Hinj].
  destruct (add_term_inverted fields whitelist f d term acc) as (p0 & md & Hp0 & ->).
  set (ti' := (add_term fields whitelist f d term acc).2) in *.
  assert (Hti : acc.2 <= ti').
  { destruct (JsObject.get (Pipeline.str term) acc.1.2); injection Hp0 as _ ->; lia. }
  assert (Hown : _index p0 < ti' /\
                 forall t p, t <> Pipeline.str term -> JsObject.get t acc.1.2 = Some p ->
                   _index p <> _index p0).
  { destruct (JsObject.get (Pipeline.str term) acc.1.2) as [p|] eqn:Hterm.
    - injection Hp0 as -> ->. split; first by apply (Hlt _ _ Hterm).
      intros t q Hne Hq Heq. apply Hne. by apply (Hinj _ _ _ _ Hq Hterm).
    - injection Hp0 as -> ->. simpl. split; first lia.
      intros t q _ Hq. apply Hlt in Hq. lia. }
  destruct Hown as [Hown1 Hown2].
  split.
  - intros t p Hp. destruct (decide (t = Pipeline.str term)) as [->|Hne].
    + rewrite get_set_eq in Hp. by injection Hp as <-.
    + rewrite get_set_ne in Hp by done. apply Hlt in Hp. lia.
  - intros t1 t2 p1 p2 H1 H2 Heq.
    destruct (decide (t1 = Pipeline.str term)) as [->|Hne1];
      destruct (decide (t2 = Pipeline.str term)) as [->|Hne2]; first done.
    + rewrite get_set_eq in H1. injection H1 as <-. simpl in Heq.
      rewrite get_set_ne in H2 by done. by destruct (Hown2 _ _ Hne2 H2).
    + rewrite get_set_eq in H2. injection H2 as <-. simpl in Heq.
      rewrite get_set_ne in H1 by done. by destruct (Hown2 _ _ Hne1 H1).
    + rewrite get_set_ne in H1, H2 by done. by apply (Hinj _ _ _ _ H1 H2).
Qed.

Lemma occurrences_snoc (t : word) (terms : list (Pipeline.Token MetaValue)) term :
  occurrences t (terms ++ [term])
  = occurrences t terms + (if decide (Pipeline.str term = t) then 1 else 0).
Proof.
  unfold occurrences. rewrite filter_app, length_app. f_equal.
  rewrite filter_cons, filter_nil. by destruct (decide (Pipeline.str term = t)).
Qed.

(** The counts of [fieldTerms] once the terms were added. *)
Lemma add_terms_fieldTerms (fields whitelist : list word) (f d : word)
    (terms : list (Pipeline.Token MetaValue)) (inverted : JsObject.t Posting) (ti : nat)
    (t : word) :
  JsObject.get t
    (foldl (fun acc term => add_term fields whitelist f d term acc) ([], inverted, ti) terms).1.1
  = frequency t terms.
Proof.
  induction terms as [|term terms IH] using rev_ind; first done.
  rewrite foldl_app. simpl. rewrite add_term_fieldTerms.
  unfold frequency in *. rewrite occurrences_snoc.
  destruct (decide (Pipeline.str term = t)) as [<-|Hne].
  - rewrite get_set_eq, IH.
    destruct (occurrences (Pipeline.str term) terms) as [|n]; simpl; first done.
    by replace (n + 1 =? 0) with false by (symmetry; apply Nat.eqb_neq; lia).
  - rewrite get_set_ne by done. rewrite IH. by rewrite Nat.add_0_r.
Qed.

(** What the loop over the terms of a field keeps and records. *)
Lemma add_terms_spec (fields whitelist : list word) (f d : word)
    (terms : list (Pipeline.Token MetaValue)) (inverted : JsObject.t Posting) (ti : nat) :
  let final := foldl (fun acc term => add_term fields whitelist f d term acc)
                     ([], inverted, ti) terms in
  (covered fields inverted -> covered fields final.1.2) /\
  (forall t g e, recorded inverted t g e -> recorded final.1.2 t g e) /\
  (forall term, term ∈ terms -> recorded final.1.2 (Pipeline.str term) f d) /\
  (numbered inverted ti -> numbered final.1.2 final.2).
Proof.
  induction terms as [|term terms IH] using rev_ind.
  { simpl. split_and!; try done. by intros term ?%elem_of_nil. }
  rewrite foldl_app. simpl.
  destruct IH as (IH1 & IH2 & IH3 & IH4).
  split_and!.
  - intros Hcov. by apply add_term_covered, IH1.
  - intros t g e Hrec. by apply add_term_recorded, IH2.
  - intros term' [Hin| ->%list_elem_of_singleton]%elem_of_app.
    + by apply add_term_recorded, IH3.
    + apply add_term_records.
  - intros Hnum. by apply add_term_numbered, IH4.
Qed.

End WithMetadata.

Section WithDocuments.
Context {Doc Value MetaValue : Type}.
Variable property : Doc -> word -> option Value.
Variable toString : option Value -> word.
Variable tokenize : Value -> word -> FieldType -> list (Pipeline.Token MetaValue).

Local Abbreviation Builder := (@Builder Doc Value MetaValue).
Local Abbreviation terms_of := (terms_of property tokenize).
Local Abbreviation fieldRef_key := (fieldRef_key property toString).
Local Abbreviation add := (add property toString tokenize).
Local Abbreviation add_field := (add_field property tokenize).

(** The parts of the builder that [add] reads and does not write. *)
Local Abbreviation same_config b b' :=
  (_fields b = _fields b' /\ pipeline b = pipeline b' /\ _ref b = _ref b' /\
   metadataWhitelist b = metadataWhitelist b').

Lemma terms_of_same (b b' : Builder) (doc : Doc) (f : word) :
  same_config b b' -> terms_of b doc f = terms_of b' doc f.
Proof.
  intros (Hf & Hp & _). unfold terms_of, Builder.terms_of, field_value.
  by rewrite Hf, Hp.
Qed.

(** One turn of the loop over the fields. *)
Lemma add_field_records (doc : Doc) (d : word) (fields : list word) (b : Builder) (f : word) :
  let b' := add_field doc d fields b f in
  let key := FieldRef.toString (FieldRef.mkFieldRef d f) in
  same_config b' b /\ documentCount b' = documentCount b /\
  (covered fields (invertedIndex b) -> covered fields (invertedIndex b')) /\
  (forall t g e, recorded (invertedIndex b) t g e -> recorded (invertedIndex b') t g e) /\
  (forall term, term ∈ terms_of b doc f ->
     recorded (invertedIndex b') (Pipeline.str term) f d) /\
  (numbered (invertedIndex b) (termIndex b) ->
   numbered (invertedIndex b') (termIndex b')) /\
  (exists ft, JsObject.get key (fieldTermFrequencies b') = Some ft /\
              forall t, JsObject.get t ft = frequency t (terms_of b doc f)) /\
  JsObject.get key (fieldLengths b') = Some (length (terms_of b doc f)) /\
  (forall k, k <> key ->
     JsObject.get k (fieldTermFrequencies b') = JsObject.get k (fieldTermFrequencies b) /\
     JsObject.get k (fieldLengths b') = JsObject.get k (fieldLengths b)).
Proof.
  intros b' key. unfold b', add_field, Builder.add_field. fold key.
  pose proof (add_terms_spec fields (metadataWhitelist b) f d (terms_of b doc f)
                (invertedIndex b) (termIndex b)) as Hterms.
  pose proof (add_terms_fieldTerms fields (metadataWhitelist b) f d (terms_of b doc f)
                (invertedIndex b) (termIndex b)) as Hcount.
  destruct (foldl _ _ (terms_of b doc f)) as [[fieldTerms inverted] termIndex].
  simpl in *. destruct Hterms as (H1 & H2 & H3 & H4).
  split_and!; try done.
  - exists fieldTerms. by rewrite get_set_eq.
  - by rewrite !get_set_eq.
  - intros k Hk. by rewrite !get_set_ne.
Qed.

(** The loop over the fields. *)
Lemma add_fields_records (doc : Doc) (d : word) (fields fs : list word) (b : Builder) :
  let b' := foldl (add_field doc d fields) b fs in
  same_config b' b /\ documentCount b' = documentCount b /\
  (covered fields (invertedIndex b) -> covered fields (invertedIndex b')) /\
  (forall t g e, recorded (invertedIndex b) t g e -> recorded (invertedIndex b') t g e) /\
  (forall f term, f ∈ fs -> term ∈ terms_of b doc f ->
     recorded (invertedIndex b') (Pipeline.str term) f d) /\
  (numbered (invertedIndex b) (termIndex b) ->
   numbered (invertedIndex b') (termIndex b')) /\
  (forall f, f ∈ fs ->
     (exists ft, JsObject.get (FieldRef.toString (FieldRef.mkFieldRef d f))
                   (fieldTermFrequencies b') = Some ft /\
                 forall t, JsObject.get t ft = frequency t (terms_of b doc f)) /\
     JsObject.get (FieldRef.toString (FieldRef.mkFieldRef d f)) (fieldLengths b')
     = Some (length (terms_of b doc f))).
Proof.
  induction fs as [|f fs IH] using rev_ind.
  { simpl. split_and!; try done.
    - by intros f term ?%elem_of_nil.
    - by intros f ?%elem_of_nil. }
  intros b'. unfold b'. rewrite foldl_app. simpl.
  destruct IH as (Hcfg & Hcount & Hcov & Hrec & Hown & Hnum & Hfreq).
  set (b1 := foldl (add_field doc d fields) b fs) in *.
  destruct (add_field_records doc d fields b1 f)
    as (Hcfg' & Hcount' & Hcov' & Hrec' & Hown' & Hnum' & Hfreq' & Hlen' & Hother').
  rewrite (terms_of_same b1 b doc f Hcfg) in Hown', Hfreq', Hlen'.
  split.
  { destruct Hcfg as (E1 & E2 & E3 & E4), Hcfg' as (E1' & E2' & E3' & E4').
    by rewrite E1', E2', E3', E4'. }
  split_and!.
  - congruence.
  - intros H. by apply Hcov', Hcov.
  - intros t g e H. by apply Hrec', Hrec.
  - intros g term [Hg| ->%list_elem_of_singleton]%elem_of_app Hterm.
    + by apply Hrec', Hown.
    + by apply Hown'.
  - intros H. by apply Hnum', Hnum.
  - intros g [Hg| ->%list_elem_of_singleton]%elem_of_app; last done.
    destruct (decide (g = f)) as [->|Hne]; first done.
    destruct (Hother' (FieldRef.toString (FieldRef.mkFieldRef d g))) as [-> ->].
    { unfold FieldRef.toString. simpl. intros Heq. by apply app_inv_tail in Heq. }
    by apply Hfreq.
Qed.

Lemma add_records (doc : Doc) (attrs : DocumentAttributes) (b : Builder) :
  let b' := add doc attrs b in
  let d := toString (property doc (_ref b)) in
  let fields := JsObject.keys (_fields b) in
  same_config b' b /\ documentCount b' = S (documentCount b) /\
  (covered fields (invertedIndex b) -> covered fields (invertedIndex b')) /\
  (forall t g e, recorded (invertedIndex b) t g e -> recorded (invertedIndex b') t g e) /\
  (forall f term, f ∈ fields -> term ∈ terms_of b doc f ->
     recorded (invertedIndex b') (Pipeline.str term) f d) /\
  (numbered (invertedIndex b) (termIndex b) ->
   numbered (invertedIndex b') (termIndex b')) /\
  (forall f, f ∈ fields ->
     (exists ft, JsObject.get (fieldRef_key b doc f) (fieldTermFrequencies b') = Some ft /\
                 forall t, JsObject.get t ft = frequency t (terms_of b doc f)) /\
     JsObject.get (fieldRef_key b doc f) (fieldLengths b')
     = Some (length (terms_of b doc f))).
Proof.
  intros b' d fields. unfold b', add, Builder.add. fold d. fold fields.
  match goal with |- context [foldl _ ?b0 _] => set (b1 := b0) end.
  destruct (add_fields_records doc d fields fields b1)
    as (Hcfg & Hcount & Hcov & Hrec & Hown & Hnum & Hfreq).
  split; first done. by split_and!.
Qed.

(** [add(doc)] on a builder whose fields were defined before the first
    document: the call leaves the builder in such a state again, keeps
    everything that the inverted index records, and records every term of
    every field of the document under the ref of the document. *)
Theorem add_records_every_term_of_the_document (doc : Doc) (attrs : DocumentAttributes)
    (b : Builder) :
  indexable b ->
  indexable (add doc attrs b) /\
  (forall t f d, recorded (invertedIndex b) t f d ->
     recorded (invertedIndex (add doc attrs b)) t f d) /\
  (forall f term, f ∈ JsObject.keys (_fields b) -> term ∈ terms_of b doc f ->
     recorded (invertedIndex (add doc attrs b)) (Pipeline.str term) f
       (toString (property doc (_ref b)))).
Proof.
  intros [Hindex Hcov].
  destruct (add_records doc attrs b) as ((Hfields & _) & _ & Hcov' & Hrec & Hown & _).
  split_and!; try done.
  split; rewrite Hfields; [done | by apply Hcov'].
Qed.

(** [add(doc)] on a builder whose fields were defined before the first
    document counts, for each field, how often each term occurs in the
    field of the document, and records the number of the terms as the
    length of the field. *)
Theorem add_counts_the_terms_of_each_field (doc : Doc) (attrs : DocumentAttributes)
    (b : Builder) (f : word) :
  indexable b -> f ∈ JsObject.keys (_fields b) ->
  (exists fieldTerms,
     JsObject.get (fieldRef_key b doc f) (fieldTermFrequencies (add doc attrs b))
     = Some fieldTerms /\
     forall t, JsObject.get t fieldTerms = frequency t (terms_of b doc f)) /\
  JsObject.get (fieldRef_key b doc f) (fieldLengths (add doc attrs b))
  = Some (length (terms_of b doc f)).
Proof.
  intros _ Hf.
  destruct (add_records doc attrs b) as (_ & _ & _ & _ & _ & _ & Hfreq).
  by apply Hfreq.
Qed.

(** [add(doc)] on a builder whose fields were defined before the first
    document counts the document, and keeps the terms numbered: every
    posting has a number below [termIndex], and no two terms have the
    same number. *)
Theorem add_numbers_each_term_once (doc : Doc) (attrs : DocumentAttributes) (b : Builder) :
  indexable b -> numbered (invertedIndex b) (termIndex b) ->
  numbered (invertedIndex (add doc attrs b)) (termIndex (add doc attrs b)) /\
  documentCount (add doc attrs b) = S (documentCount b).
Proof.
  intros _ Hnum.
  destruct (add_records doc attrs b) as (_ & Hcount & _ & _ & _ & Hnum' & _).
  split; [by apply Hnum' | done].
Qed.

End WithDocuments.

(** A builder without documents is in a state in which [add] works, when
    no field is called [_index]. *)
Lemma indexable_empty {Doc Value MetaValue : Type} (b : @Builder Doc Value MetaValue) :
  invertedIndex b = [] ->
  bool_decide (w "_index" ∉ JsObject.keys (_fields b)) = true ->
  indexable b /\ numbered (invertedIndex b) (termIndex b).
Proof.
  intros Hempty Hindex%bool_decide_eq_true. unfold indexable. rewrite Hempty.
  split; [split; first done | split].
  - by intros t p [=].
  - by intros t p [=].
  - by intros t1 t2 p1 p2 [=].
Qed.

Lemma add_records_every_term_of_the_document_witness :
  let add := add Examples.doc_property Examples.doc_toString Examples.letters in
  let doc := [(w "id", w "a"); (w "title", w "x y")] in
  let b := Examples.title_builder in
  indexable (add doc (mkDocumentAttributes None) b) /\
  (forall t f d, recorded (invertedIndex b) t f d ->
     recorded (invertedIndex (add doc (mkDocumentAttributes None) b)) t f d) /\
  (forall f term, f ∈ JsObject.keys (_fields b) ->
     term ∈ terms_of Examples.doc_property Examples.letters b doc f ->
     recorded (invertedIndex (add doc (mkDocumentAttributes None) b)) (Pipeline.str term) f
       (Examples.doc_toString (Examples.doc_property doc (_ref b)))).
Proof.
  apply (add_records_every_term_of_the_document
           Examples.doc_property Examples.doc_toString Examples.letters).
  by apply indexable_empty.
Defined.

Lemma add_counts_the_terms_of_each_field_witness :
  let add := add Examples.doc_property Examples.doc_toString Examples.letters in
  let doc := [(w "id", w "a"); (w "title", w "x x y")] in
  let b := Examples.title_builder in
  (exists fieldTerms,
     JsObject.get (fieldRef_key Examples.doc_property Examples.doc_toString b doc (w "title"))
       (fieldTermFrequencies (add doc (mkDocumentAttributes None) b))
     = Some fieldTerms /\
     forall t, JsObject.get t fieldTerms
               = frequency t (terms_of Examples.doc_property Examples.letters b doc (w "title"))) /\
  JsObject.get (fieldRef_key Examples.doc_property Examples.doc_toString b doc (w "title"))
    (fieldLengths (add doc (mkDocumentAttributes None) b))
  = Some (length (terms_of Examples.doc_property Examples.letters b doc (w "title"))).
Proof.
  apply (add_counts_the_terms_of_each_field
           Examples.doc_property Examples.doc_toString Examples.letters).
  - by apply indexable_empty.
  - apply (bool_decide_unpack _). by vm_compute.
Defined.

Lemma add_numbers_each_term_once_witness :
  let add := add Examples.doc_property Examples.doc_toString Examples.letters in
  let doc := [(w "id", w "a"); (w "title", w "x y")] in
  let b := Examples.title_builder in
  numbered (invertedIndex (add doc (mkDocumentAttributes None) b))
           (termIndex (add doc (mkDocumentAttributes None) b)) /\
  documentCount (add doc (mkDocumentAttributes None) b) = S (documentCount b).
Proof.
  apply (add_numbers_each_term_once
           Examples.doc_property Examples.doc_toString Examples.letters).
  - by apply indexable_empty.
  - by apply indexable_empty.
Defined.

End BuilderLaws.

(** ** Queries: what the results have in common *)

Module QueryLaws.
Import Index Matching LunrSetFacts.

Local Arguments LunrSet.constructor : simpl never.
Local Arguments LunrSet.union : simpl never.
Local Arguments LunrSet.intersect : simpl never.
Local Arguments LunrSet.contains : simpl never.

(** A loop that returns keeps what each of its turns keeps. *)
Lemma foldl_option_keeps {A B : Type} (I : A -> Prop) (R : A -> A -> Prop)
    (f : A -> B -> option A) (l : list B) (a a' : A) :
  (forall a, R a a) -> (forall a b c, R a b -> R b c -> R a c) ->
  (forall a x a', x ∈ l -> I a -> f a x = Some a' -> I a' /\ R a a') ->
  I a -> foldl_option f a l = Some a' -> I a' /\ R a a'.
Proof.
  intros Hrefl Htrans. revert a. induction l as [|x l IH]; intros a Hstep Ha; simpl.
  - intros [= <-]. by split.
  - destruct (f a x) as [a1|] eqn:Hx; last done. simpl. intros Hrest.
    destruct (Hstep a x a1 ltac:(by left) Ha Hx) as [Ha1 HR1].
    destruct (IH a1) as [Ha' HR']; try done.
    { intros a2 y a3 Hy. apply Hstep. by right. }
    split; first done. by apply (Htrans a a1 a').
Qed.

(** A loop that returns has what one of its turns brings, when the turns
    that follow keep it. *)
Lemma foldl_option_reaches {A B : Type} (I : A -> Prop) (R : A -> A -> Prop)
    (Post : A -> Prop) (f : A -> B -> option A) (l : list B) (x0 : B) (a a' : A) :
  (forall a, R a a) -> (forall a b c, R a b -> R b c -> R a c) ->
  (forall a x a', x ∈ l -> I a -> f a x = Some a' -> I a' /\ R a a') ->
  x0 ∈ l ->
  (forall a a', I a -> f a x0 = Some a' -> Post a') ->
  (forall a a', Post a -> R a a' -> Post a') ->
  I a -> foldl_option f a l = Some a' -> Post a'.
Proof.
  intros Hrefl Htrans. revert a. induction l as [|x l IH];
    intros a Hstep Hx0 Hpost Hup Ha; simpl.
  - by apply elem_of_nil in Hx0.
  - destruct (f a x) as [a1|] eqn:Hx; last done. simpl. intros Hrest.
    destruct (Hstep a x a1 ltac:(by left) Ha Hx) as [Ha1 HR1].
    assert (Hstep' : forall a x a', x ∈ l -> I a -> f a x = Some a' -> I a' /\ R a a').
    { intros a2 y a3 Hy. apply Hstep. by right. }
    apply elem_of_cons in Hx0 as [->|Hx0].
    + destruct (foldl_option_keeps I R f l a1 a' Hrefl Htrans Hstep' Ha1 Hrest) as [_ HR].
      apply (Hup a1); last done. by apply (Hpost a).
    + by apply (IH a1).
Qed.

Section WithMetadata.
Context {MetaValue : Type}.
Implicit Types (s : State MetaValue) (r : Result MetaValue).

Lemma widens_refl s : widens s s.
Proof.
  split; first apply extends_refl.
  split; intros f a Ha; by exists a.
Qed.

Lemma widens_trans s1 s2 s3 : widens s1 s2 -> widens s2 s3 -> widens s1 s3.
Proof.
  intros (He1 & Hp1 & Hr1) (He2 & Hp2 & Hr2).
  split; first by apply (extends_trans _ (sets s2)).
  split.
  - intros f a Ha. destruct (Hp1 f a Ha) as (a2 & Ha2 & H12).
    destruct (Hp2 f a2 Ha2) as (a3 & Ha3 & H23).
    exists a3. split; first done. intros d Hd. by apply H23, H12.
  - intros f a Ha. destruct (Hr1 f a Ha) as (a2 & Ha2 & H12).
    destruct (Hr2 f a2 Ha2) as (a3 & Ha3 & H23).
    exists a3. split; first done. intros d Hd. by apply H12, H23.
Qed.

Lemma prohibits_widens s s' (f d : word) : prohibits s f d -> widens s s' -> prohibits s' f d.
Proof.
  intros (a & Ha & Hd) (_ & Hp & _). destruct (Hp f a Ha) as (a' & Ha' & Hsub).
  exists a'. split; [done | by apply Hsub].
Qed.

Lemma requires_widens s s' (f : word) (Q : word -> Prop) :
  requires s f Q -> widens s s' -> requires s' f Q.
Proof.
  intros (a & Ha & Hd) (_ & _ & Hr). destruct (Hr f a Ha) as (a' & Ha' & Hsub).
  exists a'. split; first done. intros d Hd'. by apply Hd, Hsub.
Qed.

(** A change of the store alone: the sets that the state refers to stay
    what they are. *)
Lemma widens_store s s' :
  sound s -> LunrSet.extends (sets s) (sets s') ->
  requiredMatches s' = requiredMatches s -> prohibitedMatches s' = prohibitedMatches s ->
  widens s s'.
Proof.
  intros (_ & Hreq & Hproh) Hext Hr Hp. unfold widens. rewrite Hr, Hp.
  split; first done. split.
  - intros f a Ha. exists a. split; first done. intros d.
    by rewrite (contains_extends _ _ _ _ Hext (Hproh f a Ha)).
  - intros f a Ha. exists a. split; first done. intros d.
    by rewrite (contains_extends _ _ _ _ Hext (Hreq f a Ha)).
Qed.

Section Clauses.
Variable expand : Query.Clause -> option (list word).
Variable clause_metadata : list word -> list Builder.FieldType -> JsObject.t MetaValue.
Variable idx : Index MetaValue.

(** What holds of the state and of [clauseMatches] in the loops of a
    clause: [clauseMatches] holds only documents with [Q]. *)
Local Abbreviation fine Q := (fun acc : State MetaValue * nat =>
  sound acc.1 /\ LunrSet.valid (sets acc.1) acc.2 /\
  forall d, LunrSet.contains (sets acc.1) acc.2 d = true -> Q d).

Local Abbreviation wider := (fun acc acc' : State MetaValue * nat => widens acc.1 acc'.1).

(** One turn of the loop over the fields of a clause. *)
Lemma match_field_fine (Q : word -> Prop) (clause : Query.Clause) (e : word)
    (posting : Builder.Posting) (acc acc' : State MetaValue * nat) (f : word) :
  (forall docs d, JsObject.get f (Builder.postings posting) = Some docs ->
     d ∈ JsObject.keys docs -> Q d) ->
  fine Q acc ->
  match_field clause e posting acc f = Some acc' ->
  (fine Q acc' /\ wider acc acc') /\
  (Query.presence_ clause = Query.PROHIBITED ->
   forall docs d, JsObject.get f (Builder.postings posting) = Some docs ->
     d ∈ JsObject.keys docs -> prohibits acc'.1 f d).
Proof.
  destruct acc as [s cm]. intros HQ (Hsound & Hcm & HcmQ). simpl in Hcm, HcmQ.
  pose proof Hsound as (Hinit & Hreq & Hproh).
  unfold match_field.
  destruct (field_posting posting f) as [docs|] eqn:Hposting; last done.
  assert (HQd : forall d, d ∈ JsObject.keys docs -> Q d).
  { unfold field_posting in Hposting.
    destruct (JsObject.get f (Builder.postings posting)) as [docs0|] eqn:Hdocs.
    - injection Hposting as <-. intros d Hd. by apply (HQ docs0).
    - destruct (decide (f = w "_index")); last done. injection Hposting as <-.
      intros d Hd. by apply elem_of_nil in Hd. }
  assert (Hin : forall docs' d, JsObject.get f (Builder.postings posting) = Some docs' ->
            d ∈ JsObject.keys docs' -> d ∈ JsObject.keys docs).
  { unfold field_posting in Hposting. intros docs' d Hget. rewrite Hget in Hposting.
    by injection Hposting as <-. }
  simpl.
  destruct (LunrSet.constructor _ _ (sets s)) as [m sets1] eqn:Hnew.
  destruct (constructor_spec _ _ _ _ Hinit Hnew) as (Hinit1 & Hext1 & Hm & Hmc).
  assert (Hcm1 : LunrSet.valid sets1 cm) by (by apply (valid_extends (sets s))).
  destruct (decide (Query.presence_ clause = Query.REQUIRED)) as [Hr|Hr].
  - destruct (LunrSet.union cm m sets1) as [u sets2] eqn:Hun.
    destruct (union_spec _ _ _ _ _ Hinit1 Hcm1 Hm Hun) as (Hinit2 & Hext2 & Hu & Huc).
    assert (Hext : LunrSet.extends (sets s) sets2) by (by apply (extends_trans _ sets1)).
    rewrite decide_False by congruence.
    set (required := match requiredMatches s !! f with
                     | Some _ => requiredMatches s
                     | None => <[f:=LunrSet.complete]> (requiredMatches s)
                     end).
    assert (Hgoal : forall mf qv tc,
      let s' := mkState mf qv tc required (prohibitedMatches s) sets2 in
      (fine Q (s', u) /\ wider (s, cm) (s', u))).
    { intros mf qv tc s'. split; [split_and!|]; simpl.
      - split_and!; simpl; first done.
        + intros g a Hg. unfold required in Hg.
          destruct (requiredMatches s !! f) eqn:Hf.
          * by apply (valid_extends (sets s)), (Hreq g).
          * apply lookup_insert_Some in Hg as [[_ <-]|[_ Hg]].
            -- by apply initialized_valid.
            -- by apply (valid_extends (sets s)), (Hreq g).
        + intros g a Hg. by apply (valid_extends (sets s)), (Hproh g).
      - done.
      - intros d. rewrite Huc. intros [Hd|Hd]%orb_true_iff.
        + apply HcmQ. by rewrite <-(contains_extends _ sets1).
        + rewrite Hmc in Hd. apply bool_decide_eq_true in Hd. by apply HQd.
      - split; first done. split; simpl.
        + intros g a Hg. exists a. split; first done. intros d.
          by rewrite (contains_extends _ _ _ _ Hext (Hproh g a Hg)).
        + intros g a Hg. exists a. split.
          * unfold required. destruct (requiredMatches s !! f) eqn:Hf; first done.
            rewrite lookup_insert_ne; first done. intros <-. congruence.
          * intros d. by rewrite (contains_extends _ _ _ _ Hext (Hreq g a Hg)). }
    destruct (queryVectors s !! f) as [qv|]; last done. simpl.
    destruct (Vector.upsert _ _ _ qv) as [qv'|]; last done. simpl.
    destruct (decide (_ ∈ termFieldCache s)); intros [= <-];
      (split; [apply Hgoal | intros ?; congruence]).
  - destruct (decide (Query.presence_ clause = Query.PROHIBITED)) as [Hp|Hp].
    + set (current := default LunrSet.empty (prohibitedMatches s !! f)).
      assert (Hcur : LunrSet.valid sets1 current).
      { unfold current. destruct (prohibitedMatches s !! f) as [a|] eqn:Ha; simpl.
        - by apply (valid_extends (sets s)), (Hproh f).
        - by apply initialized_valid. }
      destruct (LunrSet.union current m sets1) as [u sets3] eqn:Hun.
      destruct (union_spec _ _ _ _ _ Hinit1 Hcur Hm Hun) as (Hinit3 & Hext3 & Hu & Huc).
      assert (Hext : LunrSet.extends (sets s) sets3) by (by apply (extends_trans _ sets1)).
      intros [= <-]. split; [split; [split_and!|]|]; simpl.
      * split_and!; simpl; first done.
        -- intros g a Hg. by apply (valid_extends (sets s)), (Hreq g).
        -- intros g a Hg. apply lookup_insert_Some in Hg as [[_ <-]|[_ Hg]]; first done.
           by apply (valid_extends (sets s)), (Hproh g).
      * by apply (valid_extends (sets s)).
      * intros d. rewrite (contains_extends _ _ _ _ Hext Hcm). apply HcmQ.
      * split; first done. split; simpl.
        -- intros g a Hg. destruct (decide (g = f)) as [->|Hne].
           ++ exists u. rewrite lookup_insert_eq. split; first done.
              intros d Hd. rewrite Huc. apply orb_true_iff. left.
              unfold current. rewrite Hg. simpl.
              by rewrite (contains_extends _ _ _ _ Hext1 (Hproh f a Hg)).
           ++ exists a. rewrite lookup_insert_ne by done. split; first done.
              intros d. by rewrite (contains_extends _ _ _ _ Hext (Hproh g a Hg)).
        -- intros g a Hg. exists a. split; first done. intros d.
           by rewrite (contains_extends _ _ _ _ Hext (Hreq g a Hg)).
      * intros _ docs' d Hget Hd. exists u. simpl. rewrite lookup_insert_eq.
        split; first done. rewrite Huc, Hmc. apply orb_true_iff. right.
        apply bool_decide_eq_true. by apply (Hin docs').
    + assert (Hgoal : forall mf qv tc,
        let s' := mkState mf qv tc (requiredMatches s) (prohibitedMatches s) sets1 in
        (fine Q (s', cm) /\ wider (s, cm) (s', cm))).
      { intros mf qv tc s'. split; [split_and!|]; simpl.
        - split_and!; simpl; first done.
          + intros g a Hg. by apply (valid_extends (sets s)), (Hreq g).
          + intros g a Hg. by apply (valid_extends (sets s)), (Hproh g).
        - done.
        - intros d. rewrite (contains_extends _ _ _ _ Hext1 Hcm). apply HcmQ.
        - by apply widens_store. }
      destruct (queryVectors s !! f) as [qv|]; last done. simpl.
      destruct (Vector.upsert _ _ _ qv) as [qv'|]; last done. simpl.
      destruct (decide (_ ∈ termFieldCache s)); intros [= <-];
        (split; [apply Hgoal | intros ?; congruence]).
Qed.

Lemma wider_refl (acc : State MetaValue * nat) : wider acc acc.
Proof. apply widens_refl. Qed.

Lemma wider_trans (a b c : State MetaValue * nat) : wider a b -> wider b c -> wider a c.
Proof. apply widens_trans. Qed.

(** One turn of the loop over the expanded terms. *)
Lemma match_term_fine (Q : word -> Prop) (clause : Query.Clause) (e : word)
    (acc acc' : State MetaValue * nat) :
  (forall posting f docs d,
     JsObject.get e (invertedIndex idx) = Some posting -> f ∈ Query.fields clause ->
     JsObject.get f (Builder.postings posting) = Some docs ->
     d ∈ JsObject.keys docs -> Q d) ->
  fine Q acc ->
  match_term idx clause acc e = Some acc' ->
  (fine Q acc' /\ wider acc acc') /\
  (Query.presence_ clause = Query.PROHIBITED ->
   forall posting f docs d,
     JsObject.get e (invertedIndex idx) = Some posting -> f ∈ Query.fields clause ->
     JsObject.get f (Builder.postings posting) = Some docs ->
     d ∈ JsObject.keys docs -> prohibits acc'.1 f d).
Proof.
  intros HQ Hacc. unfold match_term.
  destruct (JsObject.get e (invertedIndex idx)) as [posting|] eqn:He; last done.
  simpl. intros Hrun.
  assert (Hstep : forall a x a', x ∈ Query.fields clause -> fine Q a ->
            match_field clause e posting a x = Some a' -> fine Q a' /\ wider a a').
  { intros a x a' Hx Ha Hx'.
    apply (match_field_fine Q clause e posting a a' x); try done.
    intros docs d Hdocs Hd. by apply (HQ posting x docs). }
  split.
  - by apply (foldl_option_keeps (fine Q) wider _ _ _ _ wider_refl wider_trans Hstep).
  - intros Hp posting' f docs d [= <-] Hf Hdocs Hd.
    apply (foldl_option_reaches (fine Q) wider (fun a => prohibits a.1 f d) _ _ f acc acc'
             wider_refl wider_trans Hstep Hf); try done.
    + intros a a' Ha Hrun'.
      destruct (match_field_fine Q clause e posting a a' f) as [_ Hproh]; try done.
      * intros docs' d' Hdocs' Hd'. by apply (HQ posting f docs').
      * by apply (Hproh Hp docs).
    + intros a a' Ha Hw. by apply (prohibits_widens a.1).
Qed.

Lemma with_term_with_term (c : Query.Clause) (t t' : Query.Term) :
  Query.with_term (Query.with_term c t) t' = Query.with_term c t'.
Proof. done. Qed.

Lemma blank_required (fs : list word) (required : gmap word nat) (g : word) :
  (g ∈ fs /\
   foldl (fun required field => <[field := LunrSet.empty]> required) required fs !! g
   = Some LunrSet.empty) \/
  ((g ∉ fs) /\
   foldl (fun required field => <[field := LunrSet.empty]> required) required fs !! g
   = required !! g).
Proof.
  induction fs as [|f fs IH] using rev_ind.
  { right. split; [apply not_elem_of_nil | done]. }
  rewrite foldl_app. simpl. destruct (decide (g = f)) as [->|Hne].
  - left. rewrite lookup_insert_eq. split; last done.
    apply elem_of_app. right. by left.
  - rewrite lookup_insert_ne by done. destruct IH as [[Hg Hl]|[Hg Hl]].
    + left. split; last done. apply elem_of_app. by left.
    + right. split; last done. intros [?|?%list_elem_of_singleton]%elem_of_app; done.
Qed.

(** The loop over the terms of a clause. *)
Lemma match_terms_fine (Q : word -> Prop) (ts : list Query.Term) (c : Query.Clause)
    (acc acc' : State MetaValue * nat) :
  (forall t es e posting f docs d,
     t ∈ ts -> expand (Query.with_term c t) = Some es -> e ∈ es ->
     JsObject.get e (invertedIndex idx) = Some posting -> f ∈ Query.fields c ->
     JsObject.get f (Builder.postings posting) = Some docs ->
     d ∈ JsObject.keys docs -> Q d) ->
  fine Q acc ->
  match_terms expand idx c ts acc = Some acc' ->
  (fine Q acc' /\ wider acc acc') /\
  (Query.presence_ c = Query.PROHIBITED ->
   forall t es e posting f docs d,
     t ∈ ts -> expand (Query.with_term c t) = Some es -> e ∈ es ->
     JsObject.get e (invertedIndex idx) = Some posting -> f ∈ Query.fields c ->
     JsObject.get f (Builder.postings posting) = Some docs ->
     d ∈ JsObject.keys docs -> prohibits acc'.1 f d).
Proof.
  revert c acc. induction ts as [|t ts IH]; intros c acc HQ Hacc; simpl.
  { intros [= <-]. split; first (split; [done | apply wider_refl]).
    by intros _ t es e posting f docs d ?%elem_of_nil. }
  destruct (expand (Query.with_term c t)) as [es|] eqn:Hes; last done. simpl.
  destruct ((length es =? 0) && bool_decide (Query.presence_ c = Query.REQUIRED)) eqn:Hbreak.
  - apply andb_true_iff in Hbreak as [_ Hr%bool_decide_eq_true].
    intros [= <-]. destruct acc as [s cm]. destruct Hacc as (Hsound & Hcm & HcmQ).
    pose proof Hsound as (Hinit & Hreq & Hproh). simpl in *.
    split; last by (intros ?; congruence).
    split; [split_and!|]; simpl; try done.
    + split_and!; simpl; try done.
      intros g a Hg. destruct (blank_required (Query.fields c) (requiredMatches s) g)
        as [[_ Hl]|[_ Hl]]; rewrite Hl in Hg.
      * injection Hg as <-. by apply initialized_valid.
      * by apply (Hreq g).
    + split; first apply extends_refl. split; simpl.
      * intros g a Hg. by exists a.
      * intros g a Hg. destruct (blank_required (Query.fields c) (requiredMatches s) g)
          as [[_ Hl]|[_ Hl]]; rewrite Hl.
        -- exists LunrSet.empty. split; first done. intros d.
           by rewrite (contains_empty _ _ Hinit).
        -- by exists a.
  - intros Hrun.
    destruct (foldl_option _ acc es) as [acc1|] eqn:Hterms; last done. simpl in Hrun.
    assert (Hstep : forall a x a', x ∈ es -> fine Q a ->
              match_term idx (Query.with_term c t) a x = Some a' ->
              fine Q a' /\ wider a a').
    { intros a x a' Hx Ha Hx'.
      apply (match_term_fine Q (Query.with_term c t) x a a'); try done.
      intros posting f docs d Hp Hf Hdocs Hd.
      apply (HQ t es x posting f docs d); try done. by left. }
    destruct (foldl_option_keeps (fine Q) wider _ _ _ _ wider_refl wider_trans Hstep
                Hacc Hterms) as [Hacc1 Hw1].
    destruct (IH (Query.with_term c t) acc1) as [[Hacc' Hw'] Hproh']; try done.
    { intros t' es' e posting f docs d Ht'. rewrite with_term_with_term.
      intros Hes' He Hp Hf Hdocs Hd.
      apply (HQ t' es' e posting f docs d); try done. by right. }
    split; first (split; [done | by apply (wider_trans acc acc1)]).
    intros Hp t' es' e posting f docs d [->|Ht']%elem_of_cons Hes' He Hpost Hf Hdocs Hd.
    + rewrite Hes in Hes'. injection Hes' as <-.
      apply (prohibits_widens acc1.1); last done.
      apply (foldl_option_reaches (fine Q) wider (fun a => prohibits a.1 f d) _ _ e acc acc1
               wider_refl wider_trans Hstep He); try done.
      * intros a a' Ha Hrun'.
        destruct (match_term_fine Q (Query.with_term c t) e a a') as [_ Hproh]; try done.
        -- intros posting' f' docs' d' Hp' Hf' Hdocs' Hd'.
           apply (HQ t es e posting' f' docs' d'); try done. by left.
        -- by apply (Hproh Hp posting f docs).
      * intros a a' Ha Hw. by apply (prohibits_widens a.1).
    + apply (Hproh' Hp t' es' e posting f docs d); try done.
Qed.

(** The documents that hold a term of the clause in one of its fields. *)
Local Abbreviation held c :=
  (fun d => exists f, f ∈ Query.fields c /\ matches_in expand clause_metadata idx c f d).

(** One turn of the loop over the clauses. *)
Lemma match_clause_sound (c : Query.Clause) (s s' : State MetaValue) :
  sound s ->
  match_clause expand clause_metadata idx s c = Some s' ->
  (sound s' /\ widens s s') /\
  (Query.presence_ c = Query.PROHIBITED ->
   forall f d, f ∈ Query.fields c -> matches_in expand clause_metadata idx c f d ->
     prohibits s' f d) /\
  (Query.presence_ c = Query.REQUIRED ->
   forall f, f ∈ Query.fields c -> requires s' f (held c)).
Proof.
  intros Hsound. unfold match_clause.
  destruct (match_terms _ _ _ _ _) as [[s1 cm]|] eqn:Hterms; last done. simpl.
  destruct (match_terms_fine (held c) (clause_terms clause_metadata idx c) c
              (s, LunrSet.empty) (s1, cm)) as [[Hfine Hw] Hproh];
    try done.
  { intros t es e posting f docs d Ht Hes He Hp Hf Hdocs Hd.
    exists f. split; first done. by exists t, es, e, posting, docs. }
  { pose proof Hsound as (Hinit & _). split_and!; simpl; try done.
    - by apply initialized_valid.
    - intros d. by rewrite (contains_empty _ _ Hinit). }
  destruct Hfine as (Hsound1 & Hcm & HcmQ). simpl in *.
  destruct (decide (Query.presence_ c = Query.REQUIRED)) as [Hr|Hr].
  - intros Hrun.
    set (I := fun s : State MetaValue =>
                sound s /\ LunrSet.valid (sets s) cm /\
                forall d, LunrSet.contains (sets s) cm d = true -> held c d).
    assert (Hstep : forall a x a',
              I a ->
              (required ← requiredMatches a !! x;
               let '(i, sets') := LunrSet.intersect required cm (sets a) in
               Some (mkState (matchingFields a) (queryVectors a) (termFieldCache a)
                       (<[x := i]> (requiredMatches a)) (prohibitedMatches a) sets'))
              = Some a' ->
              (I a' /\ widens a a') /\ requires a' x (held c)).
    { intros a x a' (Ha & Hacm & HaQ) Hx.
      pose proof Ha as (Hinit & Hreq & Hprohs).
      destruct (requiredMatches a !! x) as [required|] eqn:Hrequired; last done.
      simpl in Hx.
      destruct (LunrSet.intersect required cm (sets a)) as [i sets'] eqn:Hint.
      injection Hx as <-.
      destruct (LunrSetLaws.intersect_spec _ _ _ _ _ Hinit (Hreq x required Hrequired)
                  Hacm Hint) as (Hinit' & Hext' & Hi & Hic).
      split; [split; [split_and!|]|]; simpl.
      - split_and!; simpl; first done.
        + intros g b Hg. apply lookup_insert_Some in Hg as [[_ <-]|[_ Hg]]; first done.
          by apply (valid_extends (sets a)), (Hreq g).
        + intros g b Hg. by apply (valid_extends (sets a)), (Hprohs g).
      - by apply (valid_extends (sets a)).
      - intros d. rewrite (contains_extends _ _ _ _ Hext' Hacm). apply HaQ.
      - split; first done. split; simpl.
        + intros g b Hg. exists b. split; first done. intros d.
          by rewrite (contains_extends _ _ _ _ Hext' (Hprohs g b Hg)).
        + intros g b Hg. destruct (decide (g = x)) as [->|Hne].
          * exists i. rewrite lookup_insert_eq. split; first done.
            intros d. rewrite Hic. intros [Hd _]%andb_true_iff. congruence.
          * exists b. rewrite lookup_insert_ne by done. split; first done.
            intros d. by rewrite (contains_extends _ _ _ _ Hext' (Hreq g b Hg)).
      - exists i. simpl. rewrite lookup_insert_eq. split; first done.
        intros d. rewrite Hic. intros [_ Hd]%andb_true_iff. by apply HaQ. }
    assert (HI1 : I s1) by done.
    assert (Hstep' : forall a x a', x ∈ Query.fields c -> I a ->
              (required ← requiredMatches a !! x;
               let '(i, sets') := LunrSet.intersect required cm (sets a) in
               Some (mkState (matchingFields a) (queryVectors a) (termFieldCache a)
                       (<[x := i]> (requiredMatches a)) (prohibitedMatches a) sets'))
              = Some a' -> I a' /\ widens a a').
    { intros a x a' _ Ha Hx. by apply (Hstep a x a'). }
    destruct (foldl_option_keeps I widens _ _ _ _ widens_refl widens_trans Hstep' HI1 Hrun)
      as [(Hsound' & _) Hw'].
    split; first (split; [done | by apply (widens_trans s s1)]).
    split; first by (intros ?; congruence).
    intros _ f Hf.
    apply (foldl_option_reaches I widens (fun a => requires a f (held c)) _ _ f s1 s'
             widens_refl widens_trans Hstep' Hf); try done.
    + intros a a' Ha Hx. by apply (Hstep a f a').
    + intros a a' Ha Hw''. by apply (requires_widens a).
  - intros [= <-]. split; first done. split; last done.
    intros Hp f d Hf (t & es & e & posting & docs & Ht & Hes & He & Hpost & Hdocs & Hd).
    by apply (Hproh Hp t es e posting f docs d).
Qed.

(** The loop over the clauses. *)
Lemma match_clauses_sound (clauses : list Query.Clause) (sets0 : LunrSet.Store)
    (s : State MetaValue) :
  LunrSet.initialized sets0 ->
  match_clauses expand clause_metadata idx clauses sets0 = Some s ->
  sound s /\
  forall c, c ∈ clauses ->
    (Query.presence_ c = Query.PROHIBITED ->
     forall f d, f ∈ Query.fields c -> matches_in expand clause_metadata idx c f d ->
       prohibits s f d) /\
    (Query.presence_ c = Query.REQUIRED ->
     forall f, f ∈ Query.fields c -> requires s f (held c)).
Proof.
  intros Hinit Hrun. unfold match_clauses in Hrun.
  assert (Hstart : sound (start idx sets0)) by (by split_and!).
  assert (Hstep : forall a x a', x ∈ clauses -> sound a ->
            match_clause expand clause_metadata idx a x = Some a' ->
            sound a' /\ widens a a').
  { intros a x a' _ Ha Hx. by apply (match_clause_sound x a a'). }
  split.
  - by apply (foldl_option_keeps sound widens _ _ _ _ widens_refl widens_trans Hstep
                Hstart Hrun).
  - intros c Hc. split.
    + intros Hp f d Hf Hd.
      apply (foldl_option_reaches sound widens (fun a => prohibits a f d) _ _ c (start idx sets0) s
               widens_refl widens_trans Hstep Hc); try done.
      * intros a a' Ha Hx.
        destruct (match_clause_sound c a a' Ha Hx) as (_ & Hproh & _).
        by apply Hproh.
      * intros a a' Ha Hw. by apply (prohibits_widens a).
    + intros Hr f Hf.
      apply (foldl_option_reaches sound widens (fun a => requires a f (held c)) _ _ c (start idx sets0) s
               widens_refl widens_trans Hstep Hc); try done.
      * intros a a' Ha Hx.
        destruct (match_clause_sound c a a' Ha Hx) as (_ & _ & Hreq).
        by apply Hreq.
      * intros a a' Ha Hw. by apply (requires_widens a).
Qed.

(** [allRequiredMatches] and [allProhibitedMatches] after the loop over
    the fields [fs] of the index. *)
Lemma all_matches_from (s : State MetaValue) (fs : list word) :
  sound s ->
  let '(ar, ap, st) :=
    foldl (fun acc field =>
             let '(allRequired, allProhibited, st) := acc in
             let '(allRequired, st) :=
               match requiredMatches s !! field with
               | Some r => LunrSet.intersect allRequired r st
               | None => (allRequired, st)
               end in
             let '(allProhibited, st) :=
               match prohibitedMatches s !! field with
               | Some p => LunrSet.union allProhibited p st
               | None => (allProhibited, st)
               end in
             (allRequired, allProhibited, st))
          (LunrSet.complete, LunrSet.empty, sets s) fs in
  LunrSet.initialized st /\ LunrSet.extends (sets s) st /\
  LunrSet.valid st ar /\ LunrSet.valid st ap /\
  (forall f a d, f ∈ fs -> prohibitedMatches s !! f = Some a ->
     LunrSet.contains (sets s) a d = true -> LunrSet.contains st ap d = true) /\
  (forall f a d, f ∈ fs -> requiredMatches s !! f = Some a ->
     LunrSet.contains st ar d = true -> LunrSet.contains (sets s) a d = true).
Proof.
  intros (Hinit & Hreq & Hproh).
  induction fs as [|f fs IH] using rev_ind.
  { simpl. split_and!; try done.
    - apply extends_refl.
    - by apply initialized_valid.
    - by apply initialized_valid.
    - by intros f a d ?%elem_of_nil.
    - by intros f a d ?%elem_of_nil. }
  rewrite foldl_app. simpl.
  destruct (foldl _ _ fs) as [[ar ap] st].
  destruct IH as (Hinit0 & Hext0 & Har & Hap & Hp0 & Hr0).
  assert (Hstep1 : exists ar' st1,
    match requiredMatches s !! f with
    | Some r => LunrSet.intersect ar r st
    | None => (ar, st)
    end = (ar', st1) /\
    LunrSet.initialized st1 /\ LunrSet.extends st st1 /\ LunrSet.valid st1 ar' /\
    (forall d, LunrSet.contains st1 ar' d = true -> LunrSet.contains st ar d = true) /\
    (forall a d, requiredMatches s !! f = Some a ->
       LunrSet.contains st1 ar' d = true -> LunrSet.contains (sets s) a d = true)).
  { destruct (requiredMatches s !! f) as [r|] eqn:Hr.
    - assert (Hrv : LunrSet.valid st r) by (by apply (valid_extends (sets s)), (Hreq f)).
      destruct (LunrSet.intersect ar r st) as [ar' st1] eqn:Hint.
      destruct (LunrSetLaws.intersect_spec _ _ _ _ _ Hinit0 Har Hrv Hint)
        as (Hinit1 & Hext1 & Har' & Hc).
      exists ar', st1. split_and!; try done.
      + intros d. rewrite Hc. by intros [? _]%andb_true_iff.
      + intros a d [= <-]. rewrite Hc. intros [_ Hd]%andb_true_iff.
        by rewrite <-(contains_extends _ _ _ _ Hext0 (Hreq f r Hr)).
    - exists ar, st. split_and!; try done. apply extends_refl. }
  destruct Hstep1 as (ar' & st1 & -> & Hinit1 & Hext1 & Har' & Hsub1 & Hnew1).
  assert (Hap1 : LunrSet.valid st1 ap) by (by apply (valid_extends st)).
  assert (Hstep2 : exists ap' st2,
    match prohibitedMatches s !! f with
    | Some p => LunrSet.union ap p st1
    | None => (ap, st1)
    end = (ap', st2) /\
    LunrSet.initialized st2 /\ LunrSet.extends st1 st2 /\ LunrSet.valid st2 ap' /\
    (forall d, LunrSet.contains st1 ap d = true -> LunrSet.contains st2 ap' d = true) /\
    (forall a d, prohibitedMatches s !! f = Some a ->
       LunrSet.contains (sets s) a d = true -> LunrSet.contains st2 ap' d = true)).
  { assert (Hext01 : LunrSet.extends (sets s) st1) by (by apply (extends_trans _ st)).
    destruct (prohibitedMatches s !! f) as [p|] eqn:Hp.
    - assert (Hpv : LunrSet.valid st1 p) by (by apply (valid_extends (sets s)), (Hproh f)).
      destruct (LunrSet.union ap p st1) as [ap' st2] eqn:Hun.
      destruct (union_spec _ _ _ _ _ Hinit1 Hap1 Hpv Hun) as (Hinit2 & Hext2 & Hap' & Hc).
      exists ap', st2. split_and!; try done.
      + intros d Hd. rewrite Hc. apply orb_true_iff. by left.
      + intros a d [= <-] Hd. rewrite Hc. apply orb_true_iff. right.
        by rewrite (contains_extends _ _ _ _ Hext01 (Hproh f p Hp)).
    - exists ap, st1. split_and!; try done. apply extends_refl. }
  destruct Hstep2 as (ap' & st2 & -> & Hinit2 & Hext2 & Hap' & Hsub2 & Hnew2).
  split_and!; try done.
  - apply (extends_trans _ st); first done. by apply (extends_trans _ st1).
  - by apply (valid_extends st1).
  - intros g a d [Hg| ->%list_elem_of_singleton]%elem_of_app Ha Hd.
    + apply Hsub2. rewrite (contains_extends _ _ _ _ Hext1 Hap). by apply (Hp0 g a).
    + by apply (Hnew2 a).
  - intros g a d [Hg| ->%list_elem_of_singleton]%elem_of_app Ha Hd;
      rewrite (contains_extends _ _ _ _ Hext2 Har') in Hd.
    + apply (Hr0 g a d Hg Ha). by apply Hsub1.
    + by apply (Hnew1 a).
Qed.

Lemma update_result_refs (d : word) (sc : float) (md : MatchData.MatchData MetaValue)
    (results : list (Result MetaValue)) :
  match update_result d sc md results with
  | Some results' => ref <$> results' = ref <$> results
  | None => d ∉ ref <$> results
  end.
Proof.
  induction results as [|r results IH]; simpl; first apply not_elem_of_nil.
  destruct (decide (ref r = d)) as [Hr|Hr]; first done.
  destruct (update_result d sc md results) as [results'|]; simpl.
  - by f_equal.
  - apply not_elem_of_cons. by split.
Qed.

(** One turn of the loop over the matching field refs: the refs of the
    results stay distinct, and a new result passes the two tests. *)
Lemma score_field_refs (matching : JsObject.t (MatchData.MatchData MetaValue))
    (allRequired allProhibited : nat) (st : LunrSet.Store) (P : word -> Prop)
    (acc acc' : gmap word Vector.Vector * list (Result MetaValue)) (key : word) :
  (forall d, LunrSet.contains st allRequired d = true ->
             LunrSet.contains st allProhibited d = false -> P d) ->
  score_field idx matching allRequired allProhibited st acc key = Some acc' ->
  NoDup (ref <$> acc.2) /\ Forall P (ref <$> acc.2) ->
  NoDup (ref <$> acc'.2) /\ Forall P (ref <$> acc'.2).
Proof.
  intros HP. destruct acc as [vectors results]. unfold score_field.
  destruct (FieldRef.fromString key) as [fieldRef|]; last done. simpl.
  destruct (LunrSet.contains st allRequired _) eqn:Hr; simpl; last by intros [= <-].
  destruct (LunrSet.contains st allProhibited _) eqn:Hp; simpl; first by intros [= <-].
  destruct (JsObject.get _ (fieldVectors idx)) as [fieldVector|]; last done. simpl.
  destruct (vectors !! _) as [queryVector|]; last done. simpl.
  destruct (Vector.similarity _ _) as [[sc queryVector']|]; last done. simpl.
  destruct (JsObject.get _ matching) as [md|]; last done. simpl.
  pose proof (update_result_refs (FieldRef.docRef fieldRef) sc md results) as Hup.
  destruct (update_result _ _ _ results) as [results'|]; intros [= <-]; cbn [snd].
  - by rewrite Hup.
  - intros [Hnodup Hall]. rewrite fmap_app. simpl. split.
    + apply NoDup_app. split_and!; try done.
      * intros x Hx ->%list_elem_of_singleton. done.
      * apply NoDup_singleton.
    + apply Forall_app. split; first done. apply Forall_singleton. by apply HP.
Qed.

Lemma foldl_option_invariant {A B : Type} (I : A -> Prop) (f : A -> B -> option A)
    (l : list B) (a a' : A) :
  (forall a x a', f a x = Some a' -> I a -> I a') ->
  foldl_option f a l = Some a' -> I a -> I a'.
Proof.
  intros Hstep. revert a. induction l as [|x l IH]; intros a; simpl.
  - by intros [= <-].
  - destruct (f a x) as [a1|] eqn:Hx; last done. simpl.
    intros Hrest Ha. apply (IH a1 Hrest). by apply (Hstep a x).
Qed.

(** The results of a query: what was found before the results are
    sorted. *)
Lemma query_results (clauses : list Query.Clause) (sets0 : LunrSet.Store)
    (results : list (Result MetaValue)) :
  LunrSet.initialized sets0 ->
  query expand clause_metadata idx clauses sets0 = Some results ->
  exists s ar ap st,
    match_clauses expand clause_metadata idx clauses sets0 = Some s /\
    all_matches idx s = (ar, ap, st) /\
    NoDup (ref <$> results) /\
    forall r, r ∈ results ->
      LunrSet.contains st ar (ref r) = true /\ LunrSet.contains st ap (ref r) = false.
Proof.
  intros Hinit. unfold query, matches.
  destruct (match_clauses _ _ _ _ _) as [s|] eqn:Hs; last done. simpl.
  destruct (all_matches idx s) as [[ar ap] st] eqn:Hall.
  destruct (candidates idx clauses s) as [[refs matching]|]; last done. simpl.
  destruct (foldl_option _ _ refs) as [[vectors raw]|] eqn:Hraw; last done. simpl.
  intros [= <-]. exists s, ar, ap, st. split; first done. split; first done.
  destruct (foldl_option_invariant
              (fun acc => NoDup (ref <$> acc.2) /\
                 Forall (fun d => LunrSet.contains st ar d = true /\
                                  LunrSet.contains st ap d = false) (ref <$> acc.2))
              _ _ _ _
              (fun a x a' => score_field_refs matching ar ap st _ a a' x
                               (fun d H1 H2 => conj H1 H2))
              Hraw) as [Hnodup Hpass].
  { split; [apply NoDup_nil_2 | apply Forall_nil_2]. }
  simpl in *. split.
  - by rewrite (IndexFacts.sort_perm raw).
  - intros r Hr. rewrite Forall_forall in Hpass. apply Hpass.
    apply list_elem_of_fmap. exists r. split; first done.
    by rewrite <-(IndexFacts.sort_perm raw).
Qed.

(** [query] returns no document twice: the results have distinct refs. *)
Theorem query_returns_each_document_once (clauses : list Query.Clause)
    (sets0 : LunrSet.Store) (results : list (Result MetaValue)) :
  LunrSet.initialized sets0 ->
  query expand clause_metadata idx clauses sets0 = Some results ->
  NoDup (ref <$> results).
Proof.
  intros Hinit Hrun.
  by destruct (query_results clauses sets0 results Hinit Hrun)
    as (s & ar & ap & st & _ & _ & Hnodup & _).
Qed.

(** [query] returns no document that holds, in a field of a PROHIBITED
    clause that the index has, a term of the expansion of that clause,
    whatever the other clauses are. *)
Theorem query_leaves_out_the_prohibited_documents (clauses : list Query.Clause)
    (sets0 : LunrSet.Store) (results : list (Result MetaValue))
    (c : Query.Clause) (f d : word) :
  LunrSet.initialized sets0 ->
  query expand clause_metadata idx clauses sets0 = Some results ->
  c ∈ clauses -> Query.presence_ c = Query.PROHIBITED ->
  f ∈ Query.fields c -> f ∈ fields idx ->
  matches_in expand clause_metadata idx c f d ->
  d ∉ ref <$> results.
Proof.
  intros Hinit Hrun Hc Hp Hf Hfidx Hd.
  destruct (query_results clauses sets0 results Hinit Hrun)
    as (s & ar & ap & st & Hs & Hall & _ & Hpass).
  destruct (match_clauses_sound clauses sets0 s Hinit Hs) as [Hsound Hclauses].
  destruct (Hclauses c Hc) as [Hproh _].
  destruct (Hproh Hp f d Hf Hd) as (a & Ha & Hda).
  pose proof (all_matches_from s (fields idx) Hsound) as Hfrom.
  unfold all_matches in Hall. rewrite Hall in Hfrom.
  destruct Hfrom as (_ & _ & _ & _ & Hin & _).
  intros (r & -> & Hr)%list_elem_of_fmap.
  destruct (Hpass _ Hr) as [_ Hout].
  rewrite (Hin f a _ Hfidx Ha Hda) in Hout. done.
Qed.

(** Every document that [query] returns holds, in one of the fields of
    each REQUIRED clause, a term of the expansion of that clause, as soon
    as the clause has a field of the index. *)
Theorem query_results_hold_a_term_of_each_required_clause (clauses : list Query.Clause)
    (sets0 : LunrSet.Store) (results : list (Result MetaValue))
    (c : Query.Clause) (f : word) (r : Result MetaValue) :
  LunrSet.initialized sets0 ->
  query expand clause_metadata idx clauses sets0 = Some results ->
  c ∈ clauses -> Query.presence_ c = Query.REQUIRED ->
  f ∈ Query.fields c -> f ∈ fields idx ->
  r ∈ results ->
  exists f', f' ∈ Query.fields c /\ matches_in expand clause_metadata idx c f' (ref r).
Proof.
  intros Hinit Hrun Hc Hreq Hf Hfidx Hr.
  destruct (query_results clauses sets0 results Hinit Hrun)
    as (s & ar & ap & st & Hs & Hall & _ & Hpass).
  destruct (match_clauses_sound clauses sets0 s Hinit Hs) as [Hsound Hclauses].
  destruct (Hclauses c Hc) as [_ Hrequired].
  destruct (Hrequired Hreq f Hf) as (a & Ha & Hheld).
  pose proof (all_matches_from s (fields idx) Hsound) as Hfrom.
  unfold all_matches in Hall. rewrite Hall in Hfrom.
  destruct Hfrom as (_ & _ & _ & _ & _ & Hsub).
  destruct (Hpass _ Hr) as [Hin _].
  apply Hheld. by apply (Hsub f a).
Qed.

End Clauses.

End WithMetadata.

Lemma query_returns_each_document_once_witness :
  NoDup (ref <$> default [] (Examples.query Examples.dog_or_cat)).
Proof.
  apply (query_returns_each_document_once
           (Expand.expand 256 Examples.vocabulary_store Examples.vocabulary_root)
           Examples.no_metadata Examples.three_docs Examples.dog_or_cat LunrSet.initial).
  - apply initialized_initial.
  - by vm_compute.
Defined.

Lemma query_leaves_out_the_prohibited_documents_witness :
  w "c" ∉ ref <$> default [] (Examples.query QueryExamples.dog_not_cat).
Proof.
  apply (query_leaves_out_the_prohibited_documents
           (Expand.expand 256 Examples.vocabulary_store Examples.vocabulary_root)
           Examples.no_metadata Examples.three_docs QueryExamples.dog_not_cat LunrSet.initial
           _ (Examples.term_clause "cat" ["title"] Query.PROHIBITED) (w "title")).
  - apply initialized_initial.
  - by vm_compute.
  - apply list_elem_of_In. simpl. tauto.
  - reflexivity.
  - apply list_elem_of_In. simpl. tauto.
  - apply list_elem_of_In. simpl. tauto.
  - exists (Query.string_term (w "cat")), [w "cat"]. eexists (w "cat"), _, _.
    split; first (apply list_elem_of_In; simpl; tauto).
    split; first by vm_compute.
    split; first (apply list_elem_of_In; simpl; tauto).
    split; first by vm_compute.
    split; first by vm_compute.
    apply list_elem_of_In. simpl. tauto.
Defined.

Lemma query_results_hold_a_term_of_each_required_clause_witness :
  exists f', f' ∈ Query.fields (Examples.term_clause "cat" ["title"] Query.REQUIRED) /\
    matches_in (Expand.expand 256 Examples.vocabulary_store Examples.vocabulary_root)
      Examples.no_metadata Examples.three_docs
      (Examples.term_clause "cat" ["title"] Query.REQUIRED) f'
      (ref QueryExamples.first_of_cat_and_maybe_dog).
Proof.
  apply (query_results_hold_a_term_of_each_required_clause
           (Expand.expand 256 Examples.vocabulary_store Examples.vocabulary_root)
           Examples.no_metadata Examples.three_docs QueryExamples.cat_and_maybe_dog
           LunrSet.initial (default [] (Examples.query QueryExamples.cat_and_maybe_dog))
           _ (w "title")).
  - apply initialized_initial.
  - by vm_compute.
  - apply list_elem_of_In. simpl. tauto.
  - reflexivity.
  - apply list_elem_of_In. simpl. tauto.
  - apply list_elem_of_In. simpl. tauto.
  - apply (list_elem_of_lookup_2 _ 0). by vm_compute.
Defined.

End QueryLaws.

(** ** The keys of the builder *)

Module KeyFacts.
Import TokenSet Language Spelling.

Lemma to_uint_nonnil (n : nat) : Nat.to_uint n <> Decimal.Nil.
Proof.
  rewrite <-(DecimalNat.Unsigned.of_to n) at 1. rewrite DecimalNat.Unsigned.to_of.
  apply DecimalFacts.unorm_nonnil.
Qed.

Lemma decimal_inj (n m : nat) : decimal n = decimal m -> n = m.
Proof.
  unfold decimal. intros Heq.
  apply (f_equal string_of_list_ascii) in Heq.
  rewrite !string_of_list_ascii_of_string in Heq.
  apply (f_equal NilZero.uint_of_string) in Heq.
  rewrite !NilZero.usu in Heq by apply to_uint_nonnil.
  injection Heq as Heq. by apply DecimalNat.Unsigned.to_uint_inj.
Qed.

Lemma digits_of_uint (d : Decimal.uint) :
  Forall (fun c => is_digit c = true) (list_ascii_of_string (NilEmpty.string_of_uint d)).
Proof. induction d; simpl; by constructor. Qed.

Lemma decimal_digits (n : nat) : Forall (fun c => is_digit c = true) (decimal n).
Proof.
  unfold decimal, NilZero.string_of_uint.
  destruct (Nat.to_uint n) eqn:Hn; try (rewrite <-Hn; apply digits_of_uint).
  by repeat constructor.
Qed.

(** A run of digits and what follows it, when that does not go on with a
    digit, are determined by their concatenation. *)
Lemma digits_split (d1 d2 r1 r2 : word) :
  Forall (fun c => is_digit c = true) d1 -> Forall (fun c => is_digit c = true) d2 ->
  stops r1 -> stops r2 ->
  d1 ++ r1 = d2 ++ r2 -> d1 = d2 /\ r1 = r2.
Proof.
  revert d2. induction d1 as [|x d1 IH]; intros [|y d2] H1 H2 Hr1 Hr2; simpl.
  - done.
  - intros ->. apply Forall_cons in H2 as [Hy _]. simpl in Hr1. congruence.
  - intros <-. apply Forall_cons in H1 as [Hx _]. simpl in Hr2. congruence.
  - intros [= -> Heq]. apply Forall_cons in H1 as [_ H1]. apply Forall_cons in H2 as [_ H2].
    destruct (IH d2 H1 H2 Hr1 Hr2 Heq) as [-> ->]. done.
Qed.

Lemma blocks_stop (l : list (ascii * nat)) :
  Forall (fun e => is_digit e.1 = false) l -> stops (concat (block <$> l)).
Proof. destruct l as [|e l]; first done. by intros [He _]%Forall_cons. Qed.

(** The edges can be read off the blocks, when no label is a digit. *)
Lemma blocks_inj (l1 l2 : list (ascii * nat)) :
  Forall (fun e => is_digit e.1 = false) l1 ->
  Forall (fun e => is_digit e.1 = false) l2 ->
  concat (block <$> l1) = concat (block <$> l2) -> l1 = l2.
Proof.
  revert l2. induction l1 as [|[c1 n1] l1 IH]; intros [|[c2 n2] l2] H1 H2; simpl; try done.
  intros [= -> Heq].
  apply Forall_cons in H1 as [_ H1]. apply Forall_cons in H2 as [_ H2].
  destruct (digits_split _ _ _ _ (decimal_digits n1) (decimal_digits n2)
              (blocks_stop l1 H1) (blocks_stop l2 H2) Heq) as [Hn Hrest].
  apply decimal_inj in Hn as ->. by rewrite (IH l2 H1 H2 Hrest).
Qed.

Lemma computed_blocks (st : Store) (n : nat) :
  computed st n
  = (if final (node st n) then w "1" else w "0") ++ concat (block <$> sorted_labels st n).
Proof.
  unfold computed. generalize (if final (node st n) then w "1" else w "0").
  induction (sorted_labels st n) as [|e l IH]; intros init; simpl.
  - by rewrite app_nil_r.
  - rewrite IH. by rewrite <-(assoc_L (++)).
Qed.

Lemma toString_computed (st : Store) (n : nat) :
  _str (node st n) = None -> toString st n = computed st n.
Proof. unfold toString, computed. by intros ->. Qed.

(** Two token sets without digits among their labels have the same key
    only if they have the same [final] and the same edges. *)
Lemma computed_inj (st : Store) (a b : nat) :
  (forall c m, edges (node st a) !! c = Some m -> is_digit c = false) ->
  (forall c m, edges (node st b) !! c = Some m -> is_digit c = false) ->
  computed st a = computed st b ->
  final (node st a) = final (node st b) /\ edges (node st a) = edges (node st b).
Proof.
  intros Ha Hb. rewrite !computed_blocks.
  assert (Hlabels : forall x,
            (forall c m, edges (node st x) !! c = Some m -> is_digit c = false) ->
            Forall (fun e => is_digit e.1 = false) (sorted_labels st x)).
  { intros x Hx. apply Forall_forall. intros [c m] Hin.
    unfold sorted_labels in Hin. rewrite merge_sort_Permutation in Hin.
    apply elem_of_map_to_list in Hin. by apply (Hx c m). }
  intros Heq.
  assert (Hfinal : final (node st a) = final (node st b)).
  { by destruct (final (node st a)), (final (node st b)). }
  split; first done.
  rewrite Hfinal in Heq. apply app_inv_head in Heq.
  apply (blocks_inj _ _ (Hlabels a Ha) (Hlabels b Hb)) in Heq.
  apply map_to_list_inj.
  rewrite <-(merge_sort_Permutation label_le (map_to_list (edges (node st a)))).
  rewrite <-(merge_sort_Permutation label_le (map_to_list (edges (node st b)))).
  unfold sorted_labels, keys in Heq. by rewrite Heq.
Qed.

(** The key depends on [final] and on the edges only. *)
Lemma computed_ext (st st' : Store) (n : nat) :
  final (node st' n) = final (node st n) -> edges (node st' n) = edges (node st n) ->
  computed st' n = computed st n.
Proof.
  intros Hf He. unfold computed, sorted_labels, keys. by rewrite Hf, He.
Qed.

End KeyFacts.

(** ** fromArray on words without digits *)

Module SpellingFacts.
Import TokenSet Language StoreFacts BuildFacts Spelling KeyFacts.

Local Arguments new : simpl never.
Local Arguments set_edge : simpl never.
Local Arguments set_final : simpl never.
Local Arguments set_str : simpl never.

(** *** Strings and changes of the store *)

Lemma accepts_cons_eq (st : Store) (n : nat) (c : ascii) (s : word) :
  accepts st n (c :: s)
  = match edges (node st n) !! c with
    | Some m => accepts st m s
    | None => false
    end.
Proof. unfold accepts. simpl. by destruct (edges (node st n) !! c). Qed.

Lemma accepts_same (st : Store) (a b : nat) (s : word) :
  final (node st a) = final (node st b) -> edges (node st a) = edges (node st b) ->
  accepts st a s = accepts st b s.
Proof.
  intros Hf He. destruct s as [|c s].
  - by unfold accepts.
  - by rewrite !accepts_cons_eq, He.
Qed.

Lemma accepts_ext (st st' : Store) (n : nat) (s : word) :
  (forall x, final (node st' x) = final (node st x)) ->
  (forall x, edges (node st' x) = edges (node st x)) ->
  accepts st' n s = accepts st n s.
Proof.
  intros Hf He. unfold accepts. rewrite (walk_ext st st') by done.
  destruct (walk st n s); [apply Hf | done].
Qed.

(** The edge [c] of [p] is given a token set with the strings of the one
    it had. *)
Lemma accepts_redirect (st : Store) (p : nat) (c : ascii) (ch canonical : nat) :
  edges (node st p) !! c = Some ch ->
  (forall s, accepts st ch s = accepts st canonical s) ->
  forall s x, accepts (set_edge p c canonical st) x s = accepts st x s.
Proof.
  intros Hch Hsame. induction s as [|c' s IH]; intros x.
  - unfold accepts. simpl. apply final_set_edge.
  - rewrite !accepts_cons_eq, edges_set_edge.
    destruct (decide (p = x)) as [<-|Hne].
    + rewrite lookup_insert. destruct (decide (c = c')) as [<-|Hc].
      * by rewrite Hch, IH, Hsame.
      * destruct (edges (node st p) !! c'); [apply IH | done].
    + destruct (edges (node st x) !! c'); [apply IH | done].
Qed.

Lemma accepts_dead (st : Store) (n : nat) (s : word) :
  final (node st n) = false -> edges (node st n) = ∅ -> accepts st n s = false.
Proof.
  intros Hf He. destruct s as [|c s].
  - by unfold accepts.
  - by rewrite accepts_cons_eq, He, lookup_empty.
Qed.

Lemma accepts_set_final (st : Store) (t : nat) (x : nat) (s : word) :
  accepts (set_final t true st) x s
  = accepts st x s || bool_decide (walk st x s = Some t).
Proof.
  unfold accepts. rewrite (walk_ext st (set_final t true st))
    by (intros; apply edges_set_final).
  destruct (walk st x s) as [m|]; last done.
  rewrite final_set_final. destruct (decide (t = m)) as [->|Hne].
  - by rewrite bool_decide_true, orb_true_r.
  - rewrite bool_decide_false by congruence. by rewrite orb_false_r.
Qed.

(** A set of token sets that is closed under edges, and that a change
    leaves alone, keeps its walks. *)
Lemma walk_closed (M : nat -> Prop) (st st' : Store) (m : nat) (s : word) :
  (forall x c t, M x -> edges (node st x) !! c = Some t -> M t) ->
  (forall x, M x -> edges (node st' x) = edges (node st x)) ->
  M m ->
  walk st' m s = walk st m s /\ forall y, walk st m s = Some y -> M y.
Proof.
  intros Hclosed Hsame. revert m. induction s as [|c s IH]; intros m Hm; simpl.
  - split; first done. by intros y [= <-].
  - rewrite Hsame by done.
    destruct (edges (node st m) !! c) as [t|] eqn:Ht; last done.
    apply IH. by apply (Hclosed m c).
Qed.

(** *** The unchecked entries *)

Lemma linked_ge (root : nat) (unchecked : list (nat * ascii * nat)) (x : nat) :
  linked root unchecked -> x ∈ chain_nodes root unchecked -> root <= x.
Proof.
  revert x. induction unchecked as [|[[p c] ch] u IH]; intros x; simpl.
  - intros _ Hx. unfold chain_nodes in Hx. simpl in Hx.
    apply list_elem_of_singleton in Hx. lia.
  - intros (-> & Hlt & Hlinked) [->|Hx]%chain_nodes_cons; simpl; last by apply IH.
    specialize (IH (last_node root u) Hlinked (last_node_in root u)). lia.
Qed.

Lemma tip_ok_ext (st st' : Store) (pw : word) (depth x : nat) :
  _str (node st' x) = _str (node st x) -> edges (node st' x) = edges (node st x) ->
  tip_ok st pw depth x -> tip_ok st' pw depth x.
Proof. unfold tip_ok. by intros -> ->. Qed.

Lemma path_ok_last (st : Store) (root : nat) (pw : word)
    (unchecked : list (nat * ascii * nat)) :
  path_ok st root pw unchecked ->
  tip_ok st pw (length unchecked) (last_node root unchecked).
Proof. destruct unchecked as [|[[p c] ch] u]; by intros [? _]. Qed.

(** A change that leaves the unchecked token sets alone. *)
Lemma path_ok_ext (st st' : Store) (root : nat) (pw : word)
    (unchecked : list (nat * ascii * nat)) :
  (forall x, x ∈ chain_nodes root unchecked ->
     _str (node st' x) = _str (node st x) /\ edges (node st' x) = edges (node st x)) ->
  path_ok st root pw unchecked -> path_ok st' root pw unchecked.
Proof.
  induction unchecked as [|[[p c] ch] u IH]; intros Hsame.
  - intros [Htip _]. split; last done.
    destruct (Hsame root (last_node_in root [])). by apply (tip_ok_ext st).
  - intros [Htip (Hc & Hedge & Hrest)]. simpl in *.
    split.
    { destruct (Hsame ch) as [? ?]; first (apply chain_nodes_cons; by left).
      by apply (tip_ok_ext st). }
    split; first done. split.
    + destruct (Hsame (last_node root u)) as [_ ->]; last done.
      apply chain_nodes_cons. right. apply last_node_in.
    + apply IH; last done. intros x Hx. apply Hsame, chain_nodes_cons. by right.
Qed.

(** A change of the last unchecked token set that keeps what holds of
    it, and leaves the ones before it alone. *)
Lemma path_ok_tip (st st' : Store) (root : nat) (pw : word)
    (unchecked : list (nat * ascii * nat)) :
  linked root unchecked ->
  (forall x, x < last_node root unchecked -> node st' x = node st x) ->
  tip_ok st' pw (length unchecked) (last_node root unchecked) ->
  path_ok st root pw unchecked -> path_ok st' root pw unchecked.
Proof.
  destruct unchecked as [|[[p c] ch] u]; intros Hlinked Hsame Htip.
  - by intros _.
  - intros [_ (Hc & Hedge & Hrest)]. simpl in *.
    destruct Hlinked as (-> & Hlt & Hlinked).
    split; first done. split; first done. split.
    + by rewrite Hsame.
    + apply (path_ok_ext st); last done.
      intros x Hx. rewrite Hsame; first done.
      pose proof (linked_le root u x Hlinked Hx). lia.
Qed.

Lemma path_walk (st : Store) (root : nat) (pw : word)
    (unchecked : list (nat * ascii * nat)) :
  path_ok st root pw unchecked ->
  walk st root (take (length unchecked) pw) = Some (last_node root unchecked).
Proof.
  induction unchecked as [|[[p c] ch] u IH]; first done.
  intros [_ (Hc & Hedge & Hrest)]. simpl length.
  rewrite (take_S_r _ _ c) by done.
  apply walk_snoc_Some. exists (last_node root u). split; [by apply IH | done].
Qed.

(** *** minimize *)

Lemma minimize_step_spelt (inserted : list word) (d root : nat) (pw : word)
    (entry : nat * ascii * nat) (unchecked : list (nat * ascii * nat))
    (minimizedNodes minimizedNodes' : gmap word nat) (st st' : Store) :
  built d (Builder.mkBuilder root pw (entry :: unchecked) minimizedNodes) st ->
  spelt inserted (Builder.mkBuilder root pw (entry :: unchecked) minimizedNodes) st ->
  Builder.minimize_step entry minimizedNodes st = (minimizedNodes', st') ->
  spelt inserted (Builder.mkBuilder root pw unchecked minimizedNodes') st'.
Proof.
  destruct entry as [[p0 c] ch].
  intros (Hwf & Hlt & (-> & Hpch & Hlinked) & HM & Hchain)
         (Hlang & [[Hstr Hlabels] (Hc & Hedge & Hrest)] & Huniq & Hkeys & Hdigits).
  simpl in *.
  set (p := last_node root unchecked) in *.
  assert (Hp : p ∈ chain_nodes root unchecked) by apply last_node_in.
  assert (Hrootp : root <= p) by (by apply (linked_ge root unchecked)).
  (* the parent is no registered token set *)
  assert (Hpmin : forall key, minimizedNodes !! key <> Some p).
  { intros key Hkey. destruct (HM p) as (_ & Hnot & _); first by exists key.
    apply Hnot, chain_nodes_cons. by right. }
  (* the one string that leads to the parent *)
  assert (Hparent : forall s, walk st root s = Some p -> s = take (length unchecked) pw).
  { intros s Hs.
    assert (Hsc : walk st root (s ++ [c]) = Some ch).
    { apply walk_snoc_Some. by exists p. }
    apply Huniq in Hsc. rewrite (take_S_r _ _ c) in Hsc by done.
    by apply app_inj_tail in Hsc as [-> _]. }
  unfold Builder.minimize_step.
  rewrite (toString_computed st ch Hstr).
  destruct (minimizedNodes !! computed st ch) as [canonical|] eqn:Hkey; intros [= <- <-].
  - (* the parent is given the registered token set *)
    destruct (Hkeys _ _ Hkey) as [Hcomputed Hrootc].
    destruct (computed_inj st canonical ch) as [Hfinal Hedges]; try done.
    { intros c' m. apply Hdigits. done. }
    { intros c' m. apply Hdigits. lia. }
    assert (Hsame : forall s, accepts st ch s = accepts st canonical s).
    { intros s. by apply accepts_same. }
    assert (Hcanonical : minimized (Builder.mkBuilder root pw
                                      ((p, c, ch) :: unchecked) minimizedNodes) canonical)
      by (by exists (computed st ch)).
    assert (Hnode : forall x, x <> p ->
              node (set_edge p c canonical st) x = node st x).
    { intros x Hx. unfold set_edge. rewrite node_update. by rewrite decide_False. }
    split_and!; simpl.
    + intros s. rewrite (accepts_redirect st p c ch canonical Hedge Hsame). apply Hlang.
    + apply (path_ok_tip st); try done.
      * intros x Hx. apply Hnode. fold p in Hx. lia.
      * fold p. destruct (path_ok_last _ _ _ _ Hrest) as [Hstrp Hlabelsp].
        fold p in Hstrp, Hlabelsp. split.
        -- unfold set_edge. rewrite node_update, decide_True by done. done.
        -- intros c' m. rewrite edges_set_edge, decide_True by done.
           rewrite lookup_insert. destruct (decide (c = c')) as [<-|Hne].
           ++ intros _. by exists c.
           ++ apply Hlabelsp.
    + intros s Hs. apply Hparent.
      (* a walk to the parent does not take the edge that changed *)
      assert (Hwalk : forall s x y, walk (set_edge p c canonical st) x s = Some y ->
                walk st x s = Some y \/
                minimized (Builder.mkBuilder root pw ((p, c, ch) :: unchecked)
                             minimizedNodes) y).
      { clear s Hs. induction s as [|c' s IH]; intros x y; simpl; first by left.
        rewrite edges_set_edge. destruct (decide (p = x)) as [<-|Hne].
        - rewrite lookup_insert. destruct (decide (c = c')) as [<-|Hcc].
          + intros Hy. right.
            destruct (walk_closed
                        (minimized (Builder.mkBuilder root pw ((p, c, ch) :: unchecked)
                                      minimizedNodes))
                        st (set_edge p c canonical st) canonical s) as [Heq Hin]; try done.
            * intros x c' t Hx. by apply (HM x Hx).
            * intros x [key Hx]. rewrite edges_set_edge.
              destruct (decide (p = x)) as [<-|]; last done. by destruct (Hpmin key).
            * apply Hin. by rewrite <-Heq.
          + destruct (edges (node st p) !! c') as [m|]; [apply IH | done].
        - destruct (edges (node st x) !! c') as [m|]; [apply IH | done]. }
      destruct (Hwalk s root p Hs) as [?|[key Hmin]]; first done.
      by destruct (Hpmin key).
    + intros key m Hm. destruct (Hkeys key m Hm) as [<- Hrootm]. split; last done.
      apply computed_ext.
      * apply final_set_edge.
      * rewrite edges_set_edge. destruct (decide (p = m)) as [<-|]; last done.
        by destruct (Hpmin (computed st p)).
    + intros n c' m Hn. rewrite edges_set_edge.
      destruct (decide (p = n)) as [<-|Hne]; last by apply Hdigits.
      rewrite lookup_insert. destruct (decide (c = c')) as [<-|Hcc].
      * intros _. by apply (Hdigits p c ch).
      * by apply Hdigits.
  - (* the child is registered *)
    assert (Hnode : forall x, x <> ch ->
              node (set_str ch (computed st ch) st) x = node st x).
    { intros x Hx. unfold set_str. rewrite node_update. by rewrite decide_False. }
    assert (Hf : forall x, final (node (set_str ch (computed st ch) st) x) = final (node st x))
      by (intros; apply final_set_str).
    assert (He : forall x, edges (node (set_str ch (computed st ch) st) x) = edges (node st x))
      by (intros; apply edges_set_str).
    split_and!; simpl.
    + intros s. rewrite (accepts_ext st) by done. apply Hlang.
    + apply (path_ok_ext st); last done.
      intros x Hx. rewrite Hnode; first done.
      pose proof (linked_le root unchecked x Hlinked Hx) as Hle. fold p in Hle. lia.
    + intros s. rewrite (walk_ext st) by done. apply Hparent.
    + intros key m [[<- <-]|[_ Hm]]%lookup_insert_Some.
      * split; [by apply computed_ext | lia].
      * destruct (Hkeys key m Hm) as [<- Hrootm]. split; last done. by apply computed_ext.
    + intros n c' m Hn. rewrite He. by apply Hdigits.
Qed.

Lemma minimize_loop_spelt (inserted : list word) (downTo root : nat) (pw : word)
    (unchecked : list (nat * ascii * nat)) :
  forall (d : nat) (minimizedNodes : gmap word nat) (st : Store),
    built d (Builder.mkBuilder root pw unchecked minimizedNodes) st ->
    spelt inserted (Builder.mkBuilder root pw unchecked minimizedNodes) st ->
    exists d' unchecked' minimizedNodes' st',
      Builder.minimize_loop downTo unchecked minimizedNodes st
      = (unchecked', minimizedNodes', st') /\
      built d' (Builder.mkBuilder root pw unchecked' minimizedNodes') st' /\
      spelt inserted (Builder.mkBuilder root pw unchecked' minimizedNodes') st' /\
      length unchecked' = downTo `min` length unchecked.
Proof.
  induction unchecked as [|entry unchecked IH]; intros d minimizedNodes st Hbuilt Hspelt.
  - exists d, [], minimizedNodes, st. simpl. split_and!; try done. lia.
  - cbn [Builder.minimize_loop].
    destruct (decide (downTo < length (entry :: unchecked))) as [Hlt|Hge].
    + destruct (Builder.minimize_step entry minimizedNodes st)
        as [minimizedNodes1 st1] eqn:Hstep.
      pose proof (minimize_step_built _ _ _ _ _ _ _ _ _ Hbuilt Hstep) as Hbuilt1.
      pose proof (minimize_step_spelt _ _ _ _ _ _ _ _ _ _ Hbuilt Hspelt Hstep) as Hspelt1.
      destruct (IH _ _ _ Hbuilt1 Hspelt1) as (d' & u' & m' & st' & -> & Hb & Hs & Hlen).
      exists d', u', m', st'. split_and!; try done. simpl in Hlt. simpl. lia.
    + exists d, (entry :: unchecked), minimizedNodes, st. split_and!; try done. lia.
Qed.

(** *** The common prefix *)

Lemma commonPrefix_le (a b : word) :
  Builder.commonPrefix a b <= length a /\ Builder.commonPrefix a b <= length b.
Proof.
  revert b. induction a as [|x a IH]; intros [|y b]; simpl; try lia.
  destruct (decide (x = y)); simpl; last lia. destruct (IH b). lia.
Qed.

Lemma commonPrefix_take (a b : word) :
  take (Builder.commonPrefix a b) a = take (Builder.commonPrefix a b) b.
Proof.
  revert b. induction a as [|x a IH]; intros [|y b]; simpl; try done.
  destruct (decide (x = y)) as [->|]; simpl; last done. by rewrite IH.
Qed.

Lemma commonPrefix_lookup (a b : word) (i : nat) :
  i < Builder.commonPrefix a b -> a !! i = b !! i.
Proof.
  intros Hi.
  rewrite <-(lookup_take_lt a (Builder.commonPrefix a b) i) by done.
  rewrite <-(lookup_take_lt b (Builder.commonPrefix a b) i) by done.
  by rewrite commonPrefix_take.
Qed.

(** Where a word that is not less than the one before it leaves their
    common prefix, its character is the greater one. *)
Lemma commonPrefix_order (a b : word) (y : ascii) :
  word_ltb a b = false -> b !! Builder.commonPrefix a b = Some y ->
  exists x, a !! Builder.commonPrefix a b = Some x /\ nat_of_ascii y < nat_of_ascii x.
Proof.
  revert b. induction a as [|x a IH]; intros [|z b]; simpl; try done.
  destruct (decide (x = z)) as [->|Hne]; simpl.
  - rewrite Nat.ltb_irrefl. apply IH.
  - intros Hord [= ->]. exists x. split; first done.
    destruct (Nat.ltb_spec (nat_of_ascii x) (nat_of_ascii y)); first done.
    destruct (Nat.ltb_spec (nat_of_ascii y) (nat_of_ascii x)); first done.
    destruct Hne. rewrite <-(ascii_nat_embedding x), <-(ascii_nat_embedding y).
    f_equal. lia.
Qed.

(** *** A new token set at the end of the unchecked entries *)

Section Leaf.
Variables (st : Store) (t : nat) (c : ascii).
Hypothesis Hwf : wf st.
Hypothesis Ht : t < _nextId st.
Hypothesis Hnone : edges (node st t) !! c = None.

(** The store after [nextNode = new TokenSet; node.edges[char] = nextNode]. *)
Local Abbreviation st2 := (set_edge t c (_nextId st) (new st).2).

Lemma leaf_node (x : nat) : x <> t -> x <> _nextId st -> node st2 x = node st x.
Proof using Type.
  intros Hxt Hx. unfold set_edge. rewrite node_update, decide_False by done.
  by rewrite node_new, decide_False.
Qed.

Lemma leaf_edges_t : edges (node st2 t) = <[c := _nextId st]> (edges (node st t)).
Proof using Ht.
  rewrite edges_set_edge, decide_True, edges_new by done.
  by rewrite decide_False by lia.
Qed.

Lemma leaf_edges_new : edges (node st2 (_nextId st)) = ∅.
Proof using Ht.
  rewrite edges_set_edge, decide_False by lia. by rewrite edges_new, decide_True.
Qed.

Lemma leaf_final (x : nat) : x <> _nextId st -> final (node st2 x) = final (node st x).
Proof using Type. intros Hx. by rewrite final_set_edge, final_new, decide_False. Qed.

Lemma leaf_final_new : final (node st2 (_nextId st)) = false.
Proof using Type. by rewrite final_set_edge, final_new, decide_True. Qed.

Lemma leaf_str (x : nat) : x <> _nextId st -> _str (node st2 x) = _str (node st x).
Proof using Type.
  intros Hx. unfold set_edge. rewrite node_update.
  destruct (decide (t = x)) as [<-|]; cbn [_str]; by rewrite node_new, decide_False.
Qed.

Lemma leaf_str_new : _str (node st2 (_nextId st)) = None.
Proof using Ht.
  unfold set_edge. rewrite node_update, decide_False by lia.
  by rewrite node_new, decide_True.
Qed.

(** The token sets that existed keep their strings. *)
Lemma accepts_leaf (s : word) (x : nat) :
  x <> _nextId st -> accepts st2 x s = accepts st x s.
Proof using All.
  revert x. induction s as [|c' s IH]; intros x Hx.
  - unfold accepts. simpl. by apply leaf_final.
  - rewrite !accepts_cons_eq.
    destruct (decide (x = t)) as [->|Hxt].
    + rewrite leaf_edges_t, lookup_insert. destruct (decide (c = c')) as [<-|Hc].
      * rewrite Hnone. apply accepts_dead; [apply leaf_final_new | apply leaf_edges_new].
      * destruct (edges (node st t) !! c') as [m|] eqn:Hm; last done.
        apply IH. destruct (Hwf t c' m Hm). lia.
    + rewrite leaf_node by done.
      destruct (edges (node st x) !! c') as [m|] eqn:Hm; last done.
      apply IH. destruct (Hwf x c' m Hm). lia.
Qed.

(** A walk to the new token set comes over the new edge. *)
Lemma walk_leaf (s : word) (x y : nat) :
  x <> _nextId st -> walk st2 x s = Some y ->
  (y <> _nextId st /\ walk st x s = Some y) \/
  (y = _nextId st /\ exists s1, s = s1 ++ [c] /\ walk st x s1 = Some t).
Proof using All.
  intros Hx. revert y. induction s as [|c' s IH] using rev_ind; intros y.
  - intros [= <-]. by left.
  - intros (z & Hz & Hy)%walk_snoc_Some.
    destruct (IH z Hz) as [[Hzn Hz']|[-> _]]; last by rewrite leaf_edges_new in Hy.
    destruct (decide (z = t)) as [->|Hzt].
    + rewrite leaf_edges_t, lookup_insert in Hy. destruct (decide (c = c')) as [<-|Hc].
      * injection Hy as <-. right. split; first done. by exists s.
      * left. destruct (Hwf t c' y Hy). split; first lia.
        apply walk_snoc_Some. by exists t.
    + rewrite leaf_node in Hy by done. left. destruct (Hwf z c' y Hy).
      split; first lia. apply walk_snoc_Some. by exists z.
Qed.

End Leaf.

Lemma drop_cons_inv {A : Type} (l : list A) (n : nat) (x : A) (l' : list A) :
  drop n l = x :: l' -> l !! n = Some x /\ drop (S n) l = l'.
Proof.
  revert n. induction l as [|y l IH]; intros [|n]; simpl; try done.
  - intros [= -> ->]. split; [done | by rewrite drop_0].
  - apply IH.
Qed.

(** *** The loop of insert that adds the rest of the word *)

Lemma extend_spelt (inserted : list word) (root : nat) (pw w : word)
    (minimizedNodes : gmap word nat) (chars : word) :
  forall (d : nat) (unchecked : list (nat * ascii * nat)) (st : Store),
    built d (Builder.mkBuilder root pw unchecked minimizedNodes) st ->
    spelt inserted (Builder.mkBuilder root w unchecked minimizedNodes) st ->
    chars = drop (length unchecked) w ->
    digit_free chars = true ->
    (forall c chars', chars = c :: chars' ->
       edges (node st (last_node root unchecked)) !! c = None) ->
    exists n' unchecked' st',
      Builder.extend chars (last_node root unchecked) unchecked st = (n', unchecked', st') /\
      built d (Builder.mkBuilder root pw unchecked' minimizedNodes) st' /\
      spelt inserted (Builder.mkBuilder root w unchecked' minimizedNodes) st' /\
      n' = last_node root unchecked' /\
      length w <= length unchecked' /\
      _nextId st <= _nextId st'.
Proof.
  induction chars as [|c chars IH]; intros d unchecked st Hbuilt Hspelt Hchars Hfree Hnone.
  { exists (last_node root unchecked), unchecked, st. split_and!; try done.
    symmetry in Hchars. apply drop_nil_inv in Hchars. lia. }
  symmetry in Hchars. apply drop_cons_inv in Hchars as [Hc Hrest].
  simpl in Hfree. apply andb_prop in Hfree as [Hcfree Hfree].
  apply negb_true_iff in Hcfree.
  set (t := last_node root unchecked) in *.
  set (st2 := set_edge t c (_nextId st) (new st).2).
  (* the builder after one turn of the loop *)
  destruct (extend_built root pw minimizedNodes [c] d t unchecked st Hbuilt eq_refl)
    as (n1 & u1 & st1 & Hone & Hbuilt2 & _).
  cbn [Builder.extend] in Hone. rewrite (surjective_pairing (new st)), new_fst in Hone.
  injection Hone as <- <- <-. fold st2 in Hbuilt2.
  pose proof Hbuilt as (Hwf & Hlt & Hlinked & HM & Hchain). simpl in Hlt, Hlinked, HM, Hchain.
  destruct Hspelt as (Hlang & Hpath & Huniq & Hkeys & Hdigits). simpl in *.
  assert (Ht : t < _nextId st).
  { rewrite Forall_forall in Hlt. apply Hlt, last_node_in. }
  assert (Hroot : root < _nextId st).
  { rewrite Forall_forall in Hlt. apply Hlt. by left. }
  assert (Hroott : root <= t) by (apply (linked_ge root unchecked); [done | apply last_node_in]).
  specialize (Hnone c chars eq_refl).
  assert (Hspelt2 : spelt inserted (Builder.mkBuilder root w ((t, c, _nextId st) :: unchecked)
                                     minimizedNodes) st2).
  { split_and!; simpl.
    - intros s. unfold st2. rewrite accepts_leaf by (done || lia). apply Hlang.
    - split_and!.
      + split; first by apply leaf_str_new.
        intros c' m. unfold st2. by rewrite leaf_edges_new.
      + done.
      + fold t. unfold st2. by rewrite leaf_edges_t, lookup_insert_eq.
      + apply (path_ok_tip st); try done.
        * intros x Hx. fold t in Hx. apply leaf_node; lia.
        * fold t. destruct (path_ok_last _ _ _ _ Hpath) as [Hstr Hlabels].
          fold t in Hstr, Hlabels. split.
          -- unfold st2. rewrite leaf_str by lia. done.
          -- intros c' m. unfold st2. rewrite leaf_edges_t by done.
             rewrite lookup_insert. destruct (decide (c = c')) as [<-|Hne].
             ++ intros _. by exists c.
             ++ apply Hlabels.
    - intros s Hs.
      destruct (walk_leaf st t c Hwf Ht Hnone s root (_nextId st) ltac:(lia) Hs)
        as [[? _]|[_ (s1 & -> & Hs1)]]; first done.
      rewrite (take_S_r _ _ c) by done. f_equal. by apply Huniq.
    - intros key m Hm.
      destruct (HM m) as (Hmlt & Hmchain & _); first by exists key.
      destruct (Hkeys key m Hm) as [<- Hrootm]. split; last done.
      assert (m <> t).
      { intros ->. apply Hmchain, last_node_in. }
      apply computed_ext.
      + apply leaf_final. lia.
      + unfold st2. rewrite leaf_node by (done || lia). done.
    - intros n c' m Hn. destruct (decide (n = t)) as [->|Hnt].
      + unfold st2. rewrite leaf_edges_t by done. rewrite lookup_insert.
        destruct (decide (c = c')) as [<-|Hne]; first done. by apply Hdigits.
      + destruct (decide (n = _nextId st)) as [->|Hnn].
        * unfold st2. by rewrite leaf_edges_new.
        * unfold st2. rewrite leaf_node by done. by apply Hdigits. }
  destruct (IH d ((t, c, _nextId st) :: unchecked) st2 Hbuilt2 Hspelt2)
    as (n' & u' & st' & Hrun & Hbuilt' & Hspelt' & Hn' & Hlen & Hnext); try done.
  { intros c' chars' _. simpl. unfold st2. by rewrite leaf_edges_new. }
  exists n', u', st'. split; first exact Hrun.
  split_and!; try done.
  unfold st2 in Hnext. simpl in Hnext. lia.
Qed.

(** *** insert *)

Lemma path_ok_length (st : Store) (root : nat) (pw : word)
    (unchecked : list (nat * ascii * nat)) :
  path_ok st root pw unchecked -> length unchecked <= length pw.
Proof.
  destruct unchecked as [|[[p c] ch] u]; simpl; first lia.
  intros [_ (Hc & _)]. apply lookup_lt_Some in Hc. lia.
Qed.

(** Two words that agree up to the depth of the last unchecked token
    set. *)
Lemma path_ok_agree (st : Store) (root : nat) (pw w : word)
    (unchecked : list (nat * ascii * nat)) :
  (forall i, i <= length unchecked -> pw !! i = w !! i) ->
  path_ok st root pw unchecked -> path_ok st root w unchecked.
Proof.
  induction unchecked as [|[[p c] ch] u IH]; intros Hsame.
  - intros [Htip _]. split; last done.
    unfold tip_ok in *. by rewrite <-Hsame.
  - intros [Htip (Hc & Hedge & Hrest)]. simpl in *. split.
    { unfold tip_ok in *. by rewrite <-Hsame. }
    split; first (rewrite <-Hsame; [done | lia]).
    split; first done.
    apply IH; last done. intros i Hi. apply Hsame. lia.
Qed.

(** The unchecked entries that [minimize] leaves spell a prefix of the
    next word as well, and the labels of the last one are less than the
    character that the word goes on with. *)
Lemma path_ok_reword (st : Store) (root : nat) (pw w : word)
    (unchecked : list (nat * ascii * nat)) :
  word_ltb w pw = false ->
  length unchecked = Builder.commonPrefix w pw ->
  path_ok st root pw unchecked ->
  path_ok st root w unchecked /\
  forall c m, edges (node st (last_node root unchecked)) !! c = Some m ->
    exists a, w !! length unchecked = Some a /\ nat_of_ascii c < nat_of_ascii a.
Proof.
  intros Hord Hlen Hpath.
  assert (Hless : forall c m, edges (node st (last_node root unchecked)) !! c = Some m ->
            exists a, w !! length unchecked = Some a /\ nat_of_ascii c < nat_of_ascii a).
  { intros c m Hm. destruct (path_ok_last _ _ _ _ Hpath) as [_ Hlabels].
    destruct (Hlabels c m Hm) as (y & Hy & Hcy). rewrite Hlen in Hy.
    destruct (commonPrefix_order w pw y Hord Hy) as (x & Hx & Hyx).
    exists x. rewrite Hlen. split; [done | lia]. }
  split; last done.
  assert (Htip : tip_ok st w (length unchecked) (last_node root unchecked)).
  { destruct (path_ok_last _ _ _ _ Hpath) as [Hstr _]. split; first done.
    intros c m Hm. destruct (Hless c m Hm) as (a & Ha & Hca). exists a. split; [done | lia]. }
  destruct unchecked as [|[[p c] ch] u]; first done.
  destruct Hpath as [_ (Hc & Hedge & Hrest)]. simpl in Hlen.
  split; first done. split.
  { rewrite (commonPrefix_lookup w pw); [done | lia]. }
  split; first done.
  apply (path_ok_agree st root pw); last done.
  intros i Hi. symmetry. apply commonPrefix_lookup. lia.
Qed.

Lemma str_set_final (n : nat) (b : bool) (st : Store) (m : nat) :
  _str (node (set_final n b st) m) = _str (node st m).
Proof. unfold set_final. rewrite node_update. by destruct (decide (n = m)) as [->|]. Qed.

(** [node.final = true] at the end of [insert]. *)
Lemma final_spelt (inserted : list word) (d root : nat) (pw w : word)
    (unchecked : list (nat * ascii * nat)) (minimizedNodes : gmap word nat) (st : Store) :
  built d (Builder.mkBuilder root pw unchecked minimizedNodes) st ->
  spelt inserted (Builder.mkBuilder root w unchecked minimizedNodes) st ->
  length w <= length unchecked ->
  spelt (inserted ++ [w]) (Builder.mkBuilder root w unchecked minimizedNodes)
        (set_final (last_node root unchecked) true st).
Proof.
  intros (Hwf & Hlt & Hlinked & HM & Hchain) (Hlang & Hpath & Huniq & Hkeys & Hdigits) Hlen.
  simpl in *.
  set (t := last_node root unchecked) in *.
  assert (Hw : take (length unchecked) w = w) by (by apply take_ge).
  split_and!; simpl.
  - intros s. rewrite accepts_set_final, orb_true_iff, Hlang, elem_of_app.
    rewrite list_elem_of_singleton, bool_decide_eq_true.
    split; (intros [?|Hs]; [by left | right]).
    + rewrite <-Hw. by apply Huniq.
    + subst s. rewrite <-Hw at 1. by apply path_walk.
  - apply (path_ok_ext st); last done.
    intros x _. by rewrite str_set_final, edges_set_final.
  - intros s. rewrite (walk_ext st) by (intros; apply edges_set_final). apply Huniq.
  - intros key m Hm. destruct (Hkeys key m Hm) as [<- Hrootm]. split; last done.
    apply computed_ext; last apply edges_set_final.
    rewrite final_set_final. destruct (decide (t = m)) as [<-|]; last done.
    destruct (HM t) as (_ & Hnot & _); first by exists (computed st t).
    destruct Hnot. apply last_node_in.
  - intros n c m Hn. rewrite edges_set_final. by apply Hdigits.
Qed.

Lemma digit_free_drop (n : nat) (s : word) :
  digit_free s = true -> digit_free (drop n s) = true.
Proof.
  unfold digit_free. rewrite !forallb_forall. intros Hs c Hc. apply Hs.
  apply list_elem_of_In. apply list_elem_of_In in Hc.
  by apply (subseteq_drop n s).
Qed.

Lemma insert_spelt (inserted : list word) (d : nat) (w : word) (b : Builder.Builder)
    (st : Store) :
  built d b st -> spelt inserted b st ->
  length (Builder.uncheckedNodes b) = length (Builder.previousWord b) ->
  word_ltb w (Builder.previousWord b) = false -> digit_free w = true ->
  exists d' b' st',
    Builder.insert w b st = inr (b', st') /\
    built d' b' st' /\ spelt (inserted ++ [w]) b' st' /\
    length (Builder.uncheckedNodes b') = length (Builder.previousWord b') /\
    Builder.previousWord b' = w /\
    Builder.root b' = Builder.root b.
Proof.
  intros Hbuilt Hspelt Hlen Hord Hfree. unfold Builder.insert, Builder.minimize. rewrite Hord.
  destruct b as [root pw unchecked minimizedNodes]. simpl in *.
  destruct (minimize_loop_spelt inserted (Builder.commonPrefix w pw) root pw unchecked
              d minimizedNodes st Hbuilt Hspelt)
    as (d1 & u1 & m1 & st1 & -> & Hbuilt1 & Hspelt1 & Hlen1).
  simpl.
  assert (Hcp : length u1 = Builder.commonPrefix w pw).
  { destruct (commonPrefix_le w pw). lia. }
  destruct Hspelt1 as (Hlang & Hpath & Huniq & Hkeys & Hdigits). simpl in *.
  destruct (path_ok_reword st1 root pw w u1 Hord Hcp Hpath) as [Hpathw Hless].
  assert (Hspeltw : spelt inserted (Builder.mkBuilder root w u1 m1) st1).
  { split_and!; simpl; try done.
    intros s Hs. rewrite (Huniq s Hs), Hcp. symmetry. apply commonPrefix_take. }
  destruct (extend_spelt inserted root pw w m1 (drop (Builder.commonPrefix w pw) w)
              d1 u1 st1 Hbuilt1 Hspeltw)
    as (n' & u2 & st2 & Hextend & Hbuilt2 & Hspelt2 & -> & Hlen2 & _).
  { by rewrite Hcp. }
  { by apply digit_free_drop. }
  { intros c chars' Hchars. apply drop_cons_inv in Hchars as [Hc _].
    destruct (edges (node st1 (last_node root u1)) !! c) as [m|] eqn:Hm; last done.
    destruct (Hless c m Hm) as (a & Ha & Hca). rewrite Hcp in Ha. simplify_eq. lia. }
  unfold last_node in Hextend. rewrite Hextend.
  exists d1, (Builder.mkBuilder root w u2 m1), (set_final (last_node root u2) true st2).
  split; first done.
  pose proof (final_spelt inserted d1 root pw w u2 m1 st2 Hbuilt2 Hspelt2 Hlen2) as Hspelt3.
  split_and!; try done.
  - apply (built_ext _ _ st2); [intros x; apply edges_set_final | done | done].
  - simpl. destruct Hspelt2 as (_ & Hpath2 & _). apply path_ok_length in Hpath2.
    simpl in Hpath2. lia.
Qed.

(** *** fromArray *)

Lemma insert_all_spelt (arr : list word) :
  forall (inserted : list word) (d : nat) (b : Builder.Builder) (st : Store),
    built d b st -> spelt inserted b st ->
    length (Builder.uncheckedNodes b) = length (Builder.previousWord b) ->
    ascending (Builder.previousWord b) arr = true ->
    forallb digit_free arr = true ->
    exists d' b' st',
      insert_all arr b st = inr (b', st') /\
      built d' b' st' /\ spelt (inserted ++ arr) b' st' /\
      Builder.root b' = Builder.root b.
Proof.
  induction arr as [|x arr IH]; intros inserted d b st Hbuilt Hspelt Hlen Hord Hfree; simpl.
  - exists d, b, st. by rewrite app_nil_r.
  - simpl in Hord, Hfree. apply andb_prop in Hord as [Hx Harr].
    apply negb_true_iff in Hx. apply andb_prop in Hfree as [Hxfree Hfree].
    destruct (insert_spelt inserted d x b st Hbuilt Hspelt Hlen Hx Hxfree)
      as (d1 & b1 & st1 & -> & Hbuilt1 & Hspelt1 & Hlen1 & Hprev & Hroot).
    rewrite <-Hprev in Harr.
    destruct (IH (inserted ++ [x]) d1 b1 st1 Hbuilt1 Hspelt1 Hlen1 Harr Hfree)
      as (d' & b' & st' & -> & Hbuilt' & Hspelt' & Hroot').
    exists d', b', st'. rewrite <-(assoc_L (++)) in Hspelt'.
    split_and!; try done. congruence.
Qed.

(** The builder that [new TokenSet.Builder] makes. *)
Lemma new_spelt (st : Store) :
  wf st -> spelt [] (Builder.mkBuilder (_nextId st) [] [] ∅) (new st).2.
Proof.
  intros Hwf.
  assert (Hedges : edges (node (new st).2 (_nextId st)) = ∅)
    by (by rewrite edges_new, decide_True).
  assert (Hfinal : final (node (new st).2 (_nextId st)) = false)
    by (by rewrite final_new, decide_True).
  assert (Hstr : _str (node (new st).2 (_nextId st)) = None)
    by (by rewrite node_new, decide_True).
  split_and!; cbn [Builder.root Builder.previousWord Builder.uncheckedNodes
                   Builder.minimizedNodes length last_node path_ok].
  - intros s. rewrite (accepts_dead _ _ s) by done.
    split; [done | by intros ?%elem_of_nil].
  - split; last done. split; first done.
    intros c m. by rewrite Hedges, lookup_empty.
  - intros [|c s]; cbn [walk]; first done. by rewrite Hedges, lookup_empty.
  - intros key m. by rewrite lookup_empty.
  - intros n c m Hn. rewrite edges_new.
    destruct (decide (_nextId st = n)) as [|Hne]; first by rewrite lookup_empty.
    intros Hm. destruct (Hwf n c m Hm). lia.
Qed.

(** [TokenSet.fromArray(arr)] on a sorted array of words without digits
    returns a token set without cycles that has the words of [arr] and no
    other string. *)
Lemma fromArray_spelt (arr : list word) (st : Store) :
  wf st -> ascending [] arr = true -> forallb digit_free arr = true ->
  exists st' d,
    fromArray arr st = inr (_nextId st, st') /\
    bounded st' d (_nextId st) /\
    forall s, accepts st' (_nextId st) s = true <-> s ∈ arr.
Proof.
  intros Hwf Hord Hfree. unfold fromArray, Builder.new, Builder.finish, Builder.minimize.
  rewrite (surjective_pairing (new st)), new_fst.
  assert (Hbuilt : built 0 (Builder.mkBuilder (_nextId st) [] [] ∅) (new st).2).
  { refine (conj _ (conj _ (conj _ (conj _ _)))).
    - intros n c m. rewrite edges_new, nextId_new. destruct (decide (_nextId st = n)).
      + by rewrite lookup_empty.
      + intros Hm. specialize (Hwf _ _ _ Hm). lia.
    - repeat constructor.
    - done.
    - intros m [key Hkey]. simpl in Hkey. by rewrite lookup_empty in Hkey.
    - intros x c t ->%list_elem_of_singleton.
      by rewrite edges_new, decide_True, lookup_empty. }
  destruct (insert_all_spelt arr [] 0 _ _ Hbuilt (new_spelt st Hwf) eq_refl Hord Hfree)
    as (d1 & [root previous unchecked minimizedNodes] & st1 & -> & Hbuilt1 & Hspelt1 & Hroot).
  simpl in Hroot. subst root.
  destruct (minimize_loop_spelt arr 0 (_nextId st) previous unchecked d1 minimizedNodes st1
              Hbuilt1 Hspelt1)
    as (d2 & u2 & m2 & st2 & Hloop & Hbuilt2 & Hspelt2 & Hlen).
  simpl. rewrite Hloop. simpl.
  destruct u2 as [|? ?]; last (simpl in Hlen; lia).
  destruct Hbuilt2 as (Hwf2 & Hlt2 & _ & HM2 & Hchain2).
  destruct Hspelt2 as (Hlang & _). simpl in *.
  exists st2, (S d2). split_and!; try done.
  simpl. intros c t Ht.
  destruct (Hchain2 (_nextId st) c t) as [Hmin|Hin]; try done.
  - by left.
  - by apply HM2.
  - by apply elem_of_nil in Hin.
Qed.

End SpellingFacts.

(** ** The strings of the token set that fromArray builds *)

Module FromArrayLaws.
Import TokenSet Language Spelling.

(** [TokenSet.fromArray(arr)], for an array in ascending order whose words
    hold no digit, returns a token set whose [toArray()] returns and holds
    the words of [arr] and no other string: sharing the token sets with
    equal keys neither loses a word nor adds one. *)
Theorem fromArray_holds_the_words_of_the_array_and_no_other (arr : list word) (st : Store) :
  wf st -> ascending [] arr = true -> forallb digit_free arr = true ->
  exists st' k words,
    fromArray arr st = inr (_nextId st, st') /\
    (forall fuel, k <= fuel -> toArray fuel st' (_nextId st) = Some words) /\
    forall s, s ∈ words <-> s ∈ arr.
Proof.
  intros Hwf Hord Hfree.
  destruct (SpellingFacts.fromArray_spelt arr st Hwf Hord Hfree) as (st' & d & Hrun & Hd & Hlang).
  destruct (ToArrayFacts.toArray_returns st' d (_nextId st) Hd) as (k & words & Hwords & Hin).
  exists st', k, words. split_and!; try done.
  intros s. by rewrite Hin, Hlang.
Qed.

Lemma fromArray_holds_the_words_witness :
  exists st' k words,
    fromArray [w "cat"; w "cow"; w "dog"] initial = inr (_nextId initial, st') /\
    (forall fuel, k <= fuel -> toArray fuel st' (_nextId initial) = Some words) /\
    forall s, s ∈ words <-> s ∈ [w "cat"; w "cow"; w "dog"].
Proof.
  apply fromArray_holds_the_words_of_the_array_and_no_other.
  - apply TokenSetLaws.allocated_wf. by vm_compute.
  - by vm_compute.
  - by vm_compute.
Defined.

End FromArrayLaws.

(** ** The keys that toString gives *)

Module ToStringLaws.
Import TokenSet Language Spelling.

(** [a.toString()] and [b.toString()], for two token sets whose key is
    not cached yet and whose labels are no digits, are the same string
    exactly when [a] and [b] have the same [final] and the same edges,
    label by label to the same token set. *)
Theorem toString_is_the_same_for_the_same_final_and_edges_only (st : Store) (a b : nat) :
  _str (node st a) = None -> _str (node st b) = None ->
  plain_labels st a = true -> plain_labels st b = true ->
  toString st a = toString st b <->
  final (node st a) = final (node st b) /\ edges (node st a) = edges (node st b).
Proof.
  intros Ha Hb Hpa Hpb.
  rewrite !KeyFacts.toString_computed by done.
  assert (Hplain : forall x, plain_labels st x = true ->
            forall c m, edges (node st x) !! c = Some m -> is_digit c = false).
  { intros x Hx c m Hm. unfold plain_labels in Hx. rewrite forallb_forall in Hx.
    apply negb_true_iff, (Hx (c, m)), list_elem_of_In. by apply elem_of_map_to_list. }
  split.
  - apply KeyFacts.computed_inj; by apply Hplain.
  - intros [Hf He]. unfold computed, sorted_labels, keys. by rewrite Hf, He.
Qed.

Lemma toString_is_the_same_witness :
  toString twins 1 = toString twins 2 <->
  final (node twins 1) = final (node twins 2) /\ edges (node twins 1) = edges (node twins 2).
Proof.
  apply toString_is_the_same_for_the_same_final_and_edges_only; reflexivity.
Defined.

End ToStringLaws.

(** ** lunr.tokenizer *)

Module TokenizerLaws.
Import Tokenizer.

Section WithSeparator.
Context {Prim : Type}.
Variable separator : ascii -> bool.

Local Abbreviation kept := (fun c : ascii => separator c = false).

(** *** clone *)

Lemma clone_loop_cloneable (entries : JsObject.t (value Prim)) :
  forall copy,
    if cloneable (Some entries) then is_Some (clone_loop entries copy)
    else clone_loop entries copy = None.
Proof.
  induction entries as [|[k v] entries IH]; intros copy; first by eexists.
  destruct v; try apply IH. simpl. done.
Qed.

Lemma clone_accepts (obj : option (JsObject.t (value Prim))) :
  cloneable obj = true -> is_Some (clone obj).
Proof.
  destruct obj as [o|]; last by eexists.
  intros Hflat. pose proof (clone_loop_cloneable o []) as Hloop. rewrite Hflat in Hloop.
  destruct Hloop as [copy Hcopy]. unfold clone. rewrite Hcopy. by eexists.
Qed.

Lemma clone_refuses (obj : option (JsObject.t (value Prim))) :
  cloneable obj = false -> clone obj = None.
Proof.
  destruct obj as [o|]; last done.
  intros Hflat. pose proof (clone_loop_cloneable o []) as Hloop. rewrite Hflat in Hloop.
  unfold clone. by rewrite Hloop.
Qed.

(** *** slice *)

Lemma slice_length (str : word) (a b : nat) :
  b <= length str -> length (slice str a b) = b - a.
Proof. intros Hb. unfold slice. rewrite length_take, length_drop. lia. Qed.

Lemma slice_snoc (str : word) (a i : nat) (c : ascii) :
  a <= i -> str !! i = Some c -> slice str a (S i) = slice str a i ++ [c].
Proof.
  intros Hai Hc. unfold slice. replace (S i - a) with (S (i - a)) by lia.
  apply take_S_r. rewrite lookup_drop. by replace (a + (i - a)) with i by lia.
Qed.

Lemma slice_empty (str : word) (a : nat) : slice str a a = [].
Proof. unfold slice. by rewrite Nat.sub_diag. Qed.

Lemma slice_kept (str : word) (a b : nat) :
  (forall j, a <= j < b -> exists c, str !! j = Some c /\ separator c = false) ->
  Forall kept (slice str a b).
Proof.
  intros Hrun. apply Forall_forall. intros x Hx.
  apply list_elem_of_lookup in Hx as [j Hj]. unfold slice in Hj.
  apply lookup_take_Some in Hj as [Hj Hlt]. rewrite lookup_drop in Hj.
  destruct (Hrun (a + j)) as (c & Hc & Hsep); first lia. congruence.
Qed.

(** A character that is skipped. *)
Lemma filter_take_skip (str : word) (i : nat) :
  matches_separator separator (str !! i) || bool_decide (i = length str) = true ->
  i <= length str ->
  filter kept (take (S i) str) = filter kept (take i str).
Proof.
  intros Hcond Hi. destruct (str !! i) as [c|] eqn:Hc.
  - rewrite (take_S_r _ _ c) by done. rewrite filter_app.
    apply lookup_lt_Some in Hc as Hlt.
    rewrite bool_decide_false, orb_false_r in Hcond by lia. simpl in Hcond.
    rewrite (filter_cons_False kept c []) by (by rewrite Hcond).
    by rewrite filter_nil, app_nil_r.
  - apply lookup_ge_None in Hc. by rewrite !take_ge by lia.
Qed.

(** *** The loop *)

Lemma tokenizer_loop_spec (metadata : option (JsObject.t (value Prim)))
    (cloned : option (JsObject.t (value Prim))) (str : word) :
  clone metadata = Some cloned ->
  forall (n sliceEnd sliceStart : nat) (tokens : list (Token Prim)),
    sliceEnd + n = S (length str) ->
    sliceStart <= sliceEnd ->
    (forall j, sliceStart <= j < sliceEnd ->
       exists c, str !! j = Some c /\ separator c = false) ->
    (sliceStart <= length str ->
       sliceStart = 0 \/
       exists c, str !! (sliceStart - 1) = Some c /\ separator c = true) ->
    (forall i t, tokens !! i = Some t -> cut_out separator str i t) ->
    concat (Pipeline.str <$> tokens) ++ slice str sliceStart sliceEnd
      = filter kept (take sliceEnd str) ->
    exists tokens',
      tokenizer_loop separator metadata str n sliceEnd sliceStart tokens = Some tokens' /\
      (forall i t, tokens' !! i = Some t -> cut_out separator str i t) /\
      concat (Pipeline.str <$> tokens') = filter kept str.
Proof.
  intros Hclone.
  induction n as [|n IH]; intros i a tokens Hn Hai Hrun Hbefore Htokens Hconcat.
  - exists tokens. split; first done. split; first done.
    assert (a = i) as ->.
    { destruct (decide (a = i)) as [|Hne]; first done.
      destruct (Hrun (length str)) as (c & Hc & _); first lia.
      apply lookup_lt_Some in Hc. lia. }
    rewrite slice_empty, app_nil_r, take_ge in Hconcat by lia. done.
  - assert (Hi : i <= length str) by lia.
    cbn [tokenizer_loop].
    destruct (matches_separator separator (str !! i) || bool_decide (i = length str))
      eqn:Hcond.
    + (* the slice ends here *)
      assert (Hafter : i = length str \/
                exists c, str !! i = Some c /\ separator c = true).
      { apply orb_prop in Hcond as [Hsep|Hend].
        - right. destruct (str !! i) as [c|]; [by exists c | done].
        - left. by apply bool_decide_eq_true in Hend. }
      destruct (decide (0 < i - a)) as [Hlen|Hlen].
      * rewrite bool_decide_true by done.
        unfold token_for. rewrite Hclone. cbn [mbind option_bind].
        set (t := Pipeline.mkToken (slice str a i) _).
        apply IH; try lia.
        -- intros Hle. right. destruct Hafter as [->|Hsep]; first lia.
           by replace (S i - 1) with i by lia.
        -- intros k t' [[Hk Ht']|[-> <-]]%lookup_snoc_Some; first by apply Htokens.
           exists a. cbn [Pipeline.str Pipeline.metadata t].
           rewrite (slice_length str a i Hi).
           replace (a + (i - a)) with i by lia.
           split_and!; try done.
           ++ by apply slice_kept.
           ++ apply Hbefore. lia.
           ++ rewrite JsObjectFacts.get_set_ne by done.
              apply JsObjectFacts.get_set_eq.
           ++ apply JsObjectFacts.get_set_eq.
        -- rewrite fmap_app, concat_app. cbn [fmap list_fmap concat Pipeline.str t].
           rewrite slice_empty, !app_nil_r, Hconcat. symmetry. by apply filter_take_skip.
      * rewrite bool_decide_false by done.
        assert (a = i) as -> by lia.
        apply IH; try lia; try done.
        -- intros Hle. right. destruct Hafter as [->|Hsep]; first lia.
           by replace (S i - 1) with i by lia.
        -- rewrite slice_empty in *. rewrite Hconcat. symmetry. by apply filter_take_skip.
    + (* the slice goes on *)
      apply orb_false_elim in Hcond as [Hsep Hend].
      apply bool_decide_eq_false in Hend.
      destruct (str !! i) as [c|] eqn:Hc; last (apply lookup_ge_None in Hc; lia).
      simpl in Hsep.
      apply IH; try lia; try done.
      * intros j Hj. destruct (decide (j = i)) as [->|]; first by exists c.
        apply Hrun. lia.
      * rewrite (slice_snoc str a i c), (take_S_r _ _ c) by done.
        rewrite filter_app, (filter_cons_True kept c []) by done.
        by rewrite filter_nil, (assoc_L (++)), Hconcat.
Qed.

(** The loop when [clone] throws. *)
Lemma tokenizer_loop_throws (metadata : option (JsObject.t (value Prim))) (str : word) :
  clone metadata = None ->
  forall (n sliceEnd sliceStart : nat) (tokens : list (Token Prim)),
    sliceEnd + n = S (length str) ->
    sliceStart <= sliceEnd ->
    (sliceEnd <= length str \/ sliceStart = sliceEnd) ->
    tokenizer_loop separator metadata str n sliceEnd sliceStart tokens
    = if bool_decide (sliceStart < sliceEnd) || negb (forallb separator (drop sliceEnd str))
      then None else Some tokens.
Proof.
  intros Hclone.
  induction n as [|n IH]; intros i a tokens Hn Hai Hstate.
  - rewrite bool_decide_false by lia. by rewrite drop_ge by lia.
  - assert (Hi : i <= length str) by lia.
    cbn [tokenizer_loop].
    destruct (matches_separator separator (str !! i) || bool_decide (i = length str))
      eqn:Hcond.
    + destruct (decide (0 < i - a)) as [Hlen|Hlen].
      * rewrite bool_decide_true by done. unfold token_for. rewrite Hclone.
        by rewrite (bool_decide_true (a < i)) by lia.
      * rewrite bool_decide_false by done. rewrite IH by lia.
        rewrite !bool_decide_false by lia. cbn [orb].
        destruct (str !! i) as [c|] eqn:Hc.
        -- apply lookup_lt_Some in Hc as Hlt.
           rewrite bool_decide_false, orb_false_r in Hcond by lia. simpl in Hcond.
           rewrite (drop_S _ c i) by done. simpl. by rewrite Hcond.
        -- apply lookup_ge_None in Hc. by rewrite !drop_ge by lia.
    + apply orb_false_elim in Hcond as [Hsep Hend].
      apply bool_decide_eq_false in Hend.
      destruct (str !! i) as [c|] eqn:Hc; last (apply lookup_ge_None in Hc; lia).
      simpl in Hsep. rewrite IH by lia.
      rewrite (bool_decide_true (a < S i)) by lia.
      rewrite (drop_S _ c i) by done. simpl. rewrite Hsep. simpl.
      by rewrite orb_true_r.
Qed.

(** [lunr.tokenizer(obj, metadata)] on a string, with metadata that
    [lunr.utils.clone] takes, returns the runs of characters between the
    separators and the ends of the string, in their order: no token is
    empty or holds a separator, each one is a slice of the string that a
    separator or an end of the string bounds on either side, its
    metadata [position] and [index] give the start and the length of the
    slice and the place of the token in the result, and the tokens
    together are the string without its separators. *)
Theorem tokenizer_cuts_the_string_at_the_separators (str : word)
    (metadata : option (JsObject.t (value Prim))) :
  cloneable metadata = true ->
  exists tokens,
    tokenizer separator str metadata = Some tokens /\
    (forall i t, tokens !! i = Some t -> cut_out separator str i t) /\
    concat (Pipeline.str <$> tokens) = filter (fun c => separator c = false) str.
Proof.
  intros [cloned Hclone]%clone_accepts.
  apply (tokenizer_loop_spec metadata cloned str Hclone); try lia.
  - by intros i t [=].
  - by rewrite slice_empty.
Qed.

(** [lunr.tokenizer(obj, metadata)] on a string, with metadata that hold
    a value that [lunr.utils.clone] refuses, throws the TypeError of
    [clone] when the string holds a character that is no separator; a
    string of separators only gives the empty array, without an
    error. *)
Theorem tokenizer_throws_for_nested_metadata_once_it_finds_a_token (str : word)
    (metadata : option (JsObject.t (value Prim))) :
  cloneable metadata = false ->
  tokenizer separator str metadata = if forallb separator str then Some [] else None.
Proof.
  intros Hclone%clone_refuses. unfold tokenizer.
  rewrite (tokenizer_loop_throws metadata str Hclone) by lia.
  rewrite bool_decide_false by lia. rewrite drop_0. cbn [orb].
  by destruct (forallb separator str).
Qed.

End WithSeparator.

Lemma tokenizer_cuts_the_string_witness :
  exists tokens,
    tokenizer default_separator (w "a green-leaved  tree") title_metadata = Some tokens /\
    (forall i t, tokens !! i = Some t ->
       cut_out default_separator (w "a green-leaved  tree") i t) /\
    concat (Pipeline.str <$> tokens)
    = filter (fun c => default_separator c = false) (w "a green-leaved  tree").
Proof.
  apply (tokenizer_cuts_the_string_at_the_separators default_separator
           (w "a green-leaved  tree") title_metadata).
  reflexivity.
Defined.

Lemma tokenizer_throws_for_nested_metadata_witness :
  tokenizer default_separator (w "a tree") (Some nested_metadata)
  = if forallb default_separator (w "a tree") then Some [] else None.
Proof.
  apply (tokenizer_throws_for_nested_metadata_once_it_finds_a_token default_separator
           (w "a tree") (Some nested_metadata)).
  reflexivity.
Defined.

End TokenizerLaws.
